(** * The DICOM series organizer of [useDicomParser] and its byte cache

    A shallow embedding of [src/hooks/useDicomParser.ts] (attribute decoding,
    plane classification, series assembly, the archive loop of
    [parseZipFile]) and of the byte cache of [utils/cornerstoneInit.ts],
    followed by the properties the specification states about them.

    JavaScript numbers are IEEE 754 binary64 values: they are modelled by
    Rocq's primitive floats, whose operations are the same ones.  The
    libraries the code calls ([dicom-parser], [JSZip]) are not part of the
    repository; their results enter as data ([DataSet], [ZipObject]) or as
    the fields of the interface [DicomParserApi]. *)

From Stdlib Require Import ZArith Lia Bool List String Ascii.
From Stdlib.Strings Require Import Byte.
From Stdlib Require Import Sorted Permutation.
From Stdlib Require Import Floats.
From Stdlib Require Uint63.
From Stdlib Require DecimalString.
Import ListNotations.

(* ================================================================== *)
(** * Part I. The embedding *)
(* ================================================================== *)

(** ** JavaScript values used by the code *)

Module Js.

(** A JavaScript [number]. *)
Definition number : Set := float.
Bind Scope float_scope with number.

(** Truthiness of a number: [0], [-0] and [NaN] are falsy. *)
Definition truthy (x : number) : bool :=
  (x =? x)%float && negb (x =? 0)%float.

(** [v || d] where [v] is a number or [undefined] ([None]). *)
Definition orNum (v : option number) (d : number) : number :=
  match v with
  | Some x => if truthy x then x else d
  | None => d
  end.

(** [v || d] where [v] is an integer-valued number or [undefined]. *)
Definition orInt (v : option Z) (d : Z) : Z :=
  match v with
  | Some x => if (x =? 0)%Z then d else x
  | None => d
  end.

(** [v || d] where [v] is a string or [undefined]: the empty string is
    falsy. *)
Definition orStr (v : option string) (d : string) : string :=
  match v with
  | Some s => if (s =? EmptyString)%string then d else s
  | None => d
  end.

(** [Math.max(a, b)]: [NaN] if either is, and [+0] above [-0]. *)
Definition max2 (a b : number) : number :=
  if (is_nan a || is_nan b)%bool then nan
  else if (a <? b)%float then b
  else if (b <? a)%float then a
  else if get_sign a then b else a.

(** [Math.max(a, b, c)], folded from the left as the language defines it. *)
Definition Math_max (a b c : number) : number := max2 (max2 a b) c.

(** [arr[i]] used as an operand of arithmetic: a missing element is
    [undefined], which converts to [NaN]. *)
Definition at_ (arr : list number) (i : nat) : number := nth i arr nan.

(** The outcome of an expression that may throw. *)
Inductive completion (A : Type) : Type :=
| Normal (a : A)
| Throw (message : option string).
Arguments Normal {A} a.
Arguments Throw {A} message.

Definition bind {A B} (c : completion A) (k : A -> completion B) : completion B :=
  match c with
  | Normal a => k a
  | Throw m => Throw m
  end.

(** [try { return c } catch { return null }]. *)
Definition tryOrNull {A} (c : completion A) : option A :=
  match c with
  | Normal a => Some a
  | Throw _ => None
  end.

(** [Array.prototype.sort(comparefn)]: a stable sort; [x] is moved behind
    [y] exactly when [comparefn(x, y) > 0] (a [NaN] result counts as [0]).
    For a consistent comparator every stable sort returns this list. *)
Section Sort.
Context {A : Type} (comparefn : A -> A -> number).

Definition after (x y : A) : bool := (0 <? comparefn x y)%float.

Fixpoint insert (x : A) (l : list A) : list A :=
  match l with
  | [] => [x]
  | y :: l' => if after x y then y :: insert x l' else x :: l
  end.

Fixpoint sort (l : list A) : list A :=
  match l with
  | [] => []
  | x :: l' => insert x (sort l')
  end.
End Sort.

(** [s.split("/")], with [cur] the segment being read. *)
Fixpoint split_slash (cur s : string) : list string :=
  match s with
  | EmptyString => [cur]
  | String c s' =>
      if Ascii.eqb c "/" then cur :: split_slash EmptyString s'
      else split_slash (cur ++ String c EmptyString) s'
  end.

(** [arr.pop()] as a value: the last element, [undefined] on []. *)
Definition pop (l : list string) : option string :=
  match rev l with
  | [] => None
  | x :: _ => Some x
  end.

(** [s.includes(sub)]. *)
Fixpoint includes (s sub : string) : bool :=
  if String.prefix sub s then true
  else match s with
       | EmptyString => false
       | String _ s' => includes s' sub
       end.

(** A [Map] keyed by strings: entries are kept in insertion order, and
    [set] on a present key replaces the value where it stands. *)
Section StringMap.
Context {V : Type}.
Definition Map : Type := list (string * V).

Fixpoint get (k : string) (m : Map) : option V :=
  match m with
  | [] => None
  | (k', v) :: m' => if (k' =? k)%string then Some v else get k m'
  end.

Definition has (k : string) (m : Map) : bool :=
  match get k m with Some _ => true | None => false end.

Fixpoint set (k : string) (v : V) (m : Map) : Map :=
  match m with
  | [] => [(k, v)]
  | (k', v') :: m' =>
      if (k' =? k)%string then (k', v) :: m' else (k', v') :: set k v m'
  end.

Definition clear (m : Map) : Map := [].
End StringMap.
Arguments Map V : clear implicits.

End Js.

Import Js.
Notation "x <- c ;; k" := (Js.bind c (fun x => k))
  (at level 61, c at next level, right associativity).

(** ** The data model of [types/dicom.ts] *)

Record DicomImage : Type := {
  imageId : string;
  instanceNumber : Z;
  sliceLocation : number;
  imagePositionPatient : list number;
  imageOrientationPatient : list number;
  pixelSpacing : list number;
  rows : Z;
  columns : Z;
  bitsAllocated : Z;
  samplesPerPixel : Z;
  photometricInterpretation : string;
  windowCenter : number;
  windowWidth : number;
  rescaleIntercept : number;
  rescaleSlope : number
}.

Record DicomSeries : Type := {
  seriesInstanceUID : string;
  seriesDescription : string;
  modality : string;
  images : list DicomImage;
  axialImages : list DicomImage;
  coronalImages : list DicomImage;
  sagittalImages : list DicomImage
}.

Inductive ViewType : Set := axial | coronal | sagittal.

Definition ArrayBuffer : Set := list byte.

(** ** The interface of [dicom-parser]

    A parsed [DataSet] offers the element table and typed readers.  A reader
    returns [undefined] ([None]) or a value, or throws (a read past the end
    of the buffer). *)

Module Element.
Record t : Set := { length : Z }.
End Element.

Module DataSet.
Record t : Type := {
  elements : string -> option Element.t;
  uint16 : string -> completion (option Z);
  float : string -> nat -> completion (option number);
  string : String.string -> completion (option String.string)
}.
End DataSet.

(** [dicomParser.parseDicom(bytes)] and
    [dicomParser.parseDicom(bytes, { untilTag })]. *)
Record DicomParserApi : Type := {
  parseDicom : ArrayBuffer -> completion DataSet.t;
  parseDicomUntil : string -> ArrayBuffer -> completion DataSet.t
}.

(** ** Attribute decoding *)

Definition getImagePositionPatient (dataSet : DataSet.t) : completion (list number) :=
  match DataSet.elements dataSet "x00200032" with
  | Some element =>
      if (3 <=? Element.length element)%Z then
        x0 <- DataSet.float dataSet "x00200032" 0 ;;
        x1 <- DataSet.float dataSet "x00200032" 1 ;;
        x2 <- DataSet.float dataSet "x00200032" 2 ;;
        Normal [orNum x0 0; orNum x1 0; orNum x2 0]
      else Normal [0; 0; 0]%float
  | None => Normal [0; 0; 0]%float
  end.

Definition getImageOrientationPatient (dataSet : DataSet.t) : completion (list number) :=
  match DataSet.elements dataSet "x00200037" with
  | Some element =>
      if (6 <=? Element.length element)%Z then
        x0 <- DataSet.float dataSet "x00200037" 0 ;;
        x1 <- DataSet.float dataSet "x00200037" 1 ;;
        x2 <- DataSet.float dataSet "x00200037" 2 ;;
        x3 <- DataSet.float dataSet "x00200037" 3 ;;
        x4 <- DataSet.float dataSet "x00200037" 4 ;;
        x5 <- DataSet.float dataSet "x00200037" 5 ;;
        Normal [orNum x0 0; orNum x1 0; orNum x2 0;
                orNum x3 0; orNum x4 0; orNum x5 0]
      else Normal [1; 0; 0; 0; 1; 0]%float
  | None => Normal [1; 0; 0; 0; 1; 0]%float
  end.

Definition getPixelSpacing (dataSet : DataSet.t) : completion (list number) :=
  match DataSet.elements dataSet "x00280030" with
  | Some element =>
      if (2 <=? Element.length element)%Z then
        x0 <- DataSet.float dataSet "x00280030" 0 ;;
        x1 <- DataSet.float dataSet "x00280030" 1 ;;
        Normal [orNum x0 1; orNum x1 1]
      else Normal [1; 1]%float
  | None => Normal [1; 1]%float
  end.

(** The body of the [try] of [parseDicomFile], given the parsed data set. *)
Definition readImage (dataSet : DataSet.t) (filename : string) : completion DicomImage :=
  instanceNumber' <- DataSet.uint16 dataSet "x00200013" ;;
  sliceLocation' <- DataSet.float dataSet "x00201041" 0 ;;
  imagePositionPatient' <- getImagePositionPatient dataSet ;;
  imageOrientationPatient' <- getImageOrientationPatient dataSet ;;
  pixelSpacing' <- getPixelSpacing dataSet ;;
  rows' <- DataSet.uint16 dataSet "x00280010" ;;
  columns' <- DataSet.uint16 dataSet "x00280011" ;;
  bitsAllocated' <- DataSet.uint16 dataSet "x00280100" ;;
  samplesPerPixel' <- DataSet.uint16 dataSet "x00280002" ;;
  photometricInterpretation' <- DataSet.string dataSet "x00280004" ;;
  windowCenter' <- DataSet.float dataSet "x00281050" 0 ;;
  windowWidth' <- DataSet.float dataSet "x00281051" 0 ;;
  rescaleIntercept' <- DataSet.float dataSet "x00281052" 0 ;;
  rescaleSlope' <- DataSet.float dataSet "x00281053" 0 ;;
  Normal {|
    imageId := "dicom:" ++ filename;
    instanceNumber := orInt instanceNumber' 0;
    sliceLocation := orNum sliceLocation' 0;
    imagePositionPatient := imagePositionPatient';
    imageOrientationPatient := imageOrientationPatient';
    pixelSpacing := pixelSpacing';
    rows := orInt rows' 0;
    columns := orInt columns' 0;
    bitsAllocated := orInt bitsAllocated' 16;
    samplesPerPixel := orInt samplesPerPixel' 1;
    photometricInterpretation := orStr photometricInterpretation' "MONOCHROME2";
    windowCenter := orNum windowCenter' 0;
    windowWidth := orNum windowWidth' 0;
    rescaleIntercept := orNum rescaleIntercept' 0;
    rescaleSlope := orNum rescaleSlope' 1
  |}.

Section Decoder.
Variable dicomParser : DicomParserApi.

Definition parseDicomFile (arrayBuffer : ArrayBuffer) (filename : string)
  : option DicomImage :=
  tryOrNull (dataSet <- parseDicom dicomParser arrayBuffer ;;
             readImage dataSet filename).

Definition getSeriesInstanceUID (arrayBuffer : ArrayBuffer) : option string :=
  match tryOrNull (dataSet <- parseDicom dicomParser arrayBuffer ;;
                   DataSet.string dataSet "x0020000e") with
  | Some (Some uid) => if (uid =? EmptyString)%string then None else Some uid
  | _ => None
  end.
End Decoder.

(** ** Ordering and plane classification *)

Definition sortImagesByPosition (images : list DicomImage) : list DicomImage :=
  Js.sort (fun a b => (sliceLocation a - sliceLocation b)%float) images.

(** The literal [0.1]: the binary64 value nearest to one tenth. *)
Definition eps : number := 0x1.999999999999ap-4%float.

Definition isClose (a b : number) : bool := (abs (a - b) <? eps)%float.

(** The normal computed in the loop of [classifyPlanes] (lines 118-132);
    [x ** 2] is the product [x * x]. *)
Definition normalOf (iop : list number) : list number :=
  let row := [at_ iop 0; at_ iop 1; at_ iop 2] in
  let col := [at_ iop 3; at_ iop 4; at_ iop 5] in
  [ (at_ row 1 * at_ col 2 - at_ row 2 * at_ col 1)%float;
    (at_ row 2 * at_ col 0 - at_ row 0 * at_ col 2)%float;
    (at_ row 0 * at_ col 1 - at_ row 1 * at_ col 0)%float ].

Definition magnitudeOf (normal : list number) : number :=
  sqrt (at_ normal 0 * at_ normal 0 + at_ normal 1 * at_ normal 1
        + at_ normal 2 * at_ normal 2)%float.

Definition normalizedOf (iop : list number) : list number :=
  let normal := normalOf iop in
  let magnitude := magnitudeOf normal in
  if (0 <? magnitude)%float then map (fun v => (v / magnitude)%float) normal
  else [0; 0; 1]%float.

(** The plane chosen for one image (lines 134-153). *)
Definition classifyPlane (iop : list number) : ViewType :=
  let normalized := normalizedOf iop in
  if isClose (abs (at_ normalized 2)) 1 then axial
  else if isClose (abs (at_ normalized 1)) 1 then coronal
  else if isClose (abs (at_ normalized 0)) 1 then sagittal
  else
    let maxComponent :=
      Math_max (abs (at_ normalized 0)) (abs (at_ normalized 1))
               (abs (at_ normalized 2)) in
    if (maxComponent =? abs (at_ normalized 2))%float then axial
    else if (maxComponent =? abs (at_ normalized 1))%float then coronal
    else sagittal.

(** The three arrays [axial], [coronal], [sagittal] of [classifyPlanes]. *)
Definition Buckets : Type :=
  (list DicomImage * list DicomImage * list DicomImage)%type.

(** One iteration of the loop: the image is pushed to the array of its
    plane.  The orientation is the field itself: an array is truthy, so the
    default after [||] in line 118 is never taken. *)
Definition pushByPlane (b : Buckets) (img : DicomImage) : Buckets :=
  let '(ax, co, sa) := b in
  match classifyPlane (imageOrientationPatient img) with
  | axial => (ax ++ [img], co, sa)
  | coronal => (ax, co ++ [img], sa)
  | sagittal => (ax, co, sa ++ [img])
  end.

(** The [for] loop of lines 117-154. *)
Definition primaryBuckets (images : list DicomImage) : Buckets :=
  fold_left pushByPlane images ([], [], []).

(** The sort key of [orderBy]: [img.imagePositionPatient[axisIndex] || 0]. *)
Definition positionKey (axisIndex : nat) (img : DicomImage) : number :=
  orNum (nth_error (imagePositionPatient img) axisIndex) 0.

Definition orderBy (arr : list DicomImage) (axisIndex : nat) : list DicomImage :=
  Js.sort (fun a b => (positionKey axisIndex a - positionKey axisIndex b)%float) arr.

(** The three [if]s of lines 163-168, run in sequence. *)
Definition fillEmpty (images : list DicomImage) (b : Buckets) : Buckets :=
  let '(ax, co, sa) := b in
  let ax1 :=
    if (List.length ax =? 0)%nat && ((0 <? List.length co)%nat || (0 <? List.length sa)%nat)
    then ax ++ images else ax in
  let co1 :=
    if (List.length co =? 0)%nat && ((0 <? List.length ax1)%nat || (0 <? List.length sa)%nat)
    then co ++ images else co in
  let sa1 :=
    if (List.length sa =? 0)%nat && ((0 <? List.length ax1)%nat || (0 <? List.length co1)%nat)
    then sa ++ images else sa in
  (ax1, co1, sa1).

Definition classifyPlanes (images : list DicomImage) : Buckets :=
  let '(ax, co, sa) := fillEmpty images (primaryBuckets images) in
  (orderBy ax 2, orderBy co 1, orderBy sa 0).

(** ** The byte cache of [utils/cornerstoneInit.ts] *)

(** The module-level [dicomDataCache]. *)
Definition Cache : Type := Js.Map ArrayBuffer.

Definition storeDicomData (filename : string) (arrayBuffer : ArrayBuffer)
  (dicomDataCache : Cache) : Cache :=
  Js.set filename arrayBuffer dicomDataCache.

Definition clearDicomData (dicomDataCache : Cache) : Cache :=
  Js.clear dicomDataCache.

(** [s.replace(pat, empty)]: the first occurrence of [pat] is removed. *)
Fixpoint removeFirst (pat s : string) : string :=
  if String.prefix pat s
  then String.substring (String.length pat) (String.length s - String.length pat) s
  else match s with
       | EmptyString => EmptyString
       | String c s' => String c (removeFirst pat s')
       end.

(** The bytes [customDicomLoader] resolves an image id to (lines 26-35):
    the exact key, else the first stored key that contains the file name or
    is contained in it. *)
Definition cachedBytes (imageId : string) (dicomDataCache : Cache)
  : option ArrayBuffer :=
  let filename := removeFirst "dicom:" imageId in
  match Js.get filename dicomDataCache with
  | Some arrayBuffer => Some arrayBuffer
  | None =>
      match find (fun kv => Js.includes (fst kv) filename
                            || Js.includes filename (fst kv)) dicomDataCache with
      | Some (_, value) => Some value
      | None => None
      end
  end.

(** ** The state of the hook and of the module around it *)

Record HookState : Type := {
  series : list DicomSeries;
  isLoading : bool;
  error : option string;
  hasLoaded : bool;
  loadingProgress : number;
  loadingMessage : string
}.

(** The hook state, the byte cache, and the history of the percentages
    passed to [setLoadingProgress], oldest first. *)
Record World : Type := {
  hook : HookState;
  dicomDataCache : Cache;
  reported : list number
}.

(** What a run settles: everything but the progress and its message. *)
Definition verdict (h : HookState) : list DicomSeries * bool * option string * bool :=
  (series h, isLoading h, error h, hasLoaded h).

Definition initialHook : HookState :=
  {| series := []; isLoading := false; error := None; hasLoaded := false;
     loadingProgress := 0%float; loadingMessage := EmptyString |}.

Definition withHook (f : HookState -> HookState) (w : World) : World :=
  {| hook := f (hook w); dicomDataCache := dicomDataCache w; reported := reported w |}.

Definition setSeries (v : list DicomSeries) : World -> World :=
  withHook (fun h =>
    {| series := v; isLoading := isLoading h; error := error h;
       hasLoaded := hasLoaded h; loadingProgress := loadingProgress h;
       loadingMessage := loadingMessage h |}).

Definition setIsLoading (v : bool) : World -> World :=
  withHook (fun h =>
    {| series := series h; isLoading := v; error := error h;
       hasLoaded := hasLoaded h; loadingProgress := loadingProgress h;
       loadingMessage := loadingMessage h |}).

Definition setError (v : option string) : World -> World :=
  withHook (fun h =>
    {| series := series h; isLoading := isLoading h; error := v;
       hasLoaded := hasLoaded h; loadingProgress := loadingProgress h;
       loadingMessage := loadingMessage h |}).

Definition setHasLoaded (v : bool) : World -> World :=
  withHook (fun h =>
    {| series := series h; isLoading := isLoading h; error := error h;
       hasLoaded := v; loadingProgress := loadingProgress h;
       loadingMessage := loadingMessage h |}).

Definition setLoadingMessage (v : string) : World -> World :=
  withHook (fun h =>
    {| series := series h; isLoading := isLoading h; error := error h;
       hasLoaded := hasLoaded h; loadingProgress := loadingProgress h;
       loadingMessage := v |}).

Definition setLoadingProgress (v : number) (w : World) : World :=
  {| hook :=
       {| series := series (hook w); isLoading := isLoading (hook w);
          error := error (hook w); hasLoaded := hasLoaded (hook w);
          loadingProgress := v; loadingMessage := loadingMessage (hook w) |};
     dicomDataCache := dicomDataCache w;
     reported := reported w ++ [v] |}.

Definition store (filename : string) (arrayBuffer : ArrayBuffer) (w : World) : World :=
  {| hook := hook w;
     dicomDataCache := storeDicomData filename arrayBuffer (dicomDataCache w);
     reported := reported w |}.

(** ** The archive: what [zip.loadAsync(file)] hands back *)

(** One value of [zipData.files]: the directory flag, and the outcome of
    [zipEntry.async("arraybuffer")]. *)
Record ZipObject : Set := {
  dir : bool;
  async_arraybuffer : completion ArrayBuffer
}.

(** [Object.entries(zipData.files)], in enumeration order. *)
Definition ZipFiles : Set := list (string * ZipObject).

(** ** [parseZipFile] *)

(** [Object.entries(zipData.files).filter(([, f]) => !f.dir)]. *)
Definition fileEntriesOf (files : ZipFiles) : ZipFiles :=
  filter (fun kv => negb (dir (snd kv))) files.

Definition showNat (n : nat) : string :=
  DecimalString.NilZero.string_of_uint (Nat.to_uint n).

(** [bytes.length > 132 && bytes[128] === 0x44 && ... && bytes[131] === 0x4d]. *)
Definition hasDICM (bytes : ArrayBuffer) : bool :=
  (132 <? List.length bytes)%nat
  && match nth_error bytes 128 with Some b => Byte.eqb b x44 | None => false end
  && match nth_error bytes 129 with Some b => Byte.eqb b x49 | None => false end
  && match nth_error bytes 130 with Some b => Byte.eqb b x43 | None => false end
  && match nth_error bytes 131 with Some b => Byte.eqb b x4d | None => false end.

(** [filename.split("/").pop() || filename]. *)
Definition justFilenameOf (filename : string) : string :=
  orStr (Js.pop (Js.split_slash EmptyString filename)) filename.

(** [seriesMap.get(seriesUID).push(dicomImage)], after the entry was created
    when it was missing. *)
Definition pushSeries (seriesUID : string) (dicomImage : DicomImage)
  (seriesMap : Js.Map (list DicomImage)) : Js.Map (list DicomImage) :=
  let seriesMap1 :=
    if Js.has seriesUID seriesMap then seriesMap else Js.set seriesUID [] seriesMap in
  match Js.get seriesUID seriesMap1 with
  | Some images' => Js.set seriesUID (images' ++ [dicomImage]) seriesMap1
  | None => seriesMap1
  end.

(** The locals of [parseZipFile] that the entry loop updates, with the world. *)
Record LoopState : Type := {
  world : World;
  dicomFiles : list DicomImage;
  seriesMap : Js.Map (list DicomImage);
  processedCount : nat
}.

Definition inWorld (f : World -> World) (st : LoopState) : LoopState :=
  {| world := f (world st); dicomFiles := dicomFiles st;
     seriesMap := seriesMap st; processedCount := processedCount st |}.

(** An integer-valued number: a loop counter or the length of an array. *)
Definition numberOfNat (n : nat) : number :=
  of_uint63 (Uint63.of_Z (Z.of_nat n)).

(** The percentage reported for entry [i] of [n]:
    [20 + (i / fileEntries.length) * 60]. *)
Definition entryProgress (i n : nat) : number :=
  (20 + (numberOfNat i / numberOfNat n) * 60)%float.

Section Orchestrator.
Variable dicomParser : DicomParserApi.

(** The structural probe: [parseDicom(bytes, { untilTag: "x00020010" })]
    returned a data set rather than throwing. *)
Definition parsedOk (bytes : ArrayBuffer) : bool :=
  match parseDicomUntil dicomParser "x00020010" bytes with
  | Normal _ => true
  | Throw _ => false
  end.

(** The candidate filter: the negation of the [continue] test. *)
Definition isCandidate (bytes : ArrayBuffer) : bool :=
  negb (negb (hasDICM bytes) && negb (parsedOk bytes)).

(** The inner [try] of one iteration, once the bytes are there
    (lines 213-250). *)
Definition processBytes (filename : string) (arrayBuffer : ArrayBuffer)
  (st : LoopState) : LoopState :=
  if negb (hasDICM arrayBuffer) && negb (parsedOk arrayBuffer) then st
  else
    let st1 := inWorld (store filename arrayBuffer) st in
    let justFilename := justFilenameOf filename in
    let st2 :=
      if (justFilename =? filename)%string then st1
      else inWorld (store justFilename arrayBuffer) st1 in
    match parseDicomFile dicomParser arrayBuffer justFilename with
    | Some dicomImage =>
        let seriesMap1 :=
          match getSeriesInstanceUID dicomParser arrayBuffer with
          | Some seriesUID => pushSeries seriesUID dicomImage (seriesMap st2)
          | None => seriesMap st2
          end in
        {| world := world st2;
           dicomFiles := dicomFiles st2 ++ [dicomImage];
           seriesMap := seriesMap1;
           processedCount := S (processedCount st2) |}
    | None => st2
    end.

(** One iteration of the entry loop (lines 205-255). *)
Definition processEntry (n : nat) (st : LoopState)
  (indexed : nat * (string * ZipObject)) : LoopState :=
  let '(i, (filename, zipEntry)) := indexed in
  let st1 :=
    inWorld (fun w =>
      setLoadingMessage ("Processing " ++ filename ++ "...")
        (setLoadingProgress (entryProgress i n) w)) st in
  match async_arraybuffer zipEntry with
  | Normal arrayBuffer => processBytes filename arrayBuffer st1
  | Throw _ => st1
  end.

Definition processEntries (fileEntries : ZipFiles) (st : LoopState) : LoopState :=
  fold_left (processEntry (List.length fileEntries))
    (combine (seq 0 (List.length fileEntries)) fileEntries) st.

(** The loop over [seriesMap.entries()] (lines 262-278). *)
Definition seriesOf (entry : string * list DicomImage) : list DicomSeries :=
  let '(seriesUID, images') := entry in
  if (0 <? List.length images')%nat then
    let sortedImages := sortImagesByPosition images' in
    let '(axialImages', coronalImages', sagittalImages') :=
      classifyPlanes sortedImages in
    [ {| seriesInstanceUID := seriesUID;
         seriesDescription := "DICOM Series";
         modality := "CT";
         images := sortedImages;
         axialImages := axialImages';
         coronalImages := coronalImages';
         sagittalImages := sagittalImages' |} ]
  else [].

Definition assemble (seriesMap' : Js.Map (list DicomImage)) : list DicomSeries :=
  flat_map seriesOf seriesMap'.

Definition noSeriesMessage : string :=
  "No valid DICOM files found in the ZIP archive".

(** The [catch] and [finally] of [parseZipFile]. *)
Definition failWith (message : option string) (w : World) : World :=
  let errorMessage :=
    match message with
    | Some m => m
    | None => "Failed to process DICOM files"%string
    end in
  setIsLoading false (setError (Some errorMessage) w).

(** [parseZipFile(file)], where [zipData] is the outcome of
    [zip.loadAsync(file)] on the [JSZip] instance that [ensureZip] keeps. *)
Definition parseZipFile (zipData : completion ZipFiles) (w : World) : World :=
  let w0 :=
    setLoadingMessage EmptyString
      (setLoadingProgress 0%float
        (setHasLoaded false (setError None (setIsLoading true w)))) in
  let w1 := setLoadingMessage "Loading ZIP file..." (setLoadingProgress 10%float w0) in
  match zipData with
  | Throw message => failWith message w1
  | Normal files =>
      let fileEntries := fileEntriesOf files in
      let w2 :=
        setLoadingMessage
          ("Found " ++ showNat (List.length fileEntries) ++ " files in ZIP")
          (setLoadingProgress 20%float w1) in
      let st :=
        processEntries fileEntries
          {| world := w2; dicomFiles := []; seriesMap := [];
             processedCount := 0 |} in
      let w3 :=
        setLoadingMessage
          ("Organizing series... (" ++ showNat (processedCount st)
             ++ " DICOM files)")
          (setLoadingProgress 85%float (world st)) in
      let out := assemble (seriesMap st) in
      let w4 :=
        setLoadingMessage
          ("Successfully processed " ++ showNat (List.length out) ++ " series")
          (setLoadingProgress 100%float w3) in
      if (List.length out =? 0)%nat then failWith (Some noSeriesMessage) w4
      else setIsLoading false (setHasLoaded true (setSeries out w4))
  end.

(** [reset()]. *)
Definition reset (w : World) : World :=
  setLoadingMessage EmptyString
    (setLoadingProgress 0%float
      (setHasLoaded false (setError None (setSeries [] w)))).
End Orchestrator.

(** ** The vocabulary of the specification *)

(** *** The classifier as the specification words it *)

(** The slice normal: the cross product of the row and column vectors,
    normalized when its magnitude is positive, [(0,0,1)] otherwise. *)
Definition specNormal (o0 o1 o2 o3 o4 o5 : number) : number * number * number :=
  let nx := (o1 * o5 - o2 * o4)%float in
  let ny := (o2 * o3 - o0 * o5)%float in
  let nz := (o0 * o4 - o1 * o3)%float in
  let m := sqrt (nx * nx + ny * ny + nz * nz)%float in
  if (0 <? m)%float then ((nx / m)%float, (ny / m)%float, (nz / m)%float)
  else (0, 0, 1)%float.

(** [a] is within [eps] of [b]. *)
Definition within (a b : number) : bool := (abs (a - b) <? eps)%float.

(** The plane of the largest of [x], [y], [z], ties going to axial ([z]),
    then coronal ([y]), then sagittal ([x]). *)
Definition largestAxis (x y z : number) : ViewType :=
  if (x <=? z)%float && (y <=? z)%float then axial
  else if (x <=? y)%float then coronal
  else sagittal.

(** The rule of the specification, read for every vector. *)
Definition classifyStated (o0 o1 o2 o3 o4 o5 : number) : ViewType :=
  let '(nx, ny, nz) := specNormal o0 o1 o2 o3 o4 o5 in
  if within (abs nz) 1 then axial
  else if within (abs ny) 1 then coronal
  else if within (abs nx) 1 then sagittal
  else largestAxis (abs nx) (abs ny) (abs nz).

(** The rule as the code computes it: the choice among the three components
    is made with [Math.max] and [===], which answer sagittal when a
    normalized component is [NaN].  It is the stated rule on every
    orientation the decoder produces. *)
Definition classifyComputed (o0 o1 o2 o3 o4 o5 : number) : ViewType :=
  let '(nx, ny, nz) := specNormal o0 o1 o2 o3 o4 o5 in
  if within (abs nz) 1 then axial
  else if within (abs ny) 1 then coronal
  else if within (abs nx) 1 then sagittal
  else if is_nan nx || is_nan ny || is_nan nz then sagittal
  else largestAxis (abs nx) (abs ny) (abs nz).

(** *** Stable ascending order *)

Section Ordering.
Variable key : DicomImage -> number.

Definition ascendingBy (l : list DicomImage) : Prop :=
  StronglySorted (fun a b => (key a <=? key b)%float = true) l.

(** Images whose keys are equal keep the order they had in [input]. *)
Definition keepsTieOrder (input output : list DicomImage) : Prop :=
  forall k : number,
    filter (fun x => (key x =? k)%float) output
    = filter (fun x => (key x =? k)%float) input.

Definition stableSortOf (input output : list DicomImage) : Prop :=
  Permutation input output /\ ascendingBy output /\ keepsTieOrder input output.
End Ordering.

Definition planeIs (p : ViewType) (img : DicomImage) : bool :=
  match classifyPlane (imageOrientationPatient img), p with
  | axial, axial | coronal, coronal | sagittal, sagittal => true
  | _, _ => false
  end.

(** *** The fallback as the specification words it *)

Definition isEmpty (l : list DicomImage) : bool :=
  match l with [] => true | _ :: _ => false end.

(** If a bucket is empty while another one is not, it is replaced by the
    whole image list. *)
Definition fillStated (images : list DicomImage) (b : Buckets) : Buckets :=
  let '(ax, co, sa) := b in
  let someNonEmpty := negb (isEmpty ax && isEmpty co && isEmpty sa) in
  let fill l := if isEmpty l && someNonEmpty then images else l in
  (fill ax, fill co, fill sa).

(** Exactly one of the three buckets is non-empty. *)
Definition exactlyOneNonEmpty (b : Buckets) : bool :=
  let '(ax, co, sa) := b in
  match isEmpty ax, isEmpty co, isEmpty sa with
  | false, true, true | true, false, true | true, true, false => true
  | _, _, _ => false
  end.

Definition isEmptySeries (l : list DicomSeries) : bool :=
  match l with [] => true | _ :: _ => false end.

(** *** What an archive decodes to *)

(** The images among [ds] that carry the series identifier [seriesUID]. *)
Definition ofSeries (seriesUID : string) (ds : list (DicomImage * option string))
  : list DicomImage :=
  map fst (filter (fun d => match snd d with
                            | Some uid => (uid =? seriesUID)%string
                            | None => false
                            end) ds).

(** What one decoded image does to the series map. *)
Definition pushDecoded (seriesMap' : Js.Map (list DicomImage))
  (d : DicomImage * option string) : Js.Map (list DicomImage) :=
  match snd d with
  | Some seriesUID => pushSeries seriesUID (fst d) seriesMap'
  | None => seriesMap'
  end.

Section Decoded.
Variable dicomParser : DicomParserApi.

(** The image an entry decodes to, with its series identifier, when the
    entry passes the filter and decodes. *)
Definition decodeEntry (entry : string * ZipObject)
  : option (DicomImage * option string) :=
  match async_arraybuffer (snd entry) with
  | Normal arrayBuffer =>
      if isCandidate dicomParser arrayBuffer then
        match parseDicomFile dicomParser arrayBuffer (justFilenameOf (fst entry)) with
        | Some dicomImage =>
            Some (dicomImage, getSeriesInstanceUID dicomParser arrayBuffer)
        | None => None
        end
      else None
  | Throw _ => None
  end.

(** The decoded images of the entries, in enumeration order. *)
Definition decoded (fileEntries : ZipFiles) : list (DicomImage * option string) :=
  flat_map (fun entry => match decodeEntry entry with
                         | Some d => [d]
                         | None => []
                         end) fileEntries.

(** The images of one series, in decode order. *)
Definition members (fileEntries : ZipFiles) (seriesUID : string)
  : list DicomImage :=
  ofSeries seriesUID (decoded fileEntries).

(** The series list a run over [files] assembles. *)
Definition assembled (files : ZipFiles) : list DicomSeries :=
  let fileEntries := fileEntriesOf files in
  assemble
    (seriesMap
       (processEntries dicomParser fileEntries
          {| world := {| hook := initialHook; dicomDataCache := [];
                         reported := [] |};
             dicomFiles := []; seriesMap := []; processedCount := 0 |})).
End Decoded.

(** *** Geometric attributes: whole or default *)

(** The components [0..n-1] of [tag] were all read, and [attr] is what was
    read. *)
Definition readInFull (dataSet : DataSet.t) (tag : string) (n : nat)
  (attr : list number) : Prop :=
  Forall2 (fun i a => DataSet.float dataSet tag i = Normal (Some a)) (seq 0 n) attr.

(** The attribute as the specification states it: the element has at least
    [n] components and is read in full, or the attribute is its default. *)
Definition geometricStated (dataSet : DataSet.t) (tag : string) (n : nat)
  (whole attr : list number) : Prop :=
  (exists element,
      DataSet.elements dataSet tag = Some element
      /\ (Z.of_nat n <= Element.length element)%Z
      /\ readInFull dataSet tag n attr)
  \/ attr = whole.

(** Each component is what was read, or [d] when that is [undefined], [0]
    or [NaN]. *)
Definition readOrDefault (dataSet : DataSet.t) (tag : string) (n : nat)
  (d : number) (attr : list number) : Prop :=
  Forall2 (fun i a => exists x, DataSet.float dataSet tag i = Normal x
                                /\ a = orNum x d) (seq 0 n) attr.

(** The attribute as the code decodes it: an element of at least [n]
    components is read component by component, each with its own default;
    a missing or shorter element gives the default of the whole attribute. *)
Definition geometricAmended (dataSet : DataSet.t) (tag : string) (n : nat)
  (d : number) (whole attr : list number) : Prop :=
  match DataSet.elements dataSet tag with
  | Some element =>
      if (Z.of_nat n <=? Element.length element)%Z
      then readOrDefault dataSet tag n d attr
      else attr = whole
  | None => attr = whole
  end.

(** C6 as the specification states it, for the images a parser decodes. *)
Definition wholeOrDefault (dicomParser : DicomParserApi) : Prop :=
  forall arrayBuffer filename dataSet img,
    parseDicom dicomParser arrayBuffer = Normal dataSet ->
    parseDicomFile dicomParser arrayBuffer filename = Some img ->
    geometricStated dataSet "x00200032" 3 [0; 0; 0]%float (imagePositionPatient img)
    /\ geometricStated dataSet "x00200037" 6 [1; 0; 0; 0; 1; 0]%float
         (imageOrientationPatient img)
    /\ geometricStated dataSet "x00280030" 2 [1; 1]%float (pixelSpacing img).

(** A data set whose only element is a pixel spacing of two components,
    [0.5] and [0]. *)
Definition zeroSpacingDataSet : DataSet.t :=
  {| DataSet.elements := fun tag =>
       if (tag =? "x00280030")%string then Some {| Element.length := 2 |} else None;
     DataSet.uint16 := fun _ => Normal None;
     DataSet.float := fun tag i =>
       if (tag =? "x00280030")%string
       then Normal (match i with
                    | O => Some 0.5%float
                    | S O => Some 0%float
                    | _ => None
                    end)
       else Normal None;
     DataSet.string := fun _ => Normal None |}.

(** A parser that decodes every buffer to that data set. *)
Definition zeroSpacingParser : DicomParserApi :=
  {| parseDicom := fun _ => Normal zeroSpacingDataSet;
     parseDicomUntil := fun _ _ => Normal zeroSpacingDataSet |}.


(** The image that parser decodes under the name [f]. *)
Definition zeroSpacingImage : DicomImage :=
  {| imageId := "dicom:f";
     instanceNumber := 0;
     sliceLocation := 0;
     imagePositionPatient := [0; 0; 0]%float;
     imageOrientationPatient := [1; 0; 0; 0; 1; 0]%float;
     pixelSpacing := [0.5; 1]%float;
     rows := 0;
     columns := 0;
     bitsAllocated := 16;
     samplesPerPixel := 1;
     photometricInterpretation := "MONOCHROME2";
     windowCenter := 0;
     windowWidth := 0;
     rescaleIntercept := 0;
     rescaleSlope := 1 |}.


(** *** The percentages of one run *)

(** The percentages a run reports, in order: 0 and 10, then, when the
    archive opened, 20, one value per entry, 85 and 100. *)
Definition runTrace (zipData : completion ZipFiles) : list number :=
  match zipData with
  | Throw _ => [0; 10]%float
  | Normal files =>
      let n := List.length (fileEntriesOf files) in
      ([0; 10; 20] ++ map (fun i => entryProgress i n) (seq 0 n) ++ [85; 100])%float
  end.

(** [p <= q] on numbers. *)
Definition atMost (p q : number) : Prop := (p <=? q)%float = true.

(** An array holds fewer than 2^32 elements. *)
Definition arrayLengthLimit : Z := 2 ^ 32.

(** The archive, when it opened, lists no more files than an array holds. *)
Definition withinArrayLimit (zipData : completion ZipFiles) : Prop :=
  match zipData with
  | Throw _ => True
  | Normal files =>
      (Z.of_nat (List.length (fileEntriesOf files)) < arrayLengthLimit)%Z
  end.


(** *** What a run does to the byte cache *)

(** The stores of one accepted entry: under the archive path, and under the
    base name when that differs. *)
Definition storeBoth (filename : string) (arrayBuffer : ArrayBuffer)
  (cache : Cache) : Cache :=
  let cache1 := storeDicomData filename arrayBuffer cache in
  if (justFilenameOf filename =? filename)%string then cache1
  else storeDicomData (justFilenameOf filename) arrayBuffer cache1.

Definition cacheStep (dicomParser : DicomParserApi) (cache : Cache)
  (entry : string * ZipObject) : Cache :=
  match async_arraybuffer (snd entry) with
  | Normal arrayBuffer =>
      if isCandidate dicomParser arrayBuffer
      then storeBoth (fst entry) arrayBuffer cache
      else cache
  | Throw _ => cache
  end.

(** *** Sample archives *)

Definition freshWorld : World :=
  {| hook := initialHook; dicomDataCache := []; reported := [] |}.

Definition fileOf (bytes : ArrayBuffer) : ZipObject :=
  {| dir := false; async_arraybuffer := Normal bytes |}.

(** A buffer with the marker DICM at offset 128, and one more byte. *)
Definition markedBytes (last : byte) : ArrayBuffer :=
  repeat x00 128 ++ [x44; x49; x43; x4d; last].

Definition firstArchive : ZipFiles := [("a/first.dcm"%string, fileOf (markedBytes x01))].

Definition secondArchive : ZipFiles := [("b/second.dcm"%string, fileOf (markedBytes x02))].

(** The data set of an axial slice of series 1.2.3 at height [z]: slice
    location [z], position (0, 0, z), orientation [1,0,0,0,1,0]. *)
Definition sliceDataSet (z : number) : DataSet.t :=
  {| DataSet.elements := fun tag =>
       if (tag =? "x00200032")%string then Some {| Element.length := 3 |}
       else if (tag =? "x00200037")%string then Some {| Element.length := 6 |}
       else None;
     DataSet.uint16 := fun _ => Normal None;
     DataSet.float := fun tag i =>
       if (tag =? "x00201041")%string then Normal (Some z)
       else if (tag =? "x00200032")%string
       then Normal (nth_error [0; 0; z]%float i)
       else if (tag =? "x00200037")%string
       then Normal (nth_error [1; 0; 0; 0; 1; 0]%float i)
       else Normal None;
     DataSet.string := fun tag =>
       if (tag =? "x0020000e")%string then Normal (Some "1.2.3"%string)
       else Normal None |}.

(** A parser for one-byte buffers: the byte 0, 1 or 2 is the slice at height
    0, 10 or 20; any other buffer is not decodable. *)
Definition sliceParser : DicomParserApi :=
  let parse (bytes : ArrayBuffer) :=
    match bytes with
    | [x00] => Normal (sliceDataSet 0)
    | [x01] => Normal (sliceDataSet 10)
    | [x02] => Normal (sliceDataSet 20)
    | _ => Throw (Some "not a DICOM object"%string)
    end in
  {| parseDicom := parse; parseDicomUntil := fun _ => parse |}.

(** Three slices of one series out of order, a directory and a text file. *)
Definition sliceArchive : ZipFiles :=
  [ ("scan/"%string, {| dir := true; async_arraybuffer := Normal [] |});
    ("scan/c.dcm"%string, fileOf [x02]);
    ("scan/a.dcm"%string, fileOf [x00]);
    ("notes.txt"%string, fileOf [x48; x69]);
    ("scan/b.dcm"%string, fileOf [x01]) ].


(** *** Invariants used by the proofs *)

(** The series map holds, for each identifier seen, the images that carry
    it, in the order they were pushed. *)
Definition groups (m : Js.Map (list DicomImage))
  (ds : list (DicomImage * option string)) : Prop :=
  NoDup (map fst m)
  /\ forall k, Js.get k m
               = match ofSeries k ds with
                 | [] => None
                 | l => Some l
                 end.

(** A binary64 value that is not zero and has the sign [s]. *)
Definition signed_nonzero (s : bool) (f : spec_float) : Prop :=
  (exists m e, f = S754_finite s m e) \/ f = S754_infinity s.

(** *** Rounding to binary64, in integers *)

(** [/], [*] and [+] round their exact result to the nearest binary64 number,
    ties to even.  [SpecFloat] computes the rounding by shifting a mantissa
    and keeping a round bit and a sticky bit; the definitions below give the
    same result from the exact value [(A / B) * 2 ^ e], from which the order
    of two results can be read. *)
Module Round.
Local Open Scope Z_scope.

(** The fraction [A / B] to two extra bits: its integer part, the next bit,
    and whether anything is left below it. *)
Definition scode (A B : Z) : Z :=
  2 * (2 * A / B) + (if (2 * A) mod B =? 0 then 0 else 1).

Definition b2z (b : bool) : Z := if b then 1 else 0.

(** The same three pieces, as the shifting record of [SpecFloat] holds them. *)
Definition code_of (mrs : shr_record) : Z :=
  4 * shr_m mrs + 2 * b2z (shr_r mrs) + b2z (shr_s mrs).

(** One shift to the right, on a code. *)
Definition halve (c : Z) : Z := 2 * (c / 4) + (if c mod 4 =? 0 then 0 else 1).

(** [mrs] holds the code of [A / B]. *)
Definition rep (mrs : shr_record) (A B : Z) : Prop :=
  0 <= shr_m mrs /\ code_of mrs = scode A B.

(** Round to nearest, ties to even, on a code. *)
Definition rne (c : Z) : Z :=
  c / 4 + (if c mod 4 =? 3 then 1
           else if c mod 4 =? 2 then (if Z.even (c / 4) then 0 else 1)
           else 0).

(** The mantissa and exponent after rounding a code of 53 digits at exponent
    [E]: rounding up to [2 ^ 53] moves to the next exponent. *)
Definition rounded (c E : Z) : Z * Z :=
  if rne c =? 2 ^ 53 then (2 ^ 52, E + 1) else (rne c, E).

(** The number with that mantissa and exponent; infinity above the range. *)
Definition pack (r : Z * Z) : spec_float :=
  match fst r with
  | Z.pos p => if snd r <=? 971 then S754_finite false p (snd r) else S754_infinity false
  | _ => S754_nan
  end.

(** The data of one rounding in the normal range: the exact value is
    [(A / B) * 2 ^ e], and its integer part has at least 53 digits. *)
Record normal_input (A B e : Z) : Prop := {
  ni_A : 0 <= A;
  ni_B : 0 < B;
  ni_pos : 0 < A / B;
  ni_digits : 53 <= Zdigits2 (A / B);
  ni_range : -1074 <= Zdigits2 (A / B) + e - 53
}.

(** The binary64 number nearest to [(A / B) * 2 ^ e]. *)
Definition round_normal (A B e : Z) : spec_float :=
  pack (rounded (scode A (B * 2 ^ (Zdigits2 (A / B) - 53)))
          (Zdigits2 (A / B) + e - 53)).

Definition exponent_of (A B e : Z) : Z := Zdigits2 (A / B) + e - 53.

(** A positive number with a full mantissa and its exponent in [lo, hi]. *)
Definition normal (x : spec_float) (lo hi : Z) : Prop :=
  exists m e, x = S754_finite false m e
    /\ Z.pos (digits2_pos m) = 53 /\ lo <= e <= hi.

(** The number an unsigned integer converts to. *)
Definition integer (k : Z) : spec_float := binary_normalize prec emax k 0 false.

(** 1, 20, 60 and 80. *)
Definition sf1 : spec_float := S754_finite false (2 ^ 52) (-52).
Definition sf20 : spec_float := S754_finite false 5629499534213120 (-48).
Definition sf60 : spec_float := S754_finite false 8444249301319680 (-47).
Definition sf80 : spec_float := S754_finite false 5629499534213120 (-46).

(** [20 + (x / n) * 60] on the values of [SpecFloat]. *)
Definition percent (x n : spec_float) : spec_float :=
  SFadd prec emax sf20 (SFmul prec emax (SFdiv prec emax x n) sf60).
End Round.


(** ** The image loader of [utils/cornerstoneInit.ts] *)

(** The part of [cornerstone-core] the loader calls.  [loadImage] is
    [cornerstone.loadImage(imageId)]; [loadWadoUri arrayBuffer] is the same
    call on the id [wadouri:] followed by the URL of a fresh blob holding
    [arrayBuffer] (lines 40-46). *)
Record Cornerstone (Image : Type) : Type := {
  loadImage : string -> completion Image;
  loadWadoUri : ArrayBuffer -> completion Image
}.
Arguments loadImage {Image} _ _.
Arguments loadWadoUri {Image} _ _.

Section Loader.
Context {Image : Type} (cornerstone : Cornerstone Image).

(** [customDicomLoader(imageId)]: the promise rejects with the error
    [No cached DICOM for <filename>], or settles as the load of the cached
    bytes does. *)
Definition customDicomLoader (imageId : string) (dicomDataCache : Cache)
  : completion Image :=
  let filename := removeFirst "dicom:" imageId in
  match cachedBytes imageId dicomDataCache with
  | None => Throw (Some ("No cached DICOM for " ++ filename)%string)
  | Some arrayBuffer => loadWadoUri cornerstone arrayBuffer
  end.

(** [loadDicomImage(imageId)]; the [catch] rethrows what it caught. *)
Definition loadDicomImage (imageId : string) (dicomDataCache : Cache)
  : completion Image :=
  if String.prefix "dicom:" imageId
  then customDicomLoader imageId dicomDataCache
  else loadImage cornerstone imageId.
End Loader.

(** No stored key contains [filename] or is contained in it. *)
Definition unrelated (filename : string) (dicomDataCache : Cache) : Prop :=
  Forall (fun kv => Js.includes (fst kv) filename = false
                    /\ Js.includes filename (fst kv) = false) dicomDataCache.

(** *** What a run leaves in the cache *)

(** The bytes an entry stores under [key]: its own, when it can be read,
    passes the filter, and [key] is its path or its base name. *)
Definition storedBytes (dicomParser : DicomParserApi) (key : string)
  (entry : string * ZipObject) : option ArrayBuffer :=
  match async_arraybuffer (snd entry) with
  | Normal arrayBuffer =>
      if isCandidate dicomParser arrayBuffer
         && ((fst entry =? key)%string || (justFilenameOf (fst entry) =? key)%string)
      then Some arrayBuffer
      else None
  | Throw _ => None
  end.

(** The bytes of the last entry that stores under [key]. *)
Definition lastStored (dicomParser : DicomParserApi) (key : string)
  (fileEntries : ZipFiles) : option ArrayBuffer :=
  fold_left (fun acc entry =>
               match storedBytes dicomParser key entry with
               | Some arrayBuffer => Some arrayBuffer
               | None => acc
               end) fileEntries None.

(** The images a series hands to the viewports. *)
Definition shownImages (s : DicomSeries) : list DicomImage :=
  images s ++ axialImages s ++ coronalImages s ++ sagittalImages s.

(** *** The series of a run *)

(** The series identifiers of the decoded images, each once, in the order
    in which they first appear. *)
Definition seriesIdentifiers (ds : list (DicomImage * option string))
  : list string :=
  fold_left (fun acc d =>
               match snd d with
               | Some seriesUID =>
                   if existsb (String.eqb seriesUID) acc then acc
                   else acc ++ [seriesUID]
               | None => acc
               end) ds [].

(** The decoded images that carry a series identifier. *)
Definition identified (ds : list (DicomImage * option string))
  : list DicomImage :=
  flat_map (fun d => match snd d with
                     | Some _ => [fst d]
                     | None => []
                     end) ds.

(** ** The consumers of the hook *)

(** [Math.min(a, b)]: [NaN] if either is, and [-0] below [+0]. *)
Definition min2 (a b : number) : number :=
  if (is_nan a || is_nan b)%bool then nan
  else if (a <? b)%float then a
  else if (b <? a)%float then b
  else if get_sign a then a else b.

(** The width of the bar of [LoadingProgress], in percent:
    [Math.min(100, Math.max(0, progress))]. *)
Definition barWidth (progress : number) : number :=
  min2 100 (Js.max2 0 progress).

(** [Math.max(0, Math.min(100, percent))]: the clamp of
    [getPercentFromEvent] in [CrosshairOverlay] and of
    [handleReferenceLineDrag] in [DicomViewer]. *)
Definition clampPercent (percent : number) : number :=
  Js.max2 0 (min2 100 percent).

(** [getPercentFromEvent] once the overlay is mounted: the pointer position
    as a percentage of the overlay's rectangle. *)
Definition percentOf (client origin extent : number) : number :=
  clampPercent ((client - origin) / extent * 100)%float.

(** *** [DicomViewer]: the state of the three views *)

Module ViewportState.
Record t : Set := {
  currentSlice : number;
  totalSlices : number;
  windowCenter : number;
  windowWidth : number
}.
End ViewportState.

(** [Record<ViewType, ViewportState>]. *)
Record ViewportStates : Set := {
  axialState : ViewportState.t;
  coronalState : ViewportState.t;
  sagittalState : ViewportState.t
}.

(** [states[viewType]]. *)
Definition stateOf (viewType : ViewType) (states : ViewportStates)
  : ViewportState.t :=
  match viewType with
  | axial => axialState states
  | coronal => coronalState states
  | sagittal => sagittalState states
  end.

(** [{ ...states, [viewType]: state }]. *)
Definition withState (viewType : ViewType) (state : ViewportState.t)
  (states : ViewportStates) : ViewportStates :=
  match viewType with
  | axial => {| axialState := state; coronalState := coronalState states;
                sagittalState := sagittalState states |}
  | coronal => {| axialState := axialState states; coronalState := state;
                  sagittalState := sagittalState states |}
  | sagittal => {| axialState := axialState states;
                   coronalState := coronalState states; sagittalState := state |}
  end.

(** The effect on [series] and [currentSeries] (lines 42-46): the first
    series is taken once, and kept. *)
Definition selectSeries (series' : list DicomSeries)
  (currentSeries : option DicomSeries) : option DicomSeries :=
  match currentSeries with
  | Some s => Some s
  | None => hd_error series'
  end.

(** The state a view starts in (lines 51-56):
    [{ currentSlice: 0, totalSlices: images.length,
       windowCenter: images[0]?.windowCenter || 0, ... }]. *)
Definition startState (images' : list DicomImage) : ViewportState.t :=
  {| ViewportState.currentSlice := 0;
     ViewportState.totalSlices := numberOfNat (List.length images');
     ViewportState.windowCenter :=
       Js.orNum (option_map windowCenter (hd_error images')) 0;
     ViewportState.windowWidth :=
       Js.orNum (option_map windowWidth (hd_error images')) 0 |}.

(** The effect on [currentSeries] (lines 48-71). *)
Definition startStates (currentSeries : DicomSeries) : ViewportStates :=
  {| axialState := startState (axialImages currentSeries);
     coronalState := startState (coronalImages currentSeries);
     sagittalState := startState (sagittalImages currentSeries) |}.

Definition handleSliceChange (viewType : ViewType) (slice : number)
  (prev : ViewportStates) : ViewportStates :=
  withState viewType
    {| ViewportState.currentSlice := slice;
       ViewportState.totalSlices := ViewportState.totalSlices (stateOf viewType prev);
       ViewportState.windowCenter := ViewportState.windowCenter (stateOf viewType prev);
       ViewportState.windowWidth := ViewportState.windowWidth (stateOf viewType prev) |}
    prev.

Definition handleWindowLevelChange (viewType : ViewType) (center width : number)
  (prev : ViewportStates) : ViewportStates :=
  withState viewType
    {| ViewportState.currentSlice := ViewportState.currentSlice (stateOf viewType prev);
       ViewportState.totalSlices := ViewportState.totalSlices (stateOf viewType prev);
       ViewportState.windowCenter := center;
       ViewportState.windowWidth := width |}
    prev.

(** The image a viewport loads (lines 78-82 of [DicomViewport]):
    [images[currentSlice]] for an index that is a natural number. *)
Definition imageAt (images' : list DicomImage) (index : nat) : option DicomImage :=
  nth_error images' index.

(** *** [DicomViewport]: moving through a stack *)

(** [e.deltaY > 0 ? 1 : -1]. *)
Definition wheelDelta (deltaY : number) : number :=
  if (0 <? deltaY)%float then 1%float else (-1)%float.

(** [Math.max(0, Math.min(images.length - 1, currentSlice + delta))]. *)
Definition wheelSlice (imagesLength : nat) (currentSlice deltaY : number)
  : number :=
  Js.max2 0 (min2 (numberOfNat imagesLength - 1) (currentSlice + wheelDelta deltaY))%float.

(** [handleWheelStack]: the slice handed to [onSliceChange], when it is
    called ([newSlice !== currentSlice] on an active viewport). *)
Definition handleWheelStack (isActive : bool) (imagesLength : nat)
  (currentSlice deltaY : number) : option number :=
  if isActive then
    let newSlice := wheelSlice imagesLength currentSlice deltaY in
    if (newSlice =? currentSlice)%float then None else Some newSlice
  else None.

(** The two buttons (lines 356 and 373) and the upper end of the slider
    (line 365). *)
Definition prevSlice (currentSlice : number) : number :=
  Js.max2 0 (currentSlice - 1)%float.

Definition nextSlice (imagesLength : nat) (currentSlice : number) : number :=
  min2 (numberOfNat imagesLength - 1) (currentSlice + 1)%float.

Definition sliderMax (imagesLength : nat) : number :=
  Js.max2 0 (numberOfNat imagesLength - 1)%float.

(** *** [DicomViewport]: the window of the displayed image *)

(** Lines 98-107 of [loadCurrentImage], for the center and for the width:
    the provided value when it is positive, else
    [image.value || currentVoi.value || fallback]. *)
Definition effectiveWindow (provided imageValue : number)
  (voiValue : option number) (fallback : number) : number :=
  if (0 <? provided)%float then provided
  else Js.orNum (if Js.truthy imageValue then Some imageValue else voiValue) fallback.

(** What [loadCurrentImage] does with the window (lines 98-117 and 142-144),
    given the window of the props, the image and the [voi] of the viewport:
    the window written to the viewport, if one is, and the window handed to
    [onWindowLevelChange], if it is called. *)
Definition windowOf (windowCenter' windowWidth' : number) (image : DicomImage)
  (voi : option number * option number)
  : option (number * number) * option (number * number) :=
  let hasProvidedCenter := (0 <? windowCenter')%float in
  let hasProvidedWidth := (0 <? windowWidth')%float in
  let effectiveCenter :=
    effectiveWindow windowCenter' (windowCenter image) (fst voi) 2048 in
  let effectiveWidth :=
    effectiveWindow windowWidth' (windowWidth image) (snd voi) 4095 in
  (if is_finite effectiveCenter && is_finite effectiveWidth
   then Some (effectiveCenter, effectiveWidth) else None,
   if negb hasProvidedCenter || negb hasProvidedWidth
   then Some (effectiveCenter, effectiveWidth) else None).

(** *** The series the viewer shows *)

(** The series identifier of the first decoded image that carries one. *)
Definition firstIdentifier (ds : list (DicomImage * option string))
  : option string :=
  hd_error (flat_map (fun d => match snd d with
                               | Some seriesUID => [seriesUID]
                               | None => []
                               end) ds).

(** *** A sample loader *)

(** A [cornerstone] whose images are the bytes they were loaded from, and
    which knows no image id of its own. *)
Definition bytesCornerstone : Cornerstone ArrayBuffer :=
  {| loadImage := fun _ => Throw (Some "unknown image id"%string);
     loadWadoUri := fun arrayBuffer => Normal arrayBuffer |}.
(** *** Rounding to binary64, below the normal range as well *)

Module Nearest.
Local Open Scope Z_scope.

(** The exponent of the binary64 numbers next to a number whose integer part
    has [d] digits at exponent [e]. *)
Definition target (d e : Z) : Z := Z.max (d + e - 53) (-1074).

(** As [Round.pack], with the zero that rounding reaches below the smallest
    positive number. *)
Definition pack0 (r : Z * Z) : spec_float :=
  match fst r with
  | 0 => S754_zero false
  | Z.pos p => if snd r <=? 971 then S754_finite false p (snd r) else S754_infinity false
  | Z.neg _ => S754_nan
  end.

(** [X * 2 ^ ex <= Y * 2 ^ ey], in integers. *)
Definition vle (X ex Y ey : Z) : Prop :=
  X * 2 ^ (ex - Z.min ex ey) <= Y * 2 ^ (ey - Z.min ex ey).

(** A number that is [+0] or positive. *)
Definition unsigned (x : spec_float) : Prop :=
  x = S754_zero false \/ exists m e, x = S754_finite false m e.
End Nearest.

(** *** [DicomViewer]: dragging a reference line *)

(** [Math.round(x)]: the integer nearest to [x], the upper one of two that
    are equally near; [NaN], the infinities, the zeros and the integers are
    returned as they are, and a zero result has the sign of [x]. *)
Definition Math_round (x : number) : number :=
  match Prim2SF x with
  | S754_finite s m e =>
      if (0 <=? e)%Z then x
      else
        let d := (2 ^ (- e))%Z in
        let k := if s then (- ((2 * Z.pos m + d - 1) / (2 * d)))%Z
                 else ((2 * Z.pos m + d) / (2 * d))%Z in
        SF2Prim (binary_normalize prec emax k 0 s)
  | _ => x
  end.

(** The axis of a reference line: ["x" | "y"]. *)
Inductive Axis : Set := axisX | axisY.

(** [pickIndex(total)] of [handleReferenceLineDrag] (lines 110-112):
    [Math.round((clampPercent / 100) * Math.max(0, total - 1))]. *)
Definition pickIndex (percent total : number) : number :=
  Math_round (clampPercent percent / 100 * Js.max2 0 (total - 1))%float.

(** [setSlice(vt)] (lines 116-119): [total] is [prev[vt].totalSlices || 0]. *)
Definition setSlice (percent : number) (vt : ViewType) (prev : ViewportStates)
  : ViewportStates :=
  let total := Js.orNum (Some (ViewportState.totalSlices (stateOf vt prev))) 0 in
  withState vt
    {| ViewportState.currentSlice := pickIndex percent total;
       ViewportState.totalSlices := ViewportState.totalSlices (stateOf vt prev);
       ViewportState.windowCenter := ViewportState.windowCenter (stateOf vt prev);
       ViewportState.windowWidth := ViewportState.windowWidth (stateOf vt prev) |}
    prev.

(** [handleReferenceLineDrag] (lines 108-135), as the update of the state. *)
Definition handleReferenceLineDrag (source : ViewType) (axis : Axis)
  (percent : number) (prev : ViewportStates) : ViewportStates :=
  match source with
  | axial =>
      match axis with
      | axisX => setSlice percent sagittal prev
      | axisY => setSlice percent coronal prev
      end
  | coronal =>
      match axis with
      | axisX => setSlice percent sagittal prev
      | axisY => setSlice percent axial prev
      end
  | sagittal =>
      match axis with
      | axisX => setSlice percent coronal prev
      | axisY => setSlice percent axial prev
      end
  end.

(** *** The views and their stacks *)

(** The stack a view shows: [currentSeries.axialImages] and so on (lines
    190-191, 220-221 and 250-251 of [DicomViewer]). *)
Definition stackOf (viewType : ViewType) (s : DicomSeries) : list DicomImage :=
  match viewType with
  | axial => axialImages s
  | coronal => coronalImages s
  | sagittal => sagittalImages s
  end.

(** A state points into a stack: [totalSlices] is the length of the stack
    and [currentSlice] is one of its indices, or 0 when it is empty. *)
Definition pointsInto (stack : list DicomImage) (state : ViewportState.t)
  : Prop :=
  ViewportState.totalSlices state = numberOfNat (List.length stack)
  /\ exists j, (j <= List.length stack - 1)%nat
               /\ ViewportState.currentSlice state = numberOfNat j.

(** Every view points into its stack. *)
Definition consistent (s : DicomSeries) (states : ViewportStates) : Prop :=
  forall viewType, pointsInto (stackOf viewType s) (stateOf viewType states).

(** The view a drag of a reference line moves. *)
Definition movedView (source : ViewType) (axis : Axis) : ViewType :=
  match axis with
  | axisX => match source with sagittal => coronal | _ => sagittal end
  | axisY => match source with axial => coronal | _ => axial end
  end.


(** *** The orientations the decoder can produce *)

(** [dataSet.float] reads a binary32 value.  Of those, the ones that are not
    NaN have a magnitude below 2^128 or are infinite. *)
Definition inFloat32Range (x : number) : bool :=
  (abs x <=? 0x1p128)%float || (abs x =? infinity)%float.

(** Every number the data set reads is a binary32 value. *)
Definition readsFloat32 (dataSet : DataSet.t) : Prop :=
  forall tag i v,
    DataSet.float dataSet tag i = Normal (Some v) ->
    is_nan v = true \/ inFloat32Range v = true.

Module Magnitude.
Local Open Scope Z_scope.

(** A zero, or a finite number whose exponent is at most [k]. *)
Definition tame (k : Z) (x : spec_float) : Prop :=
  match x with
  | S754_zero _ => True
  | S754_finite _ _ e => e <= k
  | _ => False
  end.

(** An infinity or NaN. *)
Definition wild (x : spec_float) : Prop :=
  match x with
  | S754_infinity _ | S754_nan => True
  | _ => False
  end.

(** [f] with the sign [s]. *)
Definition signed (s : bool) (f : spec_float) : spec_float :=
  match f with
  | S754_zero _ => S754_zero s
  | S754_infinity _ => S754_infinity s
  | S754_nan => S754_nan
  | S754_finite _ m e => S754_finite s m e
  end.
End Magnitude.

(** *** The candidate filter as the specification words it *)

(** A buffer passes when it is long enough to hold the marker DICM at bytes
    128..131 and holds it there, or when the bounded decode completes. *)
Definition candidateStated (dicomParser : DicomParserApi) (bytes : ArrayBuffer)
  : bool :=
  ((132 <=? List.length bytes)%nat
   && match firstn 4 (skipn 128 bytes) with
      | [b0; b1; b2; b3] =>
          Byte.eqb b0 x44 && Byte.eqb b1 x49 && Byte.eqb b2 x43 && Byte.eqb b3 x4d
      | _ => false
      end)
  || parsedOk dicomParser bytes.

(** A buffer of 132 bytes that ends in the marker. *)
Definition shortMarked : ArrayBuffer := repeat x00 128 ++ [x44; x49; x43; x4d].


(* ================================================================== *)
(** * Part II. Properties *)
(* ================================================================== *)

(** ** Facts about binary64 arithmetic

    They are derived from the specification of the primitive operations
    ([FloatAxioms]) over [SpecFloat]. *)

Module FloatFacts.
Local Open Scope Z_scope.

Abbreviation emin := (SpecFloat.emin prec emax).
Abbreviation fexp := (SpecFloat.fexp prec emax).

Ltac cmp_cases :=
  repeat match goal with
  | |- context [Z.compare ?a ?b] => destruct (Z.compare_spec a b)
  | |- context [Pos.compare_cont Eq ?a ?b] =>
      change (Pos.compare_cont Eq a b) with (Pos.compare a b);
      destruct (Pos.compare_spec a b)
  | H : context [Z.compare ?a ?b] |- _ => destruct (Z.compare_spec a b)
  | H : context [Pos.compare_cont Eq ?a ?b] |- _ =>
      change (Pos.compare_cont Eq a b) with (Pos.compare a b) in H;
      destruct (Pos.compare_spec a b)
  end; simpl in *; subst; try congruence; try lia.

Ltac sf_destruct x := destruct x as [[]|[]| |[] ? ?].






(** *** The sign of a difference *)

Lemma digits2_pos_bound (m : positive) :
  2 ^ (Z.pos (digits2_pos m) - 1) <= Z.pos m < 2 ^ Z.pos (digits2_pos m).
Proof.
  induction m as [m IH | m IH |]; simpl digits2_pos.
  - rewrite Pos2Z.inj_succ, Z.pow_succ_r by lia.
    replace (Z.succ (Z.pos (digits2_pos m)) - 1)
      with (Z.succ (Z.pos (digits2_pos m) - 1)) by lia.
    rewrite Z.pow_succ_r by lia. lia.
  - rewrite Pos2Z.inj_succ, Z.pow_succ_r by lia.
    replace (Z.succ (Z.pos (digits2_pos m)) - 1)
      with (Z.succ (Z.pos (digits2_pos m) - 1)) by lia.
    rewrite Z.pow_succ_r by lia. lia.
  - simpl. lia.
Qed.

Lemma shr_1_m mrs : 0 <= shr_m mrs -> shr_m (shr_1 mrs) = shr_m mrs / 2.
Proof.
  destruct mrs as [m r s]. cbn [shr_m]. intros H. rewrite <- Z.div2_div.
  destruct m as [|[p|p|]|p]; try reflexivity; lia.
Qed.

Lemma iter_shr_1_m p : forall mrs, 0 <= shr_m mrs ->
  shr_m (iter_pos shr_1 p mrs) = shr_m mrs / 2 ^ Z.pos p.
Proof.
  assert (P : forall q, 0 < 2 ^ Z.pos q) by (intros; apply Z.pow_pos_nonneg; lia).
  induction p as [p IH | p IH |]; intros mrs H; simpl iter_pos.
  - assert (H1 : 0 <= shr_m (shr_1 mrs))
      by (rewrite shr_1_m by easy; apply Z.div_pos; lia).
    assert (H2 : 0 <= shr_m (iter_pos shr_1 p (shr_1 mrs))).
    { rewrite IH by easy. apply Z.div_pos; [lia | apply P]. }
    rewrite IH, IH, shr_1_m by easy.
    specialize (P p).
    rewrite !Z.div_div by lia. f_equal.
    replace (Z.pos p~1) with (1 + Z.pos p + Z.pos p) by lia.
    rewrite !Z.pow_add_r by lia. change (2 ^ 1) with 2. ring.
  - assert (H2 : 0 <= shr_m (iter_pos shr_1 p mrs)).
    { rewrite IH by easy. apply Z.div_pos; [lia | apply P]. }
    rewrite IH, IH by easy.
    specialize (P p).
    rewrite !Z.div_div by lia. f_equal.
    replace (Z.pos p~0) with (Z.pos p + Z.pos p) by lia.
    rewrite !Z.pow_add_r by lia. reflexivity.
  - rewrite shr_1_m by easy. reflexivity.
Qed.

Lemma shr_m_of_loc m l : shr_m (shr_record_of_loc m l) = m.
Proof. destruct l as [|[]]; reflexivity. Qed.

Lemma emin_val : emin = -1074.
Proof. reflexivity. Qed.

Lemma fexp_val z : fexp z = Z.max (z - 53) (-1074).
Proof. reflexivity. Qed.

(** Rounding a positive mantissa at an exponent no less than [emin] never
    shifts every bit out. *)
Lemma shr_fexp_pos m e l :
  0 < m -> emin <= e ->
  0 < shr_m (fst (shr_fexp prec emax m e l))
  /\ emin <= snd (shr_fexp prec emax m e l).
Proof.
  intros Hm He. rewrite emin_val in *.
  destruct m as [|p|p]; try lia.
  unfold shr_fexp, shr. cbn [Zdigits2]. rewrite fexp_val.
  pose proof (digits2_pos_bound p) as [Hlo _].
  set (d := Z.pos (digits2_pos p)) in *.
  destruct (Z.max (d + e - 53) (-1074) - e) as [|q|q] eqn:E; cbn [fst snd];
    rewrite ?shr_m_of_loc; try (split; lia).
  rewrite iter_shr_1_m by (rewrite shr_m_of_loc; lia).
  rewrite shr_m_of_loc. split; [|lia].
  apply Z.div_str_pos. split; [apply Z.pow_pos_nonneg; lia|].
  apply Z.le_trans with (2 ^ (d - 1)); [|exact Hlo].
  apply Z.pow_le_mono_r; lia.
Qed.

Lemma round_nearest_even_pos m l : 0 < m -> 0 < round_nearest_even m l.
Proof. intros H. destruct l as [|[]]; simpl; try destruct (Z.even m); lia. Qed.

Lemma binary_round_aux_sign s m e l :
  0 < m -> emin <= e -> signed_nonzero s (binary_round_aux prec emax s m e l).
Proof.
  intros Hm He. unfold binary_round_aux.
  pose proof (shr_fexp_pos m e l Hm He) as [H1 H1'].
  destruct (shr_fexp prec emax m e l) as [mrs' e']. cbn [fst snd] in *.
  pose proof (shr_fexp_pos _ e' loc_Exact
                (round_nearest_even_pos _ (loc_of_shr_record mrs') H1) H1')
    as [H2 _].
  destruct (shr_fexp prec emax _ e' loc_Exact) as [mrs'' e''].
  cbn [fst snd] in *.
  destruct (shr_m mrs'') as [|q|q]; try lia.
  destruct (e'' <=? emax - prec); [left; eauto | right; reflexivity].
Qed.

Lemma binary_round_sign s m e :
  emin <= e -> signed_nonzero s (binary_round prec emax s m e).
Proof.
  intros He. unfold binary_round.
  destruct (shl_align m e _) as [mz ez] eqn:E.
  apply binary_round_aux_sign; [lia|].
  unfold shl_align in E. rewrite fexp_val, emin_val in *.
  destruct (Z.max _ _ - e) eqn:E'; inversion E; subst; lia.
Qed.

Lemma binary_normalize_pos M e :
  emin <= e ->
  SFltb (S754_zero false) (binary_normalize prec emax M e false) = (0 <? M).
Proof.
  intros He. destruct M as [|p|p]; cbn [binary_normalize]; [reflexivity| |].
  - destruct (binary_round_sign false p e He) as [(m' & e' & ->)| ->]; reflexivity.
  - destruct (binary_round_sign true p e He) as [(m' & e' & ->)| ->]; reflexivity.
Qed.

Lemma shl_align_fst m e e' :
  e' <= e -> Z.pos (fst (shl_align m e e')) = Z.pos m * 2 ^ (e - e').
Proof.
  intros H. unfold shl_align.
  destruct (e' - e) as [|d|d] eqn:E; cbn [fst]; try lia.
  - replace (e - e') with 0 by lia. lia.
  - replace (e - e') with (Z.pos d) by lia.
    change (Pos.iter xO m d) with (shift_pos d m).
    rewrite shift_pos_correct. change (Z.pow_pos 2 d) with (2 ^ Z.pos d). ring.
Qed.

Lemma valid_finite s m e :
  valid_binary (S754_finite s m e) = true ->
  emin <= e /\ Z.pos (digits2_pos m) <= 53
  /\ (emin < e -> Z.pos (digits2_pos m) = 53).
Proof.
  unfold SpecFloat.valid_binary, bounded, canonical_mantissa.
  rewrite fexp_val, emin_val, andb_true_iff, Z.eqb_eq. lia.
Qed.

Lemma pow2_ge2 n : 0 < n -> 2 <= 2 ^ n.
Proof. intros H. change 2 with (2 ^ 1) at 1. apply Z.pow_le_mono_r; lia. Qed.

Ltac sign_goal :=
  cbn [cond_Zopp]; cbv beta iota;
  first [apply Z.ltb_lt | apply Z.ltb_ge].

(** A difference of two valid binary64 values is positive exactly when the
    first is the larger: subtraction never rounds a nonzero difference to
    zero, nor across it. *)
Lemma SFsub_pos x y :
  valid_binary x = true -> valid_binary y = true ->
  SFltb (S754_zero false) (SF64sub x y) = SFltb y x.
Proof.
  intros Vx Vy.
  destruct x as [[]|[]| |sx mx ex], y as [[]|[]| |sy my ey]; try reflexivity;
    try (destruct sx; reflexivity); try (destruct sy; reflexivity).
  apply valid_finite in Vx, Vy.
  destruct Vx as (Ex & Dx & Nx), Vy as (Ey & Dy & Ny).
  unfold SF64sub, SFsub.
  rewrite binary_normalize_pos by lia.
  rewrite !shl_align_fst by lia.
  pose proof (digits2_pos_bound mx) as [Lx Ux].
  pose proof (digits2_pos_bound my) as [Ly Uy].
  assert (P53 : forall d, d <= 53 -> 2 ^ d <= 2 ^ 53)
    by (intros; apply Z.pow_le_mono_r; lia).
  apply P53 in Dx as Dx', Dy as Dy'.
  unfold SFltb, SFcompare.
  destruct (Z.compare_spec ey ex) as [E|E|E].
  - subst ey. rewrite Z.min_id, Z.sub_diag. change (2 ^ 0) with 1.
    rewrite !Z.mul_1_r.
    change (Pos.compare_cont Eq my mx) with (Pos.compare my mx).
    destruct (Pos.compare_spec my mx); destruct sx, sy; sign_goal; lia.
  - rewrite Z.min_r, Z.sub_diag by lia. change (2 ^ 0) with 1.
    rewrite Z.mul_1_r.
    pose proof (pow2_ge2 (ex - ey) ltac:(lia)) as P.
    rewrite Nx in Lx by lia. change (2 ^ (53 - 1)) with 4503599627370496 in Lx.
    change (2 ^ 53) with 9007199254740992 in *.
    destruct sx, sy; sign_goal; nia.
  - rewrite Z.min_l, Z.sub_diag by lia. change (2 ^ 0) with 1.
    rewrite Z.mul_1_r.
    pose proof (pow2_ge2 (ey - ex) ltac:(lia)) as P.
    rewrite Ny in Ly by lia. change (2 ^ (53 - 1)) with 4503599627370496 in Ly.
    change (2 ^ 53) with 9007199254740992 in *.
    destruct sx, sy; sign_goal; nia.
Qed.

Local Close Scope Z_scope.
Local Open Scope float_scope.

(** [x - y > 0] is [x > y], for all binary64 values. *)
Lemma sub_pos_ltb (x y : float) : (0 <? x - y) = (y <? x).
Proof.
  rewrite !ltb_spec, sub_spec. apply SFsub_pos; apply Prim2SF_valid.
Qed.

End FloatFacts.

(** ** Rounding keeps the order *)

(** Division, multiplication and addition of positive binary64 numbers with
    full mantissas are the rounding of their exact result, and rounding is
    monotone; so the percentage [20 + (i / n) * 60] rises with [i] and stays
    between 20 and 80. *)
Module RoundFacts.
Import FloatFacts Round.
Local Open Scope Z_scope.

(** Doubling the denominator shifts the code by one bit. *)
Lemma scode_double A B : 0 <= A -> 0 < B ->
  scode A (2 * B) = 2 * (scode A B / 4) + (if scode A B mod 4 =? 0 then 0 else 1).
Proof.
  intros HA HB. unfold scode.
  destruct ((2 * A) mod B =? 0) eqn:E1; destruct ((2 * A) mod (2 * B) =? 0) eqn:E2;
  rewrite ?Z.eqb_eq, ?Z.eqb_neq in *;
  match goal with |- context [if ?c =? 0 then _ else _] => destruct (c =? 0) eqn:E3 end;
  rewrite ?Z.eqb_eq, ?Z.eqb_neq in *;
  Z.to_euclidean_division_equations; nia.
Qed.

Lemma code_shr_1 mrs : 0 <= shr_m mrs -> code_of (shr_1 mrs) = halve (code_of mrs).
Proof.
  destruct mrs as [m r s]. unfold code_of, halve. cbn [shr_m shr_r shr_s].
  intros H.
  destruct m as [|[p|p|]|p]; try lia; destruct r, s; cbn [shr_1 shr_m shr_r shr_s orb b2z];
    match goal with |- context [if ?c =? 0 then _ else _] => destruct (c =? 0) eqn:E3 end;
    rewrite ?Z.eqb_eq, ?Z.eqb_neq in *;
    Z.to_euclidean_division_equations; lia.
Qed.

Lemma shr_1_nonneg mrs : 0 <= shr_m mrs -> 0 <= shr_m (shr_1 mrs).
Proof.
  destruct mrs as [m r s]. cbn [shr_m]. destruct m as [|[p|p|]|p]; cbn; lia.
Qed.

Lemma rep_shr_1 mrs A B : 0 <= A -> 0 < B -> rep mrs A B -> rep (shr_1 mrs) A (2 * B).
Proof.
  intros HA HB [Hm Hc]. split; [apply shr_1_nonneg, Hm|].
  rewrite code_shr_1, Hc by assumption. symmetry. apply scode_double; assumption.
Qed.

(** Shifting [p] times divides by [2 ^ p]. *)
Lemma rep_iter p : forall mrs A B, 0 <= A -> 0 < B -> rep mrs A B ->
  rep (iter_pos shr_1 p mrs) A (B * 2 ^ Z.pos p).
Proof.
  assert (P : forall q, 0 < 2 ^ Z.pos q) by (intros; apply Z.pow_pos_nonneg; lia).
  induction p as [p IH | p IH |]; intros mrs A B HA HB H; cbn [iter_pos].
  - replace (B * 2 ^ Z.pos p~1) with ((2 * B * 2 ^ Z.pos p) * 2 ^ Z.pos p).
    2:{ replace (Z.pos p~1) with (1 + Z.pos p + Z.pos p) by lia.
        rewrite !Z.pow_add_r by lia. change (2 ^ 1) with 2. ring. }
    specialize (P p).
    assert (0 < 2 * B * 2 ^ Z.pos p) by nia.
    apply IH; [assumption | assumption |]. apply IH; [assumption | lia |].
    apply rep_shr_1; assumption.
  - replace (B * 2 ^ Z.pos p~0) with ((B * 2 ^ Z.pos p) * 2 ^ Z.pos p).
    2:{ replace (Z.pos p~0) with (Z.pos p + Z.pos p) by lia.
        rewrite !Z.pow_add_r by lia. ring. }
    specialize (P p).
    assert (0 < B * 2 ^ Z.pos p) by nia.
    apply IH; [assumption | assumption |]. apply IH; assumption.
  - change (2 ^ 1) with 2. rewrite Z.mul_comm. apply rep_shr_1; assumption.
Qed.

Lemma round_nearest_even_code mrs :
  round_nearest_even (shr_m mrs) (loc_of_shr_record mrs) = rne (code_of mrs).
Proof.
  destruct mrs as [m r s]. unfold code_of, rne. cbn [shr_m shr_r shr_s].
  assert (D : (4 * m + 2 * b2z r + b2z s) / 4 = m)
    by (destruct r, s; cbn [b2z]; Z.to_euclidean_division_equations; lia).
  assert (M : (4 * m + 2 * b2z r + b2z s) mod 4 = 2 * b2z r + b2z s)
    by (destruct r, s; cbn [b2z]; Z.to_euclidean_division_equations; lia).
  rewrite D, M. destruct r, s; cbn; try destruct (Z.even m); lia.
Qed.

Lemma rne_mono c c' : 0 <= c -> c <= c' -> rne c <= rne c'.
Proof.
  intros H0 H. unfold rne.
  pose proof (Z.div_mod c 4 ltac:(lia)) as D.
  pose proof (Z.div_mod c' 4 ltac:(lia)) as D'.
  pose proof (Z.mod_pos_bound c 4 ltac:(lia)) as B.
  pose proof (Z.mod_pos_bound c' 4 ltac:(lia)) as B'.
  remember (c / 4) as q eqn:Eq. remember (c mod 4) as r eqn:Er.
  remember (c' / 4) as q' eqn:Eq'. remember (c' mod 4) as r' eqn:Er'.
  clear Eq Er Eq' Er'.
  destruct (Z.eq_dec q q') as [E|E].
  - subst q'.
    repeat match goal with |- context [if ?x =? ?y then _ else _] => destruct (Z.eqb_spec x y) end;
      destruct (Z.even q); lia.
  - repeat match goal with |- context [if ?x =? ?y then _ else _] => destruct (Z.eqb_spec x y) end;
      destruct (Z.even q); destruct (Z.even q'); lia.
Qed.

Lemma scode_mono A B A' B' :
  0 <= A -> 0 < B -> 0 <= A' -> 0 < B' -> A * B' <= A' * B -> scode A B <= scode A' B'.
Proof.
  intros HA HB HA' HB' H. unfold scode.
  pose proof (Z.div_mod (2 * A) B ltac:(lia)) as D.
  pose proof (Z.div_mod (2 * A') B' ltac:(lia)) as D'.
  pose proof (Z.mod_pos_bound (2 * A) B ltac:(lia)) as M.
  pose proof (Z.mod_pos_bound (2 * A') B' ltac:(lia)) as M'.
  remember (2 * A / B) as q eqn:Eq. remember ((2 * A) mod B) as r eqn:Er.
  remember (2 * A' / B') as q' eqn:Eq'. remember ((2 * A') mod B') as r' eqn:Er'.
  clear Eq Er Eq' Er'.
  assert (Hq : q <= q').
  { apply Z.lt_succ_r. apply Z.mul_lt_mono_pos_r with (B * B'); [nia|].
    assert (q * (B * B') <= 2 * A * B') by nia.
    assert (2 * A' * B < Z.succ q' * (B * B')) by nia.
    lia. }
  destruct (Z.eq_dec q q') as [E|E].
  - subst q'. destruct (Z.eqb_spec r 0), (Z.eqb_spec r' 0); try lia.
    exfalso. subst r'. nia.
  - destruct (r =? 0), (r' =? 0); lia.
Qed.

(** *** Rounding in the normal range *)

Lemma digits_unique (p : positive) (k : Z) :
  2 ^ (k - 1) <= Z.pos p < 2 ^ k -> Z.pos (digits2_pos p) = k.
Proof.
  intros [L U]. pose proof (digits2_pos_bound p) as [L' U'].
  set (d := Z.pos (digits2_pos p)) in *.
  assert (0 < k).
  { destruct (Z.lt_trichotomy k 0) as [N|[N|N]]; try lia.
    - rewrite Z.pow_neg_r in U by lia. lia.
    - subst k. simpl in U. lia. }
  destruct (Z.lt_trichotomy d k) as [N|[N|N]]; [|exact N|].
  - assert (2 ^ d <= 2 ^ (k - 1)) by (apply Z.pow_le_mono_r; lia). lia.
  - assert (2 ^ k <= 2 ^ (d - 1)) by (apply Z.pow_le_mono_r; lia). lia.
Qed.

Lemma code_of_loc m l :
  code_of (shr_record_of_loc m l)
  = 4 * m + match l with
            | loc_Exact => 0
            | loc_Inexact Lt => 1
            | loc_Inexact Eq => 2
            | loc_Inexact Gt => 3
            end.
Proof. destruct l as [|[]]; unfold code_of; cbn; lia. Qed.

Lemma rne_bounds c : c / 4 <= rne c <= c / 4 + 1.
Proof.
  unfold rne.
  repeat match goal with |- context [if ?x =? ?y then _ else _] => destruct (Z.eqb_spec x y) end;
    try destruct (Z.even (c / 4)); lia.
Qed.

Lemma code_div4 mrs : code_of mrs / 4 = shr_m mrs.
Proof.
  unfold code_of. destruct (shr_r mrs), (shr_s mrs); cbn [b2z];
    Z.to_euclidean_division_equations; lia.
Qed.

Lemma pow2_pos k : 0 <= k -> 0 < 2 ^ k.
Proof. intros. apply Z.pow_pos_nonneg; lia. Qed.

(** In the normal range [binary_round_aux] is [pack] of [rounded]: one shift
    down to 53 digits, one rounding, and at most one more shift. *)
Lemma bra_normal m e l A B :
  0 < m -> 0 <= A -> 0 < B -> rep (shr_record_of_loc m l) A B ->
  53 <= Zdigits2 m -> -1074 <= Zdigits2 m + e - 53 ->
  binary_round_aux prec emax false m e l
  = pack (rounded (scode A (B * 2 ^ (Zdigits2 m - 53))) (Zdigits2 m + e - 53)).
Proof.
  intros Hm HA HB R Hd Hn.
  destruct m as [|p|p]; try lia. cbn [Zdigits2] in *.
  pose proof (digits2_pos_bound p) as [Lp Up].
  set (d := Z.pos (digits2_pos p)) in *.
  unfold binary_round_aux, shr_fexp at 1. cbn [Zdigits2]. fold d.
  rewrite fexp_val. rewrite Z.max_l by lia.
  replace (d + e - 53 - e) with (d - 53) by lia.
  (* the first shift *)
  assert (S1 : exists mrs', shr (shr_record_of_loc (Z.pos p) l) e (d - 53)
                            = (mrs', d + e - 53)
                            /\ rep mrs' A (B * 2 ^ (d - 53))
                            /\ 2 ^ 52 <= shr_m mrs' < 2 ^ 53).
  { unfold shr. destruct (d - 53) as [|q|q] eqn:K; try lia.
    - exists (shr_record_of_loc (Z.pos p) l). rewrite Z.mul_1_r.
      replace (d + e - 53) with e by lia. repeat split; try apply R.
      + rewrite shr_m_of_loc. replace 52 with (d - 1) by lia. exact Lp.
      + rewrite shr_m_of_loc. replace 53 with d by lia. exact Up.
    - exists (iter_pos shr_1 q (shr_record_of_loc (Z.pos p) l)).
      replace (e + Z.pos q) with (d + e - 53) by lia.
      split; [reflexivity|]. split; [apply rep_iter; assumption|].
      rewrite iter_shr_1_m, shr_m_of_loc by (rewrite shr_m_of_loc; lia).
      pose proof (pow2_pos (Z.pos q) ltac:(lia)) as Pq.
      assert (E1 : 2 ^ (d - 1) = 2 ^ 52 * 2 ^ Z.pos q)
        by (rewrite <- Z.pow_add_r by lia; f_equal; lia).
      assert (E2 : 2 ^ d = 2 ^ 53 * 2 ^ Z.pos q)
        by (rewrite <- Z.pow_add_r by lia; f_equal; lia).
      split.
      + apply Z.div_le_lower_bound; lia.
      + apply Z.div_lt_upper_bound; lia. }
  destruct S1 as (mrs' & -> & R' & B').
  rewrite round_nearest_even_code.
  destruct R' as [Hm' Hc'].
  pose proof (rne_bounds (code_of mrs')) as Bc. rewrite code_div4 in Bc.
  rewrite Hc' in *.
  remember (scode A (B * 2 ^ (d - 53))) as c eqn:Ec. clear Ec.
  unfold rounded, pack.
  destruct (Z.eqb_spec (rne c) (2 ^ 53)) as [E|E].
  - rewrite E. cbn [fst snd]. unfold shr_fexp. rewrite fexp_val.
    change (Zdigits2 (2 ^ 53)) with 54. rewrite Z.max_l by lia.
    replace (54 + (d + e - 53) - 53 - (d + e - 53)) with 1 by lia.
    cbn. replace (d + e - 53 + 1 <=? 971) with (d + e - 53 + 1 <=? emax - prec)
      by reflexivity. reflexivity.
  - assert (Br : 2 ^ 52 <= rne c < 2 ^ 53) by lia.
    destruct (rne c) as [|r|r] eqn:Er; try lia.
    assert (Dr : Z.pos (digits2_pos r) = 53) by (apply digits_unique; exact Br).
    unfold shr_fexp. cbn [Zdigits2]. rewrite Dr, fexp_val, Z.max_l by lia.
    replace (53 + (d + e - 53) - 53 - (d + e - 53)) with 0 by lia.
    cbn [shr shr_record_of_loc shr_m fst snd]. reflexivity.
Qed.

Lemma scode_div4 A B : 0 <= A -> 0 < B -> scode A B / 4 = A / B.
Proof.
  intros HA HB. unfold scode. destruct (Z.eqb_spec ((2 * A) mod B) 0);
    Z.to_euclidean_division_equations; nia.
Qed.

Lemma pack_le m1 e1 m2 e2 :
  0 < m1 -> 0 < m2 -> e1 < e2 \/ (e1 = e2 /\ m1 <= m2) ->
  SFleb (pack (m1, e1)) (pack (m2, e2)) = true.
Proof.
  intros H1 H2 H. unfold pack. cbn [fst snd].
  destruct m1 as [|p1|p1], m2 as [|p2|p2]; try lia.
  destruct (Z.leb_spec e1 971), (Z.leb_spec e2 971); try reflexivity; try lia.
  unfold SFleb, SFcompare.
  destruct (Z.compare_spec e1 e2); try reflexivity; try lia.
  change (Pos.compare_cont Eq p1 p2) with (Pos.compare p1 p2).
  destruct (Pos.compare_spec p1 p2); try reflexivity; lia.
Qed.

Lemma rne_range A B e :
  normal_input A B e ->
  2 ^ 52 <= rne (scode A (B * 2 ^ (Zdigits2 (A / B) - 53))) <= 2 ^ 53.
Proof.
  intros [HA HB Hp Hd Hn].
  destruct (A / B) as [|p|p] eqn:Em; try lia. cbn [Zdigits2] in *.
  pose proof (digits2_pos_bound p) as [Lp Up].
  set (d := Z.pos (digits2_pos p)) in *.
  pose proof (pow2_pos (d - 53) ltac:(lia)) as Pk.
  pose proof (rne_bounds (scode A (B * 2 ^ (d - 53)))) as Bc.
  rewrite scode_div4 in Bc by nia.
  rewrite <- Z.div_div, Em in Bc by lia.
  assert (E1 : 2 ^ (d - 1) = 2 ^ 52 * 2 ^ (d - 53))
    by (rewrite <- Z.pow_add_r by lia; f_equal; lia).
  assert (E2 : 2 ^ d = 2 ^ 53 * 2 ^ (d - 53))
    by (rewrite <- Z.pow_add_r by lia; f_equal; lia).
  assert (2 ^ 52 <= Z.pos p / 2 ^ (d - 53)) by (apply Z.div_le_lower_bound; lia).
  assert (Z.pos p / 2 ^ (d - 53) < 2 ^ 53) by (apply Z.div_lt_upper_bound; lia).
  lia.
Qed.

Lemma magnitude_mono Aa Ba ea Ab Bb eb e0 :
  normal_input Aa Ba ea -> normal_input Ab Bb eb ->
  e0 <= ea -> e0 <= eb ->
  Aa * Bb * 2 ^ (ea - e0) <= Ab * Ba * 2 ^ (eb - e0) ->
  Zdigits2 (Aa / Ba) + ea <= Zdigits2 (Ab / Bb) + eb.
Proof.
  intros [HAa HBa Hpa Hda Hna] [HAb HBb Hpb Hdb Hnb] H0a H0b H.
  pose proof (Z.div_mod Aa Ba ltac:(lia)) as Da.
  pose proof (Z.mod_pos_bound Aa Ba ltac:(lia)) as Ma.
  pose proof (Z.div_mod Ab Bb ltac:(lia)) as Db.
  pose proof (Z.mod_pos_bound Ab Bb ltac:(lia)) as Mb.
  destruct (Aa / Ba) as [|pa|pa] eqn:Ema; try lia.
  destruct (Ab / Bb) as [|pb|pb] eqn:Emb; try lia.
  cbn [Zdigits2] in *.
  pose proof (digits2_pos_bound pa) as [La Ua].
  pose proof (digits2_pos_bound pb) as [Lb Ub].
  set (da := Z.pos (digits2_pos pa)) in *. set (db := Z.pos (digits2_pos pb)) in *.
  destruct (Z.le_gt_cases (da + ea) (db + eb)) as [|G]; [assumption|exfalso].
  (* 2^(da-1) * 2^(ea-e0) >= 2^db * 2^(eb-e0) *)
  assert (P : 2 ^ db * 2 ^ (eb - e0) <= 2 ^ (da - 1) * 2 ^ (ea - e0)).
  { rewrite <- !Z.pow_add_r by lia. apply Z.pow_le_mono_r; lia. }
  pose proof (pow2_pos (ea - e0) ltac:(lia)) as Pa.
  pose proof (pow2_pos (eb - e0) ltac:(lia)) as Pb.
  assert (X1 : Ba * 2 ^ (da - 1) <= Aa) by nia.
  assert (X2 : Ab < Bb * 2 ^ db) by nia.
  assert (Y1 : Ba * Bb * (2 ^ (da - 1) * 2 ^ (ea - e0)) <= Aa * Bb * 2 ^ (ea - e0)) by nia.
  assert (Y2 : Ab * Ba * 2 ^ (eb - e0) < Ba * Bb * (2 ^ db * 2 ^ (eb - e0))) by nia.
  nia.
Qed.

(** The larger exact value rounds to the larger number: values are compared
    by cross-multiplication at a common exponent [e0]. *)
Lemma round_normal_mono Aa Ba ea Ab Bb eb e0 :
  normal_input Aa Ba ea -> normal_input Ab Bb eb ->
  e0 <= ea -> e0 <= eb ->
  Aa * Bb * 2 ^ (ea - e0) <= Ab * Ba * 2 ^ (eb - e0) ->
  SFleb (round_normal Aa Ba ea) (round_normal Ab Bb eb) = true.
Proof.
  intros Na Nb H0a H0b H.
  pose proof (magnitude_mono _ _ _ _ _ _ _ Na Nb H0a H0b H) as Hmag.
  pose proof (rne_range _ _ _ Na) as Ra.
  pose proof (rne_range _ _ _ Nb) as Rb.
  unfold round_normal, rounded.
  destruct Na as [HAa HBa Hpa Hda Hna]. destruct Nb as [HAb HBb Hpb Hdb Hnb].
  remember (Zdigits2 (Aa / Ba)) as da eqn:Eda.
  remember (Zdigits2 (Ab / Bb)) as db eqn:Edb.
  clear Eda Edb Hpa Hpb.
  pose proof (pow2_pos (da - 53) ltac:(lia)) as Pka.
  pose proof (pow2_pos (db - 53) ltac:(lia)) as Pkb.
  pose proof (pow2_pos (ea - e0) ltac:(lia)) as Pa.
  pose proof (pow2_pos (eb - e0) ltac:(lia)) as Pb.
  assert (Hc : da + ea = db + eb ->
               rne (scode Aa (Ba * 2 ^ (da - 53))) <= rne (scode Ab (Bb * 2 ^ (db - 53)))).
  { intros E. apply rne_mono.
    - unfold scode. destruct (_ =? 0); 
      assert (0 <= 2 * Aa / (Ba * 2 ^ (da - 53))) by (apply Z.div_pos; nia); lia.
    - apply scode_mono; try nia.
      assert (T : 2 ^ (db - 53) * 2 ^ (eb - e0) = 2 ^ (da - 53) * 2 ^ (ea - e0))
        by (rewrite <- !Z.pow_add_r by lia; f_equal; lia).
      remember (2 ^ (da - 53)) as S. remember (2 ^ (db - 53)) as T'.
      remember (2 ^ (ea - e0)) as P. remember (2 ^ (eb - e0)) as Q.
      clear - T Pka Pkb Pa Pb H HAa HBa HAb HBb.
      apply Z.mul_le_mono_pos_r with P; [lia|].
      replace (Aa * (Bb * T') * P) with (Aa * Bb * P * T') by ring.
      replace (Ab * (Ba * S) * P) with (Ab * Ba * (S * P)) by ring.
      rewrite <- T. replace (Ab * Ba * (T' * Q)) with (Ab * Ba * Q * T') by ring.
      apply Z.mul_le_mono_nonneg_r; lia. }
  remember (rne (scode Aa (Ba * 2 ^ (da - 53)))) as ra.
  remember (rne (scode Ab (Bb * 2 ^ (db - 53)))) as rb.
  clear Heqra Heqrb.
  assert (P52 : 0 < 2 ^ 52) by (apply pow2_pos; lia).
  destruct (Z.eqb_spec ra (2 ^ 53)), (Z.eqb_spec rb (2 ^ 53));
    apply pack_le; try lia;
    destruct (Z.eq_dec (da + ea) (db + eb)) as [E|E];
    try (specialize (Hc E)); lia.
Qed.

(** The location that division computes from the remainder is the code of
    the quotient. *)
Lemma new_location_rep m2 q r :
  0 < m2 -> 0 <= r < m2 -> 0 <= q ->
  rep (shr_record_of_loc q (new_location m2 r)) (q * m2 + r) m2.
Proof.
  intros H2 Hr Hq. split; [rewrite shr_m_of_loc; exact Hq|].
  rewrite code_of_loc. unfold scode.
  assert (Lo : 2 * r < m2 -> 2 * (q * m2 + r) / m2 = 2 * q
                          /\ (2 * (q * m2 + r)) mod m2 = 2 * r).
  { intros L. split; [symmetry; apply Z.div_unique with (2 * r)
                     | symmetry; apply Z.mod_unique with (2 * q)]; first [lia | ring]. }
  assert (Hi : m2 <= 2 * r -> 2 * (q * m2 + r) / m2 = 2 * q + 1
                          /\ (2 * (q * m2 + r)) mod m2 = 2 * r - m2).
  { intros L. split; [symmetry; apply Z.div_unique with (2 * r - m2)
                     | symmetry; apply Z.mod_unique with (2 * q + 1)]; first [lia | ring]. }
  unfold new_location, new_location_even, new_location_odd.
  destruct (Z.even m2) eqn:Ev.
  - destruct (Z.eqb_spec r 0) as [->|Nz].
    + destruct Lo as [-> ->]; [lia|]. change (2 * 0 =? 0) with true. cbv beta iota. lia.
    + destruct (Z.compare_spec (2 * r) m2) as [E|L|G].
      * destruct Hi as [-> ->]; [lia|].
        replace (2 * r - m2) with 0 by lia. change (0 =? 0) with true. cbv beta iota. lia.
      * destruct Lo as [-> ->]; [lia|].
        destruct (Z.eqb_spec (2 * r) 0); lia.
      * destruct Hi as [-> ->]; [lia|].
        destruct (Z.eqb_spec (2 * r - m2) 0); lia.
  - assert (O : m2 <> 2 * r).
    { intros ->. rewrite Z.even_mul in Ev. discriminate. }
    destruct (Z.eqb_spec r 0) as [->|Nz].
    + destruct Lo as [-> ->]; [lia|]. change (2 * 0 =? 0) with true. cbv beta iota. lia.
    + destruct (Z.compare_spec (2 * r + 1) m2) as [E|L|G].
      * destruct Lo as [-> ->]; [lia|].
        destruct (Z.eqb_spec (2 * r) 0); lia.
      * destruct Lo as [-> ->]; [lia|].
        destruct (Z.eqb_spec (2 * r) 0); lia.
      * destruct Hi as [-> ->]; [lia|].
        destruct (Z.eqb_spec (2 * r - m2) 0); lia.
Qed.

(** The quotient of two positive numbers with full mantissas. *)
Lemma SFdiv_round mx ex my ey :
  Z.pos (digits2_pos mx) = 53 -> Z.pos (digits2_pos my) = 53 ->
  -1074 <= ex - ey - 53 ->
  normal_input (Z.pos mx * 2 ^ 53) (Z.pos my) (ex - ey - 53)
  /\ SFdiv prec emax (S754_finite false mx ex) (S754_finite false my ey)
     = round_normal (Z.pos mx * 2 ^ 53) (Z.pos my) (ex - ey - 53).
Proof.
  intros Dx Dy Hr.
  pose proof (digits2_pos_bound mx) as [Lx Ux].
  pose proof (digits2_pos_bound my) as [Ly Uy].
  rewrite Dx in Lx, Ux. rewrite Dy in Ly, Uy.
  change (53 - 1) with 52 in *.
  assert (P53 : 0 < 2 ^ 53) by (apply pow2_pos; lia).
  assert (Q : 2 ^ 52 <= Z.pos mx * 2 ^ 53 / Z.pos my).
  { apply Z.div_le_lower_bound; [lia|]. nia. }
  assert (N : normal_input (Z.pos mx * 2 ^ 53) (Z.pos my) (ex - ey - 53)).
  { assert (D : 53 <= Zdigits2 (Z.pos mx * 2 ^ 53 / Z.pos my)).
    { destruct (Z.pos mx * 2 ^ 53 / Z.pos my) as [|p|p] eqn:E; try lia.
      cbn [Zdigits2]. pose proof (digits2_pos_bound p) as [_ U].
      destruct (Z.le_gt_cases 53 (Z.pos (digits2_pos p))) as [|G]; [assumption|].
      assert (2 ^ Z.pos (digits2_pos p) <= 2 ^ 52) by (apply Z.pow_le_mono_r; lia).
      lia. }
    constructor; lia. }
  split; [exact N|].
  unfold SFdiv, SFdiv_core_binary. cbn [Zdigits2 xorb]. rewrite Dx, Dy, fexp_val.
  replace (Z.min (Z.max (53 + ex - (53 + ey) - 53) (-1074)) (ex - ey))
    with (ex - ey - 53) by lia.
  replace (ex - ey - (ex - ey - 53)) with 53 by lia.
  rewrite Z.shiftl_mul_pow2 by lia.
  pose proof (Z.div_mod (Z.pos mx * 2 ^ 53) (Z.pos my) ltac:(lia)) as E.
  pose proof (Z.mod_pos_bound (Z.pos mx * 2 ^ 53) (Z.pos my) ltac:(lia)) as M.
  assert (Ediv : Z.div_eucl (Z.pos mx * 2 ^ 53) (Z.pos my)
                 = (Z.pos mx * 2 ^ 53 / Z.pos my, (Z.pos mx * 2 ^ 53) mod Z.pos my))
    by (unfold Z.div, Z.modulo; destruct (Z.div_eucl _ _); reflexivity).
  rewrite Ediv. unfold round_normal.
  destruct N as [_ _ Hq Hd Hn].
  rewrite (bra_normal _ (ex - ey - 53) _ (Z.pos mx * 2 ^ 53) (Z.pos my)); try lia.
  - reflexivity.
  - rewrite E at 3. 
    replace (Z.pos my * (Z.pos mx * 2 ^ 53 / Z.pos my) + (Z.pos mx * 2 ^ 53) mod Z.pos my)
      with ((Z.pos mx * 2 ^ 53 / Z.pos my) * Z.pos my + (Z.pos mx * 2 ^ 53) mod Z.pos my) by ring.
    apply new_location_rep; lia.
Qed.

Lemma bra_exact p e :
  53 <= Z.pos (digits2_pos p) -> -1074 <= Z.pos (digits2_pos p) + e - 53 ->
  normal_input (Z.pos p) 1 e
  /\ binary_round_aux prec emax false (Z.pos p) e loc_Exact = round_normal (Z.pos p) 1 e.
Proof.
  intros Hd Hn.
  assert (N : normal_input (Z.pos p) 1 e)
    by (constructor; rewrite ?Z.div_1_r; cbn [Zdigits2]; lia).
  split; [exact N|].
  rewrite (bra_normal _ e _ (Z.pos p) 1); cbn [Zdigits2]; try lia.
  - unfold round_normal. rewrite Z.div_1_r. reflexivity.
  - split; [rewrite shr_m_of_loc; lia|].
    rewrite code_of_loc. unfold scode. rewrite Z.div_1_r, Z.mod_1_r.
    change (0 =? 0) with true. cbv beta iota. lia.
Qed.

Lemma shl_align_snd m e e' : e' <= e -> snd (shl_align m e e') = e'.
Proof.
  intros H. unfold shl_align.
  destruct (e' - e) as [|d|d] eqn:E; cbn [snd]; lia.
Qed.

Lemma shl_align_id m e e' : e <= e' -> shl_align m e e' = (m, e).
Proof.
  intros H. unfold shl_align.
  destruct (e' - e) as [|d|d] eqn:E; try reflexivity; lia.
Qed.

Lemma digits_shift (p q : positive) k :
  0 <= k -> Z.pos q = Z.pos p * 2 ^ k ->
  Z.pos (digits2_pos q) = Z.pos (digits2_pos p) + k.
Proof.
  intros Hk E. apply digits_unique. rewrite E.
  pose proof (digits2_pos_bound p) as [L U].
  pose proof (pow2_pos k Hk).
  replace (Z.pos (digits2_pos p) + k - 1) with (Z.pos (digits2_pos p) - 1 + k) by lia.
  rewrite !Z.pow_add_r by lia. nia.
Qed.

(** An exact positive integer [p * 2 ^ e], brought to at least 53 digits. *)
Lemma binary_round_exact p e :
  -1074 <= Z.pos (digits2_pos p) + e - 53 ->
  let k := Z.max 0 (53 - Z.pos (digits2_pos p)) in
  normal_input (Z.pos p * 2 ^ k) 1 (e - k)
  /\ binary_round prec emax false p e = round_normal (Z.pos p * 2 ^ k) 1 (e - k).
Proof.
  intros Hn k. unfold binary_round. rewrite fexp_val.
  replace (Z.max (Z.pos (digits2_pos p) + e - 53) (-1074))
    with (Z.pos (digits2_pos p) + e - 53) by lia.
  destruct (Z.le_gt_cases 53 (Z.pos (digits2_pos p))) as [G|L].
  - rewrite shl_align_id by lia.
    replace k with 0 by lia. rewrite Z.mul_1_r, Z.sub_0_r.
    apply bra_exact; lia.
  - pose proof (shl_align_fst p e (Z.pos (digits2_pos p) + e - 53) ltac:(lia)) as F.
    pose proof (shl_align_snd p e (Z.pos (digits2_pos p) + e - 53) ltac:(lia)) as S.
    destruct (shl_align p e _) as [mz ez]. cbn [fst snd] in F, S. subst ez.
    replace (e - (Z.pos (digits2_pos p) + e - 53)) with k in F by lia.
    replace (Z.pos (digits2_pos p) + e - 53) with (e - k) by lia.
    rewrite <- F.
    pose proof (digits_shift p mz k ltac:(lia) F) as D.
    apply bra_exact; lia.
Qed.

(** A mantissa of exactly 53 digits is its own rounding. *)
Lemma round_normal_exact p e :
  Z.pos (digits2_pos p) = 53 -> e <= 971 ->
  round_normal (Z.pos p) 1 e = S754_finite false p e.
Proof.
  intros D He. unfold round_normal. rewrite Z.div_1_r. cbn [Zdigits2].
  rewrite D. change (53 - 53) with 0. change (2 ^ 0) with 1.
  replace (53 + e - 53) with e by lia.
  pose proof (digits2_pos_bound p) as [L U]. rewrite D in L, U.
  change (53 - 1) with 52 in L.
  assert (R : rne (scode (Z.pos p) (1 * 1)) = Z.pos p).
  { unfold scode. change (1 * 1) with 1. rewrite Z.div_1_r, Z.mod_1_r.
    change (0 =? 0) with true. cbv beta iota.
    unfold rne. replace (2 * (2 * Z.pos p) + 0) with (Z.pos p * 4) by lia.
    rewrite Z.div_mul, Z.mod_mul by lia. cbn. lia. }
  unfold rounded. rewrite R.
  destruct (Z.eqb_spec (Z.pos p) (2 ^ 53)); [lia|].
  unfold pack. cbn [fst snd]. destruct (Z.leb_spec e 971); [reflexivity | lia].
Qed.

(** The product of two positive numbers, the first with a full mantissa. *)
Lemma SFmul_round mx ex my ey :
  Z.pos (digits2_pos mx) = 53 -> -1074 <= ex + ey ->
  normal_input (Z.pos mx * Z.pos my) 1 (ex + ey)
  /\ SFmul prec emax (S754_finite false mx ex) (S754_finite false my ey)
     = round_normal (Z.pos mx * Z.pos my) 1 (ex + ey).
Proof.
  intros D Hn. unfold SFmul. cbn [xorb].
  change (Z.pos mx * Z.pos my) with (Z.pos (mx * my)).
  apply bra_exact.
  - pose proof (digits2_pos_bound mx) as [L _]. rewrite D in L.
    pose proof (digits2_pos_bound (mx * my)) as [_ U].
    destruct (Z.le_gt_cases 53 (Z.pos (digits2_pos (mx * my)))) as [|G]; [assumption|].
    assert (2 ^ Z.pos (digits2_pos (mx * my)) <= 2 ^ (53 - 1))
      by (apply Z.pow_le_mono_r; lia).
    nia.
  - pose proof (digits2_pos_bound mx) as [L _]. rewrite D in L.
    pose proof (digits2_pos_bound (mx * my)) as [_ U].
    destruct (Z.le_gt_cases 53 (Z.pos (digits2_pos (mx * my)))) as [|G]; [lia|].
    assert (2 ^ Z.pos (digits2_pos (mx * my)) <= 2 ^ (53 - 1))
      by (apply Z.pow_le_mono_r; lia).
    nia.
Qed.

(** The sum of two positive numbers, the first with a full mantissa. *)
Lemma SFadd_round mx ex my ey :
  Z.pos (digits2_pos mx) = 53 -> -1074 <= ex -> -1074 <= ey ->
  let ez := Z.min ex ey in
  let M := Z.pos mx * 2 ^ (ex - ez) + Z.pos my * 2 ^ (ey - ez) in
  normal_input M 1 ez
  /\ SFadd prec emax (S754_finite false mx ex) (S754_finite false my ey)
     = round_normal M 1 ez.
Proof.
  intros D Hx Hy ez M. unfold SFadd. fold ez. cbn [cond_Zopp].
  rewrite !shl_align_fst by lia. fold M.
  pose proof (digits2_pos_bound mx) as [L _]. rewrite D in L.
  pose proof (pow2_pos (ex - ez) ltac:(lia)) as Px.
  pose proof (pow2_pos (ey - ez) ltac:(lia)) as Py.
  assert (HM : 2 ^ 52 <= M) by (change (53 - 1) with 52 in L; unfold M; nia).
  assert (P52 : 0 < 2 ^ 52) by (apply pow2_pos; lia).
  destruct M as [|p|p] eqn:EM; try lia. cbn [binary_normalize].
  assert (Dp : 53 <= Z.pos (digits2_pos p)).
  { pose proof (digits2_pos_bound p) as [_ U].
    destruct (Z.le_gt_cases 53 (Z.pos (digits2_pos p))) as [|G]; [assumption|].
    assert (2 ^ Z.pos (digits2_pos p) <= 2 ^ 52) by (apply Z.pow_le_mono_r; lia).
    lia. }
  pose proof (binary_round_exact p ez ltac:(lia)) as B. cbv zeta in B.
  replace (Z.max 0 (53 - Z.pos (digits2_pos p))) with 0 in B by lia.
  rewrite Z.mul_1_r, Z.sub_0_r in B. exact B.
Qed.

Lemma round_normal_cases A B e :
  normal_input A B e ->
  (exists m e', round_normal A B e = S754_finite false m e'
     /\ Z.pos (digits2_pos m) = 53
     /\ exponent_of A B e <= e' <= exponent_of A B e + 1)
  \/ round_normal A B e = S754_infinity false.
Proof.
  intros N. pose proof (rne_range _ _ _ N) as R.
  unfold round_normal, rounded, exponent_of in *.
  remember (rne _) as r eqn:Er. clear Er.
  remember (Zdigits2 (A / B) + e - 53) as E eqn:EE. clear EE.
  destruct (Z.eqb_spec r (2 ^ 53)) as [->|Hr].
  - unfold pack. cbn [fst snd]. change (2 ^ 52) with (Z.pos (2 ^ 52)).
    destruct (Z.leb_spec (E + 1) 971); [left | right; reflexivity].
    exists (2 ^ 52)%positive, (E + 1).
    split; [reflexivity|]. split; [reflexivity | lia].
  - destruct r as [|p|p]; try lia.
    unfold pack. cbn [fst snd].
    destruct (Z.leb_spec E 971); [left | right; reflexivity].
    exists p, E. split; [reflexivity|]. split; [|lia].
    apply digits_unique. change (53 - 1) with 52. lia.
Qed.

Lemma exponent_of_lower A B e : normal_input A B e -> e <= exponent_of A B e.
Proof. intros [_ _ _ Hd _]. unfold exponent_of. lia. Qed.

Lemma round_normal_below A B e mb eb :
  normal_input A B e ->
  SFleb (round_normal A B e) (S754_finite false mb eb) = true ->
  exists m e', round_normal A B e = S754_finite false m e'
    /\ Z.pos (digits2_pos m) = 53 /\ e <= e' <= eb.
Proof.
  intros N H. pose proof (exponent_of_lower _ _ _ N) as Lo.
  destruct (round_normal_cases _ _ _ N) as [(m & e' & E & D & B')|E];
    rewrite E in H; [|discriminate].
  exists m, e'. split; [exact E|]. split; [exact D|]. split; [lia|].
  unfold SFleb, SFcompare in H.
  destruct (Z.compare_spec e' eb); try lia; discriminate.
Qed.

(** The order of two numbers with full mantissas is the order of their
    values, and conversely. *)
Lemma SFleb_value ma ea mb eb e0 :
  Z.pos (digits2_pos ma) = 53 -> Z.pos (digits2_pos mb) = 53 ->
  e0 <= ea -> e0 <= eb ->
  SFleb (S754_finite false ma ea) (S754_finite false mb eb) = true ->
  Z.pos ma * 2 ^ (ea - e0) <= Z.pos mb * 2 ^ (eb - e0).
Proof.
  intros Da Db Ha Hb H.
  pose proof (digits2_pos_bound ma) as [La Ua]. rewrite Da in La, Ua.
  pose proof (digits2_pos_bound mb) as [Lb Ub]. rewrite Db in Lb, Ub.
  change (53 - 1) with 52 in *.
  pose proof (pow2_pos (ea - e0) ltac:(lia)) as Pa.
  pose proof (pow2_pos (eb - e0) ltac:(lia)) as Pb.
  unfold SFleb, SFcompare in H.
  destruct (Z.compare_spec ea eb) as [E|L|G]; try discriminate.
  - subst eb. change (Pos.compare_cont Eq ma mb) with (Pos.compare ma mb) in H.
    destruct (Pos.compare_spec ma mb); try discriminate; nia.
  - assert (T : 2 ^ 53 * 2 ^ (ea - e0) <= 2 ^ 52 * 2 ^ (eb - e0)).
    { rewrite <- !Z.pow_add_r by lia. apply Z.pow_le_mono_r; lia. }
    nia.
Qed.

(** *** Monotone operations on normal numbers *)

Lemma SFdiv_mono m1 e1 m2 e2 my ey :
  Z.pos (digits2_pos m1) = 53 -> Z.pos (digits2_pos m2) = 53 ->
  Z.pos (digits2_pos my) = 53 ->
  -1074 <= e1 - ey - 53 -> -1074 <= e2 - ey - 53 ->
  SFleb (S754_finite false m1 e1) (S754_finite false m2 e2) = true ->
  SFleb (SFdiv prec emax (S754_finite false m1 e1) (S754_finite false my ey))
        (SFdiv prec emax (S754_finite false m2 e2) (S754_finite false my ey)) = true.
Proof.
  intros D1 D2 Dy R1 R2 H.
  destruct (SFdiv_round m1 e1 my ey D1 Dy R1) as [N1 ->].
  destruct (SFdiv_round m2 e2 my ey D2 Dy R2) as [N2 ->].
  pose proof (SFleb_value m1 e1 m2 e2 (Z.min e1 e2) D1 D2 ltac:(lia) ltac:(lia) H) as V.
  apply round_normal_mono with (e0 := Z.min e1 e2 - ey - 53); try assumption; try lia.
  replace (e1 - ey - 53 - (Z.min e1 e2 - ey - 53)) with (e1 - Z.min e1 e2) by lia.
  replace (e2 - ey - 53 - (Z.min e1 e2 - ey - 53)) with (e2 - Z.min e1 e2) by lia.
  assert (P53 : 0 < 2 ^ 53) by (apply pow2_pos; lia).
  remember (2 ^ (e1 - Z.min e1 e2)) as P1. remember (2 ^ (e2 - Z.min e1 e2)) as P2.
  remember (2 ^ 53) as K.
  replace (Z.pos m1 * K * Z.pos my * P1) with (Z.pos m1 * P1 * (K * Z.pos my)) by ring.
  replace (Z.pos m2 * K * Z.pos my * P2) with (Z.pos m2 * P2 * (K * Z.pos my)) by ring.
  apply Z.mul_le_mono_nonneg_r; [nia | exact V].
Qed.

Lemma SFmul_mono m1 e1 m2 e2 my ey :
  Z.pos (digits2_pos m1) = 53 -> Z.pos (digits2_pos m2) = 53 ->
  -1074 <= e1 + ey -> -1074 <= e2 + ey ->
  SFleb (S754_finite false m1 e1) (S754_finite false m2 e2) = true ->
  SFleb (SFmul prec emax (S754_finite false m1 e1) (S754_finite false my ey))
        (SFmul prec emax (S754_finite false m2 e2) (S754_finite false my ey)) = true.
Proof.
  intros D1 D2 R1 R2 H.
  destruct (SFmul_round m1 e1 my ey D1 R1) as [N1 ->].
  destruct (SFmul_round m2 e2 my ey D2 R2) as [N2 ->].
  pose proof (SFleb_value m1 e1 m2 e2 (Z.min e1 e2) D1 D2 ltac:(lia) ltac:(lia) H) as V.
  apply round_normal_mono with (e0 := Z.min e1 e2 + ey); try assumption; try lia.
  replace (e1 + ey - (Z.min e1 e2 + ey)) with (e1 - Z.min e1 e2) by lia.
  replace (e2 + ey - (Z.min e1 e2 + ey)) with (e2 - Z.min e1 e2) by lia.
  remember (2 ^ (e1 - Z.min e1 e2)) as P1. remember (2 ^ (e2 - Z.min e1 e2)) as P2.
  replace (Z.pos m1 * Z.pos my * 1 * P1) with (Z.pos m1 * P1 * Z.pos my) by ring.
  replace (Z.pos m2 * Z.pos my * 1 * P2) with (Z.pos m2 * P2 * Z.pos my) by ring.
  apply Z.mul_le_mono_nonneg_r; [lia | exact V].
Qed.

Lemma add_value mx ex my ey e0 :
  e0 <= ex -> e0 <= ey ->
  (Z.pos mx * 2 ^ (ex - Z.min ex ey) + Z.pos my * 2 ^ (ey - Z.min ex ey))
  * 2 ^ (Z.min ex ey - e0)
  = Z.pos mx * 2 ^ (ex - e0) + Z.pos my * 2 ^ (ey - e0).
Proof.
  intros Hx Hy. rewrite Z.mul_add_distr_r, <- !Z.mul_assoc, <- !Z.pow_add_r by lia.
  f_equal; f_equal; f_equal; lia.
Qed.

Lemma SFadd_mono mx ex m1 e1 m2 e2 :
  Z.pos (digits2_pos mx) = 53 ->
  Z.pos (digits2_pos m1) = 53 -> Z.pos (digits2_pos m2) = 53 ->
  -1074 <= ex -> -1074 <= e1 -> -1074 <= e2 ->
  SFleb (S754_finite false m1 e1) (S754_finite false m2 e2) = true ->
  SFleb (SFadd prec emax (S754_finite false mx ex) (S754_finite false m1 e1))
        (SFadd prec emax (S754_finite false mx ex) (S754_finite false m2 e2)) = true.
Proof.
  intros Dx D1 D2 Rx R1 R2 H.
  destruct (SFadd_round mx ex m1 e1 Dx Rx R1) as [N1 ->].
  destruct (SFadd_round mx ex m2 e2 Dx Rx R2) as [N2 ->].
  set (e0 := Z.min ex (Z.min e1 e2)).
  pose proof (SFleb_value m1 e1 m2 e2 e0 D1 D2 ltac:(lia) ltac:(lia) H) as V.
  apply round_normal_mono with (e0 := e0); try assumption; try lia.
  rewrite !Z.mul_1_r.
  rewrite !add_value by lia. lia.
Qed.

(** A sum is no less than its first term. *)
Lemma SFadd_lower mx ex my ey :
  Z.pos (digits2_pos mx) = 53 -> -1074 <= ex -> ex <= 971 -> -1074 <= ey ->
  SFleb (S754_finite false mx ex)
        (SFadd prec emax (S754_finite false mx ex) (S754_finite false my ey)) = true.
Proof.
  intros Dx Rx Ux Ry.
  destruct (SFadd_round mx ex my ey Dx Rx Ry) as [N ->].
  rewrite <- (round_normal_exact mx ex Dx Ux).
  assert (N0 : normal_input (Z.pos mx) 1 ex)
    by (constructor; rewrite ?Z.div_1_r; cbn [Zdigits2]; lia).
  apply round_normal_mono with (e0 := Z.min ex ey); try assumption; try lia.
  rewrite !Z.mul_1_r.
  replace (Z.min ex ey - Z.min ex ey) with 0 by lia. change (2 ^ 0) with 1.
  pose proof (pow2_pos (ey - Z.min ex ey) ltac:(lia)).
  nia.
Qed.

(** *** Integers as numbers *)

Lemma normal_input_exact p e :
  Z.pos (digits2_pos p) = 53 -> -1074 <= e -> normal_input (Z.pos p) 1 e.
Proof.
  intros D He. constructor; rewrite ?Z.div_1_r; cbn [Zdigits2]; lia.
Qed.

Lemma value_SFleb ma ea mb eb e0 :
  Z.pos (digits2_pos ma) = 53 -> Z.pos (digits2_pos mb) = 53 ->
  -1074 <= ea <= 971 -> -1074 <= eb <= 971 -> e0 <= ea -> e0 <= eb ->
  Z.pos ma * 2 ^ (ea - e0) <= Z.pos mb * 2 ^ (eb - e0) ->
  SFleb (S754_finite false ma ea) (S754_finite false mb eb) = true.
Proof.
  intros Da Db Ra Rb Ha Hb V.
  rewrite <- (round_normal_exact ma ea Da) by lia.
  rewrite <- (round_normal_exact mb eb Db) by lia.
  apply round_normal_mono with (e0 := e0);
    try (apply normal_input_exact; lia); try lia.
Qed.

(** A positive integer below [2 ^ 53] converts exactly. *)
Lemma integer_normal k :
  1 <= k < 2 ^ 53 ->
  exists m e, integer k = S754_finite false m e
    /\ Z.pos (digits2_pos m) = 53 /\ -52 <= e <= 0
    /\ Z.pos m = k * 2 ^ (- e).
Proof.
  intros [L U]. destruct k as [|p|p]; try lia. unfold integer. cbn [binary_normalize].
  pose proof (digits2_pos_bound p) as [Lp Up].
  assert (D : Z.pos (digits2_pos p) <= 53).
  { destruct (Z.le_gt_cases (Z.pos (digits2_pos p)) 53) as [|G]; [assumption|].
    assert (2 ^ 53 <= 2 ^ (Z.pos (digits2_pos p) - 1)) by (apply Z.pow_le_mono_r; lia).
    lia. }
  destruct (binary_round_exact p 0 ltac:(lia)) as [N E]. cbv zeta in *.
  replace (Z.max 0 (53 - Z.pos (digits2_pos p)))
    with (53 - Z.pos (digits2_pos p)) in * by lia.
  remember (53 - Z.pos (digits2_pos p)) as k eqn:Ek.
  pose proof (pow2_pos k ltac:(lia)) as Pk.
  destruct (Z.pos p * 2 ^ k) as [|q|q] eqn:Eq; try lia.
  pose proof (digits_shift p q k ltac:(lia) (eq_sym Eq)) as Dq.
  exists q, (0 - k). rewrite E.
  split; [apply round_normal_exact; lia|].
  split; [lia|]. split; [lia|].
  replace (- (0 - k)) with k by lia. symmetry. exact Eq.
Qed.

Lemma integer_mono i j :
  1 <= i -> i <= j -> j < 2 ^ 53 -> SFleb (integer i) (integer j) = true.
Proof.
  intros H1 H2 H3.
  destruct (integer_normal i ltac:(lia)) as (mi & ei & -> & Di & Ri & Vi).
  destruct (integer_normal j ltac:(lia)) as (mj & ej & -> & Dj & Rj & Vj).
  apply value_SFleb with (e0 := -52); try lia.
  rewrite Vi, Vj, <- !Z.mul_assoc, <- !Z.pow_add_r by lia.
  replace (- ei + (ei - -52)) with 52 by lia.
  replace (- ej + (ej - -52)) with 52 by lia.
  apply Z.mul_le_mono_nonneg_r; [|exact H2].
  apply Z.lt_le_incl, pow2_pos. lia.
Qed.

(** *** The percentage of an entry *)

Lemma SFdiv_below_one x n :
  normal x (-52) 0 -> normal n (-52) 0 -> SFleb x n = true ->
  normal (SFdiv prec emax x n) (-105) (-52)
  /\ SFleb (SFdiv prec emax x n) sf1 = true.
Proof.
  intros (mx & ex & -> & Dx & Rx) (my & ey & -> & Dy & Ry) H.
  destruct (SFdiv_round mx ex my ey Dx Dy ltac:(lia)) as [N E]. rewrite E.
  pose proof (SFleb_value mx ex my ey (-52) Dx Dy ltac:(lia) ltac:(lia) H) as V.
  assert (B : SFleb (round_normal (Z.pos mx * 2 ^ 53) (Z.pos my) (ex - ey - 53)) sf1 = true).
  { unfold sf1. rewrite <- (round_normal_exact (2 ^ 52) (-52)) by (reflexivity || lia).
    apply round_normal_mono with (e0 := -105 - ey); try assumption; try lia.
    - apply normal_input_exact; [reflexivity | lia].
    - replace (ex - ey - 53 - (-105 - ey)) with (ex - -52) by lia.
      replace (-52 - (-105 - ey)) with (1 + (ey - -52)) by lia.
      rewrite Z.pow_add_r by lia. change (2 ^ 1) with 2.
      change (Z.pos (2 ^ 52)) with (2 ^ 52).
      change (2 ^ 53) with (2 ^ 52 * 2).
      assert (P52 : 0 < 2 ^ 52) by (apply pow2_pos; lia).
      remember (2 ^ (ex - -52)) as P1. remember (2 ^ (ey - -52)) as P2.
      remember (2 ^ 52) as K.
      replace (Z.pos mx * (K * 2) * 1 * P1) with (Z.pos mx * P1 * (K * 2)) by ring.
      replace (K * Z.pos my * (2 * P2)) with (Z.pos my * P2 * (K * 2)) by ring.
      apply Z.mul_le_mono_nonneg_r; lia. }
  split; [|exact B].
  destruct (round_normal_below _ _ _ _ _ N B) as (m & e' & -> & D & R).
  exists m, e'. repeat split; try assumption; lia.
Qed.

Lemma SFmul_below_sixty q :
  normal q (-105) (-52) -> SFleb q sf1 = true ->
  normal (SFmul prec emax q sf60) (-152) (-47)
  /\ SFleb (SFmul prec emax q sf60) sf60 = true.
Proof.
  intros (m & e & -> & D & R) H.
  assert (B : SFleb (SFmul prec emax (S754_finite false m e) sf60) sf60 = true).
  { change sf60 with (SFmul prec emax sf1 sf60) at 2.
    apply SFmul_mono; try assumption; try reflexivity; lia. }
  split; [|exact B].
  destruct (SFmul_round m e 8444249301319680 (-47) D ltac:(lia)) as [N E].
  unfold sf60 in *. rewrite E in *.
  destruct (round_normal_below _ _ _ _ _ N B) as (m' & e' & -> & D' & R').
  exists m', e'. repeat split; try assumption; lia.
Qed.

Lemma SFadd_twenty y :
  normal y (-152) (-47) -> SFleb y sf60 = true ->
  SFleb sf20 (SFadd prec emax sf20 y) = true
  /\ SFleb (SFadd prec emax sf20 y) sf80 = true.
Proof.
  intros (m & e & -> & D & R) H. split.
  - apply SFadd_lower; try assumption; try reflexivity; lia.
  - change sf80 with (SFadd prec emax sf20 sf60).
    apply SFadd_mono; try assumption; try reflexivity; lia.
Qed.

Lemma percent_bounds x n :
  normal x (-52) 0 -> normal n (-52) 0 -> SFleb x n = true ->
  SFleb sf20 (percent x n) = true /\ SFleb (percent x n) sf80 = true.
Proof.
  intros Hx Hn H. unfold percent.
  destruct (SFdiv_below_one x n Hx Hn H) as [Nq Bq].
  destruct (SFmul_below_sixty _ Nq Bq) as [Ny By].
  apply SFadd_twenty; assumption.
Qed.

Lemma percent_mono x1 x2 n :
  normal x1 (-52) 0 -> normal x2 (-52) 0 -> normal n (-52) 0 ->
  SFleb x1 x2 = true -> SFleb x1 n = true -> SFleb x2 n = true ->
  SFleb (percent x1 n) (percent x2 n) = true.
Proof.
  intros H1 H2 Hn H12 H1n H2n. unfold percent.
  destruct (SFdiv_below_one x1 n H1 Hn H1n) as [Nq1 Bq1].
  destruct (SFdiv_below_one x2 n H2 Hn H2n) as [Nq2 Bq2].
  destruct (SFmul_below_sixty _ Nq1 Bq1) as [Ny1 By1].
  destruct (SFmul_below_sixty _ Nq2 Bq2) as [Ny2 By2].
  assert (Q : SFleb (SFdiv prec emax x1 n) (SFdiv prec emax x2 n) = true).
  { destruct H1 as (m1 & e1 & -> & D1 & R1), H2 as (m2 & e2 & -> & D2 & R2),
             Hn as (mn & en & -> & Dn & Rn).
    apply SFdiv_mono; try assumption; lia. }
  assert (Y : SFleb (SFmul prec emax (SFdiv prec emax x1 n) sf60)
                    (SFmul prec emax (SFdiv prec emax x2 n) sf60) = true).
  { destruct Nq1 as (m1 & e1 & E1 & D1 & R1), Nq2 as (m2 & e2 & E2 & D2 & R2).
    rewrite E1, E2 in *. apply SFmul_mono; try assumption; lia. }
  destruct Ny1 as (m1 & e1 & E1 & D1 & R1), Ny2 as (m2 & e2 & E2 & D2 & R2).
  rewrite E1, E2 in *. apply SFadd_mono; try assumption; try reflexivity; lia.
Qed.

Lemma percent_zero n lo hi : normal n lo hi -> percent (S754_zero false) n = sf20.
Proof. intros (m & e & -> & _). reflexivity. Qed.

(** *** Back to the numbers of the program *)

Lemma Prim2SF_numberOfNat n :
  Z.of_nat n < 2 ^ 53 -> Prim2SF (numberOfNat n) = integer (Z.of_nat n).
Proof.
  intros H. unfold numberOfNat, integer.
  rewrite of_uint63_spec, Uint63.of_Z_spec, Z.mod_small; [reflexivity|].
  split; [lia|]. apply Z.lt_trans with (2 ^ 53); [exact H | reflexivity].
Qed.

Lemma Prim2SF_entryProgress i n :
  Z.of_nat i < 2 ^ 53 -> Z.of_nat n < 2 ^ 53 ->
  Prim2SF (entryProgress i n)
  = percent (integer (Z.of_nat i)) (integer (Z.of_nat n)).
Proof.
  intros Hi Hn. unfold entryProgress.
  rewrite add_spec, mul_spec, div_spec, !Prim2SF_numberOfNat by assumption.
  reflexivity.
Qed.

Lemma integer_normal' k : 1 <= k < 2 ^ 53 -> normal (integer k) (-52) 0.
Proof.
  intros H. destruct (integer_normal k H) as (m & e & E & D & R & _).
  exists m, e. repeat split; try assumption; lia.
Qed.

(** [20 + (i / n) * 60] lies between 20 and 80 for [i < n], and rises with
    [i]. *)
Lemma entryProgress_bounds i n :
  (i < n)%nat -> Z.of_nat n < 2 ^ 53 ->
  (20 <=? entryProgress i n)%float = true
  /\ (entryProgress i n <=? 80)%float = true.
Proof.
  intros Hin Hn. rewrite !leb_spec, Prim2SF_entryProgress by lia.
  change (Prim2SF 20) with sf20. change (Prim2SF 80) with sf80.
  destruct i as [|i].
  - rewrite (percent_zero _ (-52) 0) by (apply integer_normal'; lia).
    split; reflexivity.
  - apply percent_bounds; try (apply integer_normal'; lia).
    apply integer_mono; lia.
Qed.

Lemma entryProgress_mono i j n :
  (i <= j)%nat -> (j < n)%nat -> Z.of_nat n < 2 ^ 53 ->
  (entryProgress i n <=? entryProgress j n)%float = true.
Proof.
  intros Hij Hjn Hn. destruct i as [|i].
  - destruct (entryProgress_bounds j n Hjn Hn) as [L _].
    rewrite leb_spec in *.
    rewrite (Prim2SF_entryProgress 0 n) by lia.
    change (integer (Z.of_nat 0)) with (S754_zero false).
    rewrite (percent_zero _ (-52) 0) by (apply integer_normal'; lia).
    exact L.
  - rewrite leb_spec, !Prim2SF_entryProgress by lia.
    apply percent_mono; try (apply integer_normal'; lia); apply integer_mono; lia.
Qed.
End RoundFacts.

(** ** Rounding in the whole range *)

Module NearestFacts.
Import FloatFacts Round RoundFacts Nearest.
Local Open Scope Z_scope.

Lemma le_rescale X Y a b a' b' :
  0 <= a -> 0 <= b -> 0 <= a' -> 0 <= b' -> a - b = a' - b' ->
  X * 2 ^ a <= Y * 2 ^ b -> X * 2 ^ a' <= Y * 2 ^ b'.
Proof.
  intros Ha Hb Ha' Hb' E H.
  destruct (Z.le_gt_cases a a') as [L|G].
  - replace a' with (a + (a' - a)) by lia. replace b' with (b + (a' - a)) by lia.
    rewrite !Z.pow_add_r by lia.
    pose proof (pow2_pos (a' - a) ltac:(lia)). nia.
  - replace a with (a' + (a - a')) in H by lia.
    replace b with (b' + (a - a')) in H by lia.
    rewrite !Z.pow_add_r in H by lia.
    pose proof (pow2_pos (a - a') ltac:(lia)). nia.
Qed.

Lemma vle_at X ex Y ey e0 :
  e0 <= ex -> e0 <= ey -> vle X ex Y ey -> X * 2 ^ (ex - e0) <= Y * 2 ^ (ey - e0).
Proof. intros H1 H2 H. unfold vle in H. eapply le_rescale; [| | | | |exact H]; lia. Qed.

Lemma vle_of X ex Y ey e0 :
  e0 <= ex -> e0 <= ey -> X * 2 ^ (ex - e0) <= Y * 2 ^ (ey - e0) -> vle X ex Y ey.
Proof. intros H1 H2 H. unfold vle. eapply le_rescale; [| | | | |exact H]; lia. Qed.

Lemma Zdigits2_bound m : 0 <= m -> 0 <= Zdigits2 m /\ m < 2 ^ Zdigits2 m.
Proof.
  intros H. destruct m as [|p|p]; try lia; cbn [Zdigits2].
  - cbn. lia.
  - pose proof (digits2_pos_bound p). lia.
Qed.

Lemma Zdigits2_lower m : 0 < m -> 2 ^ (Zdigits2 m - 1) <= m.
Proof.
  intros H. destruct m as [|p|p]; try lia; cbn [Zdigits2].
  apply digits2_pos_bound.
Qed.

Lemma Zdigits2_ge m k : 0 <= k -> 2 ^ k <= m -> k + 1 <= Zdigits2 m.
Proof.
  intros Hk H. pose proof (pow2_pos k Hk).
  destruct (Zdigits2_bound m ltac:(lia)) as [D U].
  destruct (Z.le_gt_cases (k + 1) (Zdigits2 m)) as [|G]; [assumption|].
  assert (2 ^ Zdigits2 m <= 2 ^ k) by (apply Z.pow_le_mono_r; lia). lia.
Qed.

Lemma shr_noshift mrs e n : n <= 0 -> shr mrs e n = (mrs, e).
Proof. intros H. unfold shr. destruct n; try reflexivity. lia. Qed.

Lemma rne_exact K : rne (4 * K) = K.
Proof.
  unfold rne. replace (4 * K / 4) with K by (Z.to_euclidean_division_equations; lia).
  replace ((4 * K) mod 4) with 0 by (Z.to_euclidean_division_equations; lia).
  cbn. lia.
Qed.

Lemma scode_nonneg A B : 0 <= A -> 0 < B -> 0 <= scode A B.
Proof.
  intros HA HB. unfold scode.
  assert (0 <= 2 * A / B) by (apply Z.div_pos; lia).
  destruct (_ =? 0); lia.
Qed.

Lemma rep_quotient m l A B :
  0 <= A -> 0 < B -> rep (shr_record_of_loc m l) A B -> m = A / B.
Proof.
  intros HA HB [_ Hc].
  rewrite <- (scode_div4 A B HA HB), <- Hc, code_div4, shr_m_of_loc. reflexivity.
Qed.

(** [binary_round_aux] is [pack0] of [rounded] at the target exponent, for
    every input that does not lie above it. *)
Lemma bra_general m e l A B :
  0 <= m -> 0 <= A -> 0 < B -> rep (shr_record_of_loc m l) A B ->
  e <= target (Zdigits2 m) e ->
  binary_round_aux prec emax false m e l
  = pack0 (rounded (scode A (B * 2 ^ (target (Zdigits2 m) e - e)))
             (target (Zdigits2 m) e))
  /\ 0 <= rne (scode A (B * 2 ^ (target (Zdigits2 m) e - e))) <= 2 ^ 53.
Proof.
  intros Hm HA HB R Hk.
  destruct (Zdigits2_bound m Hm) as [Hd Um].
  set (d := Zdigits2 m) in *. set (E := target d e) in *.
  assert (HE : -1074 <= E /\ d + e - 53 <= E) by (unfold E, target; lia).
  unfold binary_round_aux, shr_fexp at 1. fold d.
  rewrite fexp_val. change (Z.max (d + e - 53) (-1074)) with E.
  assert (S1 : exists mrs', shr (shr_record_of_loc m l) e (E - e) = (mrs', E)
                            /\ rep mrs' A (B * 2 ^ (E - e))
                            /\ 0 <= shr_m mrs' < 2 ^ 53).
  { unfold shr. destruct (E - e) as [|q|q] eqn:K; try lia.
    - exists (shr_record_of_loc m l). rewrite Z.mul_1_r.
      replace E with e by lia.
      split; [reflexivity|]. split; [exact R|].
      rewrite shr_m_of_loc. split; [exact Hm|].
      assert (2 ^ d <= 2 ^ 53) by (apply Z.pow_le_mono_r; lia). lia.
    - exists (iter_pos shr_1 q (shr_record_of_loc m l)).
      replace (e + Z.pos q) with E by lia.
      split; [reflexivity|]. split; [apply rep_iter; assumption|].
      rewrite iter_shr_1_m, shr_m_of_loc by (rewrite shr_m_of_loc; lia).
      pose proof (pow2_pos (Z.pos q) ltac:(lia)) as Pq.
      split; [apply Z.div_pos; lia|].
      apply Z.div_lt_upper_bound; [lia|].
      rewrite <- Z.pow_add_r by lia.
      assert (2 ^ d <= 2 ^ (Z.pos q + 53)) by (apply Z.pow_le_mono_r; lia). lia. }
  destruct S1 as (mrs' & -> & R' & B').
  rewrite round_nearest_even_code.
  destruct R' as [Hm' Hc'].
  pose proof (rne_bounds (code_of mrs')) as Bc. rewrite code_div4 in Bc.
  rewrite Hc' in *.
  remember (scode A (B * 2 ^ (E - e))) as c eqn:Ec. clear Ec.
  split; [|lia].
  unfold rounded, pack0.
  destruct (Z.eqb_spec (rne c) (2 ^ 53)) as [E53|N53].
  - rewrite E53. cbn [fst snd]. unfold shr_fexp. rewrite fexp_val.
    change (Zdigits2 (2 ^ 53)) with 54. rewrite Z.max_l by lia.
    replace (54 + E - 53 - E) with 1 by lia.
    cbn. replace (E + 1 <=? 971) with (E + 1 <=? emax - prec) by reflexivity.
    reflexivity.
  - assert (Br : 0 <= rne c < 2 ^ 53) by lia.
    cbn [fst snd].
    destruct (rne c) as [|r|r] eqn:Er; try lia.
    + unfold shr_fexp. rewrite fexp_val. cbn [Zdigits2].
      rewrite shr_noshift by lia. reflexivity.
    + pose proof (digits2_pos_bound r) as [Lr Ur].
      assert (Dr : Z.pos (digits2_pos r) <= 53).
      { destruct (Z.le_gt_cases (Z.pos (digits2_pos r)) 53) as [|G]; [assumption|].
        assert (2 ^ 53 <= 2 ^ (Z.pos (digits2_pos r) - 1))
          by (apply Z.pow_le_mono_r; lia). lia. }
      unfold shr_fexp. rewrite fexp_val. cbn [Zdigits2].
      rewrite shr_noshift by lia.
      cbn [shr_record_of_loc shr_m]. reflexivity.
Qed.

Lemma valid_canonical s m e :
  valid_binary (S754_finite s m e) = true ->
  target (Z.pos (digits2_pos m)) e = e /\ e <= 971.
Proof.
  intros V. pose proof (valid_finite _ _ _ V) as (He & Hd & Hn).
  rewrite emin_val in *.
  cbn [SpecFloat.valid_binary] in V. unfold bounded in V.
  apply andb_prop in V. destruct V as [_ V]. apply Z.leb_le in V.
  change (emax - prec) with 971 in V.
  split; [|exact V]. unfold target.
  destruct (Z.eq_dec e (-1074)) as [->|N]; [lia|].
  rewrite Hn by lia. lia.
Qed.

Lemma pack0_le M E mu eu :
  0 <= M -> eu <= 971 ->
  M = 0 \/ E < eu \/ (E = eu /\ M <= Z.pos mu) ->
  SFleb (pack0 (M, E)) (S754_finite false mu eu) = true.
Proof.
  intros HM Hu H. unfold pack0. cbn [fst snd].
  destruct M as [|p|p]; try lia; [reflexivity|].
  destruct H as [H|H]; [lia|].
  destruct (Z.leb_spec E 971); [|lia].
  unfold SFleb, SFcompare.
  destruct (Z.compare_spec E eu); try reflexivity; try lia.
  change (Pos.compare_cont Eq p mu) with (Pos.compare p mu).
  destruct (Pos.compare_spec p mu); try reflexivity; lia.
Qed.

(** A result is not above a binary64 number that the exact value is not
    above. *)
Lemma bra_upper m e l A B mu eu :
  0 <= m -> 0 <= A -> 0 < B -> rep (shr_record_of_loc m l) A B ->
  e <= target (Zdigits2 m) e ->
  valid_binary (S754_finite false mu eu) = true ->
  vle A e (B * Z.pos mu) eu ->
  SFleb (binary_round_aux prec emax false m e l) (S754_finite false mu eu) = true.
Proof.
  intros Hm HA HB R Hk V H.
  destruct (bra_general m e l A B Hm HA HB R Hk) as [-> Br].
  pose proof (rep_quotient _ _ _ _ HA HB R) as Eq.
  destruct (valid_canonical _ _ _ V) as [Cu Hu].
  pose proof (digits2_pos_bound mu) as [Lu Uu].
  destruct (Zdigits2_bound m Hm) as [Hd Um].
  set (d := Zdigits2 m) in *. set (du := Z.pos (digits2_pos mu)) in *.
  set (E := target d e) in *.
  assert (HE : -1074 <= E /\ d + e - 53 <= E) by (unfold E, target; lia).
  (* the magnitudes *)
  assert (Hmag : d + e <= du + eu).
  { destruct (Z.le_gt_cases (d + e) (du + eu)) as [|G]; [assumption|exfalso].
    assert (Pm : 0 < m).
    { destruct (Z.eq_dec m 0) as [Z0|]; [|lia].
      assert (d = 0) by (unfold d; rewrite Z0; reflexivity).
      unfold E, target in Hk. unfold target in Cu. fold du in Cu. lia. }
    pose proof (Zdigits2_lower m Pm) as Lm. fold d in Lm.
    assert (D1 : 0 + 1 <= d) by (apply Zdigits2_ge; cbn; lia).
    remember (Z.min e eu) as e0 eqn:E0.
    assert (e0 <= e /\ e0 <= eu) as [H0 H0'] by lia. clear E0.
    pose proof (vle_at _ _ _ _ e0 H0 H0' H) as H'.
    pose proof (pow2_pos (e - e0) ltac:(lia)) as P1.
    pose proof (pow2_pos (eu - e0) ltac:(lia)) as P2.
    assert (X1 : B * m <= A).
    { rewrite Eq. apply Z.mul_div_le. lia. }
    assert (P : 2 ^ du * 2 ^ (eu - e0) <= 2 ^ (d - 1) * 2 ^ (e - e0)).
    { rewrite <- !Z.pow_add_r by lia. apply Z.pow_le_mono_r; lia. }
    assert (Y1 : B * (2 ^ (d - 1) * 2 ^ (e - e0)) <= A * 2 ^ (e - e0)) by nia.
    assert (Y2 : B * Z.pos mu * 2 ^ (eu - e0) < B * (2 ^ du * 2 ^ (eu - e0))) by nia.
    nia. }
  assert (HEu : E <= eu).
  { unfold E. unfold target in *. fold du in Cu. lia. }
  (* the code is at most that of the bound *)
  set (K := Z.pos mu * 2 ^ (eu - E)).
  pose proof (pow2_pos (eu - E) ltac:(lia)) as PK.
  pose proof (pow2_pos (E - e) ltac:(lia)) as Pk.
  assert (Hc : rne (scode A (B * 2 ^ (E - e))) <= K).
  { rewrite <- (rne_exact K). apply rne_mono; [apply scode_nonneg; nia|].
    replace (4 * K) with (scode K 1).
    2:{ unfold scode. rewrite Z.div_1_r, Z.mod_1_r.
        change (0 =? 0) with true. cbv beta iota. lia. }
    assert (0 <= K) by (unfold K; nia).
    apply scode_mono; [assumption | nia | assumption | lia |].
    pose proof (vle_at A e (B * Z.pos mu) eu e ltac:(lia) ltac:(lia) H) as H'.
    rewrite Z.sub_diag, Z.mul_1_r in H'. rewrite Z.mul_1_r.
    unfold K.
    replace (Z.pos mu * 2 ^ (eu - E) * (B * 2 ^ (E - e)))
      with (B * Z.pos mu * (2 ^ (eu - E) * 2 ^ (E - e))) by ring.
    rewrite <- Z.pow_add_r by lia. replace (eu - E + (E - e)) with (eu - e) by lia.
    exact H'. }
  unfold rounded.
  remember (rne (scode A (B * 2 ^ (E - e)))) as M eqn:EM in *. clear EM.
  destruct (Z.eqb_spec M (2 ^ 53)) as [E53|N53].
  - assert (P52 : 0 < 2 ^ 52) by (apply pow2_pos; lia).
    assert (U53 : Z.pos mu < 2 ^ 53).
    { pose proof (valid_finite _ _ _ V) as (_ & Dv & _). fold du in Dv.
      assert (2 ^ du <= 2 ^ 53) by (apply Z.pow_le_mono_r; lia). lia. }
    assert (E < eu).
    { destruct (Z.eq_dec E eu) as [X|]; [|lia].
      unfold K in Hc. rewrite X, Z.sub_diag, Z.mul_1_r in Hc. lia. }
    apply pack0_le; [lia | assumption |]. right.
    destruct (Z.eq_dec (E + 1) eu) as [X|]; [right|left; lia].
    split; [assumption|].
    unfold K in Hc. replace (eu - E) with 1 in Hc by lia.
    change (2 ^ 1) with 2 in Hc. change (2 ^ 53) with (2 * 2 ^ 52) in E53. lia.
  - apply pack0_le; [lia | assumption |].
    destruct (Z.eq_dec M 0); [left; assumption|right].
    destruct (Z.eq_dec E eu) as [X|]; [right|left; lia].
    split; [assumption|].
    unfold K in Hc. rewrite X, Z.sub_diag, Z.mul_1_r in Hc. exact Hc.
Qed.

(** The results are zero or positive. *)
Lemma bra_sign m e l A B :
  0 <= m -> 0 <= A -> 0 < B -> rep (shr_record_of_loc m l) A B ->
  e <= target (Zdigits2 m) e ->
  binary_round_aux prec emax false m e l = S754_zero false
  \/ (exists p q, binary_round_aux prec emax false m e l = S754_finite false p q)
  \/ binary_round_aux prec emax false m e l = S754_infinity false.
Proof.
  intros Hm HA HB R Hk.
  destruct (bra_general m e l A B Hm HA HB R Hk) as [-> Br].
  unfold rounded, pack0.
  destruct (Z.eqb_spec (rne (scode A (B * 2 ^ (target (Zdigits2 m) e - e)))) (2 ^ 53)).
  - cbn [fst snd]. change (2 ^ 52) with (Z.pos (2 ^ 52)).
    cbv beta iota. destruct (_ <=? 971); eauto.
  - cbn [fst snd].
    destruct (rne _) as [|r|r]; try lia; [auto|].
    destruct (_ <=? 971); eauto.
Qed.

(** *** Products and quotients *)

Lemma SFmul_rep mx ex my ey :
  53 <= Z.pos (digits2_pos my) ->
  rep (shr_record_of_loc (Z.pos (mx * my)) loc_Exact) (Z.pos mx * Z.pos my) 1
  /\ ex + ey <= target (Zdigits2 (Z.pos (mx * my))) (ex + ey).
Proof.
  intros Dy. split.
  - split; [rewrite shr_m_of_loc; lia|].
    rewrite code_of_loc. unfold scode. rewrite Z.div_1_r, Z.mod_1_r.
    change (0 =? 0) with true. cbv beta iota. lia.
  - pose proof (digits2_pos_bound my) as [Ly Uy].
    assert (2 ^ 52 <= Z.pos my).
    { assert (2 ^ 52 <= 2 ^ (Z.pos (digits2_pos my) - 1))
        by (apply Z.pow_le_mono_r; lia). lia. }
    assert (53 <= Zdigits2 (Z.pos (mx * my))).
    { change 53 with (52 + 1). apply Zdigits2_ge; [lia|]. nia. }
    unfold target. lia.
Qed.

Lemma SFmul_upper mx ex my ey mu eu :
  53 <= Z.pos (digits2_pos my) ->
  valid_binary (S754_finite false mu eu) = true ->
  vle (Z.pos mx * Z.pos my) (ex + ey) (Z.pos mu) eu ->
  SFleb (SFmul prec emax (S754_finite false mx ex) (S754_finite false my ey))
        (S754_finite false mu eu) = true.
Proof.
  intros Dy V H. destruct (SFmul_rep mx ex my ey Dy) as [R Hk].
  cbn [SFmul xorb].
  apply (bra_upper _ _ _ (Z.pos mx * Z.pos my) 1); try lia; assumption.
Qed.

Lemma SFmul_sign mx ex my ey :
  53 <= Z.pos (digits2_pos my) ->
  let z := SFmul prec emax (S754_finite false mx ex) (S754_finite false my ey) in
  z = S754_zero false \/ (exists p q, z = S754_finite false p q)
  \/ z = S754_infinity false.
Proof.
  intros Dy. destruct (SFmul_rep mx ex my ey Dy) as [R Hk].
  cbn [SFmul xorb]. cbv zeta.
  apply (bra_sign _ _ _ (Z.pos mx * Z.pos my) 1); try lia; assumption.
Qed.

(** What division hands to the rounding: the quotient, its exponent and the
    dividend as it was shifted. *)
Lemma SFdiv_rep mx ex my ey :
  Z.pos (digits2_pos my) = 53 ->
  exists q e' l s,
    SFdiv_core_binary prec emax (Z.pos mx) ex (Z.pos my) ey = (q, e', l)
    /\ 0 <= q /\ 0 <= s /\ e' + s = ex - ey
    /\ rep (shr_record_of_loc q l) (Z.pos mx * 2 ^ s) (Z.pos my)
    /\ e' <= target (Zdigits2 q) e'.
Proof.
  intros Dy.
  pose proof (digits2_pos_bound mx) as [Lx Ux].
  pose proof (digits2_pos_bound my) as [Ly Uy].
  rewrite Dy in Ly, Uy. change (53 - 1) with 52 in Ly.
  set (dx := Z.pos (digits2_pos mx)) in *.
  unfold SFdiv_core_binary. cbn [Zdigits2]. fold dx. rewrite Dy, fexp_val.
  set (F := dx + ex - (53 + ey)).
  set (e' := Z.min (Z.max (F - 53) (-1074)) (ex - ey)).
  set (s := ex - ey - e').
  assert (Hs : 0 <= s) by (unfold s, e'; lia).
  set (m' := match s with 0 => Z.pos mx | Z.pos _ => Z.shiftl (Z.pos mx) s | Z.neg _ => 0 end).
  assert (Em : m' = Z.pos mx * 2 ^ s).
  { unfold m'. destruct s as [|p|p] eqn:Es; try lia.
    rewrite Z.shiftl_mul_pow2 by lia. reflexivity. }
  pose proof (pow2_pos s Hs) as Ps.
  pose proof (Z.div_mod m' (Z.pos my) ltac:(lia)) as D.
  pose proof (Z.mod_pos_bound m' (Z.pos my) ltac:(lia)) as M.
  assert (Ediv : Z.div_eucl m' (Z.pos my) = (m' / Z.pos my, m' mod Z.pos my))
    by (unfold Z.div, Z.modulo; destruct (Z.div_eucl _ _); reflexivity).
  rewrite Ediv.
  assert (Hq : 0 <= m' / Z.pos my) by (apply Z.div_pos; lia).
  exists (m' / Z.pos my), e', (new_location (Z.pos my) (m' mod Z.pos my)), s.
  split; [reflexivity|]. split; [exact Hq|]. split; [exact Hs|].
  split; [unfold s; lia|]. split.
  - rewrite <- Em. rewrite D at 3.
    replace (Z.pos my * (m' / Z.pos my) + m' mod Z.pos my)
      with (m' / Z.pos my * Z.pos my + m' mod Z.pos my) by ring.
    apply new_location_rep; lia.
  - destruct (Z.le_gt_cases e' (-1074)) as [L|G]; [unfold target; lia|].
    assert (He : e' <= F - 53) by (unfold e' in *; lia).
    assert (Hx : 52 <= dx + s - 54) by (unfold s, F in *; lia).
    assert (Q : 2 ^ (dx + s - 54) <= m' / Z.pos my).
    { apply Z.div_le_lower_bound; [lia|].
      assert (T : 2 ^ (dx - 1) * 2 ^ s = 2 ^ 53 * 2 ^ (dx + s - 54))
        by (rewrite <- !Z.pow_add_r by lia; f_equal; lia).
      pose proof (pow2_pos (dx + s - 54) ltac:(lia)). nia. }
    pose proof (Zdigits2_ge (m' / Z.pos my) (dx + s - 54) ltac:(lia) Q) as Dq.
    unfold target. unfold s, F in *. lia.
Qed.

Lemma SFdiv_upper mx ex my ey mu eu :
  Z.pos (digits2_pos my) = 53 ->
  valid_binary (S754_finite false mu eu) = true ->
  vle (Z.pos mx) ex (Z.pos my * Z.pos mu) (ey + eu) ->
  SFleb (SFdiv prec emax (S754_finite false mx ex) (S754_finite false my ey))
        (S754_finite false mu eu) = true.
Proof.
  intros Dy V H.
  destruct (SFdiv_rep mx ex my ey Dy) as (q & e' & l & s & Ec & Hq & Hs & Es & R & Hk).
  cbn [SFdiv xorb]. rewrite Ec.
  pose proof (pow2_pos s Hs) as Ps.
  apply (bra_upper _ _ _ (Z.pos mx * 2 ^ s) (Z.pos my)); try lia; try assumption.
  remember (Z.min e' eu) as e0 eqn:E0.
  assert (e0 <= e' /\ e0 <= eu) as [H0 H0'] by lia. clear E0.
  apply vle_of with e0; try lia.
  pose proof (vle_at (Z.pos mx) ex (Z.pos my * Z.pos mu) (ey + eu) (e0 + ey)
                ltac:(lia) ltac:(lia) H) as H'.
  replace (Z.pos mx * 2 ^ s * 2 ^ (e' - e0)) with (Z.pos mx * (2 ^ s * 2 ^ (e' - e0))) by ring.
  rewrite <- Z.pow_add_r by lia.
  replace (s + (e' - e0)) with (ex - (e0 + ey)) by lia.
  replace (eu - e0) with (ey + eu - (e0 + ey)) by lia. exact H'.
Qed.

Lemma SFdiv_sign mx ex my ey :
  Z.pos (digits2_pos my) = 53 ->
  let z := SFdiv prec emax (S754_finite false mx ex) (S754_finite false my ey) in
  z = S754_zero false \/ (exists p q, z = S754_finite false p q)
  \/ z = S754_infinity false.
Proof.
  intros Dy.
  destruct (SFdiv_rep mx ex my ey Dy) as (q & e' & l & s & Ec & Hq & Hs & Es & R & Hk).
  cbn [SFdiv xorb]. cbv zeta. rewrite Ec.
  pose proof (pow2_pos s Hs) as Ps.
  apply (bra_sign _ _ _ (Z.pos mx * 2 ^ s) (Z.pos my)); try lia; assumption.
Qed.

(** The order of two binary64 numbers is the order of their values. *)
Lemma SFleb_vle ma ea mb eb :
  valid_binary (S754_finite false ma ea) = true ->
  valid_binary (S754_finite false mb eb) = true ->
  SFleb (S754_finite false ma ea) (S754_finite false mb eb) = true ->
  vle (Z.pos ma) ea (Z.pos mb) eb.
Proof.
  intros Va Vb H.
  pose proof (valid_finite _ _ _ Va) as (Ha & Da & Na).
  pose proof (valid_finite _ _ _ Vb) as (Hb & Db & Nb).
  pose proof (digits2_pos_bound ma) as [La Ua].
  pose proof (digits2_pos_bound mb) as [Lb Ub].
  unfold SFleb, SFcompare in H. unfold vle.
  destruct (Z.compare_spec ea eb) as [E|L|G]; [| |discriminate].
  - subst eb. rewrite Z.min_id, Z.sub_diag, !Z.mul_1_r.
    change (Pos.compare_cont Eq ma mb) with (Pos.compare ma mb) in H.
    destruct (Pos.compare_spec ma mb); try discriminate; lia.
  - rewrite Z.min_l, Z.sub_diag, Z.mul_1_r by lia.
    rewrite Nb in Lb by lia. change (53 - 1) with 52 in Lb.
    assert (2 ^ Z.pos (digits2_pos ma) <= 2 ^ 53) by (apply Z.pow_le_mono_r; lia).
    assert (2 <= 2 ^ (eb - ea)) by (apply pow2_ge2; lia).
    change (2 ^ 53) with (2 * 2 ^ 52) in *. nia.
Qed.
End NearestFacts.


(** ** The order on numbers, as the comparisons of the language see it *)

Module NumberOrder.
Import FloatFacts.
Local Open Scope float_scope.

(** Moves a goal about comparisons of floats to [SFcompare] on arbitrary
    [spec_float]s and decides it by cases. *)
Ltac to_sf :=
  unfold is_nan;
  rewrite ?eqb_spec, ?ltb_spec, ?leb_spec, ?abs_spec;
  unfold SFeqb, SFltb, SFleb.

Ltac by_cases3 x y z :=
  to_sf; generalize (Prim2SF x) (Prim2SF y) (Prim2SF z); clear;
  intros a b c; sf_destruct a; sf_destruct b; sf_destruct c; simpl;
  try congruence; intros; cmp_cases.

Ltac by_cases2 x y :=
  to_sf; generalize (Prim2SF x) (Prim2SF y); clear;
  intros a b; sf_destruct a; sf_destruct b; simpl;
  try congruence; intros; cmp_cases.

Lemma ltb_asym x y : (x <? y) = true -> (y <? x) = false.
Proof. by_cases2 x y. Qed.

Lemma ltb_leb x y : (x <? y) = true -> (x <=? y) = true.
Proof. by_cases2 x y. Qed.

Lemma not_ltb_leb x y :
  is_nan x = false -> is_nan y = false -> (y <? x) = false -> (x <=? y) = true.
Proof. by_cases2 x y. Qed.

Lemma leb_not_ltb x y : (x <=? y) = true -> (y <? x) = false.
Proof. by_cases2 x y. Qed.

Lemma leb_trans x y z :
  (x <=? y) = true -> (y <=? z) = true -> (x <=? z) = true.
Proof. by_cases3 x y z. Qed.

Lemma leb_antisym x y : (x <=? y) = true -> (y <=? x) = true -> (x =? y) = true.
Proof. by_cases2 x y. Qed.

Lemma leb_eqb_trans x y z :
  (x <=? y) = true -> (y =? z) = true -> (x <=? z) = true.
Proof. by_cases3 x y z. Qed.

Lemma eqb_leb x y : (x =? y) = true -> (x <=? y) = true /\ (y <=? x) = true.
Proof. split; revert H; by_cases2 x y. Qed.

Lemma eqb_not_ltb x y k :
  (x =? k) = true -> (y =? k) = true -> (y <? x) = false.
Proof. by_cases3 x y k. Qed.


Lemma eqb_refl x : is_nan x = false -> (x =? x) = true.
Proof. unfold is_nan. destruct (x =? x); [reflexivity | discriminate]. Qed.

Lemma leb_refl x : is_nan x = false -> (x <=? x) = true.
Proof. intros H. apply (proj1 (eqb_leb _ _ (eqb_refl _ H))). Qed.

Lemma eqb_nan_l x : (nan =? x) = false.
Proof.
  rewrite eqb_spec. change (Prim2SF nan) with S754_nan. reflexivity.
Qed.



Lemma is_nan_abs x : is_nan (abs x) = is_nan x.
Proof.
  to_sf. generalize (Prim2SF x). clear. intros a.
  sf_destruct a; simpl; try reflexivity; cmp_cases.
Qed.

(** *** Truthiness *)

Lemma truthy_not_nan x : Js.truthy x = true -> is_nan x = false.
Proof.
  unfold Js.truthy, is_nan. destruct (x =? x); [reflexivity | discriminate].
Qed.

Lemma orNum_not_nan v d : is_nan d = false -> is_nan (Js.orNum v d) = false.
Proof.
  intros Hd. destruct v as [x|]; simpl; [|exact Hd].
  destruct (Js.truthy x) eqn:E; [apply truthy_not_nan, E | exact Hd].
Qed.

(** *** [Math.max] *)

Lemma max2_nan a b : is_nan a || is_nan b = true -> Js.max2 a b = nan.
Proof. intros H. unfold Js.max2. rewrite H. reflexivity. Qed.

Lemma max2_choice a b :
  is_nan a = false -> is_nan b = false -> Js.max2 a b = a \/ Js.max2 a b = b.
Proof.
  intros Ha Hb. unfold Js.max2. rewrite Ha, Hb. simpl.
  destruct (a <? b), (b <? a), (get_sign a); auto.
Qed.

Lemma max2_upper a b :
  is_nan a = false -> is_nan b = false ->
  (a <=? Js.max2 a b) = true /\ (b <=? Js.max2 a b) = true.
Proof.
  intros Ha Hb. unfold Js.max2. rewrite Ha, Hb. simpl.
  destruct (a <? b) eqn:E1.
  { split; [apply ltb_leb, E1 | apply leb_refl, Hb]. }
  destruct (b <? a) eqn:E2.
  { split; [apply leb_refl, Ha | apply ltb_leb, E2]. }
  destruct (get_sign a); split;
    first [apply leb_refl; assumption | apply not_ltb_leb; assumption].
Qed.

Lemma max2_not_nan a b :
  is_nan a = false -> is_nan b = false -> is_nan (Js.max2 a b) = false.
Proof.
  intros Ha Hb. destruct (max2_choice a b Ha Hb) as [-> | ->]; assumption.
Qed.

(** Picking the axis whose component equals the maximum, [z] first, is
    picking the largest component with ties to [z], then [y]. *)
Lemma Math_max_largestAxis a b c :
  is_nan a = false -> is_nan b = false -> is_nan c = false ->
  (if Js.Math_max a b c =? c then axial
   else if Js.Math_max a b c =? b then coronal else sagittal)
  = largestAxis a b c.
Proof.
  intros Ha Hb Hc. unfold Js.Math_max, largestAxis.
  pose proof (max2_not_nan a b Ha Hb) as Hab.
  destruct (max2_upper a b Ha Hb) as [Ua Ub].
  destruct (max2_upper (Js.max2 a b) c Hab Hc) as [Uab Uc].
  pose proof (leb_trans _ _ _ Ua Uab) as Ua'.
  pose proof (leb_trans _ _ _ Ub Uab) as Ub'.
  assert (Hm : Js.max2 (Js.max2 a b) c = a \/ Js.max2 (Js.max2 a b) c = b
               \/ Js.max2 (Js.max2 a b) c = c).
  { destruct (max2_choice (Js.max2 a b) c Hab Hc) as [E | E]; [|auto].
    destruct (max2_choice a b Ha Hb) as [E' | E'];
      [left | right; left]; congruence. }
  remember (Js.max2 (Js.max2 a b) c) as m eqn:Dm. clear Dm.
  destruct ((a <=? c) && (b <=? c)) eqn:Ez.
  - apply andb_true_iff in Ez as [Eac Ebc].
    assert (Emc : (m =? c) = true).
    { apply leb_antisym; [|exact Uc].
      destruct Hm as [E | [E | E]]; rewrite E;
        [exact Eac | exact Ebc | apply leb_refl, Hc]. }
    rewrite Emc. reflexivity.
  - assert (Emc : (m =? c) = false).
    { destruct (m =? c) eqn:E; [|reflexivity].
      rewrite (leb_eqb_trans _ _ _ Ua' E), (leb_eqb_trans _ _ _ Ub' E) in Ez.
      discriminate. }
    rewrite Emc.
    destruct (a <=? b) eqn:Eab.
    + assert (Emb : (m =? b) = true).
      { apply leb_antisym; [|exact Ub'].
        destruct Hm as [E | [E | E]]; rewrite E in *.
        - exact Eab.
        - apply leb_refl, Hb.
        - rewrite eqb_refl in Emc by assumption. discriminate. }
      rewrite Emb. reflexivity.
    + destruct (m =? b) eqn:E; [|reflexivity].
      rewrite (leb_eqb_trans _ _ _ Ua' E) in Eab. discriminate.
Qed.

Lemma Math_max_nan a b c :
  is_nan a || is_nan b || is_nan c = true -> Js.Math_max a b c = nan.
Proof.
  intros H. unfold Js.Math_max.
  destruct (is_nan a || is_nan b) eqn:E.
  - rewrite (max2_nan a b E). reflexivity.
  - simpl in H. apply max2_nan. rewrite H. apply orb_true_r.
Qed.

(** *** The comparators of the two sorts *)

Lemma after_sub {A} (key : A -> number) (x y : A) :
  Js.after (fun a b => key a - key b) x y = (key y <? key x).
Proof. unfold Js.after. apply sub_pos_ltb. Qed.

(** *** NaN

    [NaN] is the one number that is not equal to itself, and every
    operation on it gives it back. *)

Lemma is_nan_spec x :
  is_nan x = match Prim2SF x with S754_nan => true | _ => false end.
Proof.
  unfold is_nan. rewrite eqb_spec. unfold SFeqb, SFcompare.
  destruct (Prim2SF x) as [[]|[]| |[] m e]; try reflexivity;
    rewrite Z.compare_refl; change (Pos.compare_cont Eq m m) with (Pos.compare m m);
    rewrite Pos.compare_refl; reflexivity.
Qed.

Lemma is_nan_true x : is_nan x = true <-> Prim2SF x = S754_nan.
Proof.
  rewrite is_nan_spec. destruct (Prim2SF x); split; congruence.
Qed.

Lemma nan_unique x : is_nan x = true -> x = nan.
Proof. intros H. apply Prim2SF_inj. apply is_nan_true in H. rewrite H. reflexivity. Qed.

Lemma mul_nan_l x : nan * x = nan.
Proof.
  apply Prim2SF_inj. rewrite mul_spec. change (Prim2SF nan) with S754_nan.
  destruct (Prim2SF x); reflexivity.
Qed.

Lemma mul_nan_r x : x * nan = nan.
Proof.
  apply Prim2SF_inj. rewrite mul_spec. change (Prim2SF nan) with S754_nan.
  destruct (Prim2SF x); reflexivity.
Qed.

Lemma sub_nan_l x : nan - x = nan.
Proof.
  apply Prim2SF_inj. rewrite sub_spec. change (Prim2SF nan) with S754_nan.
  destruct (Prim2SF x); reflexivity.
Qed.

Lemma sub_nan_r x : x - nan = nan.
Proof.
  apply Prim2SF_inj. rewrite sub_spec. change (Prim2SF nan) with S754_nan.
  destruct (Prim2SF x); reflexivity.
Qed.

Lemma add_nan_l x : nan + x = nan.
Proof.
  apply Prim2SF_inj. rewrite add_spec. change (Prim2SF nan) with S754_nan.
  destruct (Prim2SF x); reflexivity.
Qed.

Lemma add_nan_r x : x + nan = nan.
Proof.
  apply Prim2SF_inj. rewrite add_spec. change (Prim2SF nan) with S754_nan.
  destruct (Prim2SF x); reflexivity.
Qed.

End NumberOrder.

(** ** The plane classifier *)

Section Classifier.
Import NumberOrder.
Local Open Scope float_scope.

(** The choice among three components, as [classifyPlane] makes it. *)
Lemma oblique_choice (a b c : number) :
  (if Js.Math_max (abs a) (abs b) (abs c) =? abs c then axial
   else if Js.Math_max (abs a) (abs b) (abs c) =? abs b then coronal
   else sagittal)
  = if is_nan a || is_nan b || is_nan c then sagittal
    else largestAxis (abs a) (abs b) (abs c).
Proof.
  destruct (is_nan a || is_nan b || is_nan c) eqn:E.
  - rewrite Math_max_nan by (rewrite !is_nan_abs; exact E).
    rewrite !eqb_nan_l. reflexivity.
  - apply orb_false_iff in E as [E Ec]. apply orb_false_iff in E as [Ea Eb].
    apply Math_max_largestAxis; rewrite is_nan_abs; assumption.
Qed.

Lemma normalizedOf_spec (o0 o1 o2 o3 o4 o5 : number) :
  normalizedOf [o0; o1; o2; o3; o4; o5]
  = (let '(nx, ny, nz) := specNormal o0 o1 o2 o3 o4 o5 in [nx; ny; nz]).
Proof.
  unfold normalizedOf, specNormal, magnitudeOf, normalOf, Js.at_. cbn [nth].
  destruct (0 <? _); reflexivity.
Qed.

Lemma classifyPlane_computed (o0 o1 o2 o3 o4 o5 : number) :
  classifyPlane [o0; o1; o2; o3; o4; o5] = classifyComputed o0 o1 o2 o3 o4 o5.
Proof.
  unfold classifyPlane, classifyComputed, normalizedOf, specNormal, magnitudeOf,
    normalOf, isClose, within, Js.at_.
  cbn [nth].
  set (nx := o1 * o5 - o2 * o4). set (ny := o2 * o3 - o0 * o5).
  set (nz := o0 * o4 - o1 * o3).
  set (m := sqrt (nx * nx + ny * ny + nz * nz)).
  destruct (0 <? m); [|reflexivity].
  cbn [map nth].
  destruct (abs (abs (nz / m) - 1) <? eps); [reflexivity|].
  destruct (abs (abs (ny / m) - 1) <? eps); [reflexivity|].
  destruct (abs (abs (nx / m) - 1) <? eps); [reflexivity|].
  apply oblique_choice.
Qed.
End Classifier.

(** That [classifyComputed] is the stated rule on every orientation the
    decoder produces needs the range of the decoded numbers; it is shown
    after the attribute decoding, with the theorem on the classifier. *)

(** ** Sorting by a numeric key

    [arr.sort((a, b) => key(a) - key(b))] on keys that are not [NaN]. *)

Section SortByKey.
Import NumberOrder.
Local Open Scope float_scope.

Variable key : DicomImage -> number.

Let comparefn (a b : DicomImage) : number := key a - key b.
Let le (a b : DicomImage) : Prop := (key a <=? key b) = true.
Let defined (a : DicomImage) : Prop := is_nan (key a) = false.

Lemma insert_perm x l : Permutation (x :: l) (Js.insert comparefn x l).
Proof.
  induction l as [|y l IH]; simpl; [reflexivity|].
  destruct (Js.after comparefn x y); [|reflexivity].
  rewrite perm_swap. apply perm_skip, IH.
Qed.

Lemma sort_perm l : Permutation l (Js.sort comparefn l).
Proof.
  induction l as [|x l IH]; simpl; [reflexivity|].
  rewrite <- insert_perm. apply perm_skip, IH.
Qed.

Lemma insert_HdRel y x l :
  le y x -> HdRel le y l -> HdRel le y (Js.insert comparefn x l).
Proof.
  intros Hyx Hl. destruct l as [|z l]; simpl; [constructor; exact Hyx|].
  destruct (Js.after comparefn x z); constructor;
    [inversion Hl; assumption | exact Hyx].
Qed.

Lemma insert_sorted x l :
  defined x -> Forall defined l -> Sorted le l ->
  Sorted le (Js.insert comparefn x l).
Proof.
  intros Hx Hl Hs. induction l as [|y l IH]; simpl.
  - repeat constructor.
  - inversion Hl as [|? ? Hy Hl']; subst. inversion Hs as [|? ? Hs' Hd]; subst.
    unfold comparefn at 1. rewrite after_sub.
    destruct (key y <? key x) eqn:E.
    + constructor; [apply IH; assumption|].
      apply insert_HdRel; [apply ltb_leb, E | exact Hd].
    + constructor; [exact Hs|]. constructor. apply not_ltb_leb; assumption.
Qed.

Lemma sort_sorted l : Forall defined l -> Sorted le (Js.sort comparefn l).
Proof.
  induction l as [|x l IH]; intros H; simpl; [constructor|].
  inversion H; subst. apply insert_sorted; auto.
  eapply Permutation_Forall; [apply sort_perm | assumption].
Qed.

Lemma sort_ascending l :
  Forall defined l -> ascendingBy key (Js.sort comparefn l).
Proof.
  intros H. apply Sorted_StronglySorted; [|apply sort_sorted, H].
  intros a b c. apply leb_trans.
Qed.

Lemma insert_ties k x l :
  filter (fun a => key a =? k) (Js.insert comparefn x l)
  = filter (fun a => key a =? k) (x :: l).
Proof.
  induction l as [|y l IH]; [reflexivity|].
  cbn [Js.insert]. unfold comparefn at 1. rewrite after_sub.
  destruct (key y <? key x) eqn:E; [|reflexivity].
  cbn [filter] in *. rewrite IH.
  destruct (key x =? k) eqn:Ex, (key y =? k) eqn:Ey; try reflexivity.
  rewrite (eqb_not_ltb _ _ _ Ex Ey) in E. discriminate.
Qed.

Lemma sort_ties l : keepsTieOrder key l (Js.sort comparefn l).
Proof.
  intros k. induction l as [|x l IH]; [reflexivity|].
  cbn [Js.sort]. rewrite insert_ties. cbn [filter]. rewrite IH. reflexivity.
Qed.

(** The sort is the stable ascending sort by [key]. *)
Lemma sort_stable l :
  Forall defined l -> stableSortOf key l (Js.sort comparefn l).
Proof.
  intros H. split; [apply sort_perm|]. split; [apply sort_ascending, H|].
  apply sort_ties.
Qed.

Lemma sort_length l : List.length (Js.sort comparefn l) = List.length l.
Proof. symmetry. apply Permutation_length, sort_perm. Qed.
End SortByKey.

(** ** The plane buckets *)

Section PlaneBuckets.
Import NumberOrder.

Lemma fold_pushByPlane images : forall ax co sa,
  fold_left pushByPlane images (ax, co, sa)
  = (ax ++ filter (planeIs axial) images,
     co ++ filter (planeIs coronal) images,
     sa ++ filter (planeIs sagittal) images).
Proof.
  induction images as [|img images IH]; intros ax co sa; cbn [fold_left filter].
  - rewrite !app_nil_r. reflexivity.
  - unfold pushByPlane at 2, planeIs.
    destruct (classifyPlane (imageOrientationPatient img));
      rewrite IH, <- ?app_assoc; reflexivity.
Qed.

Lemma primaryBuckets_filter images :
  primaryBuckets images
  = (filter (planeIs axial) images, filter (planeIs coronal) images,
     filter (planeIs sagittal) images).
Proof. unfold primaryBuckets. rewrite fold_pushByPlane. reflexivity. Qed.

Lemma planeIs_exclusive img :
  (planeIs axial img = true /\ planeIs coronal img = false
   /\ planeIs sagittal img = false)
  \/ (planeIs axial img = false /\ planeIs coronal img = true
      /\ planeIs sagittal img = false)
  \/ (planeIs axial img = false /\ planeIs coronal img = false
      /\ planeIs sagittal img = true).
Proof.
  unfold planeIs. destruct (classifyPlane (imageOrientationPatient img)); auto.
Qed.

Lemma three_way_perm images :
  Permutation images
    (filter (planeIs axial) images ++ filter (planeIs coronal) images
     ++ filter (planeIs sagittal) images).
Proof.
  induction images as [|img images IH]; [reflexivity|].
  cbn [filter].
  destruct (planeIs_exclusive img) as [(-> & -> & ->) | [(-> & -> & ->) | (-> & -> & ->)]].
  - cbn [app]. apply perm_skip, IH.
  - cbn [app]. apply Permutation_cons_app, IH.
  - rewrite app_assoc. apply Permutation_cons_app. rewrite <- app_assoc. exact IH.
Qed.

Lemma isEmpty_length l : (List.length l =? 0)%nat = isEmpty l.
Proof. destruct l; reflexivity. Qed.

Lemma nonEmpty_length l : (0 <? List.length l)%nat = negb (isEmpty l).
Proof. destruct l; reflexivity. Qed.

(** The three [if]s in sequence fill exactly the buckets the stated rule
    fills. *)
Lemma fillEmpty_stated images b : fillEmpty images b = fillStated images b.
Proof.
  destruct b as [[ax co] sa]. unfold fillEmpty, fillStated.
  rewrite !isEmpty_length, !nonEmpty_length.
  destruct ax as [|a ax], co as [|c co], sa as [|s sa]; cbn [isEmpty negb andb orb app];
    try reflexivity;
    destruct images; reflexivity.
Qed.

Lemma positionKey_defined i img : is_nan (positionKey i img) = false.
Proof. apply orNum_not_nan. reflexivity. Qed.

(** The key of [orderBy] is the coordinate itself whenever that is a
    number. *)
Lemma positionKey_coordinate i img v :
  nth_error (imagePositionPatient img) i = Some v -> is_nan v = false ->
  (positionKey i img =? v)%float = true.
Proof.
  intros E Hv. unfold positionKey. rewrite E. cbn [Js.orNum].
  unfold Js.truthy. rewrite (eqb_refl _ Hv). cbn [andb].
  destruct (v =? 0)%float eqn:Ez; cbn [negb].
  - revert Ez. clear. by_cases2 v 0%float.
  - apply eqb_refl, Hv.
Qed.

Lemma orderBy_stable arr i : stableSortOf (positionKey i) arr (orderBy arr i).
Proof.
  apply sort_stable. apply Forall_forall. intros img _. apply positionKey_defined.
Qed.

Lemma classifyPlanes_unfold images :
  classifyPlanes images
  = (let '(ax, co, sa) := fillStated images (primaryBuckets images) in
     (orderBy ax 2, orderBy co 1, orderBy sa 0)).
Proof. unfold classifyPlanes. rewrite fillEmpty_stated. reflexivity. Qed.
End PlaneBuckets.

Section PlaneStacks.

Lemma primary_some_nonempty images :
  images <> [] ->
  (let '(ax, co, sa) := primaryBuckets images in
   isEmpty ax && isEmpty co && isEmpty sa) = false.
Proof.
  intros H. rewrite primaryBuckets_filter.
  pose proof (three_way_perm images) as P.
  destruct (filter (planeIs axial) images), (filter (planeIs coronal) images),
    (filter (planeIs sagittal) images); try reflexivity.
  apply Permutation_sym, Permutation_nil in P. contradiction.
Qed.

Lemma orderBy_nonempty arr i : arr <> [] -> orderBy arr i <> [].
Proof.
  intros H E. apply H, length_zero_iff_nil.
  unfold orderBy in E. rewrite <- (sort_length (positionKey i) arr), E.
  reflexivity.
Qed.

Lemma classifyPlanes_nonempty images :
  images <> [] ->
  let '(ax, co, sa) := classifyPlanes images in
  ax <> [] /\ co <> [] /\ sa <> [].
Proof.
  intros H. rewrite classifyPlanes_unfold.
  pose proof (primary_some_nonempty images H) as Hne.
  destruct (primaryBuckets images) as [[ax co] sa].
  unfold fillStated. rewrite Hne. cbn [negb]. rewrite !andb_true_r.
  repeat split; apply orderBy_nonempty;
    match goal with |- (if isEmpty ?l then _ else _) <> [] =>
      destruct l; cbn [isEmpty]; [exact H | discriminate] end.
Qed.

Lemma exactlyOne_fill images b :
  exactlyOneNonEmpty b = true ->
  Permutation images (let '(ax, co, sa) := b in ax ++ co ++ sa) ->
  let '(ax, co, sa) := fillStated images b in
  Permutation images ax /\ Permutation images co /\ Permutation images sa.
Proof.
  destruct b as [[ax co] sa]. unfold exactlyOneNonEmpty, fillStated.
  destruct ax, co, sa; cbn [isEmpty andb negb app]; try discriminate;
    intros _ P; rewrite ?app_nil_r in P; repeat split;
    solve [reflexivity | exact P].
Qed.
End PlaneStacks.

(** C4.  Before the no-empty-plane fallback, the primary classification
    partitions the image list of a series: the three buckets are the images
    classified axial, coronal and sagittal, in list order; every image has
    exactly one of the three planes; and together the buckets hold every
    image exactly once.  The buckets of an assembled series are those of its
    [images]. *)
Theorem C4_primary_partition :
  (forall images : list DicomImage,
      primaryBuckets images
      = (filter (planeIs axial) images, filter (planeIs coronal) images,
         filter (planeIs sagittal) images)
      /\ Permutation images
           (let '(ax, co, sa) := primaryBuckets images in ax ++ co ++ sa))
  /\ (forall img : DicomImage,
        (planeIs axial img = true /\ planeIs coronal img = false
         /\ planeIs sagittal img = false)
        \/ (planeIs axial img = false /\ planeIs coronal img = true
            /\ planeIs sagittal img = false)
        \/ (planeIs axial img = false /\ planeIs coronal img = false
            /\ planeIs sagittal img = true))
  /\ (forall seriesMap' : Js.Map (list DicomImage),
        Forall (fun s => classifyPlanes (images s)
                         = (axialImages s, coronalImages s, sagittalImages s))
               (assemble seriesMap')).
Proof.
  split; [|split; [exact planeIs_exclusive|]].
  - intros images. split; [apply primaryBuckets_filter|].
    rewrite primaryBuckets_filter. apply three_way_perm.
  - intros m. unfold assemble. apply Forall_flat_map, Forall_forall.
    intros [uid imgs] _. unfold seriesOf.
    destruct (0 <? List.length imgs)%nat; [|constructor].
    destruct (classifyPlanes (sortImagesByPosition imgs)) as [[ax co] sa] eqn:E.
    repeat constructor. exact E.
Qed.

(** C3.  After the primary classification of a series: every bucket that is
    empty while another one is not is replaced by the whole (sorted) image
    list; then each bucket is re-sorted, stably and ascending, by its own
    spatial key (axial by the z coordinate of the image position, coronal by
    y, sagittal by x).  Consequently, if exactly one bucket is non-empty
    before the fallback, all three final buckets hold the same images as the
    series, each sorted by its own key.  The key is the coordinate whenever
    the coordinate is a number. *)
Theorem C3_fallback_and_resort (images : list DicomImage) :
  let '(ax, co, sa) := fillStated images (primaryBuckets images) in
  let '(axialImages', coronalImages', sagittalImages') := classifyPlanes images in
  stableSortOf (positionKey 2) ax axialImages'
  /\ stableSortOf (positionKey 1) co coronalImages'
  /\ stableSortOf (positionKey 0) sa sagittalImages'
  /\ (exactlyOneNonEmpty (primaryBuckets images) = true ->
      Permutation images axialImages' /\ ascendingBy (positionKey 2) axialImages'
      /\ Permutation images coronalImages' /\ ascendingBy (positionKey 1) coronalImages'
      /\ Permutation images sagittalImages' /\ ascendingBy (positionKey 0) sagittalImages')
  /\ (forall axis img v,
         nth_error (imagePositionPatient img) axis = Some v -> is_nan v = false ->
         (positionKey axis img =? v)%float = true).
Proof.
  rewrite classifyPlanes_unfold.
  pose proof (exactlyOne_fill images (primaryBuckets images)) as One.
  assert (P : Permutation images
                (let '(ax, co, sa) := primaryBuckets images in ax ++ co ++ sa))
    by (rewrite primaryBuckets_filter; apply three_way_perm).
  destruct (fillStated images (primaryBuckets images)) as [[ax co] sa].
  pose proof (orderBy_stable ax 2) as (Pa & Sa & Ta).
  pose proof (orderBy_stable co 1) as (Pc & Sc & Tc).
  pose proof (orderBy_stable sa 0) as (Ps & Ss & Ts).
  split; [exact (conj Pa (conj Sa Ta))|].
  split; [exact (conj Pc (conj Sc Tc))|].
  split; [exact (conj Ps (conj Ss Ts))|].
  split; [|exact positionKey_coordinate].
  intros H. destruct (One H P) as (Qa & Qc & Qs).
  exact (conj (Permutation_trans Qa Pa)
          (conj Sa (conj (Permutation_trans Qc Pc)
             (conj Sc (conj (Permutation_trans Qs Ps) Ss))))).
Qed.

(** ** The insertion-ordered map *)

Section MapFacts.
Context {V : Type}.
Implicit Types (m : Js.Map V) (k : string) (v : V).

Lemma get_set_same k v m : Js.get k (Js.set k v m) = Some v.
Proof.
  induction m as [|[k' v'] m IH]; cbn [Js.set Js.get].
  - rewrite String.eqb_refl. reflexivity.
  - destruct (k' =? k)%string eqn:E; cbn [Js.get]; rewrite E; auto.
Qed.

Lemma get_set_other k k' v m :
  k' <> k -> Js.get k' (Js.set k v m) = Js.get k' m.
Proof.
  intros N. induction m as [|[k0 v0] m IH]; cbn [Js.set Js.get].
  - destruct (k =? k')%string eqn:E; [|reflexivity].
    apply String.eqb_eq in E. congruence.
  - destruct (k0 =? k)%string eqn:E; cbn [Js.get].
    + apply String.eqb_eq in E. subst k0.
      destruct (k =? k')%string eqn:E'; [|reflexivity].
      apply String.eqb_eq in E'. congruence.
    + rewrite IH. reflexivity.
Qed.

Lemma set_keys k v m :
  map fst (Js.set k v m)
  = if Js.has k m then map fst m else map fst m ++ [k].
Proof.
  unfold Js.has. induction m as [|[k' v'] m IH]; cbn [Js.set Js.get map fst app].
  - reflexivity.
  - destruct (k' =? k)%string eqn:E; cbn [map fst]; [reflexivity|].
    rewrite IH. destruct (Js.get k m); reflexivity.
Qed.

Lemma get_none_keys k m : Js.get k m = None -> ~ In k (map fst m).
Proof.
  induction m as [|[k' v'] m IH]; cbn [Js.get map fst]; [intros _ []|].
  destruct (k' =? k)%string eqn:E; [discriminate|].
  intros H [->|HI]; [rewrite String.eqb_refl in E; discriminate | exact (IH H HI)].
Qed.

Lemma set_NoDup k v m : NoDup (map fst m) -> NoDup (map fst (Js.set k v m)).
Proof.
  intros H. rewrite set_keys. unfold Js.has.
  destruct (Js.get k m) eqn:E; [exact H|].
  apply NoDup_app; [exact H | repeat constructor; intros [] |].
  intros x Hx [<-|[]]. exact (get_none_keys k m E Hx).
Qed.

Lemma in_get k v m : NoDup (map fst m) -> In (k, v) m -> Js.get k m = Some v.
Proof.
  induction m as [|[k' v'] m IH]; cbn [map fst Js.get]; [intros _ []|].
  intros ND [E|HI].
  - inversion E; subst. rewrite String.eqb_refl. reflexivity.
  - inversion ND as [|? ? NI ND']; subst.
    destruct (k' =? k)%string eqn:E.
    + apply String.eqb_eq in E. subst k'. exfalso. apply NI.
      apply (in_map fst) in HI. exact HI.
    + apply IH; assumption.
Qed.
End MapFacts.

(** ** Grouping by series identifier *)

Section Grouping.
Implicit Types (m : Js.Map (list DicomImage)) (ds : list (DicomImage * option string)).

Lemma pushSeries_get uid img m k :
  Js.get k (pushSeries uid img m)
  = if (uid =? k)%string
    then Some (match Js.get uid m with
               | Some l => l ++ [img]
               | None => [img]
               end)
    else Js.get k m.
Proof.
  unfold pushSeries, Js.has.
  destruct (uid =? k)%string eqn:E.
  - apply String.eqb_eq in E. subst k.
    destruct (Js.get uid m) as [l|] eqn:G.
    + rewrite G. apply get_set_same.
    + rewrite get_set_same. apply get_set_same.
  - apply String.eqb_neq in E.
    destruct (Js.get uid m) as [l|] eqn:G.
    + rewrite G. apply get_set_other. congruence.
    + rewrite get_set_same. rewrite !get_set_other by congruence. reflexivity.
Qed.

Lemma pushSeries_NoDup uid img m :
  NoDup (map fst m) -> NoDup (map fst (pushSeries uid img m)).
Proof.
  intros H. unfold pushSeries, Js.has.
  destruct (Js.get uid m) as [l|] eqn:G.
  - rewrite G. apply set_NoDup, H.
  - rewrite get_set_same. apply set_NoDup, set_NoDup, H.
Qed.

Lemma ofSeries_snoc k ds d :
  ofSeries k (ds ++ [d])
  = ofSeries k ds
    ++ match snd d with
       | Some uid => if (uid =? k)%string then [fst d] else []
       | None => []
       end.
Proof.
  unfold ofSeries. rewrite filter_app, map_app. cbn [filter].
  destruct (snd d) as [uid|]; [destruct (uid =? k)%string|]; reflexivity.
Qed.

Lemma groups_push m ds d : groups m ds -> groups (pushDecoded m d) (ds ++ [d]).
Proof.
  intros [ND G]. unfold pushDecoded. split.
  - destruct (snd d); [apply pushSeries_NoDup, ND | exact ND].
  - intros k. rewrite ofSeries_snoc.
    destruct (snd d) as [uid|]; [|rewrite app_nil_r; apply G].
    rewrite pushSeries_get.
    destruct (uid =? k)%string eqn:E; [|rewrite app_nil_r; apply G].
    apply String.eqb_eq in E. subst k. rewrite G.
    destruct (ofSeries uid ds) as [|x l]; reflexivity.
Qed.

Lemma groups_fold ds : forall m ds0,
  groups m ds0 -> groups (fold_left pushDecoded ds m) (ds0 ++ ds).
Proof.
  induction ds as [|d ds IH]; intros m ds0 H; cbn [fold_left].
  - rewrite app_nil_r. exact H.
  - replace (ds0 ++ d :: ds) with ((ds0 ++ [d]) ++ ds)
      by (rewrite <- app_assoc; reflexivity).
    apply IH, groups_push, H.
Qed.

Lemma groups_all ds : groups (fold_left pushDecoded ds []) ds.
Proof.
  apply (groups_fold ds [] []). split; [constructor | reflexivity].
Qed.

Lemma groups_entry m ds uid imgs :
  groups m ds -> In (uid, imgs) m -> imgs = ofSeries uid ds /\ imgs <> [].
Proof.
  intros [ND G] HI. pose proof (in_get uid imgs m ND HI) as E.
  rewrite G in E. destruct (ofSeries uid ds); [discriminate|].
  inversion E; subst. split; [reflexivity | discriminate].
Qed.

(** What [assemble] makes of one entry of the map. *)
Lemma assemble_In m s :
  In s (assemble m) ->
  exists imgs,
    In (seriesInstanceUID s, imgs) m /\ imgs <> []
    /\ images s = sortImagesByPosition imgs
    /\ classifyPlanes (images s)
       = (axialImages s, coronalImages s, sagittalImages s).
Proof.
  unfold assemble. rewrite in_flat_map. intros [[uid imgs] [HI Hs]].
  unfold seriesOf in Hs. destruct imgs as [|x imgs]; [destruct Hs|].
  cbn [List.length Nat.ltb Nat.leb] in Hs.
  destruct (classifyPlanes (sortImagesByPosition (x :: imgs)))
    as [[ax co] sa] eqn:E.
  destruct Hs as [<-|[]]. cbn [seriesInstanceUID images axialImages
                                coronalImages sagittalImages].
  exists (x :: imgs). repeat split; [exact HI | discriminate | exact E].
Qed.

Lemma assemble_nil m :
  Forall (fun kv => snd kv <> []) m -> assemble m = [] -> m = [].
Proof.
  destruct m as [|[uid imgs] m]; [reflexivity|].
  intros F. inversion F as [|? ? Hne _]; subst. cbn [snd] in Hne.
  unfold assemble. cbn [flat_map seriesOf].
  destruct imgs as [|x imgs]; [contradiction|].
  cbn [List.length Nat.ltb Nat.leb].
  destruct (classifyPlanes (sortImagesByPosition (x :: imgs))) as [[ax co] sa].
  discriminate.
Qed.
End Grouping.

(** ** The entry loop *)

Section Loop.
Variable dicomParser : DicomParserApi.

Lemma processEntry_seriesMap n st ix :
  seriesMap (processEntry dicomParser n st ix)
  = fold_left pushDecoded
      (match decodeEntry dicomParser (snd ix) with Some d => [d] | None => [] end)
      (seriesMap st).
Proof.
  destruct ix as [i [filename zipEntry]].
  unfold processEntry, decodeEntry. cbn [fst snd].
  destruct (async_arraybuffer zipEntry) as [arrayBuffer|]; [|reflexivity].
  unfold processBytes, isCandidate.
  destruct (negb (hasDICM arrayBuffer) && negb (parsedOk dicomParser arrayBuffer));
    cbn [negb]; [reflexivity|].
  destruct (justFilenameOf filename =? filename)%string;
    (destruct (parseDicomFile dicomParser arrayBuffer (justFilenameOf filename));
     [|reflexivity]);
    unfold pushDecoded; cbn [fold_left fst snd seriesMap inWorld];
    destruct (getSeriesInstanceUID dicomParser arrayBuffer); reflexivity.
Qed.

Lemma processEntry_reported n st i entry :
  reported (world (processEntry dicomParser n st (i, entry)))
  = reported (world st) ++ [entryProgress i n].
Proof.
  destruct entry as [filename zipEntry]. unfold processEntry.
  destruct (async_arraybuffer zipEntry) as [arrayBuffer|]; [|reflexivity].
  unfold processBytes.
  destruct (negb (hasDICM arrayBuffer) && negb (parsedOk dicomParser arrayBuffer));
    [reflexivity|].
  destruct (justFilenameOf filename =? filename)%string;
    destruct (parseDicomFile dicomParser arrayBuffer (justFilenameOf filename));
    reflexivity.
Qed.

Lemma fold_processEntry_seriesMap n ixs : forall st,
  seriesMap (fold_left (processEntry dicomParser n) ixs st)
  = fold_left pushDecoded (decoded dicomParser (map snd ixs)) (seriesMap st).
Proof.
  induction ixs as [|ix ixs IH]; intros st; [reflexivity|].
  cbn [fold_left map]. rewrite IH, processEntry_seriesMap.
  unfold decoded. cbn [flat_map]. rewrite fold_left_app. reflexivity.
Qed.

Lemma fold_processEntry_reported n ixs : forall st,
  reported (world (fold_left (processEntry dicomParser n) ixs st))
  = reported (world st) ++ map (fun ix => entryProgress (fst ix) n) ixs.
Proof.
  induction ixs as [|[i entry] ixs IH]; intros st; cbn [fold_left map fst].
  - rewrite app_nil_r. reflexivity.
  - rewrite IH, processEntry_reported, <- app_assoc. reflexivity.
Qed.

Lemma combine_seq_snd {A} (l : list A) : forall a,
  map snd (combine (seq a (List.length l)) l) = l.
Proof.
  induction l as [|x l IH]; intros a; [reflexivity|].
  cbn [List.length seq combine map snd]. rewrite IH. reflexivity.
Qed.

Lemma combine_seq_fst {A} (l : list A) : forall a,
  map fst (combine (seq a (List.length l)) l) = seq a (List.length l).
Proof.
  induction l as [|x l IH]; intros a; [reflexivity|].
  cbn [List.length seq combine map fst]. rewrite IH. reflexivity.
Qed.

Lemma processEntries_seriesMap fileEntries st :
  seriesMap (processEntries dicomParser fileEntries st)
  = fold_left pushDecoded (decoded dicomParser fileEntries) (seriesMap st).
Proof.
  unfold processEntries. rewrite fold_processEntry_seriesMap, combine_seq_snd.
  reflexivity.
Qed.

Lemma processEntries_reported fileEntries st :
  reported (world (processEntries dicomParser fileEntries st))
  = reported (world st)
    ++ map (fun i => entryProgress i (List.length fileEntries))
         (seq 0 (List.length fileEntries)).
Proof.
  unfold processEntries. rewrite fold_processEntry_reported. f_equal.
  rewrite <- (combine_seq_fst fileEntries 0) at 2. rewrite map_map. reflexivity.
Qed.

(** The loop writes only the progress and the message of the hook. *)
Lemma processEntry_verdict n st ix :
  verdict (hook (world (processEntry dicomParser n st ix)))
  = verdict (hook (world st)).
Proof.
  destruct ix as [i [filename zipEntry]]. unfold processEntry.
  destruct (async_arraybuffer zipEntry) as [arrayBuffer|]; [|reflexivity].
  unfold processBytes.
  destruct (negb (hasDICM arrayBuffer) && negb (parsedOk dicomParser arrayBuffer));
    [reflexivity|].
  destruct (justFilenameOf filename =? filename)%string;
    destruct (parseDicomFile dicomParser arrayBuffer (justFilenameOf filename));
    reflexivity.
Qed.

Lemma processEntries_verdict fileEntries st :
  verdict (hook (world (processEntries dicomParser fileEntries st)))
  = verdict (hook (world st)).
Proof.
  unfold processEntries.
  generalize (combine (seq 0 (List.length fileEntries)) fileEntries).
  generalize (List.length fileEntries). intros n ixs. revert st.
  induction ixs as [|ix ixs IH]; intros st; [reflexivity|].
  cbn [fold_left]. rewrite IH. apply processEntry_verdict.
Qed.

(** The series map the loop leaves does not depend on the world it ran in. *)
Lemma assembled_run files w :
  assemble
    (seriesMap
       (processEntries dicomParser (fileEntriesOf files)
          {| world := w; dicomFiles := []; seriesMap := []; processedCount := 0 |}))
  = assembled dicomParser files.
Proof.
  unfold assembled. rewrite !processEntries_seriesMap. reflexivity.
Qed.

Lemma assembled_groups files :
  assembled dicomParser files
  = assemble
      (fold_left pushDecoded
         (decoded dicomParser (fileEntriesOf files)) []).
Proof. unfold assembled. rewrite processEntries_seriesMap. reflexivity. Qed.

(** The outcome of a run whose archive opened. *)
Lemma parseZipFile_outcome files w :
  let w' := parseZipFile dicomParser (Normal files) w in
  let out := assembled dicomParser files in
  error (hook w') = (if isEmptySeries out then Some noSeriesMessage else None)
  /\ series (hook w') = (if isEmptySeries out then series (hook w) else out)
  /\ hasLoaded (hook w') = negb (isEmptySeries out)
  /\ isLoading (hook w') = false.
Proof.
  cbv zeta. unfold parseZipFile. rewrite assembled_run.
  match goal with |- context [processEntries dicomParser ?es ?st0] =>
    pose proof (processEntries_verdict es st0) as V;
    set (st := processEntries dicomParser es st0) in *
  end.
  unfold verdict in V. cbn in V. inversion V as [[Vs Vl Ve Vh]].
  destruct (assembled dicomParser files) as [|s out];
    cbn [List.length Nat.eqb isEmptySeries]; repeat split; cbn;
    first [reflexivity | assumption | symmetry; assumption].
Qed.
End Loop.

(** ** Attribute decoding *)

Ltac bind_inv H :=
  repeat match type of H with
  | Js.bind ?c _ = Normal _ =>
      let E := fresh "E" in
      destruct c eqn:E; cbn [Js.bind] in H; [|discriminate H]
  end.

Section Decoding.

Lemma getImagePositionPatient_amended dataSet pos :
  getImagePositionPatient dataSet = Normal pos ->
  geometricAmended dataSet "x00200032" 3 0 [0; 0; 0]%float pos.
Proof.
  unfold getImagePositionPatient, geometricAmended. intros H.
  destruct (DataSet.elements dataSet "x00200032") as [element|];
    [|inversion H; reflexivity].
  change (Z.of_nat 3) with 3%Z.
  destruct (3 <=? Element.length element)%Z; [|inversion H; reflexivity].
  bind_inv H. inversion H; subst. unfold readOrDefault. cbn [seq].
  repeat (constructor; [eexists; split; [eassumption | reflexivity]|]).
  constructor.
Qed.

Lemma getImageOrientationPatient_amended dataSet iop :
  getImageOrientationPatient dataSet = Normal iop ->
  geometricAmended dataSet "x00200037" 6 0 [1; 0; 0; 0; 1; 0]%float iop.
Proof.
  unfold getImageOrientationPatient, geometricAmended. intros H.
  destruct (DataSet.elements dataSet "x00200037") as [element|];
    [|inversion H; reflexivity].
  change (Z.of_nat 6) with 6%Z.
  destruct (6 <=? Element.length element)%Z; [|inversion H; reflexivity].
  bind_inv H. inversion H; subst. unfold readOrDefault. cbn [seq].
  repeat (constructor; [eexists; split; [eassumption | reflexivity]|]).
  constructor.
Qed.

Lemma getPixelSpacing_amended dataSet sp :
  getPixelSpacing dataSet = Normal sp ->
  geometricAmended dataSet "x00280030" 2 1 [1; 1]%float sp.
Proof.
  unfold getPixelSpacing, geometricAmended. intros H.
  destruct (DataSet.elements dataSet "x00280030") as [element|];
    [|inversion H; reflexivity].
  change (Z.of_nat 2) with 2%Z.
  destruct (2 <=? Element.length element)%Z; [|inversion H; reflexivity].
  bind_inv H. inversion H; subst. unfold readOrDefault. cbn [seq].
  repeat (constructor; [eexists; split; [eassumption | reflexivity]|]).
  constructor.
Qed.

(** What a successful [readImage] read. *)
Lemma readImage_Normal dataSet filename img :
  readImage dataSet filename = Normal img ->
  exists loc,
    DataSet.float dataSet "x00201041" 0 = Normal loc
    /\ sliceLocation img = orNum loc 0
    /\ getImagePositionPatient dataSet = Normal (imagePositionPatient img)
    /\ getImageOrientationPatient dataSet = Normal (imageOrientationPatient img)
    /\ getPixelSpacing dataSet = Normal (pixelSpacing img)
    /\ imageId img = ("dicom:" ++ filename)%string.
Proof.
  unfold readImage. intros H. bind_inv H. inversion H; subst.
  cbn [sliceLocation imagePositionPatient imageOrientationPatient pixelSpacing
       imageId].
  eexists. repeat split; try eassumption; reflexivity.
Qed.

Lemma parseDicomFile_Some dicomParser arrayBuffer filename img :
  parseDicomFile dicomParser arrayBuffer filename = Some img ->
  exists dataSet,
    parseDicom dicomParser arrayBuffer = Normal dataSet
    /\ readImage dataSet filename = Normal img.
Proof.
  unfold parseDicomFile, Js.tryOrNull, Js.bind.
  destruct (parseDicom dicomParser arrayBuffer) as [dataSet|]; [|discriminate].
  destruct (readImage dataSet filename) eqn:E; [|discriminate].
  intros H. inversion H; subst. eauto.
Qed.

Lemma parseDicomFile_sliceLocation dicomParser arrayBuffer filename img :
  parseDicomFile dicomParser arrayBuffer filename = Some img ->
  is_nan (sliceLocation img) = false.
Proof.
  intros H. apply parseDicomFile_Some in H as (dataSet & _ & R).
  apply readImage_Normal in R as (loc & _ & -> & _).
  apply NumberOrder.orNum_not_nan. reflexivity.
Qed.
End Decoding.

(** C6, as amended.  For every successfully decoded buffer, each geometric
    attribute (image position, image orientation, pixel spacing) is decoded
    in one of two ways.  If its element is present with a length of at least
    3, 6, 2 respectively, the components are read one by one, and a component
    that reads as undefined, 0 or NaN is replaced by that component's default
    (0 for position and orientation, 1 for spacing).  Otherwise the whole
    attribute is its default ([0,0,0], [1,0,0,0,1,0], [1,1]). *)
Theorem C6_geometric_attributes dicomParser arrayBuffer filename dataSet img :
  parseDicom dicomParser arrayBuffer = Normal dataSet ->
  parseDicomFile dicomParser arrayBuffer filename = Some img ->
  geometricAmended dataSet "x00200032" 3 0 [0; 0; 0]%float (imagePositionPatient img)
  /\ geometricAmended dataSet "x00200037" 6 0 [1; 0; 0; 0; 1; 0]%float
       (imageOrientationPatient img)
  /\ geometricAmended dataSet "x00280030" 2 1 [1; 1]%float (pixelSpacing img).
Proof.
  intros P H. apply parseDicomFile_Some in H as (dataSet' & P' & R).
  rewrite P in P'. inversion P'; subst dataSet'.
  apply readImage_Normal in R as (loc & _ & _ & Hp & Ho & Hs & _).
  split; [apply getImagePositionPatient_amended, Hp|].
  split; [apply getImageOrientationPatient_amended, Ho|].
  apply getPixelSpacing_amended, Hs.
Qed.

Lemma zeroSpacing_decodes :
  parseDicomFile zeroSpacingParser [] "f" = Some zeroSpacingImage.
Proof. vm_compute. reflexivity. Qed.

Lemma C6_witness :
  geometricAmended zeroSpacingDataSet "x00200032" 3 0 [0; 0; 0]%float
    (imagePositionPatient zeroSpacingImage)
  /\ geometricAmended zeroSpacingDataSet "x00200037" 6 0 [1; 0; 0; 0; 1; 0]%float
       (imageOrientationPatient zeroSpacingImage)
  /\ geometricAmended zeroSpacingDataSet "x00280030" 2 1 [1; 1]%float
       (pixelSpacing zeroSpacingImage).
Proof.
  apply (C6_geometric_attributes zeroSpacingParser [] "f"
           zeroSpacingDataSet zeroSpacingImage).
  - reflexivity.
  - vm_compute. reflexivity.
Defined.

(** C6 as stated fails on a pixel spacing whose second component is 0: the
    element has two components, [0.5] and [0]; the decoded spacing is
    [0.5, 1], where the first component is the one read and the second is the
    default; it is neither the spacing read in full, [0.5, 0], nor the
    default of the whole attribute, [1, 1]. *)
Lemma C6_partial_fill_counterexample :
  parseDicomFile zeroSpacingParser [] "f" = Some zeroSpacingImage
  /\ pixelSpacing zeroSpacingImage = [0.5; 1]%float
  /\ readInFull zeroSpacingDataSet "x00280030" 2 [0.5; 0]%float
  /\ ~ wholeOrDefault zeroSpacingParser.
Proof.
  split; [exact zeroSpacing_decodes|]. split; [reflexivity|]. split.
  - repeat constructor.
  - intros H.
    destruct (H [] "f"%string zeroSpacingDataSet zeroSpacingImage eq_refl
                zeroSpacing_decodes) as (_ & _ & [(e & _ & _ & R) | D]).
    + inversion R as [|? ? ? ? _ R']; subst.
      inversion R' as [|? ? ? ? E _]; subst.
      cbn in E. inversion E.
    + cbn in D. inversion D.
Qed.

(** ** Products and differences that stay finite *)

Module MagnitudeFacts.
Import FloatFacts Round RoundFacts Nearest NearestFacts Magnitude.
Local Open Scope Z_scope.

Lemma Zdigits2_le m k : 0 <= m -> 0 <= k -> m < 2 ^ k -> Zdigits2 m <= k.
Proof.
  intros Hm Hk H. destruct (Z.eq_dec m 0) as [->|N]; [cbn; lia|].
  pose proof (Zdigits2_lower m ltac:(lia)) as L.
  destruct (Z.le_gt_cases (Zdigits2 m) k) as [|G]; [assumption|].
  assert (2 ^ k <= 2 ^ (Zdigits2 m - 1)) by (apply Z.pow_le_mono_r; lia). lia.
Qed.

(** The sign is put on at the end. *)
Lemma bra_signed s m e l :
  binary_round_aux prec emax s m e l = signed s (binary_round_aux prec emax false m e l).
Proof.
  unfold binary_round_aux.
  destruct (shr_fexp prec emax m e l) as [mrs' e'].
  destruct (shr_fexp prec emax _ e' loc_Exact) as [mrs'' e''].
  destruct (shr_m mrs''); [reflexivity | | reflexivity].
  destruct (e'' <=? emax - prec); reflexivity.
Qed.

Lemma signed_tame s k f : tame k f -> tame k (signed s f).
Proof. destruct f; exact (fun H => H). Qed.

(** A rounding whose target exponent is below the top stays finite. *)
Lemma bra_tame s m e l A B k :
  0 <= m -> 0 <= A -> 0 < B -> rep (shr_record_of_loc m l) A B ->
  e <= target (Zdigits2 m) e ->
  target (Zdigits2 m) e + 1 <= k -> k <= 971 ->
  tame k (binary_round_aux prec emax s m e l).
Proof.
  intros Hm HA HB R Hk Ht Hmax. rewrite bra_signed. apply signed_tame.
  destruct (bra_general m e l A B Hm HA HB R Hk) as [-> Br].
  unfold rounded, pack0.
  destruct (Z.eqb_spec (rne (scode A (B * 2 ^ (target (Zdigits2 m) e - e)))) (2 ^ 53)).
  - cbn [fst snd]. change (2 ^ 52) with (Z.pos (2 ^ 52)). cbv beta iota.
    destruct (Z.leb_spec (target (Zdigits2 m) e + 1) 971); [cbn [tame]; lia | lia].
  - cbn [fst snd]. destruct (rne _) as [|r|r]; try lia; [exact I|].
    destruct (Z.leb_spec (target (Zdigits2 m) e) 971); [cbn [tame]; lia | lia].
Qed.

Lemma exact_rep p : rep (shr_record_of_loc (Z.pos p) loc_Exact) (Z.pos p) 1.
Proof.
  split; [rewrite shr_m_of_loc; lia|].
  rewrite code_of_loc. unfold scode. rewrite Z.div_1_r, Z.mod_1_r.
  change (0 =? 0) with true. cbv beta iota. lia.
Qed.

(** The product of two numbers of exponent at most [k]. *)
Lemma SFmul_tame x y k :
  valid_binary x = true -> valid_binary y = true ->
  -500 <= k -> k <= 400 ->
  tame k x -> tame k y -> tame (2 * k + 54) (SFmul prec emax x y).
Proof.
  intros Vx Vy Hk0 Hk Tx Ty.
  destruct x as [sx|sx| |sx mx ex], y as [sy|sy| |sy my ey];
    try contradiction; try exact I.
  cbn [tame] in Tx, Ty. cbn [SFmul].
  pose proof (valid_finite _ _ _ Vx) as (Hex & Dx & Nx).
  pose proof (valid_finite _ _ _ Vy) as (Hey & Dy & Ny).
  rewrite emin_val in *.
  pose proof (digits2_pos_bound mx) as [Lx Ux].
  pose proof (digits2_pos_bound my) as [Ly Uy].
  set (dx := Z.pos (digits2_pos mx)) in *. set (dy := Z.pos (digits2_pos my)) in *.
  assert (P1 : 0 < 2 ^ (dx - 1)) by (apply pow2_pos; lia).
  assert (P2 : 0 < 2 ^ (dy - 1)) by (apply pow2_pos; lia).
  assert (Lo : dx + dy - 1 <= Zdigits2 (Z.pos (mx * my))).
  { replace (dx + dy - 1) with (dx + dy - 2 + 1) by lia.
    apply Zdigits2_ge; [lia|].
    replace (dx + dy - 2) with ((dx - 1) + (dy - 1)) by lia.
    rewrite Z.pow_add_r by lia. rewrite Pos2Z.inj_mul. nia. }
  assert (Hi : Zdigits2 (Z.pos (mx * my)) <= dx + dy).
  { apply Zdigits2_le; [lia | lia |].
    rewrite Z.pow_add_r by lia. rewrite Pos2Z.inj_mul. nia. }
  apply (bra_tame _ _ _ _ (Z.pos (mx * my)) 1); try lia.
  - apply exact_rep.
  - unfold target.
    assert (Nx' : ex = -1074 \/ dx = 53)
      by (destruct (Z.eq_dec ex (-1074)); [left; assumption | right; apply Nx; lia]).
    assert (Ny' : ey = -1074 \/ dy = 53)
      by (destruct (Z.eq_dec ey (-1074)); [left; assumption | right; apply Ny; lia]).
    clear Nx Ny. lia.
  - unfold target. clear Nx Ny. lia.
Qed.

(** The difference of two numbers of exponent at most [k]. *)
Lemma SFsub_tame x y k :
  valid_binary x = true -> valid_binary y = true ->
  -1074 <= k -> k <= 900 ->
  tame k x -> tame k y -> tame (k + 2) (SFsub prec emax x y).
Proof.
  intros Vx Vy Hk0 Hk Tx Ty.
  destruct x as [sx|sx| |sx mx ex], y as [sy|sy| |sy my ey];
    try contradiction; cbn [tame] in Tx, Ty; cbn [SFsub].
  - destruct sx, sy; exact I.
  - cbn [tame]. lia.
  - cbn [tame]. lia.
  - pose proof (valid_finite _ _ _ Vx) as (Hex & Dx & _).
    pose proof (valid_finite _ _ _ Vy) as (Hey & Dy & _).
    rewrite emin_val in *.
    pose proof (digits2_pos_bound mx) as [_ Ux].
    pose proof (digits2_pos_bound my) as [_ Uy].
    assert (Ux' : Z.pos mx < 2 ^ 53).
    { assert (2 ^ Z.pos (digits2_pos mx) <= 2 ^ 53) by (apply Z.pow_le_mono_r; lia). lia. }
    assert (Uy' : Z.pos my < 2 ^ 53).
    { assert (2 ^ Z.pos (digits2_pos my) <= 2 ^ 53) by (apply Z.pow_le_mono_r; lia). lia. }
    set (ez := Z.min ex ey).
    rewrite !shl_align_fst by (unfold ez; lia).
    set (M := cond_Zopp sx (Z.pos mx * 2 ^ (ex - ez))
              - cond_Zopp sy (Z.pos my * 2 ^ (ey - ez))).
    pose proof (pow2_pos (ex - ez) ltac:(unfold ez; lia)) as Px.
    pose proof (pow2_pos (ey - ez) ltac:(unfold ez; lia)) as Py.
    set (K := Z.max ex ey).
    assert (PK : 2 ^ (ex - ez) <= 2 ^ (K - ez) /\ 2 ^ (ey - ez) <= 2 ^ (K - ez))
      by (split; apply Z.pow_le_mono_r; unfold K, ez; lia).
    assert (HM : Z.abs M < 2 ^ (54 + (K - ez))).
    { rewrite Z.pow_add_r by (unfold K, ez; lia). change (2 ^ 54) with (2 * 2 ^ 53).
      unfold M. destruct sx, sy; cbn [cond_Zopp]; nia. }
    assert (B : forall s p, Z.pos p = Z.abs M -> tame (k + 2) (binary_round prec emax s p ez)).
    { intros s p Ep. unfold binary_round.
      pose proof (digits2_pos_bound p) as [Lp Up].
      set (d := Z.pos (digits2_pos p)) in *.
      assert (Hd : d <= 54 + (K - ez)).
      { change d with (Zdigits2 (Z.pos p)).
        apply Zdigits2_le; [lia | unfold K, ez; lia | rewrite Ep; exact HM]. }
      rewrite fexp_val. change (Z.max (d + ez - 53) (-1074)) with (target d ez).
      destruct (Z.le_gt_cases (target d ez) ez) as [L|G].
      - destruct (shl_align p ez (target d ez)) as [mz ez'] eqn:Es.
        pose proof (shl_align_fst p ez (target d ez) L) as E1.
        pose proof (shl_align_snd p ez (target d ez) L) as E2.
        rewrite Es in E1, E2. cbn [fst snd] in E1, E2. subst ez'.
        assert (Dz : Zdigits2 (Z.pos mz) = d + (ez - target d ez)).
        { cbn [Zdigits2]. apply digits_shift; [lia | exact E1]. }
        apply (bra_tame _ _ _ _ (Z.pos mz) 1); try lia.
        + apply exact_rep.
        + rewrite Dz. unfold target. lia.
        + rewrite Dz. unfold target, K in *. lia.
      - rewrite shl_align_id by lia.
        apply (bra_tame _ _ _ _ (Z.pos p) 1); try lia.
        + apply exact_rep.
        + cbn [Zdigits2]. fold d. lia.
        + cbn [Zdigits2]. fold d. unfold target, K in *. lia. }
    unfold binary_normalize. destruct M as [|p|p] eqn:EM; [exact I | |];
      apply B; reflexivity.
Qed.

(** A difference is an infinity or NaN as soon as one side is. *)
Lemma SFsub_wild x y : wild x \/ wild y -> wild (SFsub prec emax x y).
Proof.
  destruct x as [sx|sx| |sx mx ex], y as [sy|sy| |sy my ey]; cbn [wild SFsub];
    intros [H|H]; try contradiction; try exact I;
    destruct sx, sy; exact I.
Qed.

Lemma SFmul_wild x y :
  wild x \/ wild y -> wild (SFmul prec emax x y).
Proof.
  destruct x as [sx|sx| |sx mx ex], y as [sy|sy| |sy my ey]; cbn [wild SFmul];
    intros [H|H]; try contradiction; exact I.
Qed.

Lemma tame_not_wild k x : tame k x -> wild x -> False.
Proof. destruct x; cbn; auto. Qed.

Lemma tame_or_wild x : (exists k, tame k x) \/ wild x.
Proof.
  destruct x as [s|s| |s m e]; cbn; auto; left; [exists 0; exact I | exists e; lia].
Qed.

Lemma tame_le k k' x : k <= k' -> tame k x -> tame k' x.
Proof. destruct x; cbn; auto; lia. Qed.
End MagnitudeFacts.

(** ** The classifier on the orientations the decoder produces *)

Module ClassifierRange.
Import FloatFacts NumberOrder Magnitude MagnitudeFacts.
Local Open Scope float_scope.

(** A number in the range is an infinity or has an exponent of at most 76. *)
Lemma inFloat32Range_cases x :
  inFloat32Range x = true -> tame 76 (Prim2SF x) \/ exists s, Prim2SF x = S754_infinity s.
Proof.
  unfold inFloat32Range. rewrite leb_spec, eqb_spec, abs_spec.
  change (Prim2SF 0x1p128) with (S754_finite false 4503599627370496 76).
  change (Prim2SF infinity) with (S754_infinity false).
  destruct (Prim2SF x) as [s|s| |s m e]; cbn [SFabs tame]; intros H.
  - left. exact I.
  - right. eauto.
  - discriminate H.
  - left. apply orb_true_iff in H as [H|H]; [|discriminate H].
    unfold SFleb, SFcompare in H.
    destruct (Z.compare_spec e 76); try discriminate H; lia.
Qed.

Section Cross.
Variables a b c d : number.
Hypothesis Ha : inFloat32Range a = true.
Hypothesis Hb : inFloat32Range b = true.
Hypothesis Hc : inFloat32Range c = true.
Hypothesis Hd : inFloat32Range d = true.

(** [a * b] is finite unless [a] or [b] is infinite. *)
Lemma product_cases :
  tame 206 (Prim2SF (a * b))
  \/ (wild (Prim2SF (a * b))
      /\ ((exists s, Prim2SF a = S754_infinity s) \/ exists s, Prim2SF b = S754_infinity s)).
Proof.
  rewrite mul_spec.
  destruct (inFloat32Range_cases a Ha) as [Ta|[s Ia]];
    [destruct (inFloat32Range_cases b Hb) as [Tb|[s Ib]]|].
  - left. apply (SFmul_tame _ _ 76); try assumption; try apply Prim2SF_valid; lia.
  - right. split; [apply SFmul_wild; right; rewrite Ib; exact I | right; eauto].
  - right. split; [apply SFmul_wild; left; rewrite Ia; exact I | left; eauto].
Qed.
End Cross.

Lemma infinite_product_l a b s :
  Prim2SF a = S754_infinity s -> wild (Prim2SF (a * b)).
Proof. intros E. rewrite mul_spec. apply SFmul_wild. left. rewrite E. exact I. Qed.

Lemma infinite_product_r a b s :
  Prim2SF b = S754_infinity s -> wild (Prim2SF (a * b)).
Proof. intros E. rewrite mul_spec. apply SFmul_wild. right. rewrite E. exact I. Qed.

Lemma difference_wild x y : wild (Prim2SF x) \/ wild (Prim2SF y) -> wild (Prim2SF (x - y)).
Proof. rewrite sub_spec. apply SFsub_wild. Qed.

Lemma difference_tame x y :
  tame 206 (Prim2SF x) -> tame 206 (Prim2SF y) -> wild (Prim2SF (x - y)) -> False.
Proof.
  intros Tx Ty W. rewrite sub_spec in W.
  apply (tame_not_wild 208 (SF64sub (Prim2SF x) (Prim2SF y))); [|exact W].
  apply (SFsub_tame _ _ 206); try assumption; try apply Prim2SF_valid; lia.
Qed.

(** When the third component of the cross product is not finite, one of the
    other two is not finite either. *)
Lemma cross_wild (o0 o1 o2 o3 o4 o5 : number) :
  Forall (fun x => inFloat32Range x = true) [o0; o1; o2; o3; o4; o5] ->
  wild (Prim2SF (o0 * o4 - o1 * o3)) ->
  wild (Prim2SF (o1 * o5 - o2 * o4)) \/ wild (Prim2SF (o2 * o3 - o0 * o5)).
Proof.
  intros H W.
  inversion H as [|? ? H0 T0]; subst. inversion T0 as [|? ? H1 T1]; subst.
  inversion T1 as [|? ? H2 T2]; subst. inversion T2 as [|? ? H3 T3]; subst.
  inversion T3 as [|? ? H4 T4]; subst. inversion T4 as [|? ? H5 _]; subst.
  destruct (product_cases o0 o4 H0 H4) as [P1|[_ [[s I]|[s I]]]];
    [destruct (product_cases o1 o3 H1 H3) as [P2|[_ [[s I]|[s I]]]]| |].
  - exfalso. exact (difference_tame _ _ P1 P2 W).
  - left. apply difference_wild. left. exact (infinite_product_l o1 o5 s I).
  - right. apply difference_wild. left. exact (infinite_product_r o2 o3 s I).
  - right. apply difference_wild. right. exact (infinite_product_l o0 o5 s I).
  - left. apply difference_wild. right. exact (infinite_product_r o2 o4 s I).
Qed.

Lemma is_nan_wild x : is_nan x = true -> wild (Prim2SF x).
Proof.
  rewrite is_nan_spec.
  destruct (Prim2SF x); intros H; try discriminate H; exact I.
Qed.

(** The magnitude of a normal with a NaN component is NaN. *)
Lemma magnitude_of_nan (nx ny nz : number) :
  is_nan nz = true -> (0 <? sqrt (nx * nx + ny * ny + nz * nz)) = false.
Proof.
  intros H. rewrite (nan_unique nz H).
  rewrite mul_nan_l, add_nan_r.
  reflexivity.
Qed.

Lemma shr_fexp_nonneg m e l : (0 <= m)%Z -> (0 <= shr_m (fst (shr_fexp prec emax m e l)))%Z.
Proof.
  intros H. unfold shr_fexp, shr.
  destruct (SpecFloat.fexp prec emax (Zdigits2 m + e) - e)%Z as [|p|p]; cbn [fst];
    rewrite ?shr_m_of_loc; try exact H.
  rewrite iter_shr_1_m, shr_m_of_loc by (rewrite shr_m_of_loc; exact H).
  apply Z.div_pos; [exact H | apply RoundFacts.pow2_pos; lia].
Qed.

Lemma round_nearest_even_nonneg m l : (0 <= m)%Z -> (0 <= round_nearest_even m l)%Z.
Proof.
  intros H. unfold round_nearest_even.
  destruct l as [|[]]; try destruct (Z.even m); lia.
Qed.

Lemma bra_not_nan s m e l :
  (0 <= m)%Z -> binary_round_aux prec emax s m e l <> S754_nan.
Proof.
  intros H. unfold binary_round_aux.
  pose proof (shr_fexp_nonneg m e l H) as H1.
  destruct (shr_fexp prec emax m e l) as [mrs' e1]. cbn [fst] in H1.
  pose proof (shr_fexp_nonneg _ e1 loc_Exact
                (round_nearest_even_nonneg _ (loc_of_shr_record mrs') H1)) as H2.
  destruct (shr_fexp prec emax _ e1 loc_Exact) as [mrs'' e2]. cbn [fst] in H2.
  destruct (shr_m mrs''); try discriminate; [|lia].
  destruct (e2 <=? emax - prec)%Z; discriminate.
Qed.

(** Dividing by a positive magnitude gives NaN only for a dividend that is
    not finite, and then, unless the dividend is NaN, the magnitude is
    infinite. *)
Lemma quotient_nan (n m : number) :
  (0 <? m) = true -> is_nan (n / m) = true ->
  is_nan n = true \/ (wild (Prim2SF n) /\ Prim2SF m = S754_infinity false).
Proof.
  rewrite ltb_spec, !is_nan_spec, div_spec.
  change (Prim2SF 0) with (S754_zero false). unfold SF64div.
  destruct (Prim2SF m) as [sm|sm| |sm mm em] eqn:Em; try discriminate;
    destruct sm; try discriminate; intros _.
  - destruct (Prim2SF n) as [sn|sn| |sn mn en]; cbn [SFdiv wild]; intros H;
      try discriminate H; auto.
  - destruct (Prim2SF n) as [sn|sn| |sn mn en] eqn:En; cbn [SFdiv wild]; intros H;
      try discriminate H; auto.
    exfalso.
    unfold SFdiv_core_binary in H.
    set (m' := match (en - em - _)%Z with 0%Z => _ | Z.pos _ => _ | Z.neg _ => _ end) in H.
    assert (Hm : (0 <= m')%Z).
    { unfold m'. destruct (en - em - _)%Z; try lia. apply Z.shiftl_nonneg. lia. }
    assert (Hq : (0 <= m' / Z.pos mm)%Z) by (apply Z.div_pos; lia).
    assert (Ediv : Z.div_eucl m' (Z.pos mm) = (m' / Z.pos mm, m' mod Z.pos mm)%Z)
      by (unfold Z.div, Z.modulo; destruct (Z.div_eucl _ _); reflexivity).
    rewrite Ediv in H.
    destruct (binary_round_aux prec emax (xorb sn false) (m' / Z.pos mm) _ _) eqn:Eb;
      try discriminate H.
    exact (bra_not_nan _ _ _ _ Hq Eb).
Qed.

(** The infinity over itself, or NaN over anything, is NaN. *)
Lemma wild_over_infinity (n m : number) :
  wild (Prim2SF n) -> Prim2SF m = S754_infinity false -> is_nan (n / m) = true.
Proof.
  intros W E. rewrite is_nan_spec, div_spec, E. unfold SF64div.
  destruct (Prim2SF n); cbn [wild] in W; try contradiction; reflexivity.
Qed.

Lemma nan_over (n m : number) : is_nan n = true -> is_nan (n / m) = true.
Proof.
  intros H. rewrite (nan_unique n H).
  rewrite is_nan_spec, div_spec. change (Prim2SF nan) with S754_nan. reflexivity.
Qed.

(** On the orientations of the range, whenever the third component of the
    normalized normal is NaN another one is too. *)
Lemma normalized_nan (o0 o1 o2 o3 o4 o5 : number) :
  Forall (fun x => inFloat32Range x = true) [o0; o1; o2; o3; o4; o5] ->
  let nx := o1 * o5 - o2 * o4 in
  let ny := o2 * o3 - o0 * o5 in
  let nz := o0 * o4 - o1 * o3 in
  let m := sqrt (nx * nx + ny * ny + nz * nz) in
  (0 <? m) = true -> is_nan (nz / m) = true ->
  is_nan (nx / m) = true \/ is_nan (ny / m) = true.
Proof.
  intros H nx ny nz m Hm Hz.
  destruct (quotient_nan nz m Hm Hz) as [N|[W I]].
  - unfold m in Hm. rewrite (magnitude_of_nan nx ny nz N) in Hm. discriminate Hm.
  - destruct (cross_wild o0 o1 o2 o3 o4 o5 H W) as [Wx|Wy].
    + left. apply wild_over_infinity; assumption.
    + right. apply wild_over_infinity; assumption.
Qed.

(** With a NaN among the first two components the largest of the three is
    the first: the choice of the code. *)
Lemma largestAxis_nan (x y z : number) :
  is_nan x = true \/ is_nan y = true ->
  largestAxis (abs x) (abs y) (abs z) = sagittal.
Proof.
  assert (L : forall v, (nan <=? v) = false) by (intros v; rewrite leb_spec; reflexivity).
  assert (R : forall v, (v <=? nan) = false).
  { intros v. rewrite leb_spec. change (Prim2SF nan) with S754_nan.
    destruct (Prim2SF v) as [[]|[]| |[] ? ?]; reflexivity. }
  unfold largestAxis. intros [H|H]; rewrite <- is_nan_abs in H;
    rewrite (nan_unique _ H).
  - rewrite !L. reflexivity.
  - rewrite L, R, andb_false_r. reflexivity.
Qed.

(** The classifier follows the stated rule on every orientation of the
    range. *)
Lemma classifyComputed_in_range (o0 o1 o2 o3 o4 o5 : number) :
  Forall (fun x => inFloat32Range x = true) [o0; o1; o2; o3; o4; o5] ->
  classifyComputed o0 o1 o2 o3 o4 o5 = classifyStated o0 o1 o2 o3 o4 o5.
Proof.
  intros H. pose proof (normalized_nan o0 o1 o2 o3 o4 o5 H) as N. cbv zeta in N.
  unfold classifyComputed, classifyStated, specNormal.
  set (nx := o1 * o5 - o2 * o4) in *. set (ny := o2 * o3 - o0 * o5) in *.
  set (nz := o0 * o4 - o1 * o3) in *.
  set (m := sqrt (nx * nx + ny * ny + nz * nz)) in *.
  destruct (0 <? m) eqn:Hm; [|reflexivity].
  specialize (N eq_refl).
  destruct (within (abs (nz / m)) 1); [reflexivity|].
  destruct (within (abs (ny / m)) 1); [reflexivity|].
  destruct (within (abs (nx / m)) 1); [reflexivity|].
  destruct (is_nan (nx / m)) eqn:Ex.
  { cbn [orb]. symmetry. apply largestAxis_nan. auto. }
  destruct (is_nan (ny / m)) eqn:Ey.
  { cbn [orb]. symmetry. apply largestAxis_nan. auto. }
  destruct (is_nan (nz / m)) eqn:Ez; [|reflexivity].
  destruct (N eq_refl) as [X|X]; congruence.
Qed.

(** The numbers an orientation is decoded from are in the range. *)
Lemma orNum_in_range v :
  (forall x, v = Some x -> is_nan x = true \/ inFloat32Range x = true) ->
  inFloat32Range (Js.orNum v 0) = true.
Proof.
  intros H. unfold Js.orNum. destruct v as [x|]; [|reflexivity].
  destruct (Js.truthy x) eqn:T; [|reflexivity].
  destruct (H x eq_refl) as [N|R]; [|exact R].
  apply truthy_not_nan in T. congruence.
Qed.
End ClassifierRange.

Section DecodedOrientation.
Import ClassifierRange.

Lemma default_orientation_in_range :
  Forall (fun x => inFloat32Range x = true) [1; 0; 0; 0; 1; 0]%float.
Proof. repeat constructor. Qed.

(** The orientation of a decoded image has six components of the range. *)
Lemma orientation_in_range dataSet iop :
  readsFloat32 dataSet ->
  getImageOrientationPatient dataSet = Normal iop ->
  exists a0 a1 a2 a3 a4 a5,
    iop = [a0; a1; a2; a3; a4; a5]
    /\ Forall (fun x => inFloat32Range x = true) [a0; a1; a2; a3; a4; a5].
Proof.
  intros Hr. unfold getImageOrientationPatient. intros H.
  assert (D : Normal [1; 0; 0; 0; 1; 0]%float = Normal iop ->
              exists a0 a1 a2 a3 a4 a5,
                iop = [a0; a1; a2; a3; a4; a5]
                /\ Forall (fun x => inFloat32Range x = true) [a0; a1; a2; a3; a4; a5]).
  { intros [= <-]. do 6 eexists. split; [reflexivity|].
    exact default_orientation_in_range. }
  destruct (DataSet.elements dataSet "x00200037") as [element|]; [|exact (D H)].
  destruct (6 <=? Element.length element)%Z; [|exact (D H)].
  bind_inv H. inversion H; subst. do 6 eexists. split; [reflexivity|].
  repeat (constructor;
          [apply orNum_in_range; intros x ->; eapply Hr; eassumption|]).
  constructor.
Qed.

Lemma classifyPlane_in_range (o0 o1 o2 o3 o4 o5 : number) :
  Forall (fun x => inFloat32Range x = true) [o0; o1; o2; o3; o4; o5] ->
  classifyPlane [o0; o1; o2; o3; o4; o5] = classifyStated o0 o1 o2 o3 o4 o5.
Proof.
  intros H. rewrite classifyPlane_computed. apply classifyComputed_in_range, H.
Qed.
End DecodedOrientation.

(** C1.  For every orientation vector of six components that the decoder
    can produce (each component a binary32 value as [dataSet.float] reads
    it, with [NaN] replaced by 0: a magnitude below 2^128, or infinite), the
    classifier takes the cross product of the row vector (components 0..2)
    and the column vector (components 3..5), normalizes it when its
    magnitude is positive and otherwise uses (0,0,1), and returns axial if
    |n.z| is within 0.1 of 1, else coronal if |n.y| is, else sagittal if
    |n.x| is, else the plane of the largest of |n.x|, |n.y|, |n.z| with ties
    broken toward axial, then coronal, then sagittal.  It maps [1,0,0,0,1,0]
    to axial, [1,0,0,0,0,1] to coronal and [0,1,0,0,0,1] to sagittal.  The
    orientation of every image decoded from a data set of binary32 reads is
    such a vector, so the rule holds of every image the classifier is
    given. *)
Theorem C1_classifier_rule (o0 o1 o2 o3 o4 o5 : number) :
  Forall (fun x => inFloat32Range x = true) [o0; o1; o2; o3; o4; o5] ->
  normalizedOf [o0; o1; o2; o3; o4; o5]
  = (let '(nx, ny, nz) := specNormal o0 o1 o2 o3 o4 o5 in [nx; ny; nz])
  /\ classifyPlane [o0; o1; o2; o3; o4; o5] = classifyStated o0 o1 o2 o3 o4 o5
  /\ classifyPlane [1; 0; 0; 0; 1; 0]%float = axial
  /\ classifyPlane [1; 0; 0; 0; 0; 1]%float = coronal
  /\ classifyPlane [0; 1; 0; 0; 0; 1]%float = sagittal
  /\ (forall dicomParser arrayBuffer filename dataSet img,
        parseDicom dicomParser arrayBuffer = Normal dataSet ->
        readsFloat32 dataSet ->
        parseDicomFile dicomParser arrayBuffer filename = Some img ->
        exists a0 a1 a2 a3 a4 a5,
          imageOrientationPatient img = [a0; a1; a2; a3; a4; a5]
          /\ Forall (fun x => inFloat32Range x = true) [a0; a1; a2; a3; a4; a5]
          /\ classifyPlane (imageOrientationPatient img)
             = classifyStated a0 a1 a2 a3 a4 a5).
Proof.
  intros H.
  split; [apply normalizedOf_spec|].
  split; [apply classifyPlane_in_range, H|].
  do 3 (split; [vm_compute; reflexivity|]).
  intros dicomParser arrayBuffer filename dataSet img P Hr D.
  apply parseDicomFile_Some in D as (dataSet' & P' & R).
  rewrite P in P'. inversion P'; subst dataSet'.
  apply readImage_Normal in R as (loc & _ & _ & _ & Ho & _).
  destruct (orientation_in_range dataSet _ Hr Ho) as (a0 & a1 & a2 & a3 & a4 & a5 & E & F).
  exists a0, a1, a2, a3, a4, a5. split; [exact E|]. split; [exact F|].
  rewrite E. apply classifyPlane_in_range, F.
Qed.

(** An oblique slice whose normal has |n.y| = |n.z|: the tie goes to axial. *)
Lemma C1_witness :
  Forall (fun x => inFloat32Range x = true) [1; 0; 0; 0; 0.5; 0.5]%float
  /\ classifyPlane [1; 0; 0; 0; 0.5; 0.5]%float = classifyStated 1 0 0 0 0.5 0.5
  /\ classifyStated 1 0 0 0 0.5 0.5 = axial.
Proof.
  assert (H : Forall (fun x => inFloat32Range x = true) [1; 0; 0; 0; 0.5; 0.5]%float)
    by (repeat constructor).
  split; [exact H|].
  split; [exact (proj1 (proj2 (C1_classifier_rule 1 0 0 0 0.5 0.5 H)))|].
  vm_compute. reflexivity.
Defined.

(** ** The candidate filter *)

Lemma hasDICM_spec bytes :
  hasDICM bytes = true
  <-> (132 < List.length bytes)%nat
      /\ firstn 4 (skipn 128 bytes) = [x44; x49; x43; x4d].
Proof.
  unfold hasDICM.
  replace (nth_error bytes 128) with (nth_error (skipn 128 bytes) 0)
    by (rewrite nth_error_skipn; reflexivity).
  replace (nth_error bytes 129) with (nth_error (skipn 128 bytes) 1)
    by (rewrite nth_error_skipn; reflexivity).
  replace (nth_error bytes 130) with (nth_error (skipn 128 bytes) 2)
    by (rewrite nth_error_skipn; reflexivity).
  replace (nth_error bytes 131) with (nth_error (skipn 128 bytes) 3)
    by (rewrite nth_error_skipn; reflexivity).
  rewrite !andb_true_iff, Nat.ltb_lt.
  destruct (skipn 128 bytes) as [|a [|b [|c [|d t]]]]; cbn [nth_error firstn];
    (split; [intros ((((L & A) & B) & C) & D) | intros (L & E)]);
    try discriminate.
  - apply byte_dec_bl in A, B, C, D. subst. auto.
  - inversion E; subst. repeat split; auto.
Qed.

Lemma parsedOk_spec dicomParser bytes :
  parsedOk dicomParser bytes = true
  <-> exists dataSet, parseDicomUntil dicomParser "x00020010" bytes = Normal dataSet.
Proof.
  unfold parsedOk.
  destruct (parseDicomUntil dicomParser "x00020010" bytes) as [ds|m]; split;
    intros H; eauto; try discriminate.
  destruct H as [ds H]. discriminate.
Qed.

Section Filter.
Variable dicomParser : DicomParserApi.

(** The two checks, as the code makes them. *)
Lemma continue_test bytes :
  negb (hasDICM bytes) && negb (parsedOk dicomParser bytes) = false
  <-> ((132 < List.length bytes)%nat
       /\ firstn 4 (skipn 128 bytes) = [x44; x49; x43; x4d])
      \/ (exists dataSet,
             parseDicomUntil dicomParser "x00020010" bytes = Normal dataSet).
Proof.
  rewrite <- hasDICM_spec, <- parsedOk_spec.
  destruct (hasDICM bytes), (parsedOk dicomParser bytes); cbn; intuition discriminate.
Qed.

Lemma get_storeBoth filename bytes cache :
  Js.get filename (storeBoth filename bytes cache) = Some bytes.
Proof.
  unfold storeBoth, storeDicomData.
  destruct (String.eqb_spec (justFilenameOf filename) filename) as [E|N].
  - apply get_set_same.
  - rewrite get_set_other by (intros X; apply N; symmetry; exact X).
    apply get_set_same.
Qed.

Lemma processBytes_accepts filename bytes st :
  negb (hasDICM bytes) && negb (parsedOk dicomParser bytes) = false ->
  dicomDataCache (world (processBytes dicomParser filename bytes st))
  = storeBoth filename bytes (dicomDataCache (world st))
  /\ dicomFiles (processBytes dicomParser filename bytes st)
     = dicomFiles st
       ++ match parseDicomFile dicomParser bytes (justFilenameOf filename) with
          | Some dicomImage => [dicomImage]
          | None => []
          end.
Proof.
  intros H. unfold processBytes, storeBoth. rewrite H.
  destruct (justFilenameOf filename =? filename)%string;
    destruct (parseDicomFile dicomParser bytes (justFilenameOf filename));
    cbn [world dicomFiles inWorld store dicomDataCache]; rewrite ?app_nil_r;
    split; reflexivity.
Qed.

Lemma candidateStated_code bytes :
  List.length bytes <> 132%nat ->
  candidateStated dicomParser bytes
  = negb (negb (hasDICM bytes) && negb (parsedOk dicomParser bytes)).
Proof.
  intros N. unfold candidateStated.
  rewrite negb_andb, !negb_involutive. f_equal.
  destruct (hasDICM bytes) eqn:E.
  - apply hasDICM_spec in E as [L ->].
    replace (132 <=? List.length bytes)%nat with true
      by (symmetry; apply Nat.leb_le; lia).
    reflexivity.
  - destruct (132 <=? List.length bytes)%nat eqn:L; [|reflexivity].
    apply Nat.leb_le in L. cbn [andb].
    destruct (firstn 4 (skipn 128 bytes)) as [|b0 [|b1 [|b2 [|b3 [|b4 t]]]]] eqn:F;
      try reflexivity.
    destruct (Byte.eqb b0 x44 && Byte.eqb b1 x49 && Byte.eqb b2 x43 && Byte.eqb b3 x4d)
      eqn:B; [|reflexivity].
    apply andb_true_iff in B as [B B3]. apply andb_true_iff in B as [B B2].
    apply andb_true_iff in B as [B0 B1].
    apply byte_dec_bl in B0, B1, B2, B3. subst.
    assert (X : hasDICM bytes = true) by (apply hasDICM_spec; split; [lia | exact F]).
    congruence.
Qed.
End Filter.

(** C8, as amended.  The loop accepts a buffer if and only if (1) the buffer
    has more than 132 bytes and its bytes 128..131 are the marker DICM, or
    (2) the decode bounded by the tag x00020010 completes without error.  An
    accepted buffer is stored under its path and its base name and handed to
    the decoder; a buffer that fails both checks is skipped: the iteration
    stores nothing, decodes nothing and raises no error.  For a buffer whose
    length is not 132 this is the stated filter. *)
Theorem C8_candidate_filter (dicomParser : DicomParserApi) (filename : string)
  (bytes : ArrayBuffer) (st : LoopState) :
  let accepted :=
    ((132 < List.length bytes)%nat
     /\ firstn 4 (skipn 128 bytes) = [x44; x49; x43; x4d])
    \/ (exists dataSet,
           parseDicomUntil dicomParser "x00020010" bytes = Normal dataSet) in
  let st' := processBytes dicomParser filename bytes st in
  (accepted ->
   dicomDataCache (world st') = storeBoth filename bytes (dicomDataCache (world st))
   /\ dicomFiles st'
      = dicomFiles st
        ++ match parseDicomFile dicomParser bytes (justFilenameOf filename) with
           | Some dicomImage => [dicomImage]
           | None => []
           end)
  /\ (~ accepted -> st' = st)
  /\ (Js.get filename (dicomDataCache (world st')) = Some bytes
      <-> accepted \/ Js.get filename (dicomDataCache (world st)) = Some bytes)
  /\ (List.length bytes <> 132%nat ->
      (candidateStated dicomParser bytes = true <-> accepted)).
Proof.
  cbv zeta. pose proof (continue_test dicomParser bytes) as T.
  destruct (negb (hasDICM bytes) && negb (parsedOk dicomParser bytes)) eqn:E.
  - assert (N : ~ (((132 < List.length bytes)%nat
                    /\ firstn 4 (skipn 128 bytes) = [x44; x49; x43; x4d])
                   \/ (exists dataSet,
                          parseDicomUntil dicomParser "x00020010" bytes = Normal dataSet)))
      by (intros A; apply T in A; discriminate A).
    assert (S : processBytes dicomParser filename bytes st = st)
      by (unfold processBytes; rewrite E; reflexivity).
    split; [intros A; contradiction|].
    split; [intros _; exact S|].
    split; [rewrite S; tauto|].
    intros L. rewrite candidateStated_code, E by exact L. cbn.
    split; [discriminate | intros A; contradiction].
  - assert (A : ((132 < List.length bytes)%nat
                 /\ firstn 4 (skipn 128 bytes) = [x44; x49; x43; x4d])
                \/ (exists dataSet,
                       parseDicomUntil dicomParser "x00020010" bytes = Normal dataSet))
      by (apply T; reflexivity).
    destruct (processBytes_accepts dicomParser filename bytes st E) as [C D].
    split; [intros _; split; assumption|].
    split; [intros N; contradiction|].
    split; [rewrite C, get_storeBoth; tauto|].
    intros L. rewrite candidateStated_code, E by exact L. cbn. tauto.
Qed.

(** C8 as stated fails on a buffer of exactly 132 bytes that ends in the
    marker, when the bounded decode throws: the buffer is long enough to
    hold the marker at bytes 128..131, but the code asks for more than 132
    bytes and skips it. *)
Lemma C8_short_marker_counterexample :
  List.length shortMarked = 132%nat
  /\ firstn 4 (skipn 128 shortMarked) = [x44; x49; x43; x4d]
  /\ parseDicomUntil sliceParser "x00020010" shortMarked
     = Throw (Some "not a DICOM object"%string)
  /\ candidateStated sliceParser shortMarked = true
  /\ (forall filename st, processBytes sliceParser filename shortMarked st = st).
Proof.
  split; [reflexivity|]. split; [reflexivity|]. split; [reflexivity|].
  split; [reflexivity|]. intros filename st. reflexivity.
Qed.

(** ** The progress channel *)

Section Progress.
Local Open Scope float_scope.

Lemma atMost_trans p q r : atMost p q -> atMost q r -> atMost p r.
Proof. unfold atMost. apply NumberOrder.leb_trans. Qed.

Lemma withinArrayLimit_length files :
  withinArrayLimit (Normal files) ->
  (Z.of_nat (List.length (fileEntriesOf files)) < 2 ^ 53)%Z.
Proof.
  cbn [withinArrayLimit]. intros H.
  apply Z.lt_trans with arrayLengthLimit; [exact H | reflexivity].
Qed.

Lemma StronglySorted_app {A} (R : A -> A -> Prop) l1 l2 :
  StronglySorted R l1 -> StronglySorted R l2 ->
  (forall x y, In x l1 -> In y l2 -> R x y) ->
  StronglySorted R (l1 ++ l2).
Proof.
  intros S1 S2 H. induction S1 as [|x l1 S1 IH F]; [exact S2|].
  cbn [app]. constructor.
  - apply IH. intros a b Ha. apply H. right. exact Ha.
  - apply Forall_app. split; [exact F|].
    apply Forall_forall. intros y Hy. apply H; [left; reflexivity | exact Hy].
Qed.

Lemma entries_sorted n : (Z.of_nat n < 2 ^ 53)%Z -> forall k a,
  (a + k <= n)%nat ->
  StronglySorted atMost (map (fun i => entryProgress i n) (seq a k)).
Proof.
  intros Hn. induction k as [|k IH]; intros a H; cbn [seq map]; constructor.
  - apply IH. lia.
  - apply Forall_forall. intros q Hq. apply in_map_iff in Hq as (j & <- & Hj).
    apply in_seq in Hj. apply RoundFacts.entryProgress_mono; lia.
Qed.

Lemma entries_bounds n q :
  (Z.of_nat n < 2 ^ 53)%Z ->
  In q (map (fun i => entryProgress i n) (seq 0 n)) -> atMost 20 q /\ atMost q 85.
Proof.
  intros Hn Hq. apply in_map_iff in Hq as (j & <- & Hj). apply in_seq in Hj.
  destruct (RoundFacts.entryProgress_bounds j n ltac:(lia) Hn) as [L U].
  split; [exact L|]. apply atMost_trans with 80; [exact U | reflexivity].
Qed.

Lemma runTrace_sorted zipData :
  withinArrayLimit zipData -> StronglySorted atMost (runTrace zipData).
Proof.
  destruct zipData as [files|m]; cbn [runTrace]; intros W.
  2:{ repeat constructor. }
  apply withinArrayLimit_length in W.
  set (n := List.length _) in *.
  apply StronglySorted_app; [repeat constructor| |].
  - apply StronglySorted_app;
      [apply entries_sorted; [exact W | lia] | repeat constructor |].
    intros x y Hx Hy. apply (entries_bounds _ _ W) in Hx as [_ Hx].
    destruct Hy as [<-|[<-|[]]]; [exact Hx|].
    apply atMost_trans with 85; [exact Hx | reflexivity].
  - intros x y Hx Hy. assert (Hy' : atMost 20 y).
    { apply in_app_iff in Hy as [Hy|Hy].
      - apply (entries_bounds _ _ W) in Hy. tauto.
      - destruct Hy as [<-|[<-|[]]]; reflexivity. }
    destruct Hx as [<-|[<-|[<-|[]]]]; try exact Hy';
      (apply atMost_trans with 20; [reflexivity | exact Hy']).
Qed.

Lemma runTrace_range zipData :
  withinArrayLimit zipData ->
  Forall (fun p => atMost 0 p /\ atMost p 100) (runTrace zipData).
Proof.
  destruct zipData as [files|m]; cbn [runTrace]; intros W.
  2:{ repeat constructor. }
  apply withinArrayLimit_length in W.
  set (n := List.length _) in *.
  repeat (constructor; [split; reflexivity|]).
  apply Forall_app. split; [|repeat constructor].
  apply Forall_forall. intros q Hq. apply (entries_bounds _ _ W) in Hq as [L U].
  split; [apply atMost_trans with 20 | apply atMost_trans with 85];
    first [assumption | reflexivity].
Qed.

Lemma parseZipFile_reported dicomParser zipData w :
  reported (parseZipFile dicomParser zipData w) = (reported w ++ runTrace zipData)%list.
Proof.
  unfold parseZipFile, runTrace. destruct zipData as [files|m]; cbv zeta.
  2:{ cbn. rewrite <- app_assoc. reflexivity. }
  match goal with |- context [processEntries dicomParser ?es ?st0] =>
    pose proof (processEntries_reported dicomParser es st0) as P;
    set (st := processEntries dicomParser es st0) in *
  end.
  cbn [world] in P.
  destruct (List.length (assemble (seriesMap st)) =? 0)%nat; cbn;
    rewrite P; cbn; rewrite <- !app_assoc; reflexivity.
Qed.
End Progress.

(** C9.  Within one run the percentages passed to the progress channel are,
    in order, 0, 10 and, when the archive opened, 20, one value
    20 + (i / n) * 60 per entry i of n, 85 and 100, all of them binary64
    numbers computed as the language computes them: the sequence starts at 0,
    never decreases, and every value lies in [0, 100].  The entries of an
    archive are held in an array, hence fewer than 2^32. *)
Theorem C9_progress_monotone (dicomParser : DicomParserApi)
  (zipData : completion ZipFiles) (w : World) :
  withinArrayLimit zipData ->
  reported (parseZipFile dicomParser zipData w) = reported w ++ runTrace zipData
  /\ hd_error (runTrace zipData) = Some 0%float
  /\ StronglySorted atMost (runTrace zipData)
  /\ Forall (fun p => atMost 0 p /\ atMost p 100) (runTrace zipData).
Proof.
  intros W.
  split; [apply parseZipFile_reported|].
  split; [destruct zipData; reflexivity|].
  split; [apply runTrace_sorted | apply runTrace_range]; exact W.
Qed.

Lemma C9_witness :
  withinArrayLimit (Normal sliceArchive)
  /\ (reported (parseZipFile sliceParser (Normal sliceArchive) freshWorld)
      = reported freshWorld ++ runTrace (Normal sliceArchive)
      /\ hd_error (runTrace (Normal sliceArchive)) = Some 0%float
      /\ StronglySorted atMost (runTrace (Normal sliceArchive))
      /\ Forall (fun p => atMost 0 p /\ atMost p 100)
           (runTrace (Normal sliceArchive))).
Proof.
  assert (W : withinArrayLimit (Normal sliceArchive)) by (vm_compute; reflexivity).
  split; [exact W|].
  exact (C9_progress_monotone sliceParser (Normal sliceArchive) freshWorld W).
Defined.

(** ** What a run assembles *)

Section Run.
Variable dicomParser : DicomParserApi.

Lemma decoded_In d fileEntries :
  In d (decoded dicomParser fileEntries) ->
  exists entry arrayBuffer,
    In entry fileEntries
    /\ async_arraybuffer (snd entry) = Normal arrayBuffer
    /\ isCandidate dicomParser arrayBuffer = true
    /\ parseDicomFile dicomParser arrayBuffer (justFilenameOf (fst entry))
       = Some (fst d)
    /\ snd d = getSeriesInstanceUID dicomParser arrayBuffer.
Proof.
  unfold decoded. rewrite in_flat_map. intros (entry & HI & Hd).
  exists entry. unfold decodeEntry in Hd.
  destruct (async_arraybuffer (snd entry)) as [arrayBuffer|]; [|destruct Hd].
  exists arrayBuffer.
  destruct (isCandidate dicomParser arrayBuffer); [|destruct Hd].
  destruct (parseDicomFile dicomParser arrayBuffer (justFilenameOf (fst entry)))
    as [img|]; [|destruct Hd].
  destruct Hd as [<-|[]]. auto.
Qed.

Lemma ofSeries_In uid ds img :
  In img (ofSeries uid ds) -> exists d, In d ds /\ fst d = img /\ snd d = Some uid.
Proof.
  unfold ofSeries. rewrite in_map_iff. intros (d & E & HI).
  apply filter_In in HI as [HI Hs]. exists d. repeat split; auto.
  destruct (snd d) as [u|]; [|discriminate].
  apply String.eqb_eq in Hs. subst. reflexivity.
Qed.

Lemma members_defined fileEntries uid :
  Forall (fun img => is_nan (sliceLocation img) = false)
    (members dicomParser fileEntries uid).
Proof.
  apply Forall_forall. intros img HI.
  apply ofSeries_In in HI as (d & HI & <- & _).
  apply decoded_In in HI as (entry & arrayBuffer & _ & _ & _ & P & _).
  exact (parseDicomFile_sliceLocation _ _ _ _ P).
Qed.

(** Every assembled series is the sorted list of the members of its
    identifier, classified. *)
Lemma assembled_In files s :
  In s (assembled dicomParser files) ->
  members dicomParser (fileEntriesOf files) (seriesInstanceUID s) <> []
  /\ images s
     = sortImagesByPosition
         (members dicomParser (fileEntriesOf files) (seriesInstanceUID s))
  /\ classifyPlanes (images s)
     = (axialImages s, coronalImages s, sagittalImages s).
Proof.
  rewrite assembled_groups. intros HI.
  apply assemble_In in HI as (imgs & HI & _ & Hsort & Hplanes).
  destruct (groups_entry _ _ _ _ (groups_all _) HI) as [-> Hne].
  auto.
Qed.

Lemma sortImagesByPosition_nonempty imgs :
  imgs <> [] -> sortImagesByPosition imgs <> [].
Proof.
  intros H E. apply H, length_zero_iff_nil.
  unfold sortImagesByPosition in E.
  rewrite <- (sort_length sliceLocation imgs), E. reflexivity.
Qed.

Lemma assembled_nil files :
  assembled dicomParser files = []
  <-> Forall (fun d => snd d = None) (decoded dicomParser (fileEntriesOf files)).
Proof.
  rewrite assembled_groups.
  set (ds := decoded dicomParser (fileEntriesOf files)).
  pose proof (groups_all ds) as G. split.
  - intros E. apply assemble_nil in E.
    2:{ apply Forall_forall. intros [uid imgs] HI.
        exact (proj2 (groups_entry _ _ _ _ G HI)). }
    apply Forall_forall. intros [img [uid|]] HI; [|reflexivity].
    destruct G as [_ G]. specialize (G uid). rewrite E in G. cbn [Js.get] in G.
    assert (HIn : In img (ofSeries uid ds)).
    { unfold ofSeries. apply in_map_iff. exists (img, Some uid).
      split; [reflexivity|]. apply filter_In. split; [exact HI|].
      cbn [snd]. apply String.eqb_refl. }
    destruct (ofSeries uid ds); [destruct HIn | discriminate].
  - intros F. clear G.
    assert (E : forall m, fold_left pushDecoded ds m = m).
    { induction F as [|d ds' Hd _ IH]; intros m; [reflexivity|].
      cbn [fold_left]. unfold pushDecoded at 2. rewrite Hd. apply IH. }
    rewrite E. reflexivity.
Qed.

(** An entry that decodes to nothing leaves the locals and the verdict of
    the loop as they were. *)
Lemma processEntry_absorbs n st i entry :
  decodeEntry dicomParser entry = None ->
  let st' := processEntry dicomParser n st (i, entry) in
  dicomFiles st' = dicomFiles st /\ seriesMap st' = seriesMap st
  /\ processedCount st' = processedCount st
  /\ verdict (hook (world st')) = verdict (hook (world st)).
Proof.
  intros H. cbv zeta. rewrite processEntry_verdict.
  destruct entry as [filename zipEntry]. unfold processEntry, decodeEntry in *.
  cbn [fst snd] in H.
  destruct (async_arraybuffer zipEntry) as [arrayBuffer|]; [|auto].
  unfold processBytes, isCandidate in *.
  destruct (negb (hasDICM arrayBuffer) && negb (parsedOk dicomParser arrayBuffer));
    cbn [negb] in H; [auto|].
  destruct (parseDicomFile dicomParser arrayBuffer (justFilenameOf filename));
    [discriminate|].
  destruct (justFilenameOf filename =? filename)%string; auto.
Qed.

(** An image without a series identifier is counted and joins no series. *)
Lemma processEntry_no_series n st i entry img :
  decodeEntry dicomParser entry = Some (img, None) ->
  let st' := processEntry dicomParser n st (i, entry) in
  dicomFiles st' = dicomFiles st ++ [img] /\ seriesMap st' = seriesMap st
  /\ processedCount st' = S (processedCount st)
  /\ verdict (hook (world st')) = verdict (hook (world st)).
Proof.
  intros H. cbv zeta. rewrite processEntry_verdict.
  destruct entry as [filename zipEntry]. unfold processEntry, decodeEntry in *.
  cbn [fst snd] in H.
  destruct (async_arraybuffer zipEntry) as [arrayBuffer|]; [|discriminate].
  unfold processBytes, isCandidate in *.
  destruct (negb (hasDICM arrayBuffer) && negb (parsedOk dicomParser arrayBuffer));
    cbn [negb] in H; [discriminate|].
  destruct (parseDicomFile dicomParser arrayBuffer (justFilenameOf filename));
    [|discriminate].
  inversion H as [[E1 E2]]. rewrite E2. subst.
  destruct (justFilenameOf filename =? filename)%string; auto.
Qed.
End Run.

(** C5.  For every run whose archive opened: the run ends with the error
    "No valid DICOM files found in the ZIP archive" if the assembled series
    list is empty, and otherwise with no error, the assembled list as its
    series and [hasLoaded] set; on failure the series are left as they were.
    The assembled list is empty exactly when no decoded image carries a
    series identifier (in particular when nothing decodes).  An entry that is
    rejected by the filter, cannot be read or cannot be decoded changes
    neither the images, the series map, the count nor the verdict; an image
    without a series identifier is counted and joins no series. *)
Theorem C5_batch_outcome (dicomParser : DicomParserApi) (files : ZipFiles)
  (w : World) :
  let w' := parseZipFile dicomParser (Normal files) w in
  let out := assembled dicomParser files in
  error (hook w') = (if isEmptySeries out then Some noSeriesMessage else None)
  /\ series (hook w') = (if isEmptySeries out then series (hook w) else out)
  /\ hasLoaded (hook w') = negb (isEmptySeries out)
  /\ isLoading (hook w') = false
  /\ (out = []
      <-> Forall (fun d => snd d = None)
            (decoded dicomParser (fileEntriesOf files)))
  /\ (forall n st i entry,
         decodeEntry dicomParser entry = None ->
         let st' := processEntry dicomParser n st (i, entry) in
         dicomFiles st' = dicomFiles st /\ seriesMap st' = seriesMap st
         /\ processedCount st' = processedCount st
         /\ verdict (hook (world st')) = verdict (hook (world st)))
  /\ (forall n st i entry img,
         decodeEntry dicomParser entry = Some (img, None) ->
         let st' := processEntry dicomParser n st (i, entry) in
         dicomFiles st' = dicomFiles st ++ [img] /\ seriesMap st' = seriesMap st
         /\ processedCount st' = S (processedCount st)
         /\ verdict (hook (world st')) = verdict (hook (world st))).
Proof.
  cbv zeta.
  destruct (parseZipFile_outcome dicomParser files w) as (He & Hs & Hl & Hi).
  repeat (split; [assumption|]).
  split; [apply assembled_nil|].
  split; [apply processEntry_absorbs | apply processEntry_no_series].
Qed.

(** C2.  In every series group of a successful run, [images] is the list of
    the group's member images (the decoded images with the group's series
    identifier, in decode order) sorted ascending by slice location, and the
    sort is stable: images with equal slice location keep their decode
    order. *)
Theorem C2_images_sorted_stable (dicomParser : DicomParserApi)
  (files : ZipFiles) (w : World) :
  error (hook (parseZipFile dicomParser (Normal files) w)) = None ->
  Forall (fun s =>
            stableSortOf sliceLocation
              (members dicomParser (fileEntriesOf files) (seriesInstanceUID s))
              (images s))
    (series (hook (parseZipFile dicomParser (Normal files) w))).
Proof.
  intros He.
  destruct (parseZipFile_outcome dicomParser files w) as (He' & Hs & _).
  rewrite He in He'. rewrite Hs.
  destruct (isEmptySeries (assembled dicomParser files)); [discriminate|].
  apply Forall_forall. intros s HI.
  apply assembled_In in HI as (_ & -> & _).
  apply (sort_stable sliceLocation), members_defined.
Qed.

Lemma C2_witness :
  Forall (fun s =>
            stableSortOf sliceLocation
              (members sliceParser (fileEntriesOf sliceArchive) (seriesInstanceUID s))
              (images s))
    (series (hook (parseZipFile sliceParser (Normal sliceArchive) freshWorld))).
Proof.
  apply (C2_images_sorted_stable sliceParser sliceArchive freshWorld).
  vm_compute. reflexivity.
Defined.

(** C10.  Every series group of a successful run has its three plane buckets
    non-empty: the group's image list is non-empty, the classifier puts each
    image in a bucket, and the fallback fills every bucket left empty with
    the whole list. *)
Theorem C10_buckets_nonempty (dicomParser : DicomParserApi)
  (files : ZipFiles) (w : World) :
  error (hook (parseZipFile dicomParser (Normal files) w)) = None ->
  Forall (fun s => images s <> [] /\ axialImages s <> []
                   /\ coronalImages s <> [] /\ sagittalImages s <> [])
    (series (hook (parseZipFile dicomParser (Normal files) w))).
Proof.
  intros He.
  destruct (parseZipFile_outcome dicomParser files w) as (He' & Hs & _).
  rewrite He in He'. rewrite Hs.
  destruct (isEmptySeries (assembled dicomParser files)); [discriminate|].
  apply Forall_forall. intros s HI.
  apply assembled_In in HI as (Hne & Hsort & Hplanes).
  assert (Hi : images s <> [])
    by (rewrite Hsort; apply sortImagesByPosition_nonempty, Hne).
  pose proof (classifyPlanes_nonempty (images s) Hi) as H.
  rewrite Hplanes in H. tauto.
Qed.

Lemma C10_witness :
  Forall (fun s => images s <> [] /\ axialImages s <> []
                   /\ coronalImages s <> [] /\ sagittalImages s <> [])
    (series (hook (parseZipFile sliceParser (Normal sliceArchive) freshWorld))).
Proof.
  apply (C10_buckets_nonempty sliceParser sliceArchive freshWorld).
  vm_compute. reflexivity.
Defined.

(** ** The byte cache across runs *)

Section CacheFacts.
Variable dicomParser : DicomParserApi.

Lemma processEntry_cache n st i entry :
  dicomDataCache (world (processEntry dicomParser n st (i, entry)))
  = cacheStep dicomParser (dicomDataCache (world st)) entry.
Proof.
  destruct entry as [filename zipEntry]. unfold processEntry, cacheStep.
  cbn [fst snd].
  destruct (async_arraybuffer zipEntry) as [arrayBuffer|]; [|reflexivity].
  unfold processBytes, isCandidate, storeBoth.
  destruct (negb (hasDICM arrayBuffer) && negb (parsedOk dicomParser arrayBuffer));
    cbn [negb]; [reflexivity|].
  destruct (justFilenameOf filename =? filename)%string;
    destruct (parseDicomFile dicomParser arrayBuffer (justFilenameOf filename));
    reflexivity.
Qed.

Lemma fold_processEntry_cache n ixs : forall st,
  dicomDataCache (world (fold_left (processEntry dicomParser n) ixs st))
  = fold_left (cacheStep dicomParser) (map snd ixs) (dicomDataCache (world st)).
Proof.
  induction ixs as [|[i entry] ixs IH]; intros st; [reflexivity|].
  cbn [fold_left map snd]. rewrite IH, processEntry_cache. reflexivity.
Qed.

Lemma processEntries_cache fileEntries st :
  dicomDataCache (world (processEntries dicomParser fileEntries st))
  = fold_left (cacheStep dicomParser) fileEntries (dicomDataCache (world st)).
Proof.
  unfold processEntries. rewrite fold_processEntry_cache, combine_seq_snd.
  reflexivity.
Qed.

(** A run only stores: the cache it leaves is the cache it found with the
    bytes of the accepted entries stored on top, and [clearDicomData] has no
    part in it. *)
Lemma parseZipFile_cache zipData w :
  dicomDataCache (parseZipFile dicomParser zipData w)
  = match zipData with
    | Normal files =>
        fold_left (cacheStep dicomParser) (fileEntriesOf files) (dicomDataCache w)
    | Throw _ => dicomDataCache w
    end.
Proof.
  unfold parseZipFile. destruct zipData as [files|m]; [|reflexivity]. cbv zeta.
  match goal with |- context [processEntries dicomParser ?es ?st0] =>
    pose proof (processEntries_cache es st0) as P;
    set (st := processEntries dicomParser es st0) in *
  end.
  cbn [world] in P.
  destruct (List.length (assemble (seriesMap st)) =? 0)%nat; cbn; exact P.
Qed.

Lemma isCandidate_marked last : isCandidate dicomParser (markedBytes last) = true.
Proof.
  unfold isCandidate.
  replace (hasDICM (markedBytes last)) with true by reflexivity. reflexivity.
Qed.
End CacheFacts.

(** C7 fails on the code.  After a run over an archive holding
    [a/first.dcm] and a second run over an archive holding only
    [b/second.dcm], the cache still holds the two keys of the first run, and
    the image id [dicom:first.dcm] still resolves to the bytes of the first
    archive: [parseZipFile] never calls [clearDicomData]. *)
Theorem C7_cache_survives_new_run (dicomParser : DicomParserApi) :
  let w1 := parseZipFile dicomParser (Normal firstArchive) freshWorld in
  let w2 := parseZipFile dicomParser (Normal secondArchive) w1 in
  map fst (dicomDataCache w2)
  = ["a/first.dcm"; "first.dcm"; "b/second.dcm"; "second.dcm"]%string
  /\ Js.get "first.dcm" (dicomDataCache w2) = Some (markedBytes x01)
  /\ cachedBytes "dicom:first.dcm" (dicomDataCache w2) = Some (markedBytes x01)
  /\ cachedBytes "dicom:first.dcm" (clearDicomData (dicomDataCache w1)) = None.
Proof.
  cbv zeta. rewrite !parseZipFile_cache.
  unfold firstArchive, secondArchive, fileEntriesOf, fileOf.
  cbn [filter snd dir negb fold_left]. unfold cacheStep.
  cbn [snd fst async_arraybuffer]. rewrite !isCandidate_marked.
  repeat split; vm_compute; reflexivity.
Qed.

(** ** Worked runs *)

(** Three axial slices at heights 20, 0 and 10 arrive out of order, beside a
    directory and a text file: one series, ordered 0, 10, 20; the axial
    stack is the classified one, the coronal and sagittal stacks are the
    fallback copies. *)
Example run_three_slices :
  let r := parseZipFile sliceParser (Normal sliceArchive) freshWorld in
  verdict (hook r)
  = (series (hook r), false, None, true)
  /\ map (fun s => (seriesInstanceUID s,
                    map sliceLocation (images s),
                    map imageId (axialImages s),
                    map imageId (coronalImages s),
                    map imageId (sagittalImages s),
                    exactlyOneNonEmpty (primaryBuckets (images s))))
       (series (hook r))
     = [ ("1.2.3"%string, [0; 10; 20]%float,
          ["dicom:a.dcm"; "dicom:b.dcm"; "dicom:c.dcm"]%string,
          ["dicom:a.dcm"; "dicom:b.dcm"; "dicom:c.dcm"]%string,
          ["dicom:a.dcm"; "dicom:b.dcm"; "dicom:c.dcm"]%string,
          true) ]
  /\ map fst (dicomDataCache r)
     = ["scan/c.dcm"; "c.dcm"; "scan/a.dcm"; "a.dcm"; "scan/b.dcm"; "b.dcm"]%string
  /\ processEntry sliceParser 4
       {| world := freshWorld; dicomFiles := []; seriesMap := [];
          processedCount := 0 |}
       (2, ("notes.txt"%string, fileOf [x48; x69]))
     = {| world := setLoadingMessage "Processing notes.txt..."
                     (setLoadingProgress (entryProgress 2 4) freshWorld);
          dicomFiles := []; seriesMap := []; processedCount := 0 |}.
Proof. vm_compute. repeat split; reflexivity. Qed.

(** An archive with nothing decodable fails with the one message. *)
Example run_no_image :
  let r := parseZipFile sliceParser
             (Normal [("notes.txt"%string, fileOf [x48; x69])]) freshWorld in
  error (hook r) = Some noSeriesMessage /\ hasLoaded (hook r) = false
  /\ series (hook r) = [] /\ isLoading (hook r) = false.
Proof. vm_compute. repeat split; reflexivity. Qed.

Example justFilenameOf_examples :
  justFilenameOf "scan/sub/a.dcm" = "a.dcm"%string
  /\ justFilenameOf "a.dcm" = "a.dcm"%string
  /\ justFilenameOf "scan/" = "scan/"%string.
Proof. repeat split; reflexivity. Qed.


(* ================================================================== *)
(** * Part III. Further properties of the code *)
(* ================================================================== *)

(** ** The loader and the cache *)

Section StringFacts.

Lemma prefix_app p s : String.prefix p (p ++ s) = true.
Proof.
  induction p as [|c p IH]; cbn [String.prefix String.append].
  - destruct s; reflexivity.
  - destruct (ascii_dec c c) as [_|N]; [exact IH | contradiction].
Qed.

Lemma prefix_refl s : String.prefix s s = true.
Proof.
  induction s as [|c s IH]; cbn [String.prefix]; [reflexivity|].
  destruct (ascii_dec c c) as [_|N]; [exact IH | contradiction].
Qed.

Lemma substring_all s : String.substring 0 (String.length s) s = s.
Proof. induction s as [|c s IH]; cbn; [reflexivity | rewrite IH; reflexivity]. Qed.

Lemma substring_app p s :
  String.substring (String.length p) (String.length s) (p ++ s) = s.
Proof.
  induction p as [|c p IH]; cbn [String.length String.append String.substring].
  - apply substring_all.
  - exact IH.
Qed.

Lemma string_length_app (p s : string) :
  String.length (p ++ s) = String.length p + String.length s.
Proof. induction p as [|c p IH]; cbn; [reflexivity | rewrite IH; reflexivity]. Qed.

(** Removing the first occurrence of a prefix removes the prefix. *)
Lemma removeFirst_app p s : removeFirst p (p ++ s) = s.
Proof.
  destruct (p ++ s)%string eqn:E.
  - cbn [removeFirst]. destruct p; [|discriminate]. cbn in E. subst s.
    reflexivity.
  - rewrite <- E. 
    assert (H : forall t, String.prefix p t = true ->
                removeFirst p t
                = String.substring (String.length p)
                    (String.length t - String.length p) t).
    { intros t Ht. destruct t; cbn [removeFirst]; rewrite Ht; reflexivity. }
    rewrite H by apply prefix_app.
    rewrite string_length_app. replace (String.length p + String.length s - String.length p)
      with (String.length s) by lia.
    apply substring_app.
Qed.

Lemma includes_refl s : Js.includes s s = true.
Proof. destruct s; cbn [Js.includes]; rewrite prefix_refl; reflexivity. Qed.

Lemma includes_empty s : Js.includes s EmptyString = true.
Proof. destruct s; reflexivity. Qed.
End StringFacts.

Section LoaderFacts.
Context {Image : Type} (cornerstone : Cornerstone Image).

Lemma get_In {V} k (v : V) m : Js.get k m = Some v -> In (k, v) m.
Proof.
  induction m as [|[k' v'] m IH]; cbn [Js.get]; [discriminate|].
  destruct (k' =? k)%string eqn:E.
  - apply String.eqb_eq in E. intros [= ->]. left. congruence.
  - intros H. right. exact (IH H).
Qed.

Lemma cachedBytes_store filename arrayBuffer cache :
  cachedBytes ("dicom:" ++ filename) (storeDicomData filename arrayBuffer cache)
  = Some arrayBuffer.
Proof.
  unfold cachedBytes, storeDicomData. cbv zeta.
  rewrite (removeFirst_app "dicom:" filename), get_set_same. reflexivity.
Qed.

Lemma cachedBytes_key filename arrayBuffer cache :
  Js.get filename cache = Some arrayBuffer ->
  cachedBytes ("dicom:" ++ filename) cache = Some arrayBuffer.
Proof.
  intros H. unfold cachedBytes. cbv zeta.
  rewrite (removeFirst_app "dicom:" filename), H. reflexivity.
Qed.

Lemma cachedBytes_None imageId cache :
  cachedBytes imageId cache = None
  <-> unrelated (removeFirst "dicom:" imageId) cache.
Proof.
  unfold cachedBytes, unrelated. cbv zeta.
  set (filename := removeFirst "dicom:" imageId).
  split.
  - destruct (Js.get filename cache) eqn:G; [discriminate|].
    destruct (find _ cache) as [[k v]|] eqn:F; [discriminate|]. intros _.
    apply Forall_forall. intros kv Hkv.
    pose proof (find_none _ _ F kv Hkv) as N. cbv beta in N.
    apply orb_false_iff in N. exact N.
  - intros U. rewrite Forall_forall in U.
    destruct (Js.get filename cache) eqn:G.
    + apply get_In in G. apply U in G. cbn [fst] in G.
      rewrite includes_refl in G. destruct G; discriminate.
    + destruct (find _ cache) as [[k v]|] eqn:F; [|reflexivity].
      apply find_some in F as [HI HT]. apply U in HI.
      destruct HI as [H1 H2]. rewrite H1, H2 in HT. discriminate.
Qed.

Lemma cachedBytes_Some imageId cache arrayBuffer :
  cachedBytes imageId cache = Some arrayBuffer ->
  exists key, In (key, arrayBuffer) cache
    /\ (Js.includes key (removeFirst "dicom:" imageId) = true
        \/ Js.includes (removeFirst "dicom:" imageId) key = true).
Proof.
  unfold cachedBytes. cbv zeta.
  set (filename := removeFirst "dicom:" imageId).
  destruct (Js.get filename cache) eqn:G.
  - intros [= ->]. exists filename. split; [apply get_In, G|].
    left. apply includes_refl.
  - destruct (find _ cache) as [[k v]|] eqn:F; [|discriminate].
    intros [= ->]. apply find_some in F as [HI HT]. cbn [fst] in HT.
    exists k. split; [exact HI|]. apply orb_true_iff in HT. exact HT.
Qed.
End LoaderFacts.

(** X1.  Bytes stored under a file name are what the loader loads for the
    image id [dicom:<file name>], whatever else the cache holds and whatever
    the file name is; [loadDicomImage] takes that path for every id that
    starts with [dicom:]. *)
Theorem X1_store_then_load {Image : Type} (cornerstone : Cornerstone Image)
  (filename : string) (arrayBuffer : ArrayBuffer) (cache : Cache) :
  loadDicomImage cornerstone ("dicom:" ++ filename)
    (storeDicomData filename arrayBuffer cache)
  = loadWadoUri cornerstone arrayBuffer
  /\ customDicomLoader cornerstone ("dicom:" ++ filename)
       (storeDicomData filename arrayBuffer cache)
     = loadWadoUri cornerstone arrayBuffer.
Proof.
  assert (H : customDicomLoader cornerstone ("dicom:" ++ filename)
                (storeDicomData filename arrayBuffer cache)
              = loadWadoUri cornerstone arrayBuffer).
  { unfold customDicomLoader. cbv zeta. rewrite cachedBytes_store. reflexivity. }
  split; [|exact H].
  unfold loadDicomImage. rewrite (prefix_app "dicom:" filename). exact H.
Qed.

(** X2.  The loader rejects with [No cached DICOM for <file name>] exactly
    when no stored key contains the file name or is contained in it (an
    equal key is both); otherwise it loads the bytes of a stored key that
    does.  In particular it rejects every id on an empty cache, and on a
    cache that is not empty it never rejects the id [dicom:], whose file
    name is empty. *)
Theorem X2_loader_miss {Image : Type} (cornerstone : Cornerstone Image)
  (imageId : string) (cache : Cache) :
  let filename := removeFirst "dicom:" imageId in
  (cachedBytes imageId cache = None <-> unrelated filename cache)
  /\ (cachedBytes imageId cache = None ->
      customDicomLoader cornerstone imageId cache
      = Throw (Some ("No cached DICOM for " ++ filename)%string))
  /\ (forall arrayBuffer,
        cachedBytes imageId cache = Some arrayBuffer ->
        customDicomLoader cornerstone imageId cache
        = loadWadoUri cornerstone arrayBuffer
        /\ exists key, In (key, arrayBuffer) cache
             /\ (Js.includes key filename = true
                 \/ Js.includes filename key = true))
  /\ customDicomLoader cornerstone imageId (clearDicomData cache)
     = Throw (Some ("No cached DICOM for " ++ filename)%string)
  /\ (cache <> [] -> cachedBytes "dicom:" cache <> None).
Proof.
  cbv zeta. split; [apply cachedBytes_None|].
  split; [intros H; unfold customDicomLoader; cbv zeta; rewrite H; reflexivity|].
  split.
  { intros b H. split; [unfold customDicomLoader; cbv zeta; rewrite H; reflexivity|].
    apply cachedBytes_Some, H. }
  split; [reflexivity|].
  intros N H. apply cachedBytes_None in H. destruct cache as [|kv cache]; [congruence|].
  inversion H as [|? ? [H1 _] _]; subst.
  change (removeFirst "dicom:" "dicom:") with EmptyString in H1.
  rewrite includes_empty in H1. discriminate.
Qed.

Section RunCache.
Variable dicomParser : DicomParserApi.

Lemma cacheStep_get key cache entry :
  Js.get key (cacheStep dicomParser cache entry)
  = match storedBytes dicomParser key entry with
    | Some arrayBuffer => Some arrayBuffer
    | None => Js.get key cache
    end.
Proof.
  unfold cacheStep, storedBytes.
  destruct (async_arraybuffer (snd entry)) as [b|]; [|reflexivity].
  destruct (isCandidate dicomParser b); [|reflexivity]. cbn [andb].
  unfold storeBoth, storeDicomData.
  destruct (justFilenameOf (fst entry) =? fst entry)%string eqn:EJ.
  - apply String.eqb_eq in EJ. rewrite EJ, orb_diag.
    destruct (fst entry =? key)%string eqn:E.
    + apply String.eqb_eq in E. subst key. apply get_set_same.
    + apply get_set_other. intros ->. rewrite String.eqb_refl in E. discriminate.
  - destruct (justFilenameOf (fst entry) =? key)%string eqn:E2.
    + apply String.eqb_eq in E2. subst key. rewrite orb_true_r. apply get_set_same.
    + rewrite orb_false_r.
      rewrite get_set_other
        by (intros ->; rewrite String.eqb_refl in E2; discriminate).
      destruct (fst entry =? key)%string eqn:E.
      * apply String.eqb_eq in E. subst key. apply get_set_same.
      * apply get_set_other. intros ->. rewrite String.eqb_refl in E. discriminate.
Qed.

Lemma fold_stored key es : forall acc,
  fold_left (fun acc entry =>
               match storedBytes dicomParser key entry with
               | Some arrayBuffer => Some arrayBuffer
               | None => acc
               end) es acc
  = match lastStored dicomParser key es with
    | Some arrayBuffer => Some arrayBuffer
    | None => acc
    end.
Proof.
  unfold lastStored. induction es as [|e es IH] using rev_ind; intros acc.
  - reflexivity.
  - rewrite !fold_left_app. cbn [fold_left].
    destruct (storedBytes dicomParser key e); [reflexivity | apply IH].
Qed.

Lemma fold_cacheStep_get key es : forall cache,
  Js.get key (fold_left (cacheStep dicomParser) es cache)
  = match lastStored dicomParser key es with
    | Some arrayBuffer => Some arrayBuffer
    | None => Js.get key cache
    end.
Proof.
  induction es as [|e es IH] using rev_ind; intros cache.
  - reflexivity.
  - rewrite fold_left_app. cbn [fold_left]. rewrite cacheStep_get.
    unfold lastStored. rewrite fold_left_app. cbn [fold_left].
    destruct (storedBytes dicomParser key e); [reflexivity|]. apply IH.
Qed.

Lemma lastStored_In key es entry arrayBuffer :
  In entry es -> storedBytes dicomParser key entry = Some arrayBuffer ->
  exists b, lastStored dicomParser key es = Some b.
Proof.
  induction es as [|e es IH] using rev_ind; [intros []|].
  intros HI HS. unfold lastStored. rewrite fold_left_app. cbn [fold_left].
  destruct (storedBytes dicomParser key e) as [b|] eqn:E; [eauto|].
  apply in_app_iff in HI as [HI|[->|[]]]; [exact (IH HI HS) | congruence].
Qed.

Lemma lastStored_from key es arrayBuffer :
  lastStored dicomParser key es = Some arrayBuffer ->
  exists entry, In entry es /\ storedBytes dicomParser key entry = Some arrayBuffer.
Proof.
  induction es as [|e es IH] using rev_ind; [discriminate|].
  unfold lastStored. rewrite fold_left_app. cbn [fold_left].
  destruct (storedBytes dicomParser key e) as [b|] eqn:E.
  - intros [= ->]. exists e. split; [apply in_app_iff; right; left; reflexivity | exact E].
  - intros H. destruct (IH H) as (entry & HI & HS).
    exists entry. split; [apply in_app_iff; left; exact HI | exact HS].
Qed.

Lemma parseZipFile_get key files w :
  Js.get key (dicomDataCache (parseZipFile dicomParser (Normal files) w))
  = match lastStored dicomParser key (fileEntriesOf files) with
    | Some arrayBuffer => Some arrayBuffer
    | None => Js.get key (dicomDataCache w)
    end.
Proof. rewrite parseZipFile_cache. apply fold_cacheStep_get. Qed.
End RunCache.

(** X3.  After a run over an opened archive the cache maps every key to the
    bytes of the last entry that was readable, passed the filter and has the
    key as its path or as its base name; a key no entry stored under keeps
    what it held before the run.  So of two accepted files with the same
    base name the later one owns the base name. *)
Theorem X3_cache_after_run (dicomParser : DicomParserApi) (files : ZipFiles)
  (w : World) (key : string) :
  Js.get key (dicomDataCache (parseZipFile dicomParser (Normal files) w))
  = match lastStored dicomParser key (fileEntriesOf files) with
    | Some arrayBuffer => Some arrayBuffer
    | None => Js.get key (dicomDataCache w)
    end.
Proof. apply parseZipFile_get. Qed.

Section RunImages.
Variable dicomParser : DicomParserApi.

Lemma fillStated_incl images b :
  (let '(ax, co, sa) := b in incl ax images /\ incl co images /\ incl sa images) ->
  let '(ax, co, sa) := fillStated images b in
  incl ax images /\ incl co images /\ incl sa images.
Proof.
  destruct b as [[ax co] sa]. intros (Ha & Hc & Hs). unfold fillStated.
  repeat split;
    match goal with |- incl (if ?c then _ else _) _ => destruct c end;
    first [assumption | apply incl_refl].
Qed.

Lemma classifyPlanes_incl images :
  let '(ax, co, sa) := classifyPlanes images in
  incl ax images /\ incl co images /\ incl sa images.
Proof.
  rewrite classifyPlanes_unfold.
  pose proof (fillStated_incl images (primaryBuckets images)) as F.
  rewrite primaryBuckets_filter in *.
  destruct (fillStated images _) as [[ax co] sa].
  destruct F as (Ha & Hc & Hs); [repeat split; apply incl_filter|].
  repeat split; intros x Hx;
    [apply Ha | apply Hc | apply Hs];
    (eapply Permutation_in; [symmetry; apply orderBy_stable | exact Hx]).
Qed.

Lemma shownImages_images files s img :
  In s (assembled dicomParser files) -> In img (shownImages s) -> In img (images s).
Proof.
  intros Hs Hi. apply assembled_In in Hs as (_ & _ & HC).
  pose proof (classifyPlanes_incl (images s)) as I. rewrite HC in I.
  destruct I as (Ha & Hc & Hs'). unfold shownImages in Hi.
  repeat (apply in_app_iff in Hi as [Hi|Hi]); auto.
Qed.

Lemma images_decoded files s img :
  In s (assembled dicomParser files) -> In img (images s) ->
  exists entry arrayBuffer,
    In entry (fileEntriesOf files)
    /\ async_arraybuffer (snd entry) = Normal arrayBuffer
    /\ isCandidate dicomParser arrayBuffer = true
    /\ parseDicomFile dicomParser arrayBuffer (justFilenameOf (fst entry)) = Some img
    /\ getSeriesInstanceUID dicomParser arrayBuffer = Some (seriesInstanceUID s).
Proof.
  intros Hs Hi. apply assembled_In in Hs as (_ & HE & _). rewrite HE in Hi.
  eapply Permutation_in in Hi; [|symmetry; apply sort_perm].
  unfold members in Hi. apply ofSeries_In in Hi as (d & Hd & <- & Hu).
  apply decoded_In in Hd as (entry & b & H1 & H2 & H3 & H4 & H5).
  exists entry, b. repeat split; try assumption. congruence.
Qed.

Lemma parseDicomFile_imageId arrayBuffer filename img :
  parseDicomFile dicomParser arrayBuffer filename = Some img ->
  imageId img = ("dicom:" ++ filename)%string.
Proof.
  intros H. apply parseDicomFile_Some in H as (dataSet & _ & H).
  apply readImage_Normal in H as (_ & _ & _ & _ & _ & _ & H). exact H.
Qed.

Lemma series_of_run files w :
  error (hook (parseZipFile dicomParser (Normal files) w)) = None ->
  series (hook (parseZipFile dicomParser (Normal files) w))
  = assembled dicomParser files.
Proof.
  intros H. destruct (parseZipFile_outcome dicomParser files w) as (E & S & _).
  cbv zeta in *. rewrite E in H. rewrite S.
  destruct (isEmptySeries _); [discriminate | reflexivity].
Qed.
End RunImages.

(** X4.  Every image a successful run hands to the viewports can be loaded:
    its id is [dicom:<name>] for the base name of an accepted entry, the
    cache holds bytes under that name, and the loader settles as the load of
    those bytes does, so it never rejects with [No cached DICOM]. *)
Theorem X4_run_images_load {Image : Type} (cornerstone : Cornerstone Image)
  (dicomParser : DicomParserApi) (files : ZipFiles) (w : World) :
  error (hook (parseZipFile dicomParser (Normal files) w)) = None ->
  Forall (fun s =>
    Forall (fun img =>
      exists name arrayBuffer,
        imageId img = ("dicom:" ++ name)%string
        /\ lastStored dicomParser name (fileEntriesOf files) = Some arrayBuffer
        /\ loadDicomImage cornerstone (imageId img)
             (dicomDataCache (parseZipFile dicomParser (Normal files) w))
           = loadWadoUri cornerstone arrayBuffer)
      (shownImages s))
    (series (hook (parseZipFile dicomParser (Normal files) w))).
Proof.
  intros H. rewrite (series_of_run dicomParser files w H).
  apply Forall_forall. intros s Hs. apply Forall_forall. intros img Hi.
  apply (shownImages_images dicomParser files s img Hs) in Hi.
  destruct (images_decoded dicomParser files s img Hs Hi)
    as (entry & b & H1 & H2 & H3 & H4 & _).
  apply parseDicomFile_imageId in H4.
  set (name := justFilenameOf (fst entry)) in *.
  assert (S : storedBytes dicomParser name entry = Some b).
  { unfold storedBytes. rewrite H2, H3. cbn [andb]. unfold name.
    rewrite String.eqb_refl, orb_true_r. reflexivity. }
  destruct (lastStored_In dicomParser name _ entry b H1 S) as (b' & L).
  exists name, b'. split; [exact H4|]. split; [exact L|].
  rewrite H4. unfold loadDicomImage. rewrite (prefix_app "dicom:" name).
  unfold customDicomLoader. cbv zeta.
  rewrite (cachedBytes_key name b'); [reflexivity|].
  rewrite parseZipFile_get, L. reflexivity.
Qed.

(** ** How a run ends *)

Section Ending.
Variable dicomParser : DicomParserApi.

Lemma assembled_isEmpty files :
  isEmptySeries (assembled dicomParser files) = true
  <-> assembled dicomParser files = [].
Proof. destruct (assembled dicomParser files); cbn; split; congruence. Qed.

Lemma parseZipFile_status files w :
  let w' := parseZipFile dicomParser (Normal files) w in
  loadingProgress (hook w') = 100%float
  /\ loadingMessage (hook w')
     = ("Successfully processed "
        ++ showNat (List.length (assembled dicomParser files)) ++ " series")%string.
Proof.
  cbv zeta. unfold parseZipFile. rewrite assembled_run.
  destruct (List.length (assembled dicomParser files) =? 0)%nat; split; reflexivity.
Qed.

Lemma processEntry_counts n st ix :
  let st' := processEntry dicomParser n st ix in
  let ds := match decodeEntry dicomParser (snd ix) with Some d => [d] | None => [] end in
  dicomFiles st' = dicomFiles st ++ map fst ds
  /\ processedCount st' = processedCount st + List.length ds.
Proof.
  destruct ix as [i [filename zipEntry]]. cbv zeta.
  unfold processEntry, decodeEntry. cbn [fst snd].
  destruct (async_arraybuffer zipEntry) as [arrayBuffer|];
    [|cbn; rewrite app_nil_r, Nat.add_0_r; split; reflexivity].
  unfold processBytes, isCandidate.
  destruct (negb (hasDICM arrayBuffer) && negb (parsedOk dicomParser arrayBuffer));
    cbn [negb]; [cbn; rewrite app_nil_r, Nat.add_0_r; split; reflexivity|].
  destruct (justFilenameOf filename =? filename)%string;
    (destruct (parseDicomFile dicomParser arrayBuffer (justFilenameOf filename));
     cbn; rewrite ?app_nil_r, ?Nat.add_0_r, ?Nat.add_1_r; split; reflexivity).
Qed.

Lemma fold_processEntry_counts n ixs : forall st,
  let st' := fold_left (processEntry dicomParser n) ixs st in
  dicomFiles st' = dicomFiles st ++ map fst (decoded dicomParser (map snd ixs))
  /\ processedCount st'
     = processedCount st + List.length (decoded dicomParser (map snd ixs)).
Proof.
  induction ixs as [|ix ixs IH]; intros st; cbv zeta.
  - cbn. rewrite app_nil_r, Nat.add_0_r. split; reflexivity.
  - cbn [fold_left map]. destruct (IH (processEntry dicomParser n st ix)) as [D C].
    destruct (processEntry_counts n st ix) as [D1 C1]. cbv zeta in *.
    rewrite D, C, D1, C1. unfold decoded. cbn [flat_map].
    rewrite map_app, List.length_app, <- app_assoc, Nat.add_assoc. split; reflexivity.
Qed.
Lemma run_series_nonempty files w :
  error (hook (parseZipFile dicomParser (Normal files) w)) = None ->
  exists s rest, assembled dicomParser files = s :: rest.
Proof.
  intros H. destruct (parseZipFile_outcome dicomParser files w) as (E & _).
  cbv zeta in E. rewrite E in H.
  destruct (assembled dicomParser files) as [|s rest]; [discriminate | eauto].
Qed.
End Ending.

(** X5.  However a run goes, it ends with [isLoading] false, and with
    [hasLoaded] set exactly when there is no error; without an error the
    series list is not empty, and with one the series list is the one the
    hook held before the run.  When the archive cannot be opened the error
    is the message of what was thrown, or [Failed to process DICOM files]
    when that is not an [Error]; the cache is untouched and the progress
    stays at 10. *)
Theorem X5_run_settles (dicomParser : DicomParserApi)
  (zipData : completion ZipFiles) (w : World) :
  let w' := parseZipFile dicomParser zipData w in
  isLoading (hook w') = false
  /\ (hasLoaded (hook w') = true <-> error (hook w') = None)
  /\ (error (hook w') = None -> series (hook w') <> [])
  /\ (error (hook w') <> None -> series (hook w') = series (hook w))
  /\ (forall message, zipData = Throw message ->
        error (hook w')
        = Some (match message with
                | Some m => m
                | None => "Failed to process DICOM files"%string
                end)
        /\ dicomDataCache w' = dicomDataCache w
        /\ reported w' = reported w ++ [0; 10]%float
        /\ loadingProgress (hook w') = 10%float
        /\ loadingMessage (hook w') = "Loading ZIP file..."%string).
Proof.
  cbv zeta. destruct zipData as [files|m].
  - destruct (parseZipFile_outcome dicomParser files w) as (E & S & H & L).
    cbv zeta in *. rewrite E, S, H, L.
    destruct (assembled dicomParser files) as [|s out] eqn:A; cbn [isEmptySeries negb].
    + repeat split; try discriminate; try congruence.
    + repeat split; try discriminate; try congruence.
  - split; [reflexivity|]. split; [split; discriminate|].
    split; [discriminate|]. split; [reflexivity|].
    intros message [= <-]. cbn. rewrite <- app_assoc. repeat split; reflexivity.
Qed.

(** X6.  [reset] after a run of any outcome puts the hook back in its
    initial state (empty series, no error, not loaded, not loading, progress
    0, empty message); it never touches the cache; and it leaves [isLoading]
    as it is, so only a run that has ended is reset completely. *)
Theorem X6_reset_after_run (dicomParser : DicomParserApi)
  (zipData : completion ZipFiles) (w : World) :
  hook (reset (parseZipFile dicomParser zipData w)) = initialHook
  /\ dicomDataCache (reset w) = dicomDataCache w
  /\ isLoading (hook (reset w)) = isLoading (hook w)
  /\ hook (reset (reset w)) = hook (reset w).
Proof.
  split; [|repeat split; reflexivity].
  assert (L : isLoading (hook (parseZipFile dicomParser zipData w)) = false).
  { destruct zipData as [files|m]; [|reflexivity].
    apply (parseZipFile_outcome dicomParser files w). }
  unfold reset, initialHook. cbn. rewrite L. reflexivity.
Qed.

(** X7.  When the archive opened, the run ends with the progress at 100 and
    the message [Successfully processed N series], N being the number of
    series assembled: also when N is 0 and the run fails with the
    no-valid-files error. *)
Theorem X7_final_status (dicomParser : DicomParserApi) (files : ZipFiles)
  (w : World) :
  let w' := parseZipFile dicomParser (Normal files) w in
  loadingProgress (hook w') = 100%float
  /\ loadingMessage (hook w')
     = ("Successfully processed "
        ++ showNat (List.length (assembled dicomParser files)) ++ " series")%string
  /\ (assembled dicomParser files = [] ->
      loadingMessage (hook w') = "Successfully processed 0 series"%string
      /\ error (hook w') = Some noSeriesMessage).
Proof.
  cbv zeta. destruct (parseZipFile_status dicomParser files w) as [P M].
  cbv zeta in *. split; [exact P|]. split; [exact M|].
  intros A. rewrite M, A. split; [reflexivity|].
  destruct (parseZipFile_outcome dicomParser files w) as (E & _).
  cbv zeta in E. rewrite E, A. reflexivity.
Qed.

(** X8.  The entry loop keeps its count in step with its image list: after
    the loop [dicomFiles] holds the image of every entry that was readable,
    passed the filter and decoded, in archive order, with or without a
    series identifier, and [processedCount] is their number. *)
Theorem X8_loop_counts (dicomParser : DicomParserApi) (fileEntries : ZipFiles)
  (st : LoopState) :
  let st' := processEntries dicomParser fileEntries st in
  dicomFiles st' = dicomFiles st ++ map fst (decoded dicomParser fileEntries)
  /\ processedCount st'
     = processedCount st + List.length (decoded dicomParser fileEntries).
Proof.
  cbv zeta. unfold processEntries.
  destruct (fold_processEntry_counts dicomParser (List.length fileEntries)
              (combine (seq 0 (List.length fileEntries)) fileEntries) st) as [D C].
  cbv zeta in *. rewrite combine_seq_snd in *. split; assumption.
Qed.

(** ** One series per identifier *)

Section SeriesList.
Variable dicomParser : DicomParserApi.
Implicit Types (m : Js.Map (list DicomImage)) (ds : list (DicomImage * option string)).

Lemma pushSeries_nil uid img : pushSeries uid img [] = [(uid, [img])].
Proof.
  unfold pushSeries, Js.has. cbn [Js.get Js.set]. rewrite String.eqb_refl.
  reflexivity.
Qed.

Lemma pushSeries_cons uid img k l m :
  pushSeries uid img ((k, l) :: m)
  = if (k =? uid)%string then (k, l ++ [img]) :: m
    else (k, l) :: pushSeries uid img m.
Proof.
  unfold pushSeries, Js.has. cbn [Js.get].
  destruct (k =? uid)%string eqn:E.
  - cbn [Js.get Js.set]. rewrite ?E. cbn [Js.set]. rewrite ?E. reflexivity.
  - destruct (Js.get uid m) as [l'|] eqn:G.
    + cbn [Js.get]. rewrite ?E, ?G. cbn [Js.set]. rewrite ?E. reflexivity.
    + cbn [Js.set]. rewrite ?E. cbn [Js.get]. rewrite ?E.
      rewrite !get_set_same. cbn [Js.set]. rewrite ?E. reflexivity.
Qed.

Lemma pushSeries_keys uid img m :
  map fst (pushSeries uid img m)
  = if existsb (String.eqb uid) (map fst m) then map fst m
    else map fst m ++ [uid].
Proof.
  induction m as [|[k l] m IH].
  - rewrite pushSeries_nil. reflexivity.
  - rewrite pushSeries_cons. cbn [map fst existsb].
    rewrite (String.eqb_sym uid k).
    destruct (k =? uid)%string; cbn [orb map fst]; [reflexivity|].
    rewrite IH. destruct (existsb _ _); reflexivity.
Qed.

Lemma pushSeries_images uid img m :
  Permutation (flat_map snd (pushSeries uid img m)) (flat_map snd m ++ [img]).
Proof.
  induction m as [|[k l] m IH].
  - rewrite pushSeries_nil. reflexivity.
  - rewrite pushSeries_cons. destruct (k =? uid)%string; cbn [flat_map snd].
    + rewrite <- !app_assoc. apply Permutation_app_head, Permutation_app_comm.
    + rewrite <- app_assoc. apply Permutation_app_head, IH.
Qed.

Lemma fold_pushDecoded_keys ds : forall m,
  map fst (fold_left pushDecoded ds m)
  = fold_left (fun acc d =>
                 match snd d with
                 | Some seriesUID =>
                     if existsb (String.eqb seriesUID) acc then acc
                     else acc ++ [seriesUID]
                 | None => acc
                 end) ds (map fst m).
Proof.
  induction ds as [|d ds IH]; intros m; [reflexivity|].
  cbn [fold_left]. rewrite IH. f_equal. unfold pushDecoded.
  destruct (snd d); [apply pushSeries_keys | reflexivity].
Qed.

Lemma fold_pushDecoded_images ds : forall m,
  Permutation (flat_map snd (fold_left pushDecoded ds m))
    (flat_map snd m ++ identified ds).
Proof.
  induction ds as [|d ds IH]; intros m; cbn [fold_left identified flat_map].
  - rewrite app_nil_r. reflexivity.
  - rewrite IH. fold (identified ds). unfold pushDecoded.
    destruct (snd d).
    + rewrite pushSeries_images, <- app_assoc. reflexivity.
    + reflexivity.
Qed.

Lemma assemble_keys m :
  Forall (fun kv => snd kv <> []) m ->
  map seriesInstanceUID (assemble m) = map fst m.
Proof.
  induction 1 as [|[k l] m H _ IH]; [reflexivity|].
  unfold assemble in *. cbn [flat_map map fst]. rewrite map_app, IH.
  cbn [snd] in H. unfold seriesOf.
  destruct l as [|x l]; [congruence|]. cbn [List.length Nat.ltb Nat.leb].
  destruct (classifyPlanes _) as [[ax co] sa]. reflexivity.
Qed.

Lemma assemble_images m :
  Permutation (flat_map images (assemble m)) (flat_map snd m).
Proof.
  induction m as [|[k l] m IH]; [reflexivity|].
  unfold assemble in *. cbn [flat_map snd]. rewrite flat_map_app.
  apply Permutation_app; [|exact IH].
  unfold seriesOf. destruct l as [|x l]; [reflexivity|].
  cbn [List.length Nat.ltb Nat.leb].
  destruct (classifyPlanes _) as [[ax co] sa]. cbn [flat_map images].
  rewrite app_nil_r. symmetry. apply sort_perm.
Qed.

Lemma groups_nonempty m ds : groups m ds -> Forall (fun kv => snd kv <> []) m.
Proof.
  intros G. apply Forall_forall. intros [k l] HI.
  exact (proj2 (groups_entry m ds k l G HI)).
Qed.

Lemma getSeriesInstanceUID_nonempty arrayBuffer uid :
  getSeriesInstanceUID dicomParser arrayBuffer = Some uid -> uid <> EmptyString.
Proof.
  unfold getSeriesInstanceUID.
  destruct (tryOrNull _) as [[u|]|]; try discriminate.
  destruct (u =? EmptyString)%string eqn:E; [discriminate|].
  intros [= <-] ->. discriminate.
Qed.

Lemma assembled_keys files :
  map seriesInstanceUID (assembled dicomParser files)
  = seriesIdentifiers (decoded dicomParser (fileEntriesOf files)).
Proof.
  rewrite assembled_groups.
  rewrite assemble_keys by (eapply groups_nonempty, groups_all).
  apply fold_pushDecoded_keys.
Qed.
End SeriesList.

(** X9.  The series a run assembles are one per series identifier: their
    identifiers are those of the decoded images, each once, in the order of
    first appearance, none of them the empty string; and the image lists of
    the series together hold every decoded image that carries an identifier
    exactly once, so grouping loses and duplicates nothing. *)
Theorem X9_one_series_per_identifier (dicomParser : DicomParserApi)
  (files : ZipFiles) :
  let out := assembled dicomParser files in
  let ds := decoded dicomParser (fileEntriesOf files) in
  map seriesInstanceUID out = seriesIdentifiers ds
  /\ NoDup (map seriesInstanceUID out)
  /\ Forall (fun s => seriesInstanceUID s <> EmptyString) out
  /\ Permutation (flat_map images out) (identified ds).
Proof.
  cbv zeta.
  pose proof (groups_all (decoded dicomParser (fileEntriesOf files))) as G.
  split; [apply assembled_keys|].
  split.
  { rewrite assembled_groups, assemble_keys by (eapply groups_nonempty, G).
    exact (proj1 G). }
  split.
  { apply Forall_forall. intros s Hs.
    destruct (assembled_In dicomParser files s Hs) as (N & _).
    unfold members in N.
    destruct (ofSeries _ _) as [|img l] eqn:E; [congruence|].
    assert (HI : In img (ofSeries (seriesInstanceUID s)
                           (decoded dicomParser (fileEntriesOf files))))
      by (rewrite E; left; reflexivity).
    apply ofSeries_In in HI as (d & Hd & _ & Hu).
    apply decoded_In in Hd as (entry & b & _ & _ & _ & _ & H5).
    apply (getSeriesInstanceUID_nonempty dicomParser b). congruence. }
  rewrite assembled_groups, assemble_images, fold_pushDecoded_images. reflexivity.
Qed.

(** ** What a decoded image always is *)

Section Wellformed.
Import NumberOrder.

Lemma orNum_truthy v d : Js.truthy d = true -> Js.truthy (Js.orNum v d) = true.
Proof.
  intros H. unfold Js.orNum. destruct v as [x|]; [|exact H].
  destruct (Js.truthy x) eqn:E; [exact E | exact H].
Qed.

Lemma orInt_nonzero v d : d <> 0%Z -> Js.orInt v d <> 0%Z.
Proof.
  intros H. unfold Js.orInt. destruct v as [x|]; [|exact H].
  destruct (Z.eqb_spec x 0); assumption.
Qed.

Lemma orStr_nonempty v d : d <> EmptyString -> Js.orStr v d <> EmptyString.
Proof.
  intros H. unfold Js.orStr. destruct v as [s|]; [|exact H].
  destruct (String.eqb_spec s EmptyString); assumption.
Qed.

Lemma readOrDefault_shape dataSet tag d attr : forall n a,
  is_nan d = false ->
  Forall2 (fun i x => exists v, DataSet.float dataSet tag i = Normal v
                                /\ x = Js.orNum v d) (seq a n) attr ->
  List.length attr = n
  /\ Forall (fun x => is_nan x = false) attr
  /\ (Js.truthy d = true -> Forall (fun x => Js.truthy x = true) attr).
Proof.
  intros n a Hd H. remember (seq a n) as idx eqn:E. revert n a E.
  induction H as [|i x idx attr (v & _ & ->) _ IH]; intros n a E.
  - destruct n; [|discriminate]. repeat split; constructor.
  - destruct n as [|n]; [discriminate|]. cbn [seq] in E. inversion E; subst.
    destruct (IH n (S a) eq_refl) as (L & N & T).
    split; [cbn; rewrite L; reflexivity|].
    split; [constructor; [apply orNum_not_nan, Hd | exact N]|].
    intros Ht. constructor; [apply orNum_truthy, Ht | exact (T Ht)].
Qed.

Lemma geometricAmended_shape dataSet tag n d whole attr :
  geometricAmended dataSet tag n d whole attr ->
  is_nan d = false -> List.length whole = n ->
  Forall (fun x => is_nan x = false) whole ->
  List.length attr = n
  /\ Forall (fun x => is_nan x = false) attr
  /\ (Js.truthy d = true -> Forall (fun x => Js.truthy x = true) whole ->
      Forall (fun x => Js.truthy x = true) attr).
Proof.
  unfold geometricAmended, readOrDefault. intros H Hd Hl Hn.
  destruct (DataSet.elements dataSet tag) as [element|].
  - destruct (Z.of_nat n <=? Element.length element)%Z.
    + destruct (readOrDefault_shape dataSet tag d attr n 0 Hd H) as (L & N & T).
      repeat split; auto.
    + subst attr. repeat split; auto.
  - subst attr. repeat split; auto.
Qed.

Lemma readImage_scalars dataSet filename img :
  readImage dataSet filename = Normal img ->
  is_nan (windowCenter img) = false /\ is_nan (windowWidth img) = false
  /\ is_nan (rescaleIntercept img) = false
  /\ Js.truthy (rescaleSlope img) = true
  /\ bitsAllocated img <> 0%Z /\ samplesPerPixel img <> 0%Z
  /\ photometricInterpretation img <> EmptyString.
Proof.
  unfold readImage. intros H. bind_inv H. inversion H; subst.
  cbn [windowCenter windowWidth rescaleIntercept rescaleSlope bitsAllocated
       samplesPerPixel photometricInterpretation].
  repeat split;
    first [ apply orNum_not_nan; reflexivity
          | apply orNum_truthy; reflexivity
          | apply orInt_nonzero; discriminate
          | apply orStr_nonempty; discriminate ].
Qed.
End Wellformed.

(** X10.  Whatever the data set holds, a decoded image is well formed: its
    id is [dicom:] followed by the name it was decoded under; its position
    has three components, its orientation six and its pixel spacing two, and
    none of them is NaN; the pixel spacing and the rescale slope are never 0
    (nor NaN); slice location, window and rescale intercept are never NaN;
    bits allocated and samples per pixel are never 0 and the photometric
    interpretation is never empty. *)
Theorem X10_decoded_image_wellformed (dicomParser : DicomParserApi)
  (arrayBuffer : ArrayBuffer) (filename : string) (img : DicomImage) :
  parseDicomFile dicomParser arrayBuffer filename = Some img ->
  imageId img = ("dicom:" ++ filename)%string
  /\ List.length (imagePositionPatient img) = 3
  /\ List.length (imageOrientationPatient img) = 6
  /\ List.length (pixelSpacing img) = 2
  /\ Forall (fun x => is_nan x = false)
       (imagePositionPatient img ++ imageOrientationPatient img ++ pixelSpacing img)
  /\ Forall (fun x => Js.truthy x = true) (pixelSpacing img)
  /\ Js.truthy (rescaleSlope img) = true
  /\ is_nan (sliceLocation img) = false
  /\ is_nan (windowCenter img) = false /\ is_nan (windowWidth img) = false
  /\ is_nan (rescaleIntercept img) = false
  /\ bitsAllocated img <> 0%Z /\ samplesPerPixel img <> 0%Z
  /\ photometricInterpretation img <> EmptyString.
Proof.
  intros H. pose proof (parseDicomFile_sliceLocation _ _ _ _ H) as SL.
  apply parseDicomFile_Some in H as (dataSet & _ & R).
  pose proof (readImage_scalars _ _ _ R) as (WC & WW & RI & RS & BA & SP & PI).
  apply readImage_Normal in R as (loc & _ & _ & P & O & S & I).
  apply getImagePositionPatient_amended in P.
  apply getImageOrientationPatient_amended in O.
  apply getPixelSpacing_amended in S.
  destruct (geometricAmended_shape _ _ _ _ _ _ P) as (PL & PN & _);
    [reflexivity | reflexivity | repeat constructor |].
  destruct (geometricAmended_shape _ _ _ _ _ _ O) as (OL & ON & _);
    [reflexivity | reflexivity | repeat constructor |].
  destruct (geometricAmended_shape _ _ _ _ _ _ S) as (SL' & SN & ST);
    [reflexivity | reflexivity | repeat constructor |].
  assert (A : Forall (fun x => is_nan x = false)
                (imagePositionPatient img ++ imageOrientationPatient img
                 ++ pixelSpacing img))
    by (repeat (apply Forall_app; split); assumption).
  assert (T : Forall (fun x => Js.truthy x = true) (pixelSpacing img))
    by (apply ST; [reflexivity | repeat constructor]).
  repeat split; assumption.
Qed.

(** ** Sorting again *)

Section SortFixed.
Import NumberOrder.
Local Open Scope float_scope.
Variable key : DicomImage -> number.

Lemma sort_fixed l :
  ascendingBy key l -> Js.sort (fun a b => key a - key b) l = l.
Proof.
  unfold ascendingBy. induction 1 as [|x l S IH F]; [reflexivity|].
  cbn [Js.sort]. rewrite IH. destruct l as [|y l']; [reflexivity|].
  cbn [Js.insert]. rewrite after_sub.
  inversion F as [|? ? Hxy _]; subst. rewrite (leb_not_ltb _ _ Hxy). reflexivity.
Qed.
End SortFixed.

Lemma orderBy_fixed arr i : orderBy (orderBy arr i) i = orderBy arr i.
Proof.
  unfold orderBy at 1. apply sort_fixed.
  exact (proj1 (proj2 (orderBy_stable arr i))).
Qed.

Lemma sortImagesByPosition_fixed imgs :
  Forall (fun img => is_nan (sliceLocation img) = false) imgs ->
  sortImagesByPosition (sortImagesByPosition imgs) = sortImagesByPosition imgs.
Proof.
  intros H. unfold sortImagesByPosition at 1. apply sort_fixed.
  apply sort_ascending, H.
Qed.

(** X11.  Sorting is settled after one pass: ordering a stack again by the
    same axis returns it unchanged, and so does sorting by slice location a
    list without NaN locations.  In every series a run assembles, [images]
    is a fixed point of [sortImagesByPosition] and each plane stack is a
    fixed point of its [orderBy]. *)
Theorem X11_sorting_settles (dicomParser : DicomParserApi) (files : ZipFiles) :
  (forall arr i, orderBy (orderBy arr i) i = orderBy arr i)
  /\ Forall (fun s =>
       sortImagesByPosition (images s) = images s
       /\ orderBy (axialImages s) 2 = axialImages s
       /\ orderBy (coronalImages s) 1 = coronalImages s
       /\ orderBy (sagittalImages s) 0 = sagittalImages s)
     (assembled dicomParser files).
Proof.
  split; [apply orderBy_fixed|].
  apply Forall_forall. intros s Hs.
  destruct (assembled_In dicomParser files s Hs) as (_ & HI & HC).
  split.
  - rewrite HI. apply sortImagesByPosition_fixed, members_defined.
  - unfold classifyPlanes in HC.
    destruct (fillEmpty _ _) as [[ax co] sa]. inversion HC; subst.
    repeat split; apply orderBy_fixed.
Qed.

(** ** The base name of an archive path *)

Section BaseName.

Lemma append_assoc (a b c : string) : ((a ++ b) ++ c = a ++ (b ++ c))%string.
Proof. induction a as [|x a IH]; cbn; [reflexivity | rewrite IH; reflexivity]. Qed.

Lemma append_nil_r (a : string) : (a ++ EmptyString)%string = a.
Proof. induction a as [|x a IH]; cbn; [reflexivity | rewrite IH; reflexivity]. Qed.

Lemma includes_slash_cons c s :
  Js.includes (String c s) "/" = Ascii.eqb c "/" || Js.includes s "/".
Proof.
  cbn [Js.includes String.prefix].
  destruct (ascii_dec "/" c) as [<-|N].
  - destruct s; reflexivity.
  - destruct (Ascii.eqb_spec c "/") as [->|_]; [contradiction | reflexivity].
Qed.

Lemma includes_slash_app a b :
  Js.includes (a ++ b) "/" = Js.includes a "/" || Js.includes b "/".
Proof.
  induction a as [|x a IH].
  - cbn [String.append]. destruct (Js.includes b "/"); reflexivity.
  - cbn [String.append]. rewrite !includes_slash_cons, IH, orb_assoc. reflexivity.
Qed.

Lemma split_slash_nonempty s : forall cur, Js.split_slash cur s <> [].
Proof.
  induction s as [|c s IH]; intros cur; cbn [Js.split_slash]; [discriminate|].
  destruct (Ascii.eqb c "/"); [discriminate | apply IH].
Qed.

Lemma pop_cons x l : l <> [] -> Js.pop (x :: l) = Js.pop l.
Proof.
  intros N. unfold Js.pop. cbn [rev].
  destruct (rev l) as [|y t] eqn:E; [|reflexivity].
  apply (f_equal (@rev string)) in E. rewrite rev_involutive in E. contradiction.
Qed.

(** The last segment of [cur ++ s] cut at the slashes of [s]. *)
Lemma pop_split_slash s : forall cur,
  exists l,
    Js.pop (Js.split_slash cur s) = Some l
    /\ (exists p, (cur ++ s = p ++ l)%string)
    /\ (Js.includes s "/" = false -> l = (cur ++ s)%string)
    /\ (Js.includes cur "/" = false -> Js.includes l "/" = false)
    /\ (l = EmptyString ->
        (cur = EmptyString /\ s = EmptyString)
        \/ exists p, s = (p ++ "/")%string).
Proof.
  induction s as [|c s IH]; intros cur; cbn [Js.split_slash].
  - exists cur. split; [reflexivity|].
    split; [exists EmptyString; rewrite append_nil_r; reflexivity|].
    split; [intros _; rewrite append_nil_r; reflexivity|].
    split; [auto|]. intros ->. left. split; reflexivity.
  - rewrite includes_slash_cons. destruct (Ascii.eqb_spec c "/") as [->|N].
    + destruct (IH EmptyString) as (l & P & (p & S) & _ & F & Z).
      exists l. rewrite pop_cons by apply split_slash_nonempty.
      split; [exact P|].
      split.
      { exists (cur ++ String "/" p)%string. cbn [String.append] in S.
        rewrite append_assoc. cbn [String.append]. rewrite S. reflexivity. }
      split; [discriminate|].
      split; [intros _; apply F; reflexivity|].
      intros E. right. destruct (Z E) as [[_ ->]|[q ->]].
      * exists EmptyString. reflexivity.
      * exists (String "/" q). reflexivity.
    + destruct (IH (cur ++ String c EmptyString)%string)
        as (l & P & (p & S) & A & F & Z).
      exists l. split; [exact P|].
      rewrite append_assoc in S, A. cbn [String.append] in S, A.
      split; [exists p; exact S|].
      split; [exact A|].
      split.
      { intros H. apply F. rewrite includes_slash_app, H, includes_slash_cons.
        destruct (Ascii.eqb_spec c "/"); [contradiction | reflexivity]. }
      intros E. right. destruct (Z E) as [[C _]|[q ->]].
      * destruct cur; discriminate.
      * exists (String c q). reflexivity.
Qed.

Lemma justFilenameOf_cases filename :
  exists l,
    Js.pop (Js.split_slash EmptyString filename) = Some l
    /\ justFilenameOf filename = (if (l =? EmptyString)%string then filename else l)
    /\ (exists p, filename = (p ++ l)%string)
    /\ (Js.includes filename "/" = false -> l = filename)
    /\ Js.includes l "/" = false
    /\ (l = EmptyString ->
        filename = EmptyString \/ exists p, filename = (p ++ "/")%string).
Proof.
  destruct (pop_split_slash filename EmptyString) as (l & P & S & A & F & Z).
  exists l. unfold justFilenameOf. rewrite P. cbn [Js.orStr String.append] in *.
  repeat split; auto.
  intros E. destruct (Z E) as [[_ H]|H]; auto.
Qed.
End BaseName.

(** X12.  The base name [filename.split("/").pop() || filename] is a suffix
    of the path; it is the path itself when the path has no slash; it holds
    no slash unless the path ends in one, in which case it is the whole
    path; it is empty only for the empty path; and taking it twice changes
    nothing. *)
Theorem X12_base_name (filename : string) :
  (exists directory, filename = (directory ++ justFilenameOf filename)%string)
  /\ (Js.includes filename "/" = false -> justFilenameOf filename = filename)
  /\ (Js.includes (justFilenameOf filename) "/" = true ->
      justFilenameOf filename = filename
      /\ exists p, filename = (p ++ "/")%string)
  /\ (justFilenameOf filename = EmptyString <-> filename = EmptyString)
  /\ justFilenameOf (justFilenameOf filename) = justFilenameOf filename.
Proof.
  destruct (justFilenameOf_cases filename) as (l & _ & J & (p & S) & A & F & Z).
  destruct (String.eqb_spec l EmptyString) as [E|N].
  - rewrite J. split; [exists EmptyString; reflexivity|].
    split; [reflexivity|].
    split.
    { intros H. split; [reflexivity|]. destruct (Z E) as [->|Hp]; [discriminate | exact Hp]. }
    split; [tauto|].
    exact J.
  - rewrite J. split; [exists p; exact S|].
    split; [intros H; exact (A H)|].
    split; [intros H; rewrite F in H; discriminate|].
    split.
    { split; [intros H; contradiction | intros ->].
      destruct (justFilenameOf_cases EmptyString) as (l0 & P0 & _).
      exfalso. apply N. destruct p; cbn in S; [congruence | discriminate]. }
    destruct (justFilenameOf_cases l) as (l2 & _ & J2 & _ & A2 & _).
    rewrite J2, (A2 F). destruct (l =? EmptyString)%string; reflexivity.
Qed.

(** ** Clamping to a percentage *)

Module Clamp.
Import NumberOrder.
Local Open Scope float_scope.

Lemma min2_nan a b : is_nan a || is_nan b = true -> min2 a b = nan.
Proof. intros H. unfold min2. rewrite H. reflexivity. Qed.

Lemma min2_choice a b :
  is_nan a = false -> is_nan b = false -> min2 a b = a \/ min2 a b = b.
Proof.
  intros Ha Hb. unfold min2. rewrite Ha, Hb. simpl.
  destruct (a <? b), (b <? a), (get_sign a); auto.
Qed.

Lemma min2_lower a b :
  is_nan a = false -> is_nan b = false ->
  (min2 a b <=? a) = true /\ (min2 a b <=? b) = true.
Proof.
  intros Ha Hb. unfold min2. rewrite Ha, Hb. simpl.
  destruct (a <? b) eqn:E1.
  { split; [apply leb_refl, Ha | apply ltb_leb, E1]. }
  destruct (b <? a) eqn:E2.
  { split; [apply ltb_leb, E2 | apply leb_refl, Hb]. }
  destruct (get_sign a); split;
    first [apply leb_refl; assumption | apply not_ltb_leb; assumption].
Qed.

Lemma min2_not_nan a b :
  is_nan a = false -> is_nan b = false -> is_nan (min2 a b) = false.
Proof.
  intros Ha Hb. destruct (min2_choice a b Ha Hb) as [-> | ->]; assumption.
Qed.

Lemma leb_not_nan x y : (x <=? y) = true -> is_nan x = false /\ is_nan y = false.
Proof. split; revert H; by_cases2 x y. Qed.

Lemma ltb_leb_trans x y z : (x <? y) = true -> (y <=? z) = true -> (x <? z) = true.
Proof. by_cases3 x y z. Qed.

Lemma leb_ltb_trans x y z : (x <=? y) = true -> (y <? z) = true -> (x <? z) = true.
Proof. by_cases3 x y z. Qed.

(** The larger of two ordered numbers is the second, up to the sign of
    zero. *)
Lemma max2_of_leb a b : (a <=? b) = true -> (Js.max2 a b =? b) = true.
Proof.
  intros H. destruct (leb_not_nan _ _ H) as [Ha Hb].
  apply leb_antisym; [|apply max2_upper; assumption].
  destruct (max2_choice a b Ha Hb) as [-> | ->]; [exact H | apply leb_refl, Hb].
Qed.

Lemma min2_of_leb a b : (b <=? a) = true -> (min2 a b =? b) = true.
Proof.
  intros H. destruct (leb_not_nan _ _ H) as [Hb Ha].
  apply leb_antisym; [apply min2_lower; assumption|].
  destruct (min2_choice a b Ha Hb) as [-> | ->]; [exact H | apply leb_refl, Hb].
Qed.

Lemma max2_of_ltb a b : (a <? b) = true -> Js.max2 a b = b.
Proof.
  intros H. destruct (leb_not_nan _ _ (ltb_leb _ _ H)) as [Ha Hb].
  unfold Js.max2. rewrite Ha, Hb, H. reflexivity.
Qed.

Lemma min2_of_ltb a b : (b <? a) = true -> min2 a b = b.
Proof.
  intros H. destruct (leb_not_nan _ _ (ltb_leb _ _ H)) as [Hb Ha].
  unfold min2. rewrite Ha, Hb, H, (ltb_asym _ _ H). reflexivity.
Qed.

Lemma eqb_trans x y z : (x =? y) = true -> (y =? z) = true -> (x =? z) = true.
Proof. by_cases3 x y z. Qed.

Lemma barWidth_range p :
  is_nan p = false -> atMost 0 (barWidth p) /\ atMost (barWidth p) 100.
Proof.
  intros Hp. unfold barWidth, atMost.
  pose proof (max2_not_nan 0 p eq_refl Hp) as Hm.
  destruct (max2_upper 0 p eq_refl Hp) as [L _].
  destruct (min2_lower 100 _ eq_refl Hm) as [U _]. split; [|exact U].
  destruct (min2_choice 100 _ eq_refl Hm) as [-> | ->]; [reflexivity | exact L].
Qed.

Lemma clampPercent_range p :
  is_nan p = false -> atMost 0 (clampPercent p) /\ atMost (clampPercent p) 100.
Proof.
  intros Hp. unfold clampPercent, atMost.
  pose proof (min2_not_nan 100 p eq_refl Hp) as Hm.
  destruct (min2_lower 100 p eq_refl Hp) as [U _].
  destruct (max2_upper 0 _ eq_refl Hm) as [L _]. split; [exact L|].
  destruct (max2_choice 0 _ eq_refl Hm) as [-> | ->]; [reflexivity | exact U].
Qed.

Lemma barWidth_inside p :
  atMost 0 p -> atMost p 100 -> (barWidth p =? p) = true.
Proof.
  unfold atMost, barWidth. intros L U.
  pose proof (max2_of_leb 0 p L) as E.
  apply eqb_trans with (Js.max2 0 p); [|exact E].
  apply min2_of_leb. destruct (eqb_leb _ _ E) as [E1 _].
  exact (leb_trans _ _ _ E1 U).
Qed.

Lemma clampPercent_inside p :
  atMost 0 p -> atMost p 100 -> (clampPercent p =? p) = true.
Proof.
  unfold atMost, clampPercent. intros L U.
  pose proof (min2_of_leb 100 p U) as E.
  apply eqb_trans with (min2 100 p); [|exact E].
  apply max2_of_leb. destruct (eqb_leb _ _ E) as [_ E2].
  exact (leb_trans _ _ _ L E2).
Qed.

Lemma barWidth_reported zipData p :
  withinArrayLimit zipData -> In p (runTrace zipData) -> barWidth p = p.
Proof.
  intros W H.
  assert (C : p = 0 \/ p = 10 \/ p = 20 \/ p = 85 \/ p = 100
              \/ (atMost 20 p /\ atMost p 85)).
  { destruct zipData as [files|m]; cbn [runTrace app] in H.
    - apply withinArrayLimit_length in W.
      destruct H as [<-|[<-|[<-|H]]]; auto.
      apply in_app_iff in H as [H|[<-|[<-|[]]]]; auto 6.
      right; right; right; right; right. exact (entries_bounds _ _ W H).
    - destruct H as [<-|[<-|[]]]; auto. }
  destruct C as [->|[->|[->|[->|[->|[L U]]]]]]; try reflexivity.
  unfold barWidth, atMost in *.
  rewrite (max2_of_ltb 0 p) by (apply ltb_leb_trans with 20; [reflexivity | exact L]).
  apply min2_of_ltb. apply leb_ltb_trans with 85; [exact U | reflexivity].
Qed.
End Clamp.

(** X13.  The two clamps to a percentage, [Math.min(100, Math.max(0, p))] of
    the progress bar and [Math.max(0, Math.min(100, p))] of the crosshair,
    return a value in [0, 100] for every [p] that is not NaN, return [p]
    (up to the sign of zero) when it already lies in [0, 100], and return
    NaN for NaN.  On every percentage a run reports the bar's clamp is the
    identity: the bar shows exactly what the run reported. *)
Theorem X13_percentage_clamps :
  (forall p, is_nan p = false ->
     atMost 0 (barWidth p) /\ atMost (barWidth p) 100
     /\ atMost 0 (clampPercent p) /\ atMost (clampPercent p) 100)
  /\ (forall p, atMost 0 p -> atMost p 100 ->
        (barWidth p =? p)%float = true /\ (clampPercent p =? p)%float = true)
  /\ (forall p, is_nan p = true -> barWidth p = nan /\ clampPercent p = nan)
  /\ (forall zipData, withinArrayLimit zipData ->
        Forall (fun p => barWidth p = p) (runTrace zipData)).
Proof.
  split.
  { intros p H. destruct (Clamp.barWidth_range p H), (Clamp.clampPercent_range p H).
    repeat split; assumption. }
  split.
  { intros p L U. split;
      [apply Clamp.barWidth_inside | apply Clamp.clampPercent_inside]; assumption. }
  split.
  { intros p H. unfold barWidth, clampPercent.
    rewrite (NumberOrder.max2_nan 0 p) by (rewrite H; apply orb_true_r).
    rewrite (Clamp.min2_nan 100 p) by (rewrite H; apply orb_true_r).
    split; reflexivity. }
  intros zipData W. apply Forall_forall. intros p H.
  exact (Clamp.barWidth_reported zipData p W H).
Qed.

(** ** The viewer *)

Section Viewer.
Variable dicomParser : DicomParserApi.

Lemma startState_first imgs img rest :
  imgs = img :: rest ->
  is_nan (windowCenter img) = false -> is_nan (windowWidth img) = false ->
  (ViewportState.windowCenter (startState imgs) =? windowCenter img)%float = true
  /\ (ViewportState.windowWidth (startState imgs) =? windowWidth img)%float = true.
Proof.
  intros -> Hc Hw. unfold startState. cbn.
  assert (F : forall x, is_nan x = false ->
                ((if Js.truthy x then x else 0) =? x)%float = true).
  { intros x Hx. unfold Js.truthy. rewrite (NumberOrder.eqb_refl x Hx). cbn [andb].
    destruct (x =? 0)%float eqn:E; cbn [negb].
    - revert E. NumberOrder.by_cases2 x 0%float.
    - apply NumberOrder.eqb_refl, Hx. }
  split; apply F; assumption.
Qed.

Lemma images_wellformed files s img :
  In s (assembled dicomParser files) -> In img (shownImages s) ->
  is_nan (windowCenter img) = false /\ is_nan (windowWidth img) = false.
Proof.
  intros Hs Hi. apply (shownImages_images dicomParser files s img Hs) in Hi.
  destruct (images_decoded dicomParser files s img Hs Hi)
    as (entry & b & _ & _ & _ & H4 & _).
  apply parseDicomFile_Some in H4 as (dataSet & _ & R).
  apply readImage_scalars in R. tauto.
Qed.

Lemma assembled_stacks files s :
  In s (assembled dicomParser files) ->
  axialImages s <> [] /\ coronalImages s <> [] /\ sagittalImages s <> [].
Proof.
  intros Hs. destruct (assembled_In dicomParser files s Hs) as (N & HI & HC).
  pose proof (classifyPlanes_nonempty (images s)) as P. rewrite HC in P.
  apply P. rewrite HI. apply sortImagesByPosition_nonempty, N.
Qed.
End Viewer.

(** X14.  For every series of a successful run the viewer starts each of the
    three views on a stack that is not empty: [totalSlices] is the length of
    the view's stack, which is at least 1, [currentSlice] is 0 and the stack
    has an image at index 0; the starting window is the window of that
    image (up to the sign of zero). *)
Theorem X14_views_start_nonempty (dicomParser : DicomParserApi)
  (files : ZipFiles) (w : World) :
  error (hook (parseZipFile dicomParser (Normal files) w)) = None ->
  Forall (fun s =>
    forall viewType,
      let stack := match viewType with
                   | axial => axialImages s
                   | coronal => coronalImages s
                   | sagittal => sagittalImages s
                   end in
      let state := stateOf viewType (startStates s) in
      ViewportState.currentSlice state = 0%float
      /\ ViewportState.totalSlices state = numberOfNat (List.length stack)
      /\ (1 <= List.length stack)%nat
      /\ exists img,
           imageAt stack 0 = Some img
           /\ (ViewportState.windowCenter state =? windowCenter img)%float = true
           /\ (ViewportState.windowWidth state =? windowWidth img)%float = true)
    (series (hook (parseZipFile dicomParser (Normal files) w))).
Proof.
  intros H. rewrite (series_of_run dicomParser files w H).
  apply Forall_forall. intros s Hs viewType. cbv zeta.
  destruct (assembled_stacks dicomParser files s Hs) as (Na & Nc & Ns).
  assert (G : forall stack,
             stack <> [] -> incl stack (shownImages s) ->
             ViewportState.currentSlice (startState stack) = 0%float
             /\ ViewportState.totalSlices (startState stack)
                = numberOfNat (List.length stack)
             /\ (1 <= List.length stack)%nat
             /\ exists img,
                  imageAt stack 0 = Some img
                  /\ (ViewportState.windowCenter (startState stack)
                      =? windowCenter img)%float = true
                  /\ (ViewportState.windowWidth (startState stack)
                      =? windowWidth img)%float = true).
  { intros stack N I. destruct stack as [|img rest] eqn:E; [congruence|].
    split; [reflexivity|]. split; [reflexivity|]. split; [cbn; lia|].
    exists img. split; [reflexivity|].
    destruct (images_wellformed dicomParser files s img Hs) as [Hc Hw];
      [apply I; left; reflexivity|].
    exact (startState_first (img :: rest) img rest eq_refl Hc Hw). }
  unfold shownImages in G.
  destruct viewType; cbn [stateOf startStates axialState coronalState sagittalState];
    apply G; try assumption; intros x Hx; repeat (apply in_app_iff; auto; right); auto.
Qed.

(** X15.  The two updates of the viewer's state touch one view and one half
    of its state: [handleSliceChange] leaves [totalSlices], the window and
    the other views as they are, [handleWindowLevelChange] leaves the
    slices and the other views as they are; a second update of the same
    kind on the same view overwrites the first; and a slice change and a
    window change commute, on the same view or on different ones. *)
Theorem X15_view_updates (states : ViewportStates) :
  (forall v slice,
      let states' := handleSliceChange v slice states in
      ViewportState.currentSlice (stateOf v states') = slice
      /\ ViewportState.totalSlices (stateOf v states')
         = ViewportState.totalSlices (stateOf v states)
      /\ ViewportState.windowCenter (stateOf v states')
         = ViewportState.windowCenter (stateOf v states)
      /\ ViewportState.windowWidth (stateOf v states')
         = ViewportState.windowWidth (stateOf v states)
      /\ forall v', v' <> v -> stateOf v' states' = stateOf v' states)
  /\ (forall v center width,
        let states' := handleWindowLevelChange v center width states in
        ViewportState.windowCenter (stateOf v states') = center
        /\ ViewportState.windowWidth (stateOf v states') = width
        /\ ViewportState.currentSlice (stateOf v states')
           = ViewportState.currentSlice (stateOf v states)
        /\ ViewportState.totalSlices (stateOf v states')
           = ViewportState.totalSlices (stateOf v states)
        /\ forall v', v' <> v -> stateOf v' states' = stateOf v' states)
  /\ (forall v s1 s2,
        handleSliceChange v s2 (handleSliceChange v s1 states)
        = handleSliceChange v s2 states)
  /\ (forall v v' slice center width,
        handleSliceChange v slice (handleWindowLevelChange v' center width states)
        = handleWindowLevelChange v' center width (handleSliceChange v slice states)).
Proof.
  split.
  { intros v slice. cbv zeta. destruct v; repeat split;
      intros v' N; destruct v'; try reflexivity; congruence. }
  split.
  { intros v center width. cbv zeta. destruct v; repeat split;
      intros v' N; destruct v'; try reflexivity; congruence. }
  split.
  { intros v s1 s2. destruct v; reflexivity. }
  intros v v' slice center width. destruct v, v'; reflexivity.
Qed.

(** ** Moving through a stack *)

Module Stack.
Import FloatFacts NumberOrder Clamp.
Local Open Scope float_scope.


Lemma binary_normalize_not_nan M e :
  (emin <= e)%Z -> binary_normalize prec emax M e false <> S754_nan.
Proof.
  intros He. destruct M as [|p|p]; cbn [binary_normalize]; [discriminate| |].
  - destruct (binary_round_sign false p e He) as [(m' & e' & ->)| ->]; discriminate.
  - destruct (binary_round_sign true p e He) as [(m' & e' & ->)| ->]; discriminate.
Qed.

Lemma valid_emin x s m e : Prim2SF x = S754_finite s m e -> (emin <= e)%Z.
Proof.
  intros E. pose proof (Prim2SF_valid x) as V. rewrite E in V.
  apply valid_finite in V. tauto.
Qed.

(** Adding or subtracting a finite number never makes a NaN. *)
Lemma add_finite_not_nan x y s m e :
  Prim2SF y = S754_finite s m e -> is_nan x = false -> is_nan (x + y) = false.
Proof.
  intros Ey Hx. pose proof (valid_emin y s m e Ey) as Vy.
  rewrite is_nan_spec in *. rewrite add_spec, Ey.
  destruct (Prim2SF x) as [sx|sx| |sx mx ex] eqn:Ex; try discriminate;
    try reflexivity.
  pose proof (valid_emin x sx mx ex Ex) as Vx.
  unfold SF64add, SFadd.
  match goal with |- match binary_normalize _ _ ?M ?E _ with _ => _ end = _ =>
    pose proof (binary_normalize_not_nan M E ltac:(lia)) as N;
    destruct (binary_normalize prec emax M E false)
  end; try reflexivity. congruence.
Qed.

Lemma sub_finite_not_nan x y s m e :
  Prim2SF y = S754_finite s m e -> is_nan x = false -> is_nan (x - y) = false.
Proof.
  intros Ey Hx. pose proof (valid_emin y s m e Ey) as Vy.
  rewrite is_nan_spec in *. rewrite sub_spec, Ey.
  destruct (Prim2SF x) as [sx|sx| |sx mx ex] eqn:Ex; try discriminate;
    try reflexivity.
  pose proof (valid_emin x sx mx ex Ex) as Vx.
  unfold SF64sub, SFsub.
  match goal with |- match binary_normalize _ _ ?M ?E _ with _ => _ end = _ =>
    pose proof (binary_normalize_not_nan M E ltac:(lia)) as N;
    destruct (binary_normalize prec emax M E false)
  end; try reflexivity. congruence.
Qed.

Lemma numberOfNat_not_nan n : is_nan (numberOfNat n) = false.
Proof.
  rewrite is_nan_spec. unfold numberOfNat. rewrite of_uint63_spec.
  match goal with |- match binary_normalize _ _ ?M ?E _ with _ => _ end = _ =>
    pose proof (binary_normalize_not_nan M E ltac:(rewrite emin_val; lia)) as N;
    destruct (binary_normalize prec emax M E false)
  end; try reflexivity. congruence.
Qed.

Lemma last_index_not_nan n : is_nan (numberOfNat n - 1) = false.
Proof.
  apply (sub_finite_not_nan _ 1 false (2 ^ 52)%positive (-52)%Z); [reflexivity|].
  apply numberOfNat_not_nan.
Qed.

Lemma wheelDelta_cases deltaY :
  wheelDelta deltaY = 1 \/ wheelDelta deltaY = (-1)%float.
Proof. unfold wheelDelta. destruct (0 <? deltaY); auto. Qed.

Lemma wheel_step_not_nan currentSlice deltaY :
  is_nan currentSlice = false -> is_nan (currentSlice + wheelDelta deltaY) = false.
Proof.
  intros H. destruct (wheelDelta_cases deltaY) as [-> | ->].
  - apply (add_finite_not_nan _ 1 false (2 ^ 52)%positive (-52)%Z); [reflexivity | exact H].
  - apply (add_finite_not_nan _ (-1) true (2 ^ 52)%positive (-52)%Z); [reflexivity | exact H].
Qed.

Lemma clamp_range lo hi x :
  is_nan lo = false -> is_nan hi = false -> is_nan x = false ->
  (lo <=? Js.max2 lo (min2 hi x)) = true
  /\ (Js.max2 lo (min2 hi x) <=? Js.max2 lo hi) = true.
Proof.
  intros Hl Hh Hx.
  pose proof (min2_not_nan hi x Hh Hx) as Hm.
  destruct (min2_lower hi x Hh Hx) as [U _].
  destruct (max2_upper lo _ Hl Hm) as [L _]. split; [exact L|].
  destruct (max2_upper lo hi Hl Hh) as [L' U'].
  destruct (max2_choice lo _ Hl Hm) as [-> | ->];
    [exact L' | exact (leb_trans _ _ _ U U')].
Qed.
End Stack.

(** X16.  Moving through a stack never leaves the slider's range: for a
    current slice that is not NaN, whatever the wheel does and however many
    images the view has, the slice a wheel step asks for lies between 0 and
    [Math.max(0, images.length - 1)], the slice of the back button is at
    least 0 and the slice of the forward button at most
    [images.length - 1].  An inactive viewport ignores the wheel, and
    [onSliceChange] is not called when the step leaves the slice where it
    is. *)
Theorem X16_slice_steps_in_range (imagesLength : nat)
  (currentSlice deltaY : number) :
  is_nan currentSlice = false ->
  atMost 0 (wheelSlice imagesLength currentSlice deltaY)
  /\ atMost (wheelSlice imagesLength currentSlice deltaY) (sliderMax imagesLength)
  /\ atMost 0 (prevSlice currentSlice)
  /\ atMost (nextSlice imagesLength currentSlice) (numberOfNat imagesLength - 1)%float
  /\ handleWheelStack false imagesLength currentSlice deltaY = None
  /\ (forall slice,
        handleWheelStack true imagesLength currentSlice deltaY = Some slice ->
        slice = wheelSlice imagesLength currentSlice deltaY
        /\ (slice =? currentSlice)%float = false
        /\ atMost 0 slice /\ atMost slice (sliderMax imagesLength)).
Proof.
  intros H. unfold atMost.
  pose proof (Stack.last_index_not_nan imagesLength) as Hn.
  pose proof (Stack.wheel_step_not_nan currentSlice deltaY H) as Hs.
  destruct (Stack.clamp_range 0 _ _ eq_refl Hn Hs) as [L U].
  split; [exact L|]. split; [exact U|].
  split.
  { unfold prevSlice. apply NumberOrder.max2_upper; [reflexivity|].
    apply (Stack.sub_finite_not_nan _ 1 false (2 ^ 52)%positive (-52)%Z);
      [reflexivity | exact H]. }
  split.
  { unfold nextSlice. apply Clamp.min2_lower; [exact Hn|].
    apply (Stack.add_finite_not_nan _ 1 false (2 ^ 52)%positive (-52)%Z);
      [reflexivity | exact H]. }
  split; [reflexivity|].
  intros slice. unfold handleWheelStack. cbv zeta.
  destruct (wheelSlice imagesLength currentSlice deltaY =? currentSlice)%float eqn:E;
    [discriminate|].
  intros [= <-]. repeat split; assumption.
Qed.

(** ** Integers as numbers: exact steps *)

Module IntegerFacts.
Import FloatFacts Round RoundFacts.
Local Open Scope Z_scope.

(** A full mantissa scaled by a power of two rounds to itself. *)
Lemma round_normal_scaled p j e :
  Z.pos (digits2_pos p) = 53 -> 0 <= j -> e + j <= 971 ->
  round_normal (Z.pos p * 2 ^ j) 1 e = S754_finite false p (e + j).
Proof.
  intros D Hj He. unfold round_normal. rewrite Z.div_1_r.
  pose proof (pow2_pos j Hj) as Pj.
  destruct (Z.pos p * 2 ^ j) as [|q|q] eqn:Eq; try lia.
  pose proof (digits_shift p q j Hj (eq_sym Eq)) as Dq. cbn [Zdigits2].
  rewrite Dq, D. replace (53 + j - 53) with j by lia.
  replace (53 + j + e - 53) with (e + j) by lia. rewrite Z.mul_1_l, <- Eq.
  assert (S : scode (Z.pos p * 2 ^ j) (2 ^ j) = Z.pos p * 4).
  { unfold scode.
    replace (2 * (Z.pos p * 2 ^ j)) with (2 * Z.pos p * 2 ^ j) by ring.
    rewrite Z.div_mul, Z.mod_mul by lia. change (0 =? 0) with true.
    cbv beta iota. ring. }
  rewrite S.
  assert (R : rne (Z.pos p * 4) = Z.pos p).
  { unfold rne. rewrite Z.div_mul, Z.mod_mul by lia. cbn. lia. }
  unfold rounded. rewrite R.
  pose proof (digits2_pos_bound p) as [L U]. rewrite D in L, U.
  destruct (Z.eqb_spec (Z.pos p) (2 ^ 53)); [lia|].
  unfold pack. cbn [fst snd]. destruct (Z.leb_spec (e + j) 971); [reflexivity | lia].
Qed.

(** A positive integer below [2 ^ 53], written with any scale. *)
Lemma scaled_integer k j :
  1 <= k < 2 ^ 53 -> 0 <= j -> j <= 1000 ->
  binary_normalize prec emax (k * 2 ^ j) (- j) false = integer k.
Proof.
  intros Hk Hj Hj'. destruct (integer_normal k Hk) as (m & e & -> & D & R & V).
  pose proof (pow2_pos j Hj) as Pj.
  destruct (k * 2 ^ j) as [|q|q] eqn:Eq; try lia. cbn [binary_normalize].
  destruct (Z.le_gt_cases 0 (e + j)) as [G|L].
  - assert (Eq' : Z.pos q = Z.pos m * 2 ^ (e + j)).
    { rewrite <- Eq, V, <- Z.mul_assoc, <- Z.pow_add_r by lia. f_equal. f_equal. lia. }
    pose proof (digits_shift m q (e + j) G Eq') as Dq.
    destruct (binary_round_exact q (- j) ltac:(lia)) as [_ B]. cbv zeta in B.
    replace (Z.max 0 (53 - Z.pos (digits2_pos q))) with 0 in B by lia.
    rewrite Z.mul_1_r, Z.sub_0_r in B. rewrite B, Eq'.
    rewrite round_normal_scaled by lia. f_equal. lia.
  - (* the scale is smaller than the one of the normal form *)
    assert (Em : Z.pos m = Z.pos q * 2 ^ (- (e + j))).
    { rewrite <- Eq, V, <- Z.mul_assoc, <- Z.pow_add_r by lia. f_equal. f_equal. lia. }
    pose proof (digits_shift q m (- (e + j)) ltac:(lia) Em) as Dm.
    destruct (binary_round_exact q (- j) ltac:(lia)) as [_ B]. cbv zeta in B.
    replace (Z.max 0 (53 - Z.pos (digits2_pos q))) with (- (e + j)) in B by lia.
    rewrite B, <- Em.
    rewrite <- (Z.mul_1_r (Z.pos m)). change 1 with (2 ^ 0) at 1.
    rewrite round_normal_scaled by lia. f_equal. lia.
Qed.

Lemma Prim2SF_one : Prim2SF 1 = S754_finite false (2 ^ 52) (-52).
Proof. reflexivity. Qed.

Lemma integer_succ k :
  0 <= k -> k + 1 < 2 ^ 53 ->
  SFadd prec emax (integer k) (Prim2SF 1) = integer (k + 1).
Proof.
  intros H0 H1. rewrite Prim2SF_one.
  destruct (Z.eq_dec k 0) as [->|N]; [reflexivity|].
  destruct (integer_normal k ltac:(lia)) as (m & e & E & D & R & V). rewrite E.
  destruct (SFadd_round m e (2 ^ 52) (-52) D ltac:(lia) ltac:(lia)) as [_ ->].
  cbv zeta. replace (Z.min e (-52)) with (-52) by lia.
  replace (-52 - -52) with 0 by lia. change (2 ^ 0) with 1. rewrite Z.mul_1_r.
  change (Z.pos (2 ^ 52)) with (2 ^ 52).
  assert (S : Z.pos m * 2 ^ (e - -52) + 2 ^ 52 = (k + 1) * 2 ^ 52).
  { rewrite V, <- Z.mul_assoc, <- Z.pow_add_r by lia.
    replace (- e + (e - -52)) with 52 by lia. ring. }
  rewrite S.
  destruct (integer_normal (k + 1) ltac:(lia)) as (m' & e' & E' & D' & R' & V').
  rewrite E'.
  replace ((k + 1) * 2 ^ 52) with (Z.pos m' * 2 ^ (e' + 52)).
  2:{ rewrite V', <- Z.mul_assoc, <- Z.pow_add_r by lia. f_equal. f_equal. lia. }
  rewrite round_normal_scaled by lia. f_equal. lia.
Qed.

Lemma integer_pred k :
  1 <= k < 2 ^ 53 ->
  SFsub prec emax (integer k) (Prim2SF 1) = integer (k - 1).
Proof.
  intros Hk. rewrite Prim2SF_one.
  destruct (integer_normal k Hk) as (m & e & E & D & R & V). rewrite E.
  unfold SFsub. cbn [cond_Zopp]. replace (Z.min e (-52)) with (-52) by lia.
  rewrite !shl_align_fst by lia.
  replace (-52 - -52) with 0 by lia. change (2 ^ 0) with 1. rewrite Z.mul_1_r.
  change (Z.pos (2 ^ 52)) with (2 ^ 52).
  assert (S : Z.pos m * 2 ^ (e - -52) - 2 ^ 52 = (k - 1) * 2 ^ 52).
  { rewrite V, <- Z.mul_assoc, <- Z.pow_add_r by lia.
    replace (- e + (e - -52)) with 52 by lia. ring. }
  rewrite S. destruct (Z.eq_dec k 1) as [->|N]; [reflexivity|].
  apply (scaled_integer (k - 1) 52); lia.
Qed.
End IntegerFacts.

Module Steps.
Import FloatFacts Round RoundFacts IntegerFacts NumberOrder Clamp.
Local Open Scope float_scope.

Lemma numberOfNat_succ k :
  (Z.of_nat k + 1 < 2 ^ 53)%Z -> numberOfNat k + 1 = numberOfNat (S k).
Proof.
  intros H. apply Prim2SF_inj.
  rewrite add_spec, !Prim2SF_numberOfNat by lia.
  unfold SF64add. rewrite integer_succ by lia. f_equal. lia.
Qed.

Lemma numberOfNat_pred k :
  (Z.of_nat k < 2 ^ 53 - 1)%Z -> numberOfNat (S k) - 1 = numberOfNat k.
Proof.
  intros H. apply Prim2SF_inj.
  rewrite sub_spec, !Prim2SF_numberOfNat by lia.
  unfold SF64sub. rewrite integer_pred by lia. f_equal. lia.
Qed.

Lemma numberOfNat_leb i j :
  (i <= j)%nat -> (Z.of_nat j < 2 ^ 53)%Z ->
  (numberOfNat i <=? numberOfNat j) = true.
Proof.
  intros Hij Hj. rewrite leb_spec, !Prim2SF_numberOfNat by lia.
  destruct i as [|i].
  - change (integer (Z.of_nat 0)) with (S754_zero false).
    destruct j as [|j]; [reflexivity|].
    destruct (integer_normal (Z.of_nat (S j)) ltac:(lia)) as (m & e & -> & _).
    reflexivity.
  - apply integer_mono; lia.
Qed.

Lemma numberOfNat_ltb i j :
  (i < j)%nat -> (Z.of_nat j < 2 ^ 53)%Z ->
  (numberOfNat i <? numberOfNat j) = true.
Proof.
  intros Hij Hj.
  pose proof (numberOfNat_leb (S i) j ltac:(lia) Hj) as L.
  rewrite <- (numberOfNat_succ i) in L by lia.
  apply ltb_leb_trans with (numberOfNat i + 1); [|exact L].
  rewrite (numberOfNat_succ i) by lia.
  rewrite ltb_spec, !Prim2SF_numberOfNat by lia.
  destruct i as [|i].
  { reflexivity. }
  destruct (integer_normal (Z.of_nat (S i)) ltac:(lia)) as (m & e & E & D & R & V).
  destruct (integer_normal (Z.of_nat (S (S i))) ltac:(lia)) as (m' & e' & E' & D' & R' & V').
  rewrite E, E'. unfold SFltb, SFcompare.
  pose proof (digits2_pos_bound m) as [Lm Um]. rewrite D in Lm, Um.
  pose proof (digits2_pos_bound m') as [Lm' Um']. rewrite D' in Lm', Um'.
  change (53 - 1)%Z with 52%Z in *.
  assert (P : forall z, (0 <= z)%Z -> (0 < 2 ^ z)%Z) by (intros; apply pow2_pos; assumption).
  destruct (Z.compare_spec e e') as [Ee|Ee|Ee].
  - subst e'. change (Pos.compare_cont Eq m m') with (Pos.compare m m').
    destruct (Pos.compare_spec m m') as [Em|Em|Em]; try reflexivity; exfalso.
    + subst m'. assert (Z.of_nat (S i) = Z.of_nat (S (S i)))%Z; [|lia].
      pose proof (P (- e)%Z ltac:(lia)). 
      apply Z.mul_reg_r with (2 ^ (- e))%Z; lia.
    + pose proof (P (- e)%Z ltac:(lia)). nia.
  - reflexivity.
  - exfalso.
    (* e' < e: m' * 2^(-e) ... compare values at scale 2^52 *)
    assert (V1 : (Z.pos m * 2 ^ (e + 52) = Z.of_nat (S i) * 2 ^ 52)%Z).
    { rewrite V, <- Z.mul_assoc, <- Z.pow_add_r by lia. f_equal. f_equal. lia. }
    assert (V2 : (Z.pos m' * 2 ^ (e' + 52) = Z.of_nat (S (S i)) * 2 ^ 52)%Z).
    { rewrite V', <- Z.mul_assoc, <- Z.pow_add_r by lia. f_equal. f_equal. lia. }
    assert (T : (2 ^ 53 * 2 ^ (e' + 52) <= 2 ^ 52 * 2 ^ (e + 52))%Z).
    { rewrite <- !Z.pow_add_r by lia. apply Z.pow_le_mono_r; lia. }
    pose proof (P (e + 52)%Z ltac:(lia)). pose proof (P (e' + 52)%Z ltac:(lia)).
    pose proof (P 52%Z ltac:(lia)).
    assert (Z.pos m' * 2 ^ (e' + 52) < Z.pos m * 2 ^ (e + 52))%Z by nia.
    nia.
Qed.

Lemma max2_zero_numberOfNat k :
  (Z.of_nat k < 2 ^ 53)%Z -> Js.max2 0 (numberOfNat k) = numberOfNat k.
Proof.
  intros H. destruct k as [|k]; [reflexivity|].
  apply max2_of_ltb. apply (numberOfNat_ltb 0 (S k)); [lia | exact H].
Qed.

Lemma min2_numberOfNat a b :
  (Z.of_nat a < 2 ^ 53)%Z -> (Z.of_nat b < 2 ^ 53)%Z ->
  min2 (numberOfNat a) (numberOfNat b) = numberOfNat (Nat.min a b).
Proof.
  intros Ha Hb. destruct (Nat.lt_trichotomy a b) as [L|[E|G]].
  - rewrite Nat.min_l by lia. unfold min2.
    rewrite !Stack.numberOfNat_not_nan, (numberOfNat_ltb a b L Hb). reflexivity.
  - subst b. rewrite Nat.min_id. 
    destruct (min2_choice (numberOfNat a) (numberOfNat a)) as [-> | ->];
      try apply Stack.numberOfNat_not_nan; reflexivity.
  - rewrite Nat.min_r by lia. apply min2_of_ltb, numberOfNat_ltb; assumption.
Qed.
End Steps.

Module StepsExact.
Import FloatFacts NumberOrder Clamp Steps.
Local Open Scope float_scope.

Lemma add_minus_one x : x + (-1) = x - 1.
Proof.
  apply Prim2SF_inj. rewrite add_spec, sub_spec.
  change (Prim2SF (-1)) with (S754_finite true (2 ^ 52) (-52)).
  change (Prim2SF 1) with (S754_finite false (2 ^ 52) (-52)).
  destruct (Prim2SF x) as [[]|[]| |[] m e]; reflexivity.
Qed.

Lemma ltb_not_eqb x y : (x <? y) = true -> (x =? y) = false /\ (y =? x) = false.
Proof. split; revert H; by_cases2 x y. Qed.

Lemma numberOfNat_eqb i j :
  (Z.of_nat i < 2 ^ 53)%Z -> (Z.of_nat j < 2 ^ 53)%Z ->
  (numberOfNat i =? numberOfNat j) = true -> i = j.
Proof.
  intros Hi Hj E. destruct (Nat.lt_trichotomy i j) as [L|[->|G]]; [|reflexivity|].
  - destruct (ltb_not_eqb _ _ (numberOfNat_ltb i j L Hj)) as [N _]. congruence.
  - destruct (ltb_not_eqb _ _ (numberOfNat_ltb j i G Hi)) as [_ N]. congruence.
Qed.

Lemma last_index n :
  (1 <= n)%nat -> (Z.of_nat n < 2 ^ 53)%Z -> numberOfNat n - 1 = numberOfNat (n - 1).
Proof.
  intros H1 H. destruct n as [|n]; [lia|].
  rewrite numberOfNat_pred by lia. f_equal. lia.
Qed.

Lemma step_back k :
  (Z.of_nat k < 2 ^ 53)%Z -> Js.max2 0 (numberOfNat k - 1) = numberOfNat (k - 1).
Proof.
  intros H. destruct k as [|k]; [reflexivity|].
  rewrite numberOfNat_pred by lia. rewrite max2_zero_numberOfNat by lia.
  f_equal. lia.
Qed.

Lemma step_forward n k :
  (k < n)%nat -> (Z.of_nat n < 2 ^ 53)%Z ->
  min2 (numberOfNat n - 1) (numberOfNat k + 1) = numberOfNat (Nat.min (n - 1) (k + 1)).
Proof.
  intros Hk Hn. rewrite last_index, numberOfNat_succ by lia.
  rewrite min2_numberOfNat by lia. f_equal. lia.
Qed.

Lemma wheel_exact n k deltaY :
  (k < n)%nat -> (Z.of_nat n < 2 ^ 53)%Z ->
  wheelSlice n (numberOfNat k) deltaY
  = numberOfNat (if 0 <? deltaY then Nat.min (n - 1) (k + 1) else k - 1).
Proof.
  intros Hk Hn. unfold wheelSlice, wheelDelta. destruct (0 <? deltaY).
  - rewrite step_forward by assumption. apply max2_zero_numberOfNat. lia.
  - rewrite add_minus_one, last_index by lia.
    destruct k as [|k].
    + change (numberOfNat 0 - 1) with (-1).
      rewrite (min2_of_ltb (numberOfNat (n - 1)) (-1)); [reflexivity|].
      apply ltb_leb_trans with 0; [reflexivity|].
      apply (numberOfNat_leb 0 (n - 1)); lia.
    + rewrite numberOfNat_pred by lia. rewrite min2_numberOfNat by lia.
      rewrite max2_zero_numberOfNat by lia. f_equal. lia.
Qed.
End StepsExact.

(** X17.  On a stack of [n] images, fewer than an array can hold, with the
    current slice an index [k < n], a step is exact: the wheel moves to
    [k + 1] when it turns down and to [k - 1] when it turns up, stopping at
    [n - 1] and at 0; the buttons do the same; the slider ends at [n - 1];
    and the wheel calls [onSliceChange] except at the end of the stack it
    is turned towards. *)
Theorem X17_slice_steps_exact (n k : nat) (deltaY : number) :
  (k < n)%nat -> (Z.of_nat n < arrayLengthLimit)%Z ->
  wheelSlice n (numberOfNat k) deltaY
  = numberOfNat (if (0 <? deltaY)%float then Nat.min (n - 1) (k + 1) else k - 1)
  /\ prevSlice (numberOfNat k) = numberOfNat (k - 1)
  /\ nextSlice n (numberOfNat k) = numberOfNat (Nat.min (n - 1) (k + 1))
  /\ sliderMax n = numberOfNat (n - 1)
  /\ (handleWheelStack true n (numberOfNat k) deltaY = None
      <-> if (0 <? deltaY)%float then k = (n - 1)%nat else k = 0%nat).
Proof.
  intros Hk Hl.
  assert (Hn : (Z.of_nat n < 2 ^ 53)%Z)
    by (apply Z.lt_trans with arrayLengthLimit; [exact Hl | reflexivity]).
  pose proof (StepsExact.wheel_exact n k deltaY Hk Hn) as W.
  split; [exact W|].
  split; [apply StepsExact.step_back; lia|].
  split; [apply StepsExact.step_forward; assumption|].
  split.
  { unfold sliderMax. rewrite StepsExact.last_index by lia.
    apply Steps.max2_zero_numberOfNat. lia. }
  unfold handleWheelStack. cbv zeta. rewrite W.
  set (k' := if (0 <? deltaY)%float then Nat.min (n - 1) (k + 1) else (k - 1)%nat).
  assert (K : (Z.of_nat k' < 2 ^ 53)%Z) by (unfold k'; destruct (0 <? deltaY)%float; lia).
  destruct (numberOfNat k' =? numberOfNat k)%float eqn:E.
  - apply StepsExact.numberOfNat_eqb in E; [|lia|lia].
    split; [intros _|reflexivity]. unfold k' in E.
    destruct (0 <? deltaY)%float; lia.
  - split; [discriminate|]. intros H. exfalso.
    assert (k' = k) by (unfold k'; destruct (0 <? deltaY)%float; lia).
    rewrite H0, NumberOrder.eqb_refl in E by apply Stack.numberOfNat_not_nan.
    discriminate.
Qed.

(** ** The window of the displayed image *)

Section Window.
Import NumberOrder.
Local Open Scope float_scope.

Lemma positive_truthy x : (0 <? x) = true -> Js.truthy x = true.
Proof.
  intros H. unfold Js.truthy.
  assert (E1 : (x =? x) = true) by (revert H; by_cases2 0 x).
  assert (E2 : (x =? 0) = false) by (revert H; by_cases2 0 x).
  rewrite E1, E2. reflexivity.
Qed.

Lemma effectiveWindow_truthy provided imageValue voiValue fallback :
  Js.truthy fallback = true ->
  Js.truthy (effectiveWindow provided imageValue voiValue fallback) = true.
Proof.
  intros H. unfold effectiveWindow. destruct (0 <? provided) eqn:E.
  - apply positive_truthy, E.
  - apply orNum_truthy, H.
Qed.

Lemma effectiveWindow_own x voiValue fallback :
  effectiveWindow x x voiValue fallback
  = if Js.truthy x then x else Js.orNum voiValue fallback.
Proof.
  unfold effectiveWindow. destruct (0 <? x) eqn:E.
  - rewrite (positive_truthy x E). reflexivity.
  - destruct (Js.truthy x) eqn:T; [|reflexivity]. cbn [Js.orNum]. rewrite T.
    reflexivity.
Qed.
End Window.

(** X18.  The window a viewport displays an image with is never 0 and never
    NaN.  A center or a width handed down that is not positive (zero, as
    after the reset of the window controls, negative or NaN) is not used:
    the image's own value takes its place, then the viewport's, then 2048 or
    4095; and when the center or the width was replaced, the center and the
    width used are handed back through [onWindowLevelChange].  When both are
    positive they are used as they are and nothing is handed back.  The
    window is written to the viewport exactly when both values used are
    finite.  An image's own window, handed down, is used whenever it is not
    0. *)
Theorem X18_window_of_image (windowCenter' windowWidth' : number)
  (image : DicomImage) (voi : option number * option number) :
  let effectiveCenter :=
    effectiveWindow windowCenter' (windowCenter image) (fst voi) 2048 in
  let effectiveWidth :=
    effectiveWindow windowWidth' (windowWidth image) (snd voi) 4095 in
  Js.truthy effectiveCenter = true /\ Js.truthy effectiveWidth = true
  /\ ((0 <? windowCenter')%float = true -> effectiveCenter = windowCenter')
  /\ ((0 <? windowWidth')%float = true -> effectiveWidth = windowWidth')
  /\ ((0 <? windowCenter')%float = false ->
      effectiveCenter
      = Js.orNum (if Js.truthy (windowCenter image) then Some (windowCenter image)
                  else fst voi) 2048
      /\ snd (windowOf windowCenter' windowWidth' image voi)
         = Some (effectiveCenter, effectiveWidth))
  /\ ((0 <? windowWidth')%float = false ->
      effectiveWidth
      = Js.orNum (if Js.truthy (windowWidth image) then Some (windowWidth image)
                  else snd voi) 4095
      /\ snd (windowOf windowCenter' windowWidth' image voi)
         = Some (effectiveCenter, effectiveWidth))
  /\ ((0 <? windowCenter')%float = true -> (0 <? windowWidth')%float = true ->
      windowOf windowCenter' windowWidth' image voi
      = (if is_finite windowCenter' && is_finite windowWidth'
         then Some (windowCenter', windowWidth') else None, None))
  /\ (forall written, fst (windowOf windowCenter' windowWidth' image voi) = Some written ->
        written = (effectiveCenter, effectiveWidth)
        /\ is_finite (fst written) = true /\ is_finite (snd written) = true)
  /\ (is_finite effectiveCenter = true -> is_finite effectiveWidth = true ->
      fst (windowOf windowCenter' windowWidth' image voi)
      = Some (effectiveCenter, effectiveWidth))
  /\ effectiveWindow (windowCenter image) (windowCenter image) (fst voi) 2048
     = (if Js.truthy (windowCenter image) then windowCenter image
        else Js.orNum (fst voi) 2048)
  /\ effectiveWindow (windowWidth image) (windowWidth image) (snd voi) 4095
     = (if Js.truthy (windowWidth image) then windowWidth image
        else Js.orNum (snd voi) 4095).
Proof.
  cbv zeta.
  split; [apply effectiveWindow_truthy; reflexivity|].
  split; [apply effectiveWindow_truthy; reflexivity|].
  split; [intros H; unfold effectiveWindow; rewrite H; reflexivity|].
  split; [intros H; unfold effectiveWindow; rewrite H; reflexivity|].
  split.
  { intros H. unfold windowOf, effectiveWindow. cbv zeta. rewrite H.
    split; reflexivity. }
  split.
  { intros H. unfold windowOf, effectiveWindow. cbv zeta. rewrite H.
    split; [reflexivity|]. cbn [snd negb]. rewrite orb_true_r. reflexivity. }
  split.
  { intros H1 H2. unfold windowOf, effectiveWindow. cbv zeta. rewrite H1, H2.
    reflexivity. }
  split.
  { intros written. unfold windowOf. cbv zeta. cbn [fst].
    destruct (is_finite _ && is_finite _) eqn:E; [|discriminate].
    intros [= <-]. apply andb_true_iff in E. cbn [fst snd]. tauto. }
  split.
  { intros F1 F2. unfold windowOf. cbv zeta. cbn [fst]. rewrite F1, F2. reflexivity. }
  split; apply effectiveWindow_own.
Qed.

(** ** The series the viewer shows *)

Section Shown.
Variable dicomParser : DicomParserApi.

Lemma hd_fold_identifiers ds : forall acc,
  hd_error
    (fold_left (fun acc d =>
                  match snd d with
                  | Some seriesUID =>
                      if existsb (String.eqb seriesUID) acc then acc
                      else acc ++ [seriesUID]
                  | None => acc
                  end) ds acc)
  = match acc with
    | [] => firstIdentifier ds
    | x :: _ => Some x
    end.
Proof.
  induction ds as [|d ds IH]; intros acc; cbn [fold_left].
  - destruct acc; reflexivity.
  - rewrite IH. unfold firstIdentifier. cbn [flat_map].
    destruct (snd d) as [u|].
    + destruct acc as [|x acc]; [reflexivity|].
      destruct (existsb _ _); reflexivity.
    + destruct acc; reflexivity.
Qed.

Lemma assembled_first files :
  option_map seriesInstanceUID (hd_error (assembled dicomParser files))
  = firstIdentifier (decoded dicomParser (fileEntriesOf files)).
Proof.
  pose proof (assembled_keys dicomParser files) as K.
  unfold seriesIdentifiers in K. rewrite <- (hd_fold_identifiers _ []), <- K.
  destruct (assembled dicomParser files); reflexivity.
Qed.
End Shown.

(** X19.  The viewer shows one series: the first of the list it is given,
    which after a successful run is the series of the first decoded image
    that carries a series identifier; once it shows a series, a new list
    does not change it. *)
Theorem X19_series_shown (dicomParser : DicomParserApi) (files : ZipFiles)
  (w : World) :
  error (hook (parseZipFile dicomParser (Normal files) w)) = None ->
  let series' := series (hook (parseZipFile dicomParser (Normal files) w)) in
  (exists s, selectSeries series' None = Some s
     /\ hd_error series' = Some s
     /\ firstIdentifier (decoded dicomParser (fileEntriesOf files))
        = Some (seriesInstanceUID s))
  /\ (forall s others, selectSeries others (Some s) = Some s).
Proof.
  intros H. cbv zeta. split; [|reflexivity].
  rewrite (series_of_run dicomParser files w H).
  pose proof (assembled_first dicomParser files) as F.
  destruct (run_series_nonempty dicomParser files w H) as (s & rest & E).
  rewrite E in *. exists s. cbn in *. repeat split; congruence.
Qed.

(** ** Orientations without a normal *)

Module Degenerate.
Import FloatFacts NumberOrder Stack.
Local Open Scope float_scope.

Lemma ltb_nan_r x : (x <? nan) = false.
Proof.
  rewrite ltb_spec. change (Prim2SF nan) with S754_nan.
  destruct (Prim2SF x) as [[]|[]| |[] ? ?]; reflexivity.
Qed.

Lemma mul_comm x y : x * y = y * x.
Proof.
  apply Prim2SF_inj. rewrite !mul_spec. unfold SF64mul, SFmul.
  destruct (Prim2SF x) as [sx|sx| |sx mx ex], (Prim2SF y) as [sy|sy| |sy my ey];
    rewrite ?(xorb_comm sx sy); try reflexivity.
  rewrite (Pos.mul_comm mx my), (Z.add_comm ex ey). reflexivity.
Qed.

(** A number minus itself is [+0], or NaN when the number is not finite. *)
Lemma sub_diag x : x - x = 0 \/ x - x = nan.
Proof.
  destruct (Prim2SF x) as [sx|sx| |sx mx ex] eqn:E.
  - left. apply Prim2SF_inj. rewrite sub_spec, E. destruct sx; reflexivity.
  - right. apply Prim2SF_inj. rewrite sub_spec, E. destruct sx; reflexivity.
  - right. apply Prim2SF_inj. rewrite sub_spec, E. reflexivity.
  - left. apply Prim2SF_inj. rewrite sub_spec, E. unfold SF64sub, SFsub.
    rewrite Z.sub_diag. reflexivity.
Qed.

(** With a normal whose magnitude is not positive the plane is axial. *)
Lemma no_magnitude iop :
  (0 <? magnitudeOf (normalOf iop)) = false -> classifyPlane iop = axial.
Proof.
  intros H. unfold classifyPlane, normalizedOf. cbv zeta. rewrite H. reflexivity.
Qed.

Lemma magnitude_nan n0 n1 n2 :
  n0 = nan \/ n1 = nan \/ n2 = nan -> magnitudeOf [n0; n1; n2] = nan.
Proof.
  intros H. unfold magnitudeOf. cbn [Js.at_ nth].
  assert (S : n0 * n0 + n1 * n1 + n2 * n2 = nan).
  { destruct H as [-> | [-> | ->]];
      rewrite ?mul_nan_l, ?add_nan_l, ?add_nan_r, ?add_nan_l; reflexivity. }
  rewrite S. reflexivity.
Qed.

Lemma normalOf_eq iop :
  normalOf iop
  = [ Js.at_ iop 1 * Js.at_ iop 5 - Js.at_ iop 2 * Js.at_ iop 4;
      Js.at_ iop 2 * Js.at_ iop 3 - Js.at_ iop 0 * Js.at_ iop 5;
      Js.at_ iop 0 * Js.at_ iop 4 - Js.at_ iop 1 * Js.at_ iop 3 ].
Proof. reflexivity. Qed.

Lemma magnitude_normal_nan iop i :
  (i < 6)%nat -> is_nan (Js.at_ iop i) = true ->
  magnitudeOf (normalOf iop) = nan.
Proof.
  intros Hi H. apply nan_unique in H. rewrite normalOf_eq.
  apply magnitude_nan.
  destruct i as [|[|[|[|[|[|i]]]]]]; try lia; rewrite H;
    rewrite ?mul_nan_l, ?mul_nan_r, ?sub_nan_l, ?sub_nan_r; auto.
Qed.

Lemma short_at (iop : list number) : (List.length iop < 6)%nat -> Js.at_ iop 5 = nan.
Proof. intros H. unfold Js.at_. apply nth_overflow. lia. Qed.
End Degenerate.

(** X20.  An orientation that gives no normal is classified axial: one with a
    NaN among its first six components, one with fewer than six components
    (a missing component reads as NaN), one whose normal has a magnitude
    that is not positive, and one whose row and column vectors are the same,
    whatever their components. *)
Theorem X20_degenerate_orientation_axial :
  (forall iop i, (i < 6)%nat -> is_nan (Js.at_ iop i) = true ->
                 classifyPlane iop = axial)
  /\ (forall iop, (List.length iop < 6)%nat -> classifyPlane iop = axial)
  /\ (forall iop, (0 <? magnitudeOf (normalOf iop))%float = false ->
                  classifyPlane iop = axial)
  /\ (forall a b c : number, classifyPlane [a; b; c; a; b; c] = axial).
Proof.
  assert (N : forall iop i, (i < 6)%nat -> is_nan (Js.at_ iop i) = true ->
                            classifyPlane iop = axial).
  { intros iop i Hi H. apply Degenerate.no_magnitude.
    rewrite (Degenerate.magnitude_normal_nan iop i Hi H).
    apply Degenerate.ltb_nan_r. }
  split; [exact N|].
  split.
  { intros iop H. apply (N iop 5); [lia|].
    rewrite (Degenerate.short_at iop H). reflexivity. }
  split; [exact Degenerate.no_magnitude|].
  intros a b c. apply Degenerate.no_magnitude.
  unfold normalOf. cbv zeta. cbn [Js.at_ nth].
  rewrite (Degenerate.mul_comm c b), (Degenerate.mul_comm a c),
          (Degenerate.mul_comm b a).
  destruct (Degenerate.sub_diag (b * c)%float) as [-> | ->];
  destruct (Degenerate.sub_diag (c * a)%float) as [-> | ->];
  destruct (Degenerate.sub_diag (a * b)%float) as [-> | ->];
    reflexivity.
Qed.

(** ** The properties at work on the sample archive *)

Lemma X4_witness :
  Forall (fun s =>
    Forall (fun img =>
      exists name arrayBuffer,
        imageId img = ("dicom:" ++ name)%string
        /\ lastStored sliceParser name (fileEntriesOf sliceArchive) = Some arrayBuffer
        /\ loadDicomImage bytesCornerstone (imageId img)
             (dicomDataCache (parseZipFile sliceParser (Normal sliceArchive) freshWorld))
           = loadWadoUri bytesCornerstone arrayBuffer)
      (shownImages s))
    (series (hook (parseZipFile sliceParser (Normal sliceArchive) freshWorld))).
Proof.
  apply (X4_run_images_load bytesCornerstone sliceParser sliceArchive freshWorld).
  vm_compute. reflexivity.
Defined.

Lemma X10_witness :
  imageId zeroSpacingImage = ("dicom:" ++ "f")%string
  /\ List.length (imagePositionPatient zeroSpacingImage) = 3
  /\ List.length (imageOrientationPatient zeroSpacingImage) = 6
  /\ List.length (pixelSpacing zeroSpacingImage) = 2
  /\ Forall (fun x => is_nan x = false)
       (imagePositionPatient zeroSpacingImage
        ++ imageOrientationPatient zeroSpacingImage ++ pixelSpacing zeroSpacingImage)
  /\ Forall (fun x => Js.truthy x = true) (pixelSpacing zeroSpacingImage)
  /\ Js.truthy (rescaleSlope zeroSpacingImage) = true
  /\ is_nan (sliceLocation zeroSpacingImage) = false
  /\ is_nan (windowCenter zeroSpacingImage) = false
  /\ is_nan (windowWidth zeroSpacingImage) = false
  /\ is_nan (rescaleIntercept zeroSpacingImage) = false
  /\ bitsAllocated zeroSpacingImage <> 0%Z
  /\ samplesPerPixel zeroSpacingImage <> 0%Z
  /\ photometricInterpretation zeroSpacingImage <> EmptyString.
Proof.
  apply (X10_decoded_image_wellformed zeroSpacingParser [] "f" zeroSpacingImage).
  vm_compute. reflexivity.
Defined.

Lemma X14_witness :
  Forall (fun s =>
    forall viewType,
      let stack := match viewType with
                   | axial => axialImages s
                   | coronal => coronalImages s
                   | sagittal => sagittalImages s
                   end in
      let state := stateOf viewType (startStates s) in
      ViewportState.currentSlice state = 0%float
      /\ ViewportState.totalSlices state = numberOfNat (List.length stack)
      /\ (1 <= List.length stack)%nat
      /\ exists img,
           imageAt stack 0 = Some img
           /\ (ViewportState.windowCenter state =? windowCenter img)%float = true
           /\ (ViewportState.windowWidth state =? windowWidth img)%float = true)
    (series (hook (parseZipFile sliceParser (Normal sliceArchive) freshWorld))).
Proof.
  apply (X14_views_start_nonempty sliceParser sliceArchive freshWorld).
  vm_compute. reflexivity.
Defined.

Lemma X16_witness :
  atMost 0 (wheelSlice 3 1 1)
  /\ atMost (wheelSlice 3 1 1) (sliderMax 3)
  /\ atMost 0 (prevSlice 1)
  /\ atMost (nextSlice 3 1) (numberOfNat 3 - 1)%float
  /\ handleWheelStack false 3 1 1 = None
  /\ (forall slice,
        handleWheelStack true 3 1 1 = Some slice ->
        slice = wheelSlice 3 1 1
        /\ (slice =? 1)%float = false
        /\ atMost 0 slice /\ atMost slice (sliderMax 3)).
Proof.
  apply (X16_slice_steps_in_range 3 1%float 1%float). vm_compute. reflexivity.
Defined.

Lemma X17_witness :
  wheelSlice 3 (numberOfNat 1) 1
  = numberOfNat (if (0 <? 1)%float then Nat.min (3 - 1) (1 + 1) else 1 - 1)
  /\ prevSlice (numberOfNat 1) = numberOfNat (1 - 1)
  /\ nextSlice 3 (numberOfNat 1) = numberOfNat (Nat.min (3 - 1) (1 + 1))
  /\ sliderMax 3 = numberOfNat (3 - 1)
  /\ (handleWheelStack true 3 (numberOfNat 1) 1 = None
      <-> if (0 <? 1)%float then 1%nat = (3 - 1)%nat else 1%nat = 0%nat).
Proof.
  apply (X17_slice_steps_exact 3 1 1%float); [lia | vm_compute; reflexivity].
Defined.

Lemma X19_witness :
  let series' :=
    series (hook (parseZipFile sliceParser (Normal sliceArchive) freshWorld)) in
  (exists s, selectSeries series' None = Some s
     /\ hd_error series' = Some s
     /\ firstIdentifier (decoded sliceParser (fileEntriesOf sliceArchive))
        = Some (seriesInstanceUID s))
  /\ (forall s others, selectSeries others (Some s) = Some s).
Proof.
  apply (X19_series_shown sliceParser sliceArchive freshWorld).
  vm_compute. reflexivity.
Defined.

(** ** The slice a reference line picks *)

Module PickIndex.
Import FloatFacts Round RoundFacts Nearest NearestFacts NumberOrder Clamp.
Import Stack IntegerFacts Steps StepsExact Degenerate.

Section Integers.
Local Open Scope Z_scope.

Lemma integer_unsigned k : 0 <= k < 2 ^ 53 -> unsigned (integer k).
Proof.
  intros H. destruct (Z.eq_dec k 0) as [->|N]; [left; reflexivity|].
  destruct (integer_normal k ltac:(lia)) as (m & e & E & _). right. eauto.
Qed.

(** [Math.round] of a number between 0 and the integer [K] is an integer
    between 0 and [K]. *)
Lemma Math_round_below (x : number) (K : nat) :
  Z.of_nat K < 2 ^ 52 ->
  unsigned (Prim2SF x) ->
  SFleb (Prim2SF x) (integer (Z.of_nat K)) = true ->
  exists j, (j <= K)%nat /\ Math_round x = numberOfNat j.
Proof.
  intros HK [Z0|(m & e & E)] L.
  - exists 0%nat. split; [lia|]. unfold Math_round. rewrite Z0.
    apply Prim2SF_inj. rewrite Z0. reflexivity.
  - pose proof (Prim2SF_valid x) as V. rewrite E in V, L.
    destruct (Z.eq_dec (Z.of_nat K) 0) as [K0|NK].
    { rewrite K0 in L. discriminate L. }
    destruct (integer_normal (Z.of_nat K) ltac:(lia)) as (mk & ek & Ek & Dk & Rk & Vk).
    assert (Vi : valid_binary (integer (Z.of_nat K)) = true).
    { rewrite <- Prim2SF_numberOfNat by lia. apply Prim2SF_valid. }
    rewrite Ek in L, Vi.
    pose proof (SFleb_vle _ _ _ _ V Vi L) as H.
    pose proof (valid_finite _ _ _ V) as (He & Dm & Nm). rewrite emin_val in *.
    pose proof (digits2_pos_bound m) as [Lm Um].
    pose proof (pow2_pos (- ek) ltac:(lia)) as Pk.
    unfold Math_round. rewrite E.
    destruct (Z.leb_spec 0 e) as [P|N].
    + exfalso.
      pose proof (vle_at (Z.pos m) e (Z.pos mk) ek ek ltac:(lia) ltac:(lia) H) as H'.
      rewrite Z.sub_diag, Z.mul_1_r, Vk in H'.
      rewrite Nm in Lm by lia. change (53 - 1) with 52 in Lm.
      replace (e - ek) with (e + - ek) in H' by lia.
      rewrite Z.pow_add_r in H' by lia.
      pose proof (pow2_pos e P) as Pe.
      assert (Z.pos m * 2 ^ e <= Z.of_nat K) by nia.
      nia.
    + set (d := 2 ^ (- e)).
      assert (Pd : 0 < d) by (apply pow2_pos; lia).
      assert (Hm : Z.pos m <= Z.of_nat K * d).
      { remember (Z.min e ek) as e0 eqn:E0.
        assert (e0 <= e /\ e0 <= ek) as [H0 H0'] by lia. clear E0.
        pose proof (vle_at _ _ _ _ e0 H0 H0' H) as H'.
        rewrite Vk in H'.
        assert (T : Z.of_nat K * 2 ^ (- ek) * 2 ^ (ek - e0)
                    = Z.of_nat K * d * 2 ^ (e - e0)).
        { unfold d. rewrite <- !Z.mul_assoc, <- !Z.pow_add_r by lia.
          do 2 f_equal. lia. }
        rewrite T in H'.
        pose proof (pow2_pos (e - e0) ltac:(lia)). nia. }
      set (k := (2 * Z.pos m + d) / (2 * d)).
      assert (Hk : 0 <= k <= Z.of_nat K).
      { unfold k. split; [apply Z.div_pos; lia|].
        apply Z.lt_succ_r. apply Z.div_lt_upper_bound; lia. }
      exists (Z.to_nat k). split; [lia|].
      change (binary_normalize prec emax k 0 false) with (integer k).
      replace k with (Z.of_nat (Z.to_nat k)) at 1 by lia.
      rewrite <- Prim2SF_numberOfNat by lia.
      apply SF2Prim_Prim2SF.
Qed.

(** [Math.round] leaves the integers as they are. *)
Lemma Math_round_integer (K : nat) :
  Z.of_nat K < 2 ^ 53 -> Math_round (numberOfNat K) = numberOfNat K.
Proof.
  intros HK. unfold Math_round. rewrite Prim2SF_numberOfNat by assumption.
  destruct (Z.eq_dec (Z.of_nat K) 0) as [K0|NK]; [rewrite K0; reflexivity|].
  destruct (integer_normal (Z.of_nat K) ltac:(lia)) as (mk & ek & Ek & Dk & Rk & Vk).
  rewrite Ek. destruct (Z.leb_spec 0 ek) as [P|N]; [reflexivity|].
  pose proof (pow2_pos (- ek) ltac:(lia)) as Pk.
  replace ((2 * Z.pos mk + 2 ^ (- ek)) / (2 * 2 ^ (- ek))) with (Z.of_nat K).
  2:{ apply Z.div_unique with (2 ^ (- ek)); [lia|]. rewrite Vk. ring. }
  change (binary_normalize prec emax (Z.of_nat K) 0 false) with (integer (Z.of_nat K)).
  rewrite <- Prim2SF_numberOfNat by assumption.
  apply SF2Prim_Prim2SF.
Qed.
End Integers.

Local Open Scope float_scope.

Lemma Prim2SF_hundred : Prim2SF 100 = S754_finite false 7036874417766400 (-46).
Proof. reflexivity. Qed.

Lemma unsigned_not_nan x : unsigned (Prim2SF x) -> is_nan x = false.
Proof.
  intros [H|(m & e & H)]; rewrite is_nan_spec, H; reflexivity.
Qed.

(** The clamped percentage is [+0] or positive, and at most 100. *)
Lemma clampPercent_unsigned p :
  is_nan p = false ->
  unsigned (Prim2SF (clampPercent p)) /\ (clampPercent p <=? 100) = true.
Proof.
  intros Hp. destruct (clampPercent_range p Hp) as [_ U]. split; [|exact U].
  unfold atMost in U. revert U. unfold clampPercent.
  pose proof (min2_not_nan 100 p eq_refl Hp) as Hy.
  remember (min2 100 p) as y eqn:Ey. clear Ey.
  unfold max2. rewrite Hy. change (is_nan 0 || false)%bool with false.
  cbv beta iota. change (get_sign 0) with false.
  destruct (0 <? y) eqn:P.
  - intros U. rewrite ltb_spec in P. rewrite leb_spec, Prim2SF_hundred in U.
    change (Prim2SF 0) with (S754_zero false) in P.
    destruct (Prim2SF y) as [[]|[]| |[] m e]; try discriminate.
    right. eauto.
  - intros _. destruct (y <? 0); left; reflexivity.
Qed.

(** So is the fraction [clampPercent / 100], which is at most 1. *)
Lemma fraction_unsigned c :
  unsigned (Prim2SF c) -> (c <=? 100) = true ->
  unsigned (Prim2SF (c / 100)) /\ (c / 100 <=? 1) = true.
Proof.
  intros [Z0|(m & e & E)] U.
  - assert (Ec : Prim2SF (c / 100) = S754_zero false)
      by (rewrite div_spec, Z0, Prim2SF_hundred; reflexivity).
    split; [left; exact Ec|]. rewrite leb_spec, Ec. reflexivity.
  - pose proof (Prim2SF_valid c) as V. rewrite E in V.
    rewrite leb_spec, E, Prim2SF_hundred in U.
    pose proof (SFleb_vle m e 7036874417766400 (-46) V eq_refl U) as H.
    assert (L : SFleb (Prim2SF (c / 100)) (Prim2SF 1) = true).
    { rewrite div_spec, E, Prim2SF_hundred, Prim2SF_one.
      apply SFdiv_upper; [reflexivity | reflexivity |].
      remember (Z.min e (-98)) as e0 eqn:E0.
      assert (e0 <= e /\ e0 <= -98)%Z as [H0 H0'] by lia. clear E0.
      apply vle_of with e0; try lia.
      pose proof (vle_at (Z.pos m) e 7036874417766400 (-46) e0 H0 ltac:(lia) H) as H'.
      replace (-46 - e0)%Z with (52 + (-46 + -52 - e0))%Z in H' by lia.
      rewrite Z.pow_add_r in H' by lia. lia. }
    split; [|rewrite leb_spec; exact L].
    rewrite div_spec, E, Prim2SF_hundred in *.
    destruct (SFdiv_sign m e 7036874417766400 (-46) eq_refl) as [Hz|[Hf|Hi]];
      [left; exact Hz | right; exact Hf |].
    cbv zeta in Hi. unfold SF64div in L. rewrite Hi in L. discriminate L.
Qed.

(** The product with a slice count is not above the count. *)
Lemma scaled_unsigned r (K : nat) :
  (Z.of_nat K < 2 ^ 53)%Z ->
  unsigned (Prim2SF r) -> (r <=? 1) = true ->
  unsigned (Prim2SF (r * numberOfNat K))
  /\ SFleb (Prim2SF (r * numberOfNat K)) (integer (Z.of_nat K)) = true.
Proof.
  intros HK Hr U. rewrite mul_spec, Prim2SF_numberOfNat by assumption.
  destruct (Z.eq_dec (Z.of_nat K) 0) as [K0|NK].
  { rewrite K0. change (integer 0) with (S754_zero false).
    destruct Hr as [->|(m & e & ->)]; split; try (left; reflexivity); reflexivity. }
  destruct (integer_normal (Z.of_nat K) ltac:(lia)) as (mk & ek & Ek & Dk & Rk & Vk).
  assert (Vi : valid_binary (integer (Z.of_nat K)) = true).
  { rewrite <- Prim2SF_numberOfNat by lia. apply Prim2SF_valid. }
  rewrite Ek in *.
  destruct Hr as [Z0|(m & e & E)].
  { rewrite Z0. split; [left; reflexivity | reflexivity]. }
  pose proof (Prim2SF_valid r) as V. rewrite E in V.
  rewrite leb_spec, E, Prim2SF_one in U.
  pose proof (SFleb_vle m e (2 ^ 52) (-52) V eq_refl U) as H.
  rewrite E.
  assert (L : SFleb (SF64mul (S754_finite false m e) (S754_finite false mk ek))
                    (S754_finite false mk ek) = true).
  { apply SFmul_upper; [lia | exact Vi |].
    remember (Z.min e (-52)) as e0 eqn:E0.
    assert (e0 <= e /\ e0 <= -52)%Z as [H0 H0'] by lia. clear E0.
    pose proof (vle_at _ _ _ _ e0 H0 H0' H) as H'.
    change (Z.pos (2 ^ 52)) with (2 ^ 52)%Z in H'.
    replace (2 ^ 52 * 2 ^ (-52 - e0))%Z with (2 ^ (- e0))%Z in H'
      by (rewrite <- Z.pow_add_r by lia; f_equal; lia).
    pose proof (pow2_pos (e - e0) ltac:(lia)) as P1.
    assert (He : (e <= 0)%Z).
    { destruct (Z.le_gt_cases e 0) as [|G]; [assumption|exfalso].
      assert (2 ^ (- e0) < 2 ^ (e - e0))%Z by (apply Z.pow_lt_mono_r; lia). nia. }
    assert (Hm : (Z.pos m <= 2 ^ (- e))%Z).
    { replace (- e0)%Z with (- e + (e - e0))%Z in H' by lia.
      rewrite Z.pow_add_r in H' by lia. nia. }
    apply vle_of with (e + ek)%Z; try lia.
    rewrite Z.sub_diag, Z.mul_1_r.
    replace (ek - (e + ek))%Z with (- e)%Z by lia.
    pose proof (pow2_pos (- e) ltac:(lia)). nia. }
  split; [|exact L].
  destruct (SFmul_sign m e mk ek ltac:(lia)) as [Hz|[Hf|Hi]];
    [left; exact Hz | right; exact Hf |].
  cbv zeta in Hi. unfold SF64mul in L. rewrite Hi in L. discriminate L.
Qed.

Lemma last_slice n :
  (Z.of_nat n < 2 ^ 53)%Z -> max2 0 (numberOfNat n - 1) = numberOfNat (n - 1).
Proof. apply step_back. Qed.

(** The index lies in the stack. *)
Lemma pickIndex_range percent n :
  (Z.of_nat n < arrayLengthLimit)%Z -> is_nan percent = false ->
  exists j, (j <= n - 1)%nat /\ pickIndex percent (numberOfNat n) = numberOfNat j.
Proof.
  intros Hn Hp. unfold arrayLengthLimit in Hn.
  assert (Hn' : (Z.of_nat n < 2 ^ 53)%Z)
    by (apply Z.lt_trans with (2 ^ 32)%Z; [exact Hn | reflexivity]).
  assert (Hk : (Z.of_nat (n - 1) < 2 ^ 52)%Z)
    by (apply Z.le_lt_trans with (2 ^ 32)%Z; [lia | reflexivity]).
  assert (Hk' : (Z.of_nat (n - 1) < 2 ^ 53)%Z) by lia.
  unfold pickIndex. rewrite last_slice by assumption.
  destruct (clampPercent_unsigned percent Hp) as [Sc Uc].
  destruct (fraction_unsigned _ Sc Uc) as [Sr Ur].
  destruct (scaled_unsigned _ (n - 1) Hk' Sr Ur) as [Sp Up].
  apply Math_round_below; assumption.
Qed.

Lemma SFeqb_finite s m e s' m' e' :
  SFeqb (S754_finite s m e) (S754_finite s' m' e') = true ->
  S754_finite s m e = S754_finite s' m' e'.
Proof.
  unfold SFeqb, SFcompare.
  change (Pos.compare_cont Eq m m') with (Pos.compare m m').
  destruct s, s'; destruct (Z.compare_spec e e'); destruct (Pos.compare_spec m m');
    intros X; try discriminate X; subst; reflexivity.
Qed.

Lemma eqb_hundred x : (x =? 100) = true -> x = 100.
Proof.
  intros H. apply Prim2SF_inj. rewrite eqb_spec in H.
  remember (Prim2SF 100) as h eqn:Eh. rewrite Prim2SF_hundred in Eh.
  destruct (Prim2SF x) as [[]|[]| |s m e]; subst h; try discriminate H.
  apply SFeqb_finite, H.
Qed.

Lemma clampPercent_low p : (p <=? 0) = true -> clampPercent p = 0.
Proof.
  intros H. destruct (leb_not_nan _ _ H) as [Hp _].
  assert (L : (p <? 100) = true) by (apply leb_ltb_trans with 0; [exact H | reflexivity]).
  unfold clampPercent. rewrite (min2_of_ltb 100 p L).
  unfold max2. rewrite Hp. change (is_nan 0 || false)%bool with false.
  cbv beta iota. rewrite (leb_not_ltb _ _ H). change (get_sign 0) with false.
  destruct (p <? 0); reflexivity.
Qed.

Lemma clampPercent_high p : (100 <=? p) = true -> clampPercent p = 100.
Proof.
  intros H. destruct (leb_not_nan _ _ H) as [_ Hp].
  assert (E : min2 100 p = 100).
  { unfold min2. rewrite Hp. change (is_nan 100 || false)%bool with false.
    cbv beta iota. rewrite (leb_not_ltb _ _ H). change (get_sign 100) with false.
    destruct (100 <? p) eqn:L; [reflexivity|].
    apply eqb_hundred. apply leb_antisym; [|exact H].
    apply not_ltb_leb; assumption || reflexivity. }
  unfold clampPercent. rewrite E. reflexivity.
Qed.

Lemma mul_zero_numberOfNat K : (Z.of_nat K < 2 ^ 53)%Z -> 0 * numberOfNat K = 0.
Proof.
  intros HK. apply Prim2SF_inj. rewrite mul_spec, Prim2SF_numberOfNat by assumption.
  change (Prim2SF 0) with (S754_zero false).
  destruct (integer_unsigned (Z.of_nat K) ltac:(lia)) as [->|(m & e & ->)]; reflexivity.
Qed.

Lemma mul_one_numberOfNat K : (Z.of_nat K < 2 ^ 53)%Z -> 1 * numberOfNat K = numberOfNat K.
Proof.
  intros HK. apply Prim2SF_inj. rewrite mul_spec, Prim2SF_numberOfNat by assumption.
  rewrite Prim2SF_one.
  destruct (Z.eq_dec (Z.of_nat K) 0) as [K0|NK]; [rewrite K0; reflexivity|].
  destruct (integer_normal (Z.of_nat K) ltac:(lia)) as (mk & ek & Ek & Dk & Rk & Vk).
  rewrite Ek. unfold SF64mul.
  destruct (SFmul_round (2 ^ 52) (-52) mk ek eq_refl ltac:(lia)) as [_ ->].
  change (Z.pos (2 ^ 52)) with (2 ^ 52)%Z.
  rewrite Z.mul_comm. rewrite round_normal_scaled by lia.
  f_equal. lia.
Qed.

Lemma pickIndex_low percent n :
  (Z.of_nat n < arrayLengthLimit)%Z -> (percent <=? 0) = true ->
  pickIndex percent (numberOfNat n) = 0.
Proof.
  intros Hn H. unfold arrayLengthLimit in Hn.
  assert (Hn' : (Z.of_nat n < 2 ^ 53)%Z)
    by (apply Z.lt_trans with (2 ^ 32)%Z; [exact Hn | reflexivity]).
  unfold pickIndex. rewrite last_slice, clampPercent_low by assumption.
  change (0 / 100) with 0. rewrite mul_zero_numberOfNat by lia. reflexivity.
Qed.

Lemma pickIndex_high percent n :
  (Z.of_nat n < arrayLengthLimit)%Z -> (100 <=? percent) = true ->
  pickIndex percent (numberOfNat n) = numberOfNat (n - 1).
Proof.
  intros Hn H. unfold arrayLengthLimit in Hn.
  assert (Hn' : (Z.of_nat n < 2 ^ 53)%Z)
    by (apply Z.lt_trans with (2 ^ 32)%Z; [exact Hn | reflexivity]).
  unfold pickIndex. rewrite last_slice, clampPercent_high by assumption.
  change (100 / 100) with 1. rewrite mul_one_numberOfNat by lia.
  apply Math_round_integer. lia.
Qed.

Lemma pickIndex_nan percent total :
  is_nan percent = true -> pickIndex percent total = nan.
Proof.
  intros H. unfold pickIndex, clampPercent.
  rewrite (min2_nan 100 percent) by (rewrite H; apply orb_true_r).
  change (max2 0 nan) with nan. change (nan / 100) with nan.
  rewrite mul_nan_l. reflexivity.
Qed.

(** A pointer on the left edge of an overlay without width. *)
Lemma percentOf_no_extent x : percentOf x x 0 = nan.
Proof.
  unfold percentOf.
  destruct (sub_diag x) as [->| ->]; reflexivity.
Qed.
End PickIndex.

(** X21.  The slice index a reference line picks on a stack of [n] images,
    fewer than an array can hold: for every percentage that is not NaN it
    is an integer between 0 and [n - 1] (0 on an empty stack); it is 0 for
    a percentage of 0 or below and [n - 1] for one of 100 or above.  For NaN
    it is NaN, and NaN is what the overlay computes for a pointer on the
    left edge of an overlay without width. *)
Theorem X21_reference_line_index (n : nat) :
  (Z.of_nat n < arrayLengthLimit)%Z ->
  (forall percent, is_nan percent = false ->
     exists j, (j <= n - 1)%nat /\ pickIndex percent (numberOfNat n) = numberOfNat j)
  /\ (forall percent, (percent <=? 0)%float = true ->
        pickIndex percent (numberOfNat n) = 0%float)
  /\ (forall percent, (100 <=? percent)%float = true ->
        pickIndex percent (numberOfNat n) = numberOfNat (n - 1))
  /\ (forall percent total, is_nan percent = true -> pickIndex percent total = nan)
  /\ (forall x total, pickIndex (percentOf x x 0) total = nan).
Proof.
  intros Hn. split; [|split; [|split; [|split]]].
  - intros percent Hp. apply PickIndex.pickIndex_range; assumption.
  - intros percent Hp. apply PickIndex.pickIndex_low; assumption.
  - intros percent Hp. apply PickIndex.pickIndex_high; assumption.
  - intros percent total Hp. apply PickIndex.pickIndex_nan, Hp.
  - intros x total. rewrite PickIndex.percentOf_no_extent.
    apply PickIndex.pickIndex_nan. reflexivity.
Qed.

Section Drag.
Import NumberOrder Stack StepsExact.

Lemma total_or_zero n :
  (Z.of_nat n < 2 ^ 53)%Z -> Js.orNum (Some (numberOfNat n)) 0 = numberOfNat n.
Proof.
  intros Hn. unfold Js.orNum, Js.truthy.
  rewrite (eqb_refl _ (numberOfNat_not_nan n)). cbn [andb].
  destruct (numberOfNat n =? 0)%float eqn:E; [|reflexivity].
  cbn [negb]. rewrite (numberOfNat_eqb n 0 Hn ltac:(cbn; lia) E). reflexivity.
Qed.

Lemma ViewType_cases (v v' : ViewType) : v = v' \/ v <> v'.
Proof. destruct v, v'; auto; right; discriminate. Qed.

Lemma stateOf_same v state states : stateOf v (withState v state states) = state.
Proof. destruct v; reflexivity. Qed.

Lemma stateOf_other v v' state states :
  v <> v' -> stateOf v (withState v' state states) = stateOf v states.
Proof. destruct v, v'; intros N; try reflexivity; contradiction. Qed.

Lemma setSlice_pointsInto s percent vt prev :
  (forall v, Z.of_nat (List.length (stackOf v s)) < arrayLengthLimit)%Z ->
  is_nan percent = false ->
  consistent s prev -> consistent s (setSlice percent vt prev).
Proof.
  intros Hn Hp C v. unfold setSlice.
  destruct (ViewType_cases v vt) as [->|N];
    [rewrite stateOf_same | rewrite stateOf_other by exact N; apply C].
  destruct (C vt) as [T _]. split; [exact T|]. cbn [ViewportState.currentSlice].
  rewrite T, total_or_zero.
  - apply PickIndex.pickIndex_range; [apply Hn | exact Hp].
  - apply Z.lt_trans with arrayLengthLimit; [apply Hn | reflexivity].
Qed.

Lemma handleReferenceLineDrag_setSlice source axis percent prev :
  handleReferenceLineDrag source axis percent prev
  = setSlice percent (movedView source axis) prev.
Proof. destruct source, axis; reflexivity. Qed.

Lemma wheel_pointsInto stack state deltaY :
  (Z.of_nat (List.length stack) < arrayLengthLimit)%Z ->
  pointsInto stack state ->
  exists j, (j <= List.length stack - 1)%nat
    /\ wheelSlice (List.length stack) (ViewportState.currentSlice state) deltaY
       = numberOfNat j.
Proof.
  intros Hn [T (k & Hk & ->)].
  assert (Hn' : (Z.of_nat (List.length stack) < 2 ^ 53)%Z)
    by (apply Z.lt_trans with arrayLengthLimit; [exact Hn | reflexivity]).
  destruct (List.length stack) as [|n] eqn:En.
  - replace k with 0%nat by lia. exists 0%nat. split; [lia|].
    unfold wheelSlice, wheelDelta. destruct (0 <? deltaY)%float; reflexivity.
  - rewrite wheel_exact by (assumption || lia).
    eexists. split; [|reflexivity].
    destruct (0 <? deltaY)%float; lia.
Qed.
End Drag.

(** X22.  A drag of a reference line moves one view, never the view it is
    dragged in: the x line moves the sagittal view (the coronal one when
    dragged in the sagittal view), the y line the axial view (the coronal
    one when dragged in the axial view).  It sets that view's slice to the
    picked index of its own [totalSlices] and changes nothing else.  The
    states a series starts with point into the stacks of the series, and a
    drag with a percentage that is not NaN and a turn of the wheel keep it
    so: every view's slice stays an index of the stack it shows. *)
Theorem X22_reference_line_drag (s : DicomSeries) (source : ViewType)
  (axis : Axis) (percent : number) (prev : ViewportStates) :
  let next := handleReferenceLineDrag source axis percent prev in
  let moved := movedView source axis in
  moved <> source
  /\ (forall v, v <> moved -> stateOf v next = stateOf v prev)
  /\ ViewportState.currentSlice (stateOf moved next)
     = pickIndex percent
         (Js.orNum (Some (ViewportState.totalSlices (stateOf moved prev))) 0)
  /\ ViewportState.totalSlices (stateOf moved next)
     = ViewportState.totalSlices (stateOf moved prev)
  /\ ViewportState.windowCenter (stateOf moved next)
     = ViewportState.windowCenter (stateOf moved prev)
  /\ ViewportState.windowWidth (stateOf moved next)
     = ViewportState.windowWidth (stateOf moved prev)
  /\ consistent s (startStates s)
  /\ ((forall v, Z.of_nat (List.length (stackOf v s)) < arrayLengthLimit)%Z ->
      consistent s prev ->
      (is_nan percent = false -> consistent s next)
      /\ forall v deltaY,
           consistent s
             (handleSliceChange v
                (wheelSlice (List.length (stackOf v s))
                   (ViewportState.currentSlice (stateOf v prev)) deltaY)
                prev)).
Proof.
  cbv zeta. rewrite handleReferenceLineDrag_setSlice.
  split; [destruct source, axis; discriminate|].
  split.
  { intros v N. unfold setSlice. apply stateOf_other, N. }
  unfold setSlice at 1 2 3 4. rewrite !stateOf_same.
  do 4 (split; [reflexivity|]).
  split.
  { intros v. split; [destruct v; reflexivity|].
    exists 0%nat. split; [lia|]. destruct v; reflexivity. }
  intros Hn C. split.
  { intros Hp. apply setSlice_pointsInto; assumption. }
  intros v deltaY v'. unfold handleSliceChange.
  destruct (ViewType_cases v' v) as [->|N];
    [rewrite stateOf_same | rewrite stateOf_other by exact N; apply C].
  destruct (C v) as [T I]. split; [exact T|].
  cbn [ViewportState.currentSlice].
  apply wheel_pointsInto; [apply Hn | apply C].
Qed.

Lemma X21_witness :
  (forall percent, is_nan percent = false ->
     exists j, (j <= 3 - 1)%nat /\ pickIndex percent (numberOfNat 3) = numberOfNat j)
  /\ (forall percent, (percent <=? 0)%float = true ->
        pickIndex percent (numberOfNat 3) = 0%float)
  /\ (forall percent, (100 <=? percent)%float = true ->
        pickIndex percent (numberOfNat 3) = numberOfNat (3 - 1))
  /\ (forall percent total, is_nan percent = true -> pickIndex percent total = nan)
  /\ (forall x total, pickIndex (percentOf x x 0) total = nan).
Proof.
  apply (X21_reference_line_index 3). vm_compute. reflexivity.
Defined.
